(** * UnitTesting: result aggregation, suite registration, dependency
      resolution and the suite/test scheduler

    A shallow embedding of [UnitTesting.cpp] and [UnitTesting.h].  The
    repository holds two overlapping revisions of the same design:

    - revision one: every result class carries its own [m_TotalResult] and
      folds it inline; [TopoVisit] returns [bool];
    - revision two: the fold lives in the shared base [ResultObject];
      [TopoVisit] returns an [int] code and collects the suites of a cycle.

    Revision two is embedded in full.  Of revision one the file embeds the
    parts whose text differs and that the properties below are about: the
    result classes with their inline folds, [CheckDependencies],
    [RunSuites] and [TopoVisit] (module [Rev1]).  The text of
    [TestContext::AddResult], [Test::Run], [Suite::ExecFunction],
    [Suite::Run] and [Environment::RegisterSuite] is the same in both.

    Conventions of the embedding.
    - A [Suite*] is the index of the suite in [m_Suites], a [Test*] the pair
      of its suite's index and its position in [m_Tests].
    - Externally supplied code (test bodies, fixtures, the control callback,
      filters) runs on a world of an arbitrary type [W]; every function of
      the scheduler threads the world.
    - Every call of a control callback and every run of a fixture or a test
      body is recorded in a ghost log of [Event]s, returned next to the
      world; the log has no counterpart in the C++ state.
    - Undefined behaviour of the C++ (dereferencing [m_SuiteMap.end()],
      indexing a vector out of range) is a [Fault]; loops whose length the
      callback decides are bounded by fuel and report [OutOfFuel].
    - Wall-clock time ([SetTime], [GetMilliseconds]) is left out.

    The flag operators of [EnumClassFlags.h] are embedded in the module
    [EnumClassFlags]. *)

From Stdlib Require Import ZArith Lia.
From stdpp Require Import base option numbers strings gmap list.

Local Open Scope Z_scope.
Local Open Scope string_scope.
Local Open Scope list_scope.

(* ===================================================================== *)
(** ** Outcomes and control actions *)

(** [enum class Result]. *)
Inductive Result : Type := Success | Fail | Unknown.

(** [enum class ControlAction]. *)
Inductive ControlAction : Type := Procceed | Ignore | Abort | AbortCurrent | Repeat.

#[global] Instance Result_eq_dec : EqDecision Result.
Proof. solve_decision. Defined.

#[global] Instance ControlAction_eq_dec : EqDecision ControlAction.
Proof. solve_decision. Defined.

(** [ResultObject::ResultObject()]: a new aggregate is [Success]. *)
Definition ResultObject_new : Result := Success.

(** [ResultObject::AddResult] (revision two), on the field [m_TotalResult]. *)
Definition ResultObject_AddResult (m_TotalResult result : Result) : Result :=
  if bool_decide (m_TotalResult ≠ Fail) && bool_decide (result ≠ Success)
  then result
  else m_TotalResult.

(** The severity order of the data model: [Fail > Unknown > Success]. *)
Definition severity (r : Result) : nat :=
  match r with Success => 0%nat | Unknown => 1%nat | Fail => 2%nat end.

Definition max_result (a b : Result) : Result :=
  if (severity a <? severity b)%nat then b else a.

(** The most severe outcome of a sequence; [Success] for the empty one. *)
Definition max_severity (l : list Result) : Result :=
  foldr max_result Success l.

(* ===================================================================== *)
(** ** The result hierarchy *)

(** [struct Info]: name, file and line.  The three back pointers ([env],
    [suite], [test]) are not stored: the embedding addresses suites and
    tests by index. *)
Record Info : Type := mkInfo { m_Name : string; m_File : string; m_Line : Z }.

(** [Info::Info()]. *)
Definition Info_new : Info := mkInfo "" "" 0.

(** A [Test*]: the index of the owning suite and the position in [m_Tests]. *)
Definition TestPtr : Type := (nat * nat)%type.

(** [struct AssertResult : ResultObject]. *)
Record AssertResult : Type := mkAssertResult {
  ar_TotalResult : Result;
  message : string;
  info : Info
}.

(** [class TestResult : ResultObject]. *)
Record TestResult : Type := mkTestResult {
  m_Test : TestPtr;
  tr_Results : list AssertResult;
  tr_TotalResult : Result
}.

(** [class SuiteResult : ResultObject]. *)
Record SuiteResult : Type := mkSuiteResult {
  m_Suite : nat;
  sr_Results : list TestResult;
  sr_TotalResult : Result
}.

(** [class EnvironmentResult : ResultObject]. *)
Record EnvironmentResult : Type := mkEnvironmentResult {
  er_Results : list SuiteResult;
  er_TotalResult : Result
}.

(** [AssertResult::AssertResult(inf, res, msg)]: the base starts at
    [Success], then [ResultObject::AddResult(res)]. *)
Definition AssertResult_new (inf : Info) (res : Result) (msg : string) : AssertResult :=
  {| ar_TotalResult := ResultObject_AddResult ResultObject_new res;
     message := msg;
     info := inf |}.

(** [TestResult::TestResult(test)]. *)
Definition TestResult_new (test : TestPtr) : TestResult :=
  {| m_Test := test; tr_Results := []; tr_TotalResult := ResultObject_new |}.

(** [TestResult::AddResult]. *)
Definition TestResult_AddResult (result : AssertResult) (self : TestResult) : TestResult :=
  {| m_Test := m_Test self;
     tr_Results := tr_Results self ++ [result];
     tr_TotalResult := ResultObject_AddResult (tr_TotalResult self) (ar_TotalResult result) |}.

(** [SuiteResult::SuiteResult(suite)]. *)
Definition SuiteResult_new (suite : nat) : SuiteResult :=
  {| m_Suite := suite; sr_Results := []; sr_TotalResult := ResultObject_new |}.

(** [SuiteResult::AddResult]. *)
Definition SuiteResult_AddResult (result : TestResult) (self : SuiteResult) : SuiteResult :=
  {| m_Suite := m_Suite self;
     sr_Results := sr_Results self ++ [result];
     sr_TotalResult := ResultObject_AddResult (sr_TotalResult self) (tr_TotalResult result) |}.

(** [SuiteResult::SetTotalResult] (revision two): the forced overwrite. *)
Definition SuiteResult_SetTotalResult (result : Result) (self : SuiteResult) : SuiteResult :=
  {| m_Suite := m_Suite self;
     sr_Results := sr_Results self;
     sr_TotalResult := result |}.

(** [EnvironmentResult::EnvironmentResult(env)]. *)
Definition EnvironmentResult_new : EnvironmentResult :=
  {| er_Results := []; er_TotalResult := ResultObject_new |}.

(** [EnvironmentResult::AddResult] (revision two). *)
Definition EnvironmentResult_AddResult (result : SuiteResult) (self : EnvironmentResult)
  : EnvironmentResult :=
  {| er_Results := er_Results self ++ [result];
     er_TotalResult := ResultObject_AddResult (er_TotalResult self) (sr_TotalResult result) |}.

(** The three operations of the result classes that the text of
    [TestContext::AddResult], [Test::Run] and [Suite::Run] calls.  That text
    is the same in both revisions; the operations are not. *)
Record ResultOps : Type := mkResultOps {
  op_AssertResult_new : Info -> Result -> string -> AssertResult;
  op_TestResult_AddResult : AssertResult -> TestResult -> TestResult;
  op_SuiteResult_AddResult : TestResult -> SuiteResult -> SuiteResult
}.

(** Revision two. *)
Definition rev2 : ResultOps :=
  {| op_AssertResult_new := AssertResult_new;
     op_TestResult_AddResult := TestResult_AddResult;
     op_SuiteResult_AddResult := SuiteResult_AddResult |}.

(* ===================================================================== *)
(** ** The ghost log *)

(** Where [OnException] was asked: in [Suite::ExecFunction] or in
    [Test::Run]. *)
Inductive Site : Type := InFixture | InTestBody.

(** One entry per call of a control callback, with the value it answered,
    and one per run of a fixture or a test body. *)
Inductive Event : Type :=
| CallOnBegin
| CallOnSuiteBegin (suite : nat)
| CallOnTestBegin (test : TestPtr)
| CallOnAssert (a : AssertResult)
| CallOnTestEnd (r : TestResult) (again : bool)
| CallOnSuiteEnd (r : SuiteResult)
| CallOnEnd (r : EnvironmentResult)
| CallOnException (site : Site) (ctx : Info) (action : ControlAction)
| CallOnDependencyFail (running failed : nat) (action : ControlAction)
| CallOnUnknownDependency (from : nat) (name : string) (action : ControlAction)
| CallOnUnsolvableDependencies (unsolvable : list nat)
| RunFixture (ctx : Info)
| RunBody (test : TestPtr).

(** What stops the embedding short of a result. *)
Inductive FaultKind : Type :=
| DerefEnd      (* [dep->second] with [dep == m_SuiteMap.end()] *)
| OutOfRange    (* a vector indexed past its size *)
| OutOfFuel.    (* the bound of the embedding, not a state of the program *)

(** The number of runs of a test body that a log holds. *)
Definition is_RunBody (e : Event) : bool :=
  match e with RunBody _ => true | _ => false end.

Fixpoint count_RunBody (log : list Event) : nat :=
  match log with
  | [] => 0%nat
  | e :: rest => ((if is_RunBody e then 1 else 0) + count_RunBody rest)%nat
  end.

Definition begins_suite (e : Event) : bool :=
  match e with CallOnSuiteBegin _ => true | _ => false end.

(** An entry that shows externally supplied suite code or suite-level
    callbacks at work. *)
Definition runs_suite_code (e : Event) : bool :=
  match e with
  | CallOnBegin | CallOnSuiteBegin _ | CallOnTestBegin _ | CallOnAssert _
  | CallOnTestEnd _ _ | CallOnSuiteEnd _ | CallOnEnd _ | CallOnException _ _ _
  | CallOnDependencyFail _ _ _ | RunFixture _ | RunBody _ => true
  | CallOnUnknownDependency _ _ _ | CallOnUnsolvableDependencies _ => false
  end.

(* ===================================================================== *)
(** ** The engine over a world [W] *)

Section Engine.
Context {W : Type}.

(** *** The monad of the scheduler: world, ghost log, faults *)

Inductive Outcome (A : Type) : Type :=
| Done (a : A) (w : W) (log : list Event)
| Fault (k : FaultKind) (w : W) (log : list Event).
Arguments Done {A} a w log.
Arguments Fault {A} k w log.

Definition M (A : Type) : Type := W -> Outcome A.

Definition ret {A : Type} (a : A) : M A := fun w => Done a w [].

Definition fault {A : Type} (k : FaultKind) : M A := fun w => Fault k w [].

(** The outcome [o] with the entries [l] logged before it. *)
Definition prepend {A : Type} (l : list Event) (o : Outcome A) : Outcome A :=
  match o with
  | Done a w l' => Done a w (l ++ l')
  | Fault k w l' => Fault k w (l ++ l')
  end.

Definition bind {A B : Type} (m : M A) (f : A -> M B) : M B :=
  fun w =>
    match m w with
    | Done a w1 l1 => prepend l1 (f a w1)
    | Fault k w1 l1 => Fault k w1 l1
    end.

Definition log_of {A : Type} (o : Outcome A) : list Event :=
  match o with Done _ _ l => l | Fault _ _ l => l end.

(** A call of external code that answers a value; the entry records it. *)
Definition call {A : Type} (f : W -> A * W) (ev : A -> Event) : M A :=
  fun w => let '(a, w') := f w in Done a w' [ev a].

(** A call of external code that answers nothing. *)
Definition call_ (f : W -> W) (ev : Event) : M unit :=
  fun w => Done tt (f w) [ev].

(** A call that is not logged (the filters). *)
Definition quiet {A : Type} (f : W -> A * W) : M A :=
  fun w => let '(a, w') := f w in Done a w' [].

Notation "x <- m ; k" := (bind m (fun x => k))
  (at level 20, m at level 100, k at level 200, only parsing).
Notation "' p <- m ; k" := (bind m (fun x => let 'p := x in k))
  (at level 20, p pattern, m at level 100, k at level 200, only parsing).

(** *** Externally supplied code *)

(** A test body, as the scheduler sees it: it works on the world, records
    assertions through [ctx.AddResult] (after each of which it goes on in
    the world the callback's [OnAssert] left), and returns or throws. *)
Inductive Body : Type :=
| BodyReturns (w : W)
| BodyThrows (w : W)
| BodyAsserts (inf : Info) (result : bool) (msg : string) (w : W) (k : W -> Body).

(** [class Test]: the body [m_Func] and [m_Info]. *)
Record Test : Type := mkTest {
  m_Func : W -> Body;
  test_Info : Info
}.

(** [class SuiteFunction]: [m_Func] may be null; a fixture answers [true]
    when it throws. *)
Record SuiteFunction : Type := mkSuiteFunction {
  sf_Func : option (W -> bool * W);
  sf_Info : Info
}.

(** [SuiteFunction::SuiteFunction()]. *)
Definition SuiteFunction_new : SuiteFunction :=
  {| sf_Func := None; sf_Info := Info_new |}.

(** [class Suite]. *)
Record Suite : Type := mkSuite {
  m_Init : SuiteFunction;
  m_Enter : SuiteFunction;
  m_Leave : SuiteFunction;
  m_Exit : SuiteFunction;
  suite_Info : Info;
  m_Dependencies : list string;
  m_Tests : list Test;
  m_Tags : gset string
}.

(** [class ControlCallback], one field per virtual method.  [OnAssert]
    receives the assertion by non-const reference and hands it back. *)
Record ControlCallback : Type := mkControlCallback {
  OnBegin : W -> W;
  OnSuiteBegin : nat -> W -> W;
  OnTestBegin : TestPtr -> W -> W;
  OnAssert : AssertResult -> W -> AssertResult * W;
  OnTestEnd : TestResult -> W -> bool * W;
  OnSuiteEnd : SuiteResult -> W -> W;
  OnEnd : EnvironmentResult -> W -> W;
  OnException : Info -> W -> ControlAction * W;
  OnDependencyFail : nat -> nat -> SuiteResult -> W -> ControlAction * W;
  OnUnknownDependency : nat -> string -> W -> ControlAction * W;
  OnUnsolvableDependencies : list nat -> W -> ControlAction * W
}.

(** [class Filter]. *)
Record Filter : Type := mkFilter {
  IsOK : nat -> W -> bool * W;
  IsOK_Test : TestPtr -> W -> bool * W
}.

(** [class Environment]. *)
Record Environment : Type := mkEnvironment {
  m_SuiteMap : gmap string nat;
  m_Suites : list Suite;
  m_Callback : option ControlCallback;
  m_Filter : list Filter
}.

(** *** Tests and suites: the text shared by both revisions *)

Section Exec.
Variable ops : ResultOps.
Variable cb : ControlCallback.

(** [TestContext::AddResult]. *)
Definition TestContext_AddResult (m_Results : TestResult)
    (inf : Info) (result : bool) (msg : string) : M TestResult :=
  let assertResult :=
    op_AssertResult_new ops inf (if result then Success else Fail) msg in
  assertResult <- call (OnAssert cb assertResult) CallOnAssert ;
  ret (op_TestResult_AddResult ops assertResult m_Results).

(** The run of a body against [ctx]: [true] when it ends by throwing. *)
Fixpoint Body_run (b : Body) (m_Results : TestResult) : Outcome (bool * TestResult) :=
  match b with
  | BodyReturns w => Done (false, m_Results) w []
  | BodyThrows w => Done (true, m_Results) w []
  | BodyAsserts inf result msg w k =>
      match TestContext_AddResult m_Results inf result msg w with
      | Done m_Results' w' l => prepend l (Body_run (k w') m_Results')
      | Fault f w' l => Fault f w' l
      end
  end.

(** [Test::Run]. *)
Definition Test_Run (self : TestPtr) (t : Test) (result : TestResult)
  : M (bool * TestResult) :=
  '(threw, result) <- (fun w => prepend [RunBody self] (Body_run (m_Func t w) result)) ;
  if threw : bool then
    action <- call (OnException cb (test_Info t))
                   (CallOnException InTestBody (test_Info t)) ;
    if bool_decide (action = Abort) then ret (false, result)
    else if bool_decide (action = AbortCurrent) then ret (true, result)
    else if bool_decide (action = Procceed) then
      ret (true,
           op_TestResult_AddResult ops
             (op_AssertResult_new ops (test_Info t) Fail "Unknown Exception was thrown.")
             result)
    else ret (true, result)
  else ret (true, result).

(** [Suite::ExecFunction].  [None]: the function returned [true] and left
    [procceed] alone; [Some p]: it returned [false] after [procceed = p]. *)
Definition ExecFunction (func : SuiteFunction) : M (option bool) :=
  threw <- match sf_Func func with
           | None => ret false
           | Some f => call f (fun _ => RunFixture (sf_Info func))
           end ;
  if threw : bool then
    action <- call (OnException cb (sf_Info func))
                   (CallOnException InFixture (sf_Info func)) ;
    if bool_decide (action = Ignore) || bool_decide (action = Procceed) then ret None
    else if bool_decide (action = AbortCurrent) then ret (Some true)
    else ret (Some false)
  else ret None.

(** One pass through the body of the [do ... while]: [inl p] is
    [return p], [inr r] is the pass completed with the test result [r]. *)
Definition Suite_Run_attempt (s : Suite) (self : TestPtr) (t : Test)
  : M (bool + TestResult) :=
  let testResult := TestResult_new self in
  e <- ExecFunction (m_Enter s) ;
  match e with
  | Some procceed => ret (inl procceed)
  | None =>
      '(procceed, testResult) <- Test_Run self t testResult ;
      if negb procceed then ret (inl procceed)
      else
        l <- ExecFunction (m_Leave s) ;
        match l with
        | Some procceed => ret (inl procceed)
        | None => ret (inr testResult)
        end
  end.

(** The [do ... while (OnTestEnd(testResult))] of one test. *)
Fixpoint Suite_Run_attempts (fuel : nat) (s : Suite) (self : TestPtr) (t : Test)
  : M (bool + TestResult) :=
  match fuel with
  | O => fault OutOfFuel
  | S fuel' =>
      a <- Suite_Run_attempt s self t ;
      match a with
      | inl procceed => ret (inl procceed)
      | inr testResult =>
          again <- call (OnTestEnd cb testResult) (CallOnTestEnd testResult) ;
          if again : bool then Suite_Run_attempts fuel' s self t
          else ret (inr testResult)
      end
  end.

(** The [for] over [m_Tests], from position [j] on: [Some p] is
    [return p]. *)
Fixpoint Suite_Run_tests (fuel : nat) (s : Suite) (self : nat) (j : nat)
    (tests : list Test) (result : SuiteResult) : M (option bool * SuiteResult) :=
  match tests with
  | [] => ret (None, result)
  | t :: rest =>
      _ <- call_ (OnTestBegin cb (self, j)) (CallOnTestBegin (self, j)) ;
      a <- Suite_Run_attempts fuel s (self, j) t ;
      match a with
      | inl procceed => ret (Some procceed, result)
      | inr testResult =>
          Suite_Run_tests fuel s self (S j) rest
            (op_SuiteResult_AddResult ops testResult result)
      end
  end.

(** [Suite::Run]: the value returned and [result] as it leaves it. *)
Definition Suite_Run (fuel : nat) (self : nat) (s : Suite) (result : SuiteResult)
  : M (bool * SuiteResult) :=
  i <- ExecFunction (m_Init s) ;
  match i with
  | Some procceed => ret (procceed, result)
  | None =>
      '(early, result) <- Suite_Run_tests fuel s self 0 (m_Tests s) result ;
      match early with
      | Some procceed => ret (procceed, result)
      | None =>
          x <- ExecFunction (m_Exit s) ;
          match x with
          | Some procceed => ret (procceed, result)
          | None => ret (true, result)
          end
      end
  end.

End Exec.

(** *** The environment: registration *)

(** [Environment::Environment()]. *)
Definition Environment_new : Environment :=
  {| m_SuiteMap := ∅; m_Suites := []; m_Callback := None; m_Filter := [] |}.

(** [std::map::emplace]: the pair is inserted only if the key is absent. *)
Definition map_emplace (k : string) (v : nat) (m : gmap string nat) : gmap string nat :=
  match m !! k with
  | Some _ => m
  | None => <[k := v]> m
  end.

(** [std::map::operator[]]: an absent key is inserted with the value
    [size_t()], and the stored value is read. *)
Definition map_index (k : string) (m : gmap string nat) : nat * gmap string nat :=
  match m !! k with
  | Some v => (v, m)
  | None => (0%nat, <[k := 0%nat]> m)
  end.

(** [Environment::RegisterSuite] (the same text in both revisions). *)
Definition RegisterSuite (suite : Suite) (env : Environment) : Environment :=
  {| m_SuiteMap :=
       map_emplace (m_Name (suite_Info suite)) (length (m_Suites env)) (m_SuiteMap env);
     m_Suites := m_Suites env ++ [suite];
     m_Callback := m_Callback env;
     m_Filter := m_Filter env |}.

(** The environment after the suites of [l] were constructed in order. *)
Definition register_all (l : list Suite) (env : Environment) : Environment :=
  foldl (fun e s => RegisterSuite s e) env l.

(** [Environment::SetControl], [Environment::AddFilter]. *)
Definition SetControl (control : option ControlCallback) (env : Environment) : Environment :=
  {| m_SuiteMap := m_SuiteMap env; m_Suites := m_Suites env;
     m_Callback := control; m_Filter := m_Filter env |}.

Definition AddFilter (filter : Filter) (env : Environment) : Environment :=
  {| m_SuiteMap := m_SuiteMap env; m_Suites := m_Suites env;
     m_Callback := m_Callback env; m_Filter := m_Filter env ++ [filter] |}.

(** [Environment::AllowSuite], over the filters still to ask. *)
Fixpoint AllowSuite_loop (filters : list Filter) (s : nat) : M bool :=
  match filters with
  | [] => ret true
  | f :: rest =>
      ok <- quiet (IsOK f s) ;
      if ok : bool then AllowSuite_loop rest s else ret false
  end.

Definition AllowSuite (env : Environment) (s : nat) : M bool :=
  AllowSuite_loop (m_Filter env) s.

(** *** The dependency resolver (revision two) *)

(** The three vectors [TopoVisit] works on.  A mark is the pair
    [(first, second)]: [first] is "finished", [second] is "on the stack". *)
Record TopoState : Type := mkTopoState {
  ts_result : list nat;
  ts_mark : list (bool * bool);
  ts_unsolvable : list nat
}.

Section Resolver.
Variable cb : ControlCallback.
Variable env : Environment.

(** The [for] over the dependencies of [cur] in [TopoVisit], from the
    dependency at the head of [deps] on, and the three statements after
    it.  [visit] is the recursive call. *)
Fixpoint TopoVisit_deps (visit : nat -> TopoState -> M (Z * TopoState))
    (cur : nat) (deps : list string) (ts : TopoState) : M (Z * TopoState) :=
  match deps with
  | [] =>
      match ts_mark ts !! cur with
      | None => fault OutOfRange
      | Some _ =>
          ret (0, {| ts_result := ts_result ts ++ [cur];
                     ts_mark := <[cur := (true, false)]> (ts_mark ts);
                     ts_unsolvable := ts_unsolvable ts |})
      end
  | depName :: rest =>
      match ts_mark ts !! cur with
      | None => fault OutOfRange
      | Some (true, _) => TopoVisit_deps visit cur rest ts
      | Some (false, _) =>
          match m_SuiteMap env !! depName with
          | None =>
              action <- call (OnUnknownDependency cb cur depName)
                             (CallOnUnknownDependency cur depName) ;
              if bool_decide (action = Ignore)
              then fault DerefEnd  (* falls through to [dep->second] *)
              else ret (2, ts)
          | Some dep =>
              '(visitResult, ts) <- visit dep ts ;
              if bool_decide (visitResult ≠ 0) then
                if bool_decide (visitResult = 1) then
                  ret (visitResult,
                       {| ts_result := ts_result ts;
                          ts_mark := ts_mark ts;
                          ts_unsolvable := ts_unsolvable ts ++ [dep] |})
                else ret (visitResult, ts)
              else TopoVisit_deps visit cur rest ts
          end
      end
  end.

(** [Environment::TopoVisit]; [fuel] bounds the depth of the recursion. *)
Fixpoint TopoVisit (fuel : nat) (cur : nat) (ts : TopoState) : M (Z * TopoState) :=
  match fuel with
  | O => fault OutOfFuel
  | S fuel' =>
      match ts_mark ts !! cur with
      | None => fault OutOfRange
      | Some (first, second) =>
          if second : bool then ret (1, ts)
          else if first : bool then ret (0, ts)
          else
            match m_Suites env !! cur with
            | None => fault OutOfRange
            | Some s =>
                TopoVisit_deps (TopoVisit fuel') cur (m_Dependencies s)
                  {| ts_result := ts_result ts;
                     ts_mark := <[cur := (first, true)]> (ts_mark ts);
                     ts_unsolvable := ts_unsolvable ts |}
            end
      end
  end.

(** The [for] over the roots in [SolveDependencies], over the indices
    still to try: the value of [succeded] and the vectors when it ends. *)
Fixpoint SolveDependencies_roots (fuel : nat) (roots : list nat) (ts : TopoState)
  : M (bool * TopoState) :=
  match roots with
  | [] => ret (true, ts)
  | i :: rest =>
      match ts_mark ts !! i with
      | None => fault OutOfRange
      | Some (true, _) => SolveDependencies_roots fuel rest ts
      | Some (false, _) =>
          allowed <- AllowSuite env i ;
          if allowed : bool then
            '(code, ts) <- TopoVisit fuel i ts ;
            if bool_decide (code = 0)
            then SolveDependencies_roots fuel rest ts
            else ret (false, ts)
          else SolveDependencies_roots fuel rest ts
      end
  end.

(** [Environment::SolveDependencies]: the value returned and [result] as
    it leaves it. *)
Definition SolveDependencies (fuel : nat) (result : list nat) : M (bool * list nat) :=
  let n := length (m_Suites env) in
  '(succeded, ts) <-
     SolveDependencies_roots fuel (seq 0 n)
       {| ts_result := result;
          ts_mark := replicate n (false, false);
          ts_unsolvable := [] |} ;
  if succeded : bool then ret (true, ts_result ts)
  else
    match ts_unsolvable ts with
    | [] => ret (false, [])
    | _ :: _ =>
        _ <- call (OnUnsolvableDependencies cb (ts_unsolvable ts))
                  (fun _ : ControlAction => CallOnUnsolvableDependencies (ts_unsolvable ts)) ;
        ret (false, [])
    end.

End Resolver.

(** *** The scheduler (revision two) *)

(** What [RunSuites] carries from one suite to the next: [result], the
    local [resultConnector], and [m_SuiteMap], which [operator[]] may
    extend. *)
Record RunState : Type := mkRunState {
  rs_result : EnvironmentResult;
  rs_connector : list nat;
  rs_map : gmap string nat
}.

Section Scheduler.
Variable cb : ControlCallback.
Variable suites : list Suite.   (* [m_Suites], read only while running *)

(** The [for] of [Environment::CheckDependencies] over the dependencies
    still to check.  [None]: it returned [true]; [Some p]: it returned
    [false] after [Procceed = p]. *)
Fixpoint CheckDependencies_loop (s : nat) (deps : list string)
    (result : EnvironmentResult) (resultConnector : list nat)
    (map : gmap string nat) : M (option bool * gmap string nat) :=
  match deps with
  | [] => ret (None, map)
  | d :: rest =>
      let '(suiteID, map) := map_index d map in
      match resultConnector !! suiteID with
      | None => fault OutOfRange
      | Some resultID =>
          match er_Results result !! resultID with
          | None => fault OutOfRange
          | Some suiteRes =>
              if bool_decide (sr_TotalResult suiteRes ≠ Success) then
                action <- call (OnDependencyFail cb s (m_Suite suiteRes) suiteRes)
                               (CallOnDependencyFail s (m_Suite suiteRes)) ;
                if bool_decide (action = Ignore)
                then CheckDependencies_loop s rest result resultConnector map
                else if bool_decide (action = AbortCurrent)
                then ret (Some true, map)
                else ret (Some false, map)
              else CheckDependencies_loop s rest result resultConnector map
          end
      end
  end.

(** [Environment::CheckDependencies]. *)
Definition CheckDependencies (s : nat) (deps : list string)
    (result : EnvironmentResult) (resultConnector : list nat)
    (map : gmap string nat) : M (option bool * gmap string nat) :=
  CheckDependencies_loop s deps result resultConnector map.

(** The [if (CheckDependencies(...)) ... else ...] of [RunSuites] for the
    suite [it]: the value of [procceed] after it, [suiteResult], and the
    map as [CheckDependencies] left it. *)
Definition RunSuites_suite (fuel : nat) (it : nat) (s : Suite) (st : RunState)
  : M (bool * SuiteResult * gmap string nat) :=
  let suiteResult := SuiteResult_new it in
  '(check, map) <- CheckDependencies it (m_Dependencies s)
                     (rs_result st) (rs_connector st) (rs_map st) ;
  match check with
  | None =>
      '(ran, suiteResult) <- Suite_Run rev2 cb fuel it s suiteResult ;
      ret (if ran : bool then true else false, suiteResult, map)
  | Some procceed =>
      ret (procceed, SuiteResult_SetTotalResult Unknown suiteResult, map)
  end.

(** One pass through the body of the [for] in [RunSuites], for the suite
    [it]: the value of [procceed] at its end, and the state. *)
Definition RunSuites_iter (fuel : nat) (it : nat) (st : RunState) : M (bool * RunState) :=
  match suites !! it with
  | None => fault OutOfRange
  | Some s =>
      _ <- call_ (OnSuiteBegin cb it) (CallOnSuiteBegin it) ;
      '(procceed, suiteResult, map) <- RunSuites_suite fuel it s st ;
      _ <- call_ (OnSuiteEnd cb suiteResult) (CallOnSuiteEnd suiteResult) ;
      let '(suiteID, map) := map_index (m_Name (suite_Info s)) map in
      let resultID := length (er_Results (rs_result st)) in
      if bool_decide (suiteID < length (rs_connector st))%nat then
        ret (procceed,
             {| rs_result := EnvironmentResult_AddResult suiteResult (rs_result st);
                rs_connector := <[suiteID := resultID]> (rs_connector st);
                rs_map := map |})
      else fault OutOfRange
  end.

(** The [for] of [RunSuites] over the suites still to run. *)
Fixpoint RunSuites_loop (fuel : nat) (todo : list nat) (st : RunState)
  : M (bool * RunState) :=
  match todo with
  | [] => ret (true, st)
  | it :: rest =>
      '(procceed, st) <- RunSuites_iter fuel it st ;
      if procceed : bool then RunSuites_loop fuel rest st
      else ret (false, st)
  end.

End Scheduler.

(** [Environment::RunSuites]. *)
Definition RunSuites (cb : ControlCallback) (env : Environment) (fuel : nat)
    (suites : list nat) (result : EnvironmentResult) : M (bool * RunState) :=
  RunSuites_loop cb (m_Suites env) fuel suites
    {| rs_result := result;
       rs_connector := replicate (length (m_Suites env)) 0%nat;
       rs_map := m_SuiteMap env |}.

(** *** The fallback reporter and [Run] *)

Section Console.
Variable cout : string -> W -> W.   (* [std::cout << s] *)
Variable suites : list Suite.       (* to read the names behind the pointers *)

Definition endl : string := String (Ascii.ascii_of_nat 10%nat) EmptyString.
Definition dquote : string := String (Ascii.ascii_of_nat 34%nat) EmptyString.

Definition suite_name (s : nat) : string :=
  match suites !! s with
  | Some x => m_Name (suite_Info x)
  | None => ""
  end.

Definition test_name (t : TestPtr) : string :=
  match suites !! t.1 with
  | Some x =>
      match m_Tests x !! t.2 with
      | Some y => m_Name (test_Info y)
      | None => ""
      end
  | None => ""
  end.

Definition outcome_text (r : Result) : string :=
  match r with Success => "Succeeded" | Fail => "Failed" | Unknown => "" end.

(** [class ConsoleCallback] (revision two). *)
Definition ConsoleCallback : ControlCallback :=
  {| OnBegin := fun w => w;
     OnSuiteBegin := fun s w =>
       cout endl (cout (dquote ++ ":") (cout (suite_name s)
         (cout ("Run Testsuite " ++ dquote) w)));
     OnTestBegin := fun t w => cout " --> " (cout (test_name t) (cout "   " w));
     OnAssert := fun a w => (a, w);
     OnTestEnd := fun t w =>
       let w := cout endl (cout (outcome_text (tr_TotalResult t)) w) in
       (false,
        if bool_decide (tr_TotalResult t = Fail) then
          foldl (fun w a =>
                   cout endl (cout (outcome_text (ar_TotalResult a))
                     (cout (dquote ++ " --> ") (cout (message a)
                       (cout ("     " ++ dquote) w)))))
                w (tr_Results t)
        else w);
     OnSuiteEnd := fun _ w => cout endl w;
     OnEnd := fun _ w => w;
     OnException := fun _ w =>
       (AbortCurrent, cout endl (cout "Unknown exception was thrown." w));
     OnDependencyFail := fun running failed _ w =>
       (AbortCurrent,
        cout endl (cout (dquote ++ " failed.") (cout (suite_name running)
          (cout (dquote ++ " needed by " ++ dquote) (cout (suite_name failed)
            (cout ("Dependency " ++ dquote) w))))));
     OnUnknownDependency := fun _ dep w =>
       (AbortCurrent,
        cout endl (cout (dquote ++ ".") (cout dep
          (cout ("Missing dependency " ++ dquote) w))));
     OnUnsolvableDependencies := fun unsolvable w =>
       (Abort,
        foldl (fun w s => cout endl (cout (suite_name s) (cout "   " w)))
              (cout endl (cout "Can not solve dependencies, circle by:" w))
              unsolvable) |}.

End Console.

(** [Environment::Run].  The function is [void]; the embedding returns the
    local [result] and the environment as [RunSuites] left it (the fallback
    callback is not stored: it is removed again before [Run] returns). *)
Definition Run (cout : string -> W -> W) (fuel : nat) (env : Environment)
  : M (EnvironmentResult * Environment) :=
  let control :=
    match m_Callback env with
    | Some c => c
    | None => ConsoleCallback cout (m_Suites env)
    end in
  let result := EnvironmentResult_new in
  '(solved, performSuites) <- SolveDependencies control env fuel [] ;
  if solved : bool then
    _ <- call_ (OnBegin control) CallOnBegin ;
    '(_, st) <- RunSuites control env fuel performSuites result ;
    _ <- call_ (OnEnd control (rs_result st)) (CallOnEnd (rs_result st)) ;
    ret (rs_result st,
         {| m_SuiteMap := rs_map st; m_Suites := m_Suites env;
            m_Callback := m_Callback env; m_Filter := m_Filter env |})
  else ret (result, env).

End Engine.

Arguments Done {W A} a w log.
Arguments Fault {W A} k w log.

(* ===================================================================== *)
(** ** Construction of suites and tests, and lookups in the results

    The text of this part is the same in both revisions. *)

Section Construction.
Context {W : Type}.

(** [Suite::Suite(env, info)] before it registers the suite: the four
    fixtures are default-constructed, the vectors and the tag set empty. *)
Definition Suite_new (info : Info) : @Suite W :=
  {| m_Init := SuiteFunction_new; m_Enter := SuiteFunction_new;
     m_Leave := SuiteFunction_new; m_Exit := SuiteFunction_new;
     suite_Info := info;
     m_Dependencies := []; m_Tests := []; m_Tags := ∅ |}.

(** [Suite::RegisterTest]. *)
Definition Suite_RegisterTest (t : @Test W) (self : @Suite W) : @Suite W :=
  {| m_Init := m_Init self; m_Enter := m_Enter self; m_Leave := m_Leave self;
     m_Exit := m_Exit self; suite_Info := suite_Info self;
     m_Dependencies := m_Dependencies self;
     m_Tests := m_Tests self ++ [t];
     m_Tags := m_Tags self |}.

(** [Suite::RegisterDependency]. *)
Definition Suite_RegisterDependency (name : string) (self : @Suite W) : @Suite W :=
  {| m_Init := m_Init self; m_Enter := m_Enter self; m_Leave := m_Leave self;
     m_Exit := m_Exit self; suite_Info := suite_Info self;
     m_Dependencies := m_Dependencies self ++ [name];
     m_Tests := m_Tests self;
     m_Tags := m_Tags self |}.

(** [SuiteFunction::SuiteFunction(f, info)]. *)
Definition SuiteFunction_make (f : option (W -> bool * W)) (info : Info) : @SuiteFunction W :=
  {| sf_Func := f; sf_Info := info |}.

(** [Suite::RegisterInit], [RegisterExit], [RegisterFixtureEnter],
    [RegisterFixtureLeave]: the fixture is replaced. *)
Definition Suite_RegisterInit (func : option (W -> bool * W)) (info : Info)
    (self : @Suite W) : @Suite W :=
  {| m_Init := SuiteFunction_make func info;
     m_Enter := m_Enter self; m_Leave := m_Leave self; m_Exit := m_Exit self;
     suite_Info := suite_Info self; m_Dependencies := m_Dependencies self;
     m_Tests := m_Tests self; m_Tags := m_Tags self |}.

Definition Suite_RegisterExit (func : option (W -> bool * W)) (info : Info)
    (self : @Suite W) : @Suite W :=
  {| m_Init := m_Init self; m_Enter := m_Enter self; m_Leave := m_Leave self;
     m_Exit := SuiteFunction_make func info;
     suite_Info := suite_Info self; m_Dependencies := m_Dependencies self;
     m_Tests := m_Tests self; m_Tags := m_Tags self |}.

Definition Suite_RegisterFixtureEnter (func : option (W -> bool * W)) (info : Info)
    (self : @Suite W) : @Suite W :=
  {| m_Init := m_Init self;
     m_Enter := SuiteFunction_make func info;
     m_Leave := m_Leave self; m_Exit := m_Exit self;
     suite_Info := suite_Info self; m_Dependencies := m_Dependencies self;
     m_Tests := m_Tests self; m_Tags := m_Tags self |}.

Definition Suite_RegisterFixtureLeave (func : option (W -> bool * W)) (info : Info)
    (self : @Suite W) : @Suite W :=
  {| m_Init := m_Init self; m_Enter := m_Enter self;
     m_Leave := SuiteFunction_make func info;
     m_Exit := m_Exit self;
     suite_Info := suite_Info self; m_Dependencies := m_Dependencies self;
     m_Tests := m_Tests self; m_Tags := m_Tags self |}.

(** [Suite::AddTag] ([std::set::insert]) and [Suite::CheckTag]. *)
Definition Suite_AddTag (tag : string) (self : @Suite W) : @Suite W :=
  {| m_Init := m_Init self; m_Enter := m_Enter self; m_Leave := m_Leave self;
     m_Exit := m_Exit self; suite_Info := suite_Info self;
     m_Dependencies := m_Dependencies self; m_Tests := m_Tests self;
     m_Tags := {[tag]} ∪ m_Tags self |}.

Definition Suite_CheckTag (tag : string) (self : @Suite W) : bool :=
  bool_decide (tag ∈ m_Tags self).

(** A member function of [Suite] called on the suite whose address
    [m_Suites] holds at position [suite].  The environment keeps pointers,
    so it sees what is done to a suite after its registration. *)
Definition on_suite (suite : nat) (f : @Suite W -> @Suite W) (env : @Environment W)
  : @Environment W :=
  {| m_SuiteMap := m_SuiteMap env;
     m_Suites := alter f suite (m_Suites env);
     m_Callback := m_Callback env;
     m_Filter := m_Filter env |}.

(** [Suite::Suite(env, info)]: the new suite registers itself. *)
Definition Suite_construct (info : Info) (env : @Environment W) : @Environment W :=
  RegisterSuite (Suite_new info) env.

(** [Test::Test(s, func, info)]: the new test registers itself with [s]. *)
Definition Test_construct (s : nat) (func : W -> @Body W) (info : Info)
    (env : @Environment W) : @Environment W :=
  on_suite s (Suite_RegisterTest {| m_Func := func; test_Info := info |}) env.

(** What stands between the braces of a [UNIT_SUITE(name)]: each entry is
    a static object whose constructor calls the member function of the
    suite of the enclosing namespace (revision two, where the macros for
    tests and fixtures pass the empty string as the file). *)
Inductive Item : Type :=
| UNIT_SUITE_DEPEND_ON (dependency : string)
| UNIT_SUITE_TAG (tag : string)
| UNIT_TEST (name : string) (line : Z) (func : W -> @Body W)
| UNIT_SUITE_INIT (line : Z) (func : W -> bool * W)
| UNIT_SUITE_EXIT (line : Z) (func : W -> bool * W)
| UNIT_SUITE_FIXTURE_ENTER (line : Z) (func : W -> bool * W)
| UNIT_SUITE_FIXTURE_LEAVE (line : Z) (func : W -> bool * W).

(** The member function of [Suite] that the constructor of the static
    object of an entry calls. *)
Definition Item_apply (it : Item) : @Suite W -> @Suite W :=
  match it with
  | UNIT_SUITE_DEPEND_ON dependency => Suite_RegisterDependency dependency
  | UNIT_SUITE_TAG tag => Suite_AddTag tag
  | UNIT_TEST name line func =>
      Suite_RegisterTest {| m_Func := func; test_Info := mkInfo name "" line |}
  | UNIT_SUITE_INIT line func => Suite_RegisterInit (Some func) (mkInfo "suite.init" "" line)
  | UNIT_SUITE_EXIT line func => Suite_RegisterExit (Some func) (mkInfo "suite.exit" "" line)
  | UNIT_SUITE_FIXTURE_ENTER line func =>
      Suite_RegisterFixtureEnter (Some func) (mkInfo "suite.fixture_enter" "" line)
  | UNIT_SUITE_FIXTURE_LEAVE line func =>
      Suite_RegisterFixtureLeave (Some func) (mkInfo "suite.fixture_leave" "" line)
  end.

(** A [UNIT_SUITE(name) { ... }] at [file]:[line]. *)
Record Block : Type := mkBlock {
  block_name : string;
  block_file : string;
  block_line : Z;
  block_items : list Item
}.

(** The static initialisation of one block: the suite is constructed and
    registered first, then the entries act on it through its address, in
    the order of their definitions. *)
Definition Block_init (b : Block) (env : @Environment W) : @Environment W :=
  let suite := length (m_Suites env) in
  foldl (fun e it => on_suite suite (Item_apply it) e)
        (Suite_construct (mkInfo (block_name b) (block_file b) (block_line b)) env)
        (block_items b).

(** The static initialisation of a program, the blocks taken in the order
    in which they are initialised, on [Environment::Instance()]. *)
Definition static_init (blocks : list Block) : @Environment W :=
  foldl (fun e b => Block_init b e) Environment_new blocks.

(** [EnvironmentResult::GetResult(name)]: the first result of a suite of
    that name; [None] stands for the function's static [NULL_Result], a
    result without suite and without test results whose total is
    [Success]. *)
Fixpoint EnvironmentResult_GetResult (suites : list (@Suite W))
    (m_Results : list SuiteResult) (name : string) : option SuiteResult :=
  match m_Results with
  | [] => None
  | r :: rest =>
      if bool_decide (suite_name suites (m_Suite r) = name) then Some r
      else EnvironmentResult_GetResult suites rest name
  end.

(** [SuiteResult::GetResult(name)] (revision two): the first result of a
    test of that name; [None] stands for the static [NULL_Result]. *)
Fixpoint SuiteResult_GetResult (suites : list (@Suite W))
    (m_Results : list TestResult) (name : string) : option TestResult :=
  match m_Results with
  | [] => None
  | r :: rest =>
      if bool_decide (test_name suites (m_Test r) = name) then Some r
      else SuiteResult_GetResult suites rest name
  end.

(** [GetTotalResult()] of what a lookup by name returns. *)
Definition found_total (r : option SuiteResult) : Result :=
  match r with
  | Some x => sr_TotalResult x
  | None => ResultObject_new
  end.

End Construction.

(* ===================================================================== *)
(** ** Revision one *)

Module Rev1.

(** [AssertResult::AssertResult(inf, res, msg)]: the field [result] is
    initialised with [res]. *)
Definition AssertResult_new (inf : Info) (res : Result) (msg : string) : AssertResult :=
  {| ar_TotalResult := res; message := msg; info := inf |}.

(** The fold written inline in [TestResult::AddResult]. *)
Definition TestResult_fold (m_TotalResult result : Result) : Result :=
  if bool_decide (m_TotalResult = Success) || bool_decide (m_TotalResult = Unknown)
  then
    if bool_decide (result = Unknown) || bool_decide (result = Fail)
    then result
    else m_TotalResult
  else m_TotalResult.

(** [TestResult::AddResult]. *)
Definition TestResult_AddResult (result : AssertResult) (self : TestResult) : TestResult :=
  {| m_Test := m_Test self;
     tr_Results := tr_Results self ++ [result];
     tr_TotalResult := TestResult_fold (tr_TotalResult self) (ar_TotalResult result) |}.

(** The fold written inline in [SuiteResult::AddResult], where [r] is
    [result.GetTotalResult()]. *)
Definition SuiteResult_fold (m_TotalResult r : Result) : Result :=
  if bool_decide (m_TotalResult = Success) || bool_decide (m_TotalResult = Unknown)
  then
    if bool_decide (r = Unknown) || bool_decide (r = Fail)
    then r
    else m_TotalResult
  else m_TotalResult.

(** [SuiteResult::AddResult]. *)
Definition SuiteResult_AddResult (result : TestResult) (self : SuiteResult) : SuiteResult :=
  {| m_Suite := m_Suite self;
     sr_Results := sr_Results self ++ [result];
     sr_TotalResult := SuiteResult_fold (sr_TotalResult self) (tr_TotalResult result) |}.

(** [SuiteResult::SetTotalResult]: it also clears the test results. *)
Definition SuiteResult_SetTotalResult (result : Result) (self : SuiteResult) : SuiteResult :=
  {| m_Suite := m_Suite self; sr_Results := []; sr_TotalResult := result |}.

Definition rev1 : ResultOps :=
  {| op_AssertResult_new := AssertResult_new;
     op_TestResult_AddResult := TestResult_AddResult;
     op_SuiteResult_AddResult := SuiteResult_AddResult |}.

Section Engine1.
Context {W : Type}.
Variable cb : @ControlCallback W.
Variable suites : list (@Suite W).

Notation "x <- m ; k" := (bind m (fun x => k))
  (at level 20, m at level 100, k at level 200, only parsing).
Notation "' p <- m ; k" := (bind m (fun x => let 'p := x in k))
  (at level 20, p pattern, m at level 100, k at level 200, only parsing).

(** [EnvironmentResult] has no total of its own here: it is the vector
    [m_Results], and [AddResult] is [push_back].
    [EnvironmentResult::GetResult(name)]: the first result of a suite of
    that name; [None] stands for the static [NULL_Result], whose total is
    [Success]. *)
Fixpoint GetResult (m_Results : list SuiteResult) (name : string) : option SuiteResult :=
  match m_Results with
  | [] => None
  | r :: rest =>
      match suites !! m_Suite r with
      | Some s => if bool_decide (m_Name (suite_Info s) = name) then Some r
                  else GetResult rest name
      | None => GetResult rest name
      end
  end.

(** The [for] of [Environment::CheckDependencies]. *)
Fixpoint CheckDependencies_loop (s : nat) (deps : list string)
    (result : list SuiteResult) : M (option bool) :=
  match deps with
  | [] => ret None
  | d :: rest =>
      match GetResult result d with
      | None => CheckDependencies_loop s rest result
      | Some suiteRes =>
          if bool_decide (sr_TotalResult suiteRes ≠ Success) then
            action <- call (OnDependencyFail cb s (m_Suite suiteRes) suiteRes)
                           (CallOnDependencyFail s (m_Suite suiteRes)) ;
            if bool_decide (action = Ignore)
            then CheckDependencies_loop s rest result
            else if bool_decide (action = AbortCurrent)
            then ret (Some true)
            else ret (Some false)
          else CheckDependencies_loop s rest result
      end
  end.

(** In [if(!abort)] no variable of that name is in scope: the name is the
    C library's function [abort], whose address is not null. *)
Definition abort : bool := true.

(** One pass through the body of the [for] in [RunSuites]. *)
Definition RunSuites_iter (fuel : nat) (it : nat) (result : list SuiteResult)
  : M (bool * list SuiteResult) :=
  match suites !! it with
  | None => fault OutOfRange
  | Some s =>
      let suiteResult := SuiteResult_new it in
      _ <- call_ (OnSuiteBegin cb it) (CallOnSuiteBegin it) ;
      check <- CheckDependencies_loop it (m_Dependencies s) result ;
      '(procceed, suiteResult) <-
         match check with
         | None =>
             '(succe, suiteResult) <- Suite_Run rev1 cb fuel it s suiteResult ;
             ret (if negb abort then false else true, suiteResult)
         | Some procceed =>
             ret (procceed, SuiteResult_SetTotalResult Unknown suiteResult)
         end ;
      _ <- call_ (OnSuiteEnd cb suiteResult) (CallOnSuiteEnd suiteResult) ;
      ret (procceed, result ++ [suiteResult])
  end.

(** [Environment::RunSuites]. *)
Fixpoint RunSuites (fuel : nat) (todo : list nat) (result : list SuiteResult)
  : M (bool * list SuiteResult) :=
  match todo with
  | [] => ret (true, result)
  | it :: rest =>
      '(procceed, result) <- RunSuites_iter fuel it result ;
      if procceed : bool then RunSuites fuel rest result
      else ret (false, result)
  end.

(** The vectors of [TopoVisit]. *)
Record TopoState : Type := mkTopoState {
  ts_result : list nat;
  ts_mark : list bool;
  ts_tempMark : list bool
}.

Variable m_SuiteMap : gmap string nat.

(** The [for] of [TopoVisit] and the statements after it. *)
Fixpoint TopoVisit_deps (visit : nat -> TopoState -> M (bool * TopoState))
    (cur : nat) (deps : list string) (ts : TopoState) : M (bool * TopoState) :=
  match deps with
  | [] =>
      if bool_decide (cur < length (ts_mark ts))%nat
         && bool_decide (cur < length (ts_tempMark ts))%nat
      then ret (true, {| ts_result := ts_result ts ++ [cur];
                         ts_mark := <[cur := true]> (ts_mark ts);
                         ts_tempMark := <[cur := false]> (ts_tempMark ts) |})
      else fault OutOfRange
  | depName :: rest =>
      match ts_mark ts !! cur with
      | None => fault OutOfRange
      | Some true => TopoVisit_deps visit cur rest ts
      | Some false =>
          match m_SuiteMap !! depName with
          | None =>
              action <- call (OnUnknownDependency cb cur depName)
                             (CallOnUnknownDependency cur depName) ;
              if bool_decide (action = Ignore)
              then fault DerefEnd  (* falls through to [dep->second] *)
              else ret (false, ts)
          | Some dep =>
              '(ok, ts) <- visit dep ts ;
              if ok : bool then TopoVisit_deps visit cur rest ts
              else ret (false, ts)
          end
      end
  end.

(** [Environment::TopoVisit]. *)
Fixpoint TopoVisit (fuel : nat) (cur : nat) (ts : TopoState) : M (bool * TopoState) :=
  match fuel with
  | O => fault OutOfFuel
  | S fuel' =>
      match ts_tempMark ts !! cur, ts_mark ts !! cur with
      | Some tempMark, Some mark =>
          if tempMark : bool then ret (false, ts)
          else if mark : bool then ret (true, ts)
          else
            match suites !! cur with
            | None => fault OutOfRange
            | Some s =>
                TopoVisit_deps (TopoVisit fuel') cur (m_Dependencies s)
                  {| ts_result := ts_result ts;
                     ts_mark := ts_mark ts;
                     ts_tempMark := <[cur := true]> (ts_tempMark ts) |}
            end
      | _, _ => fault OutOfRange
      end
  end.

Variable m_Filter : list (@Filter W).

(** The [for] over the roots in [SolveDependencies]. *)
Fixpoint SolveDependencies_roots (fuel : nat) (roots : list nat) (ts : TopoState)
  : M (bool * TopoState) :=
  match roots with
  | [] => ret (true, ts)
  | i :: rest =>
      match ts_mark ts !! i with
      | None => fault OutOfRange
      | Some true => SolveDependencies_roots fuel rest ts
      | Some false =>
          allowed <- AllowSuite_loop m_Filter i ;
          if allowed : bool then
            '(succeded, ts) <- TopoVisit fuel i ts ;
            if succeded : bool then SolveDependencies_roots fuel rest ts
            else ret (false, ts)
          else SolveDependencies_roots fuel rest ts
      end
  end.

(** [Environment::SolveDependencies]: no callback is called here; a failure
    is reported by [Run]. *)
Definition SolveDependencies (fuel : nat) (result : list nat) : M (bool * list nat) :=
  let n := length suites in
  '(succeded, ts) <-
     SolveDependencies_roots fuel (seq 0 n)
       {| ts_result := result;
          ts_mark := replicate n false;
          ts_tempMark := replicate n false |} ;
  if succeded : bool then ret (true, ts_result ts) else ret (false, []).

End Engine1.

End Rev1.

(* ===================================================================== *)
(** ** EnumClassFlags.h

    The bit operators that the header defines for the enumerations marked
    as flag enumerations.  A value of the enumeration is the integer its
    bits spell in the unsigned type [integral_by_size<sizeof(T)>::type];
    [bits] is the width of that type. *)

Module EnumClassFlags.

(** [integral_by_size<size>::type], as its size in bytes: the
    specialisations for 1, 2 and 4 select [unsigned char], [unsigned short]
    and [unsigned int]; the primary template asserts
    [size > sizeof(size_t)] and selects [size_t].  [None] is the failed
    [static_assert]. *)
Definition integral_by_size (sizeof_size_t : nat) (size : nat) : option nat :=
  if bool_decide (size = 1%nat) then Some 1%nat
  else if bool_decide (size = 2%nat) then Some 2%nat
  else if bool_decide (size = 4%nat) then Some 4%nat
  else if bool_decide (sizeof_size_t < size)%nat then Some sizeof_size_t
  else None.

(** The sizes for which the template is specialised. *)
Definition specialised : list nat := [1; 2; 4]%nat.

Section Operators.
Variable bits : Z.

(** The cast [(integral_by_size<sizeof(T)>::type)a]. *)
Definition to_integral (a : Z) : Z := a mod 2 ^ bits.

(** [operator~], [operator|], [operator&], [operator^]. *)
Definition op_not (a : Z) : Z := to_integral (Z.lnot (to_integral a)).
Definition op_or (a b : Z) : Z := to_integral (Z.lor (to_integral a) (to_integral b)).
Definition op_and (a b : Z) : Z := to_integral (Z.land (to_integral a) (to_integral b)).
Definition op_xor (a b : Z) : Z := to_integral (Z.lxor (to_integral a) (to_integral b)).

(** [operator|=], [operator&=], [operator^=]: the value [a] holds
    afterwards, which is also the value of the reference returned. *)
Definition op_or_assign (a b : Z) : Z :=
  to_integral (Z.lor (to_integral a) (to_integral b)).
Definition op_and_assign (a b : Z) : Z :=
  to_integral (Z.land (to_integral a) (to_integral b)).
Definition op_xor_assign (a b : Z) : Z :=
  to_integral (Z.lxor (to_integral a) (to_integral b)).

(** [TestFlag], [SetFlag], [ClearFlag], [FlipFlag]. *)
Definition TestFlag (a b : Z) : bool := negb (Z.eqb (to_integral (op_and a b)) 0).
Definition SetFlag (a b : Z) : Z := op_or_assign a b.
Definition ClearFlag (a b : Z) : Z := op_and_assign a (op_not b).
Definition FlipFlag (a b : Z) : Z := op_xor_assign a b.

End Operators.

End EnumClassFlags.

(* ===================================================================== *)
(** ** Notions used in the statements *)

(** A sequence of children added one after the other through [add]. *)
Definition add_all {A R : Type} (add : A -> R -> R) (children : list A) (self : R) : R :=
  foldl (fun acc a => add a acc) self children.

(** The index of the first suite of [l] registered under [name]. *)
Definition first_registered {W : Type} (name : string) (l : list (@Suite W)) : option nat :=
  fst <$> list_find (fun s => m_Name (suite_Info s) = name) l.

(** The index of the last suite of [l] registered under [name]. *)
Definition last_registered {W : Type} (name : string) (l : list (@Suite W)) : option nat :=
  (fun p => (length l - 1 - fst p)%nat) <$>
    list_find (fun s => m_Name (suite_Info s) = name) (reverse l).

(** A suite with a name, dependencies and tests, and no fixture. *)
Definition plain_suite {W : Type} (name : string) (deps : list string)
    (tests : list (@Test W)) : @Suite W :=
  {| m_Init := SuiteFunction_new; m_Enter := SuiteFunction_new;
     m_Leave := SuiteFunction_new; m_Exit := SuiteFunction_new;
     suite_Info := mkInfo name "" 0;
     m_Dependencies := deps; m_Tests := tests; m_Tags := ∅ |}.

(** A control callback on the world [nat], used for closed examples: it
    answers [exc] to [OnException], [dep] to [OnDependencyFail], [unk] to
    [OnUnknownDependency], and asks for a repetition while the world, which
    counts the calls of [OnTestEnd], is below [repeats]. *)
Definition demo_callback (exc dep unk : ControlAction) (repeats : nat)
  : @ControlCallback nat :=
  {| OnBegin := fun w => w;
     OnSuiteBegin := fun _ w => w;
     OnTestBegin := fun _ w => w;
     OnAssert := fun a w => (a, w);
     OnTestEnd := fun _ w => (bool_decide (w < repeats)%nat, S w);
     OnSuiteEnd := fun _ w => w;
     OnEnd := fun _ w => w;
     OnException := fun _ w => (exc, w);
     OnDependencyFail := fun _ _ _ w => (dep, w);
     OnUnknownDependency := fun _ _ w => (unk, w);
     OnUnsolvableDependencies := fun _ w => (Abort, w) |}.

(** A test whose body records one passing assertion and throws, and one
    whose body records one passing assertion and returns. *)
Definition throwing_test : @Test nat :=
  {| m_Func := fun w => BodyAsserts (mkInfo "" "" 7) true "1 == 1" w BodyThrows;
     test_Info := mkInfo "throws" "" 5 |}.

Definition passing_test : @Test nat :=
  {| m_Func := fun w => BodyAsserts (mkInfo "" "" 12) true "2 == 2" w BodyReturns;
     test_Info := mkInfo "passes" "" 10 |}.

(** A suite whose init fixture throws. *)
Definition broken_init_suite (name : string) : @Suite nat :=
  {| m_Init := {| sf_Func := Some (fun w => (true, w));
                  sf_Info := mkInfo "suite.init" "" 3 |};
     m_Enter := SuiteFunction_new; m_Leave := SuiteFunction_new;
     m_Exit := SuiteFunction_new;
     suite_Info := mkInfo name "" 1;
     m_Dependencies := []; m_Tests := [passing_test]; m_Tags := ∅ |}.

(** The environment in which the suites of [l] were registered and the
    callback [cb] installed, and a [std::cout] that drops its text. *)
Definition demo_env (cb : @ControlCallback nat) (l : list (@Suite nat)) : @Environment nat :=
  SetControl (Some cb) (register_all l Environment_new).

Definition silent : string -> nat -> nat := fun _ w => w.

(** *** The dependency graph *)

(** The suite [a] declares a dependency whose name the map resolves to the
    suite [b]. *)
Definition depends {W : Type} (env : @Environment W) (a b : nat) : Prop :=
  exists s d, m_Suites env !! a = Some s
              /\ d ∈ m_Dependencies s
              /\ m_SuiteMap env !! d = Some b.

(** No suite depends on itself through one or more dependencies. *)
Definition acyclic {W : Type} (env : @Environment W) : Prop :=
  forall a, ~ tc (depends env) a a.

(** Every declared dependency name has an entry in the map. *)
Definition all_resolve {W : Type} (env : @Environment W) : Prop :=
  forall a s d, m_Suites env !! a = Some s -> d ∈ m_Dependencies s ->
                is_Some (m_SuiteMap env !! d).

(** The map is the one registration builds for the suites of [m_Suites]. *)
Definition registered {W : Type} (env : @Environment W) : Prop :=
  forall name, m_SuiteMap env !! name = first_registered name (m_Suites env).

(** [b] stands before [a] in [order]. *)
Definition precedes (b a : nat) (order : list nat) : Prop :=
  exists i j, (i < j)%nat /\ order !! i = Some b /\ order !! j = Some a.

(** The suite [s] declares the dependency [d], and no suite has that name. *)
Definition unknown_dependency_of {W : Type} (env : @Environment W)
    (s : nat) (d : string) : Prop :=
  m_SuiteMap env !! d = None
  /\ exists su, m_Suites env !! s = Some su /\ d ∈ m_Dependencies su.

(** What a call of [TopoVisit] from the vectors [ts] can end in: code 0 or 1
    without a word to the callback; code 2 right after the callback refused
    an unknown name, nothing added to [unsolvable]; or the dereference of
    [end()] right after the callback ignored an unknown name. *)
Definition TopoVisit_shape {W : Type} (env : @Environment W) (ts : TopoState)
    (o : @Outcome W (Z * TopoState)) : Prop :=
  match o with
  | Done (code, ts') _ l =>
      (code = 0 /\ l = [] /\ ts_unsolvable ts' = ts_unsolvable ts)
      \/ (code = 1 /\ l = [])
      \/ (code = 2 /\ ts_unsolvable ts' = ts_unsolvable ts
          /\ exists s d a, l = [CallOnUnknownDependency s d a] /\ a <> Ignore
                           /\ unknown_dependency_of env s d)
  | Fault k _ l =>
      (k = DerefEnd
       /\ exists s d, l = [CallOnUnknownDependency s d Ignore]
                      /\ unknown_dependency_of env s d)
      \/ (k <> DerefEnd /\ l = [])
  end.

(** The same for the loop over the roots. *)
Definition roots_shape {W : Type} (env : @Environment W) (ts : TopoState)
    (o : @Outcome W (bool * TopoState)) : Prop :=
  match o with
  | Done (succeded, ts') _ l =>
      (succeded = true /\ l = [] /\ ts_unsolvable ts' = ts_unsolvable ts)
      \/ (succeded = false /\ l = [])
      \/ (succeded = false /\ ts_unsolvable ts' = ts_unsolvable ts
          /\ exists s d a, l = [CallOnUnknownDependency s d a] /\ a <> Ignore
                           /\ unknown_dependency_of env s d)
  | Fault k _ l =>
      (k = DerefEnd
       /\ exists s d, l = [CallOnUnknownDependency s d Ignore]
                      /\ unknown_dependency_of env s d)
      \/ (k <> DerefEnd /\ l = [])
  end.

(** The suites whose [OnSuiteBegin] a log holds, in order. *)
Fixpoint suites_begun (log : list Event) : list nat :=
  match log with
  | [] => []
  | CallOnSuiteBegin s :: rest => s :: suites_begun rest
  | _ :: rest => suites_begun rest
  end.

(** Two suites for closed examples: [A], registered first, depends on
    [B], registered second. *)
Definition two_suites : list (@Suite nat) :=
  [plain_suite "A" ["B"] [passing_test]; plain_suite "B" [] [passing_test]].

(** *** Abort decisions in a log *)

(** A decision after which [RunSuites] clears [procceed]: in a fixture,
    any answer of [OnException] but [Ignore], [Procceed] and
    [AbortCurrent]; in a test body, the answer [Abort]; in the dependency
    check, any answer of [OnDependencyFail] but [Ignore] and
    [AbortCurrent]. *)
Definition aborts_run (e : Event) : bool :=
  match e with
  | CallOnException InTestBody _ a => bool_decide (a = Abort)
  | CallOnException InFixture _ a =>
      negb (bool_decide (a = Ignore) || bool_decide (a = Procceed)
            || bool_decide (a = AbortCurrent))
  | CallOnDependencyFail _ _ a =>
      negb (bool_decide (a = Ignore) || bool_decide (a = AbortCurrent))
  | _ => false
  end.

(** A decision that ends the suite now active and nothing else:
    [AbortCurrent] in a fixture or in the dependency check. *)
Definition aborts_suite (e : Event) : bool :=
  match e with
  | CallOnException InFixture _ a => bool_decide (a = AbortCurrent)
  | CallOnDependencyFail _ _ a => bool_decide (a = AbortCurrent)
  | _ => false
  end.

Definition ends_suite (e : Event) : bool :=
  match e with CallOnSuiteEnd _ => true | _ => false end.

(** An entry from inside a suite that is none of the above. *)
Definition calm (e : Event) : bool :=
  negb (aborts_run e) && negb (aborts_suite e)
  && negb (begins_suite e) && negb (ends_suite e).

(** The log ends in an entry with [P], after calm entries only. *)
Definition ends_in (P : Event -> bool) (l : list Event) : Prop :=
  exists pre e, l = pre ++ [e] /\ Forall (fun x => calm x = true) pre /\ P e = true.

(** The log of a step that went on ([None]), ended the suite ([Some true])
    or ended the run ([Some false]). *)
Definition verdict_log (v : option bool) (l : list Event) : Prop :=
  match v with
  | None => Forall (fun x => calm x = true) l
  | Some true => ends_in aborts_suite l
  | Some false => ends_in aborts_run l
  end.

(** The log of a step of the scheduler that answers [a], read through the
    verdict [c a]; a step cut short by a fault logged calm entries only. *)
Definition step_log {W A : Type} (c : A -> option bool) (o : @Outcome W A) : Prop :=
  match o with
  | Done a _ l => verdict_log (c a) l
  | Fault _ _ l => Forall (fun x => calm x = true) l
  end.

(** The log of [Suite::Run], and of the dependency check followed by it,
    whose value has the flag [flag a]: a flag [true] does not tell whether
    the suite ran to its end or was ended by [AbortCurrent]. *)
Definition suite_log {W A : Type} (flag : A -> bool) (o : @Outcome W A) : Prop :=
  match o with
  | Done a _ l =>
      if flag a then Forall (fun x => calm x = true) l \/ ends_in aborts_suite l
      else ends_in aborts_run l
  | Fault _ _ l => Forall (fun x => calm x = true) l
  end.

(** The verdicts of the values the steps answer. *)
Definition verdict_of_flag (p : bool) : option bool := if p then None else Some false.

Definition verdict_of_attempt {A : Type} (x : bool + A) : option bool :=
  match x with inl p => Some p | inr _ => None end.

(** What the claim about abort decisions asks of a log of [RunSuites]:
    after a decision that ends the run comes the end of the suite and
    nothing more; after a decision that ends the suite comes the end of the
    suite and then nothing or the beginning of a suite. *)
Fixpoint stops_ok (log : list Event) : bool :=
  match log with
  | [] => true
  | e :: rest =>
      (if aborts_run e then
         match rest with
         | [CallOnSuiteEnd _] => true
         | _ => false
         end
       else if aborts_suite e then
         match rest with
         | [CallOnSuiteEnd _] => true
         | CallOnSuiteEnd _ :: CallOnSuiteBegin _ :: _ => true
         | _ => false
         end
       else true)
      && stops_ok rest
  end.

(** *** The invariant of the traversal *)

(** The marks that are neither "finished" nor "on the stack". *)
Fixpoint whites (marks : list (bool * bool)) : nat :=
  match marks with
  | [] => 0%nat
  | m :: rest =>
      ((if bool_decide (m = (false, false)) then 1 else 0) + whites rest)%nat
  end.

Definition black (ts : TopoState) (i : nat) : Prop := ts_mark ts !! i = Some (true, false).

Definition gray (ts : TopoState) (i : nat) : Prop := ts_mark ts !! i = Some (false, true).

(** Between two visits: one mark per suite, no suite both finished and on
    the stack, [result] lists the finished suites, each once, and each
    after the suites it depends on. *)
Record resolver_inv {W : Type} (env : @Environment W) (ts : TopoState) : Prop :=
  mk_resolver_inv {
    inv_length : length (ts_mark ts) = length (m_Suites env);
    inv_colors : forall i m, ts_mark ts !! i = Some m -> m <> (true, true);
    inv_black : forall i, black ts i <-> i ∈ ts_result ts;
    inv_nodup : NoDup (ts_result ts);
    inv_order : forall a b, a ∈ ts_result ts -> depends env a b ->
                            precedes b a (ts_result ts)
  }.

(** What a visit that returns 0 does to the vectors. *)
Record grows (ts ts' : TopoState) : Prop := mk_grows {
  grows_gray : forall i, gray ts' i <-> gray ts i;
  grows_black : forall i, black ts i -> black ts' i;
  grows_result : exists new, ts_result ts' = ts_result ts ++ new;
  grows_whites : (whites (ts_mark ts') <= whites (ts_mark ts))%nat
}.

(** *** The invariant of [RunSuites] *)

(** Between two passes of [RunSuites]: the map is the registered one, the
    connector has one slot per suite, and for every suite that has a
    result, the slot of its name points to a result of a suite of that
    name. *)
Record run_inv {W : Type} (env : @Environment W) (st : RunState) : Prop :=
  mk_run_inv {
    run_map : rs_map st = m_SuiteMap env;
    run_connector : length (rs_connector st) = length (m_Suites env);
    run_read : forall r, r ∈ er_Results (rs_result st) ->
      exists s, m_Suites env !! m_Suite r = Some s
        /\ forall f, m_SuiteMap env !! m_Name (suite_Info s) = Some f ->
             exists k r' s', rs_connector st !! f = Some k
               /\ er_Results (rs_result st) !! k = Some r'
               /\ m_Suites env !! m_Suite r' = Some s'
               /\ m_Name (suite_Info s') = m_Name (suite_Info s)
  }.

(** *** What a resolution that succeeds guarantees *)

(** Every suite of [order] exists, and every dependency name it declares
    resolves to a suite that stands before it in [order]. *)
Definition closed_order {W : Type} (env : @Environment W) (order : list nat) : Prop :=
  forall a, a ∈ order ->
    exists s, m_Suites env !! a = Some s
      /\ forall d, d ∈ m_Dependencies s ->
           exists b, m_SuiteMap env !! d = Some b /\ precedes b a order.

(** Between two visits, with nothing assumed of the graph: [result] lists
    the suites marked finished, each once, and is closed. *)
Record resolver_sound {W : Type} (env : @Environment W) (ts : TopoState) : Prop :=
  mk_resolver_sound {
    sound_black : forall i, i ∈ ts_result ts -> black ts i;
    sound_listed : forall i sec, ts_mark ts !! i = Some (true, sec) -> i ∈ ts_result ts;
    sound_nodup : NoDup (ts_result ts);
    sound_closed : closed_order env (ts_result ts)
  }.

(** The filter chain answers [allow s] for the suite [s], whatever the
    world. *)
Definition filters_answer {W : Type} (env : @Environment W) (allow : nat -> bool) : Prop :=
  forall s w b w' l, AllowSuite env s w = Done b w' l -> b = allow s.

(** A filter for closed examples: it admits the suite [k] and no other,
    and every test. *)
Definition only_suite (k : nat) : @Filter nat :=
  {| IsOK := fun s w => (bool_decide (s = k), w);
     IsOK_Test := fun _ w => (true, w) |}.

(** *** Faults of the resolver *)

(** What a visit from the vectors [ts] may end in, when every index the
    map holds is in range.  If it returns, the marks kept their length and
    no mark turned white again.  The one fault of the program is the read
    of the failed lookup; [starve] tells whether the bound of the embedding
    may have been too low for the depth of the recursion. *)
Definition visit_safe {W : Type} (env : @Environment W) (starve : bool)
    (ts : TopoState) (o : @Outcome W (Z * TopoState)) : Prop :=
  match o with
  | Done (_, ts') _ _ =>
      length (ts_mark ts') = length (m_Suites env)
      /\ (whites (ts_mark ts') <= whites (ts_mark ts))%nat
  | Fault k _ _ => k = DerefEnd \/ (starve = true /\ k = OutOfFuel)
  end.

(** What a visit that returns 1 has added to [unsolvable]: at least one
    suite, the first of which lies on a dependency cycle. *)
Definition found_cycle {W : Type} (env : @Environment W) (ts ts' : TopoState) : Prop :=
  exists first rest,
    ts_unsolvable ts' = ts_unsolvable ts ++ first :: rest
    /\ tc (depends env) first first.

(** *** Faults of the scheduler *)

(** The outcome is a result, or the bound of the embedding was too low for
    the number of repetitions the callback asked for: no vector was indexed
    out of range and no failed lookup was read. *)
Definition only_starves {W A : Type} (o : @Outcome W A) : Prop :=
  match o with
  | Done _ _ _ => True
  | Fault k _ _ => k = OutOfFuel
  end.

(** The suites that have a result in [st], in the order of the results. *)
Definition suites_done (st : RunState) : list nat :=
  m_Suite <$> er_Results (rs_result st).

(** A callback that never asks for a test to be repeated and never
    answers with a decision that ends the run: to an exception it answers
    [AbortCurrent], [Ignore] or [Procceed], to a failed dependency
    [AbortCurrent] or [Ignore], and it does not wave an unknown dependency
    name through. *)
Definition lenient {W : Type} (cb : @ControlCallback W) : Prop :=
  (forall r w, (OnTestEnd cb r w).1 = false)
  /\ (forall ctx w, (OnException cb ctx w).1 = AbortCurrent
                    \/ (OnException cb ctx w).1 = Ignore
                    \/ (OnException cb ctx w).1 = Procceed)
  /\ (forall running failed r w,
        (OnDependencyFail cb running failed r w).1 = AbortCurrent
        \/ (OnDependencyFail cb running failed r w).1 = Ignore)
  /\ (forall s d w, (OnUnknownDependency cb s d w).1 <> Ignore).

(** The outcome is not the read of the failed lookup. *)
Definition reads_no_end {W A : Type} (o : @Outcome W A) : Prop :=
  match o with
  | Done _ _ _ => True
  | Fault k _ _ => k <> DerefEnd
  end.

(** *** What a reporter is told *)

(** The test results handed to the calls of [OnTestEnd] that answered
    [false], and the suite results handed to [OnSuiteEnd], in the order of
    the calls. *)
Fixpoint tests_ended (log : list Event) : list TestResult :=
  match log with
  | [] => []
  | CallOnTestEnd r false :: rest => r :: tests_ended rest
  | _ :: rest => tests_ended rest
  end.

Fixpoint suites_ended (log : list Event) : list SuiteResult :=
  match log with
  | [] => []
  | CallOnSuiteEnd r :: rest => r :: suites_ended rest
  | _ :: rest => suites_ended rest
  end.

(** An entry for the end of a test or of a suite. *)
Definition reports (e : Event) : bool :=
  match e with
  | CallOnTestEnd _ _ | CallOnSuiteEnd _ => true
  | _ => false
  end.

(** *** Consistency of a result tree *)

(** The total of a result is the most severe total among its children, at
    every level; the one exception is a suite result without test results
    whose total is [Unknown]. *)
Definition TestResult_consistent (r : TestResult) : Prop :=
  tr_TotalResult r = max_severity (ar_TotalResult <$> tr_Results r).

Definition SuiteResult_folded (r : SuiteResult) : Prop :=
  Forall TestResult_consistent (sr_Results r)
  /\ sr_TotalResult r = max_severity (tr_TotalResult <$> sr_Results r).

Definition SuiteResult_consistent (r : SuiteResult) : Prop :=
  SuiteResult_folded r \/ (sr_Results r = [] /\ sr_TotalResult r = Unknown).

Definition EnvironmentResult_consistent (r : EnvironmentResult) : Prop :=
  Forall SuiteResult_consistent (er_Results r)
  /\ er_TotalResult r = max_severity (sr_TotalResult <$> er_Results r).

(** *** The resolvers of the two revisions *)

(** The vectors of revision two, read as the vectors of revision one: the
    pairs of marks split into [mark] and [tempMark]; [unsolvable] has no
    counterpart. *)
Definition marks_rev1 (ts : TopoState) : Rev1.TopoState :=
  {| Rev1.ts_result := ts_result ts;
     Rev1.ts_mark := fst <$> ts_mark ts;
     Rev1.ts_tempMark := snd <$> ts_mark ts |}.

(** The outcome of a visit of revision two, read as one of revision one:
    the codes 1 and 2 are both [false]. *)
Definition visit_rev1 {W : Type} (o : @Outcome W (Z * TopoState))
  : @Outcome W (bool * Rev1.TopoState) :=
  match o with
  | Done (code, ts) w l => Done (bool_decide (code = 0), marks_rev1 ts) w l
  | Fault k w l => Fault k w l
  end.

Definition roots_rev1 {W : Type} (o : @Outcome W (bool * TopoState))
  : @Outcome W (bool * Rev1.TopoState) :=
  match o with
  | Done (succeded, ts) w l => Done (succeded, marks_rev1 ts) w l
  | Fault k w l => Fault k w l
  end.

(** *** The tests of a suite in a log *)

(** The tests whose [OnTestBegin] a log holds, in order. *)
Fixpoint tests_begun (log : list Event) : list TestPtr :=
  match log with
  | [] => []
  | CallOnTestBegin t :: rest => t :: tests_begun rest
  | _ :: rest => tests_begun rest
  end.

(** The tests of the suite [self] at the positions [j], ..., [j + k - 1]. *)
Definition tests_of (self : nat) (j k : nat) : list TestPtr :=
  (fun i => (self, i)) <$> seq j k.

(** An entry logged while an attempt at a test is made, or a fixture of
    the suite runs. *)
Definition inside_attempt (e : Event) : bool :=
  match e with
  | RunFixture _ | RunBody _ | CallOnAssert _ | CallOnException _ _ _ => true
  | _ => false
  end.

(** The log holds a call of [OnException]. *)
Definition thrown (log : list Event) : Prop :=
  exists site ctx a, CallOnException site ctx a ∈ log.

(** *** Suites as their blocks declare them *)

(** The suite a block declares, with everything its entries register. *)
Definition Block_suite {W : Type} (b : @Block W) : @Suite W :=
  foldl (fun s it => Item_apply it s)
        (Suite_new (mkInfo (block_name b) (block_file b) (block_line b)))
        (block_items b).

(** The dependencies, the names of the tests and the tags that the entries
    of a block declare, in the order of the entries. *)
Definition declared_dependencies {W : Type} (items : list (@Item W)) : list string :=
  omap (fun it => match it with UNIT_SUITE_DEPEND_ON d => Some d | _ => None end) items.

Definition declared_tests {W : Type} (items : list (@Item W)) : list string :=
  omap (fun it => match it with UNIT_TEST name _ _ => Some name | _ => None end) items.

Definition declared_tags {W : Type} (items : list (@Item W)) : list string :=
  omap (fun it => match it with UNIT_SUITE_TAG tag => Some tag | _ => None end) items.

(** *** What the resolver meets first *)

(** Nothing stands in the way of the suite [z]: every suite that [z]
    reaches through dependencies, [z] included, exists, lies on no
    dependency cycle and declares only names that resolve. *)
Definition solvable {W : Type} (env : @Environment W) (z : nat) : Prop :=
  forall z', rtc (depends env) z z' ->
    is_Some (m_Suites env !! z')
    /\ ~ tc (depends env) z' z'
    /\ forall s d, m_Suites env !! z' = Some s -> d ∈ m_Dependencies s ->
                   is_Some (m_SuiteMap env !! d).

(** The name [d] resolves to a solvable suite. *)
Definition solvable_name {W : Type} (env : @Environment W) (d : string) : Prop :=
  exists b, m_SuiteMap env !! d = Some b /\ solvable env b.

(** [d] is the first dependency in the list of the suite [z] that does
    not resolve to a solvable suite. *)
Definition first_obstacle {W : Type} (env : @Environment W) (z : nat) (d : string) : Prop :=
  exists s pre rest,
    m_Suites env !! z = Some s
    /\ m_Dependencies s = pre ++ d :: rest
    /\ Forall (solvable_name env) pre
    /\ ~ solvable_name env d.

(** The first obstacle of the suite [z] resolves to the suite [z']. *)
Definition descends {W : Type} (env : @Environment W) (z z' : nat) : Prop :=
  exists d, first_obstacle env z d /\ m_SuiteMap env !! d = Some z'.

(** Between two visits: one mark per suite, and every suite marked
    finished is solvable. *)
Definition tidy {W : Type} (env : @Environment W) (ts : TopoState) : Prop :=
  length (ts_mark ts) = length (m_Suites env)
  /\ forall i sec, ts_mark ts !! i = Some (true, sec) -> solvable env i.

(** What a visit that meets no obstacle does to the vectors: a mark stays
    as it is, or the mark of an unvisited solvable suite turns to
    finished; [unsolvable] is left alone. *)
Definition finishes {W : Type} (env : @Environment W) (ts ts' : TopoState) : Prop :=
  tidy env ts'
  /\ (forall i m, ts_mark ts !! i = Some m ->
        ts_mark ts' !! i = Some m
        \/ (m = (false, false) /\ ts_mark ts' !! i = Some (true, false) /\ solvable env i))
  /\ (whites (ts_mark ts') <= whites (ts_mark ts))%nat
  /\ ts_unsolvable ts' = ts_unsolvable ts.

(* ===================================================================== *)
(** * Properties *)

(** ** Aggregation *)

Lemma AddResult_is_max (t r : Result) :
  ResultObject_AddResult t r = max_result t r.
Proof. destruct t, r; reflexivity. Qed.

Lemma max_result_assoc (a b c : Result) :
  max_result a (max_result b c) = max_result (max_result a b) c.
Proof. destruct a, b, c; reflexivity. Qed.

Lemma max_result_Success_l (a : Result) : max_result Success a = a.
Proof. destruct a; reflexivity. Qed.

Lemma max_result_swap (a b c : Result) :
  max_result a (max_result b c) = max_result b (max_result a c).
Proof. destruct a, b, c; reflexivity. Qed.

Lemma fold_AddResult (l : list Result) (t : Result) :
  foldl ResultObject_AddResult t l = max_result t (max_severity l).
Proof.
  revert t. induction l as [|r l IH]; intros t; simpl.
  - destruct t; reflexivity.
  - rewrite IH, AddResult_is_max. symmetry. apply max_result_assoc.
Qed.

Lemma max_severity_perm (l l' : list Result) :
  l ≡ₚ l' -> max_severity l = max_severity l'.
Proof.
  induction 1 as [|x l l' _ IH|x y l|l1 l2 l3 _ IH1 _ IH2]; simpl.
  - reflexivity.
  - now rewrite IH.
  - apply max_result_swap.
  - now rewrite IH1.
Qed.

Lemma rev1_test_fold_eq (t r : Result) :
  Rev1.TestResult_fold t r = ResultObject_AddResult t r.
Proof. destruct t, r; reflexivity. Qed.

Lemma rev1_suite_fold_eq (t r : Result) :
  Rev1.SuiteResult_fold t r = ResultObject_AddResult t r.
Proof. destruct t, r; reflexivity. Qed.

Lemma total_add_all {A R : Type} (add : A -> R -> R) (total : R -> Result)
    (child : A -> Result) (fold : Result -> Result -> Result) :
  (forall t r, fold t r = ResultObject_AddResult t r) ->
  (forall a self, total (add a self) = fold (total self) (child a)) ->
  forall (l : list A) (self : R),
    total (add_all add l self) = max_result (total self) (max_severity (child <$> l)).
Proof.
  intros Hfold Hadd l. unfold add_all.
  induction l as [|a l IH]; intros self; simpl.
  - destruct (total self); reflexivity.
  - rewrite IH, Hadd, Hfold, AddResult_is_max. symmetry. apply max_result_assoc.
Qed.

(** C1.  Whatever sequence of children is added to a freshly constructed
    test, suite or environment result (revision two, through the shared
    [ResultObject::AddResult]) or to a test or suite result of revision one
    (through the inline folds), the total is the most severe outcome of the
    sequence under [Fail > Unknown > Success]; a permutation of the
    sequence gives the same total; and a total that is [Fail] stays [Fail]
    under every further addition, in both revisions. *)
Theorem aggregate_is_max_severity :
  (forall (t : TestPtr) (l : list AssertResult),
      tr_TotalResult (add_all TestResult_AddResult l (TestResult_new t))
      = max_severity (ar_TotalResult <$> l))
  /\ (forall (s : nat) (l : list TestResult),
      sr_TotalResult (add_all SuiteResult_AddResult l (SuiteResult_new s))
      = max_severity (tr_TotalResult <$> l))
  /\ (forall (l : list SuiteResult),
      er_TotalResult (add_all EnvironmentResult_AddResult l EnvironmentResult_new)
      = max_severity (sr_TotalResult <$> l))
  /\ (forall (t : TestPtr) (l : list AssertResult),
      tr_TotalResult (add_all Rev1.TestResult_AddResult l (TestResult_new t))
      = max_severity (ar_TotalResult <$> l))
  /\ (forall (s : nat) (l : list TestResult),
      sr_TotalResult (add_all Rev1.SuiteResult_AddResult l (SuiteResult_new s))
      = max_severity (tr_TotalResult <$> l))
  /\ (forall l l' : list Result, l ≡ₚ l' -> max_severity l = max_severity l')
  /\ (forall r : Result,
      ResultObject_AddResult Fail r = Fail
      /\ Rev1.TestResult_fold Fail r = Fail
      /\ Rev1.SuiteResult_fold Fail r = Fail).
Proof.
  refine (conj _ (conj _ (conj _ (conj _ (conj _ (conj _ _)))))).
  - intros t l.
    rewrite (total_add_all TestResult_AddResult tr_TotalResult ar_TotalResult
               ResultObject_AddResult) by reflexivity.
    apply max_result_Success_l.
  - intros s l.
    rewrite (total_add_all SuiteResult_AddResult sr_TotalResult tr_TotalResult
               ResultObject_AddResult) by reflexivity.
    apply max_result_Success_l.
  - intros l.
    rewrite (total_add_all EnvironmentResult_AddResult er_TotalResult sr_TotalResult
               ResultObject_AddResult) by reflexivity.
    apply max_result_Success_l.
  - intros t l.
    rewrite (total_add_all Rev1.TestResult_AddResult tr_TotalResult ar_TotalResult
               Rev1.TestResult_fold) by (reflexivity || apply rev1_test_fold_eq).
    apply max_result_Success_l.
  - intros s l.
    rewrite (total_add_all Rev1.SuiteResult_AddResult sr_TotalResult tr_TotalResult
               Rev1.SuiteResult_fold) by (reflexivity || apply rev1_suite_fold_eq).
    apply max_result_Success_l.
  - apply max_severity_perm.
  - intros r. destruct r; repeat split; reflexivity.
Qed.

(** C10.  On every current total and every added outcome, the inline fold
    of revision one's [TestResult::AddResult] and of its
    [SuiteResult::AddResult] computes the total that revision two's
    [ResultObject::AddResult] computes; hence the two revisions' [AddResult]
    of a test result and of a suite result are the same functions. *)
Theorem folds_of_both_revisions_agree :
  (forall total added : Result,
      Rev1.TestResult_fold total added = ResultObject_AddResult total added
      /\ Rev1.SuiteResult_fold total added = ResultObject_AddResult total added)
  /\ (forall (a : AssertResult) (self : TestResult),
      Rev1.TestResult_AddResult a self = TestResult_AddResult a self)
  /\ (forall (r : TestResult) (self : SuiteResult),
      Rev1.SuiteResult_AddResult r self = SuiteResult_AddResult r self).
Proof.
  split; [|split].
  - intros total added. split; [apply rev1_test_fold_eq | apply rev1_suite_fold_eq].
  - intros a self. unfold Rev1.TestResult_AddResult, TestResult_AddResult.
    now rewrite rev1_test_fold_eq.
  - intros r self. unfold Rev1.SuiteResult_AddResult, SuiteResult_AddResult.
    now rewrite rev1_suite_fold_eq.
Qed.

(** ** Registration *)

Section Registration.
Context {W : Type}.
Implicit Types (l : list (@Suite W)) (env : @Environment W).

Lemma register_all_snoc l (s : @Suite W) env :
  register_all (l ++ [s]) env = RegisterSuite s (register_all l env).
Proof. unfold register_all. now rewrite foldl_app. Qed.

Lemma register_all_suites l env :
  m_Suites (register_all l env) = m_Suites env ++ l.
Proof.
  induction l as [|s l IH] using rev_ind.
  - simpl. now rewrite app_nil_r.
  - rewrite register_all_snoc. simpl. rewrite IH. now rewrite app_assoc.
Qed.

Lemma register_all_map l (name : string) :
  m_SuiteMap (register_all l (@Environment_new W)) !! name = first_registered name l.
Proof.
  unfold first_registered.
  induction l as [|s l IH] using rev_ind.
  - reflexivity.
  - rewrite register_all_snoc. simpl. unfold map_emplace.
    rewrite register_all_suites. simpl.
    destruct (list_find (fun s0 => m_Name (suite_Info s0) = name) l) as [[i x]|] eqn:Hfind.
    + (* the name is already taken by an earlier suite *)
      erewrite list_find_app_l by exact Hfind.
      destruct (m_SuiteMap (register_all l Environment_new) !! m_Name (suite_Info s))
        eqn:Hs; [exact IH|].
      rewrite lookup_insert_ne; [exact IH|].
      intros Heq. rewrite Heq, IH in Hs. discriminate.
    + rewrite list_find_app_r by exact Hfind. simpl in IH.
      destruct (decide (m_Name (suite_Info s) = name)) as [<-|Hne].
      * rewrite IH, lookup_insert_eq. simpl.
        rewrite decide_True by reflexivity. reflexivity.
      * simpl. rewrite decide_False by exact Hne. simpl.
        destruct (m_SuiteMap (register_all l Environment_new) !! m_Name (suite_Info s));
          [exact IH|].
        rewrite lookup_insert_ne by exact Hne. exact IH.
Qed.

End Registration.

(** C9, as amended.  After any sequence of registrations in a new
    environment the name-to-index map sends a name to the index of the
    first suite registered under it ([emplace] does not overwrite), and
    the registration of a second suite under a taken name is not
    rejected: every suite is appended to [m_Suites], in order. *)
Theorem first_registration_wins {W : Type} (l : list (@Suite W)) (name : string) :
  m_SuiteMap (register_all l Environment_new) !! name = first_registered name l
  /\ m_Suites (register_all l Environment_new) = l.
Proof.
  split.
  - apply register_all_map.
  - now rewrite register_all_suites.
Qed.

(** C9, as stated, fails: with two suites registered under the name [A]
    the map holds the index 0 of the first, not the index 1 of the most
    recently registered one. *)
Lemma last_registration_does_not_win :
  let l := [@plain_suite unit "A" [] []; plain_suite "A" ["B"] []] in
  last_registered "A" l = Some 1%nat
  /\ m_SuiteMap (register_all l Environment_new) !! "A" = Some 0%nat
  /\ m_SuiteMap (register_all l Environment_new) !! "A" <> last_registered "A" l.
Proof. vm_compute. repeat split; congruence. Qed.

(** ** The monad *)

Section MonadFacts.
Context {W : Type}.

Lemma prepend_nil {A : Type} (o : @Outcome W A) : prepend [] o = o.
Proof. destruct o; reflexivity. Qed.

Lemma prepend_prepend {A : Type} (l1 l2 : list Event) (o : @Outcome W A) :
  prepend l1 (prepend l2 o) = prepend (l1 ++ l2) o.
Proof. destruct o; simpl; now rewrite app_assoc. Qed.

Lemma log_of_prepend {A : Type} (l : list Event) (o : @Outcome W A) :
  log_of (prepend l o) = l ++ log_of o.
Proof. destruct o; reflexivity. Qed.

Lemma bind_Done {A B : Type} (m : @M W A) (f : A -> M B) (w w1 : W) a l1 :
  m w = Done a w1 l1 -> bind m f w = prepend l1 (f a w1).
Proof. unfold bind. now intros ->. Qed.

Lemma bind_Fault {A B : Type} (m : @M W A) (f : A -> M B) (w w1 : W) k l1 :
  m w = Fault k w1 l1 -> bind m f w = Fault k w1 l1.
Proof. unfold bind. now intros ->. Qed.

End MonadFacts.

(** ** Tests and suites *)

Lemma count_RunBody_app (l1 l2 : list Event) :
  count_RunBody (l1 ++ l2) = (count_RunBody l1 + count_RunBody l2)%nat.
Proof. induction l1 as [|e l1 IH]; simpl; [reflexivity|]. rewrite IH. lia. Qed.

Lemma count_RunBody_cons (e : Event) (l : list Event) :
  count_RunBody (e :: l) = ((if is_RunBody e then 1 else 0) + count_RunBody l)%nat.
Proof. reflexivity. Qed.

Section ExecFacts.
Context {W : Type}.
Variable cb : @ControlCallback W.

Lemma ExecFunction_no_RunBody (func : SuiteFunction) (w : W) :
  count_RunBody (log_of (ExecFunction cb func w)) = 0%nat.
Proof.
  unfold ExecFunction, bind, call, ret.
  destruct (sf_Func func) as [f|]; simpl.
  - destruct (f w) as [[] w1]; simpl; [|reflexivity].
    destruct (OnException cb (sf_Info func) w1) as [a w2]; simpl.
    destruct a; reflexivity.
  - reflexivity.
Qed.

Lemma Body_run_no_RunBody (ops : ResultOps) (b : Body) (r : TestResult) :
  count_RunBody (log_of (Body_run ops cb b r)) = 0%nat.
Proof.
  revert r. induction b as [w|w|inf c msg w k IH]; intros r; simpl; try reflexivity.
  unfold TestContext_AddResult, bind, call, ret.
  destruct (OnAssert cb _ w) as [a w1]; simpl.
  rewrite log_of_prepend. simpl. apply IH.
Qed.

Lemma Test_Run_one_RunBody (ops : ResultOps) (self : TestPtr) (t : Test)
    (r : TestResult) (w : W) :
  count_RunBody (log_of (Test_Run ops cb self t r w)) = 1%nat.
Proof.
  unfold Test_Run, bind.
  pose proof (Body_run_no_RunBody ops (m_Func t w) r) as Hb.
  destruct (Body_run ops cb (m_Func t w) r) as [[threw r1] w1 l1|k w1 l1];
    simpl in *; [|now rewrite Hb].
  destruct threw; simpl.
  - unfold call, ret.
    destruct (OnException cb (test_Info t) w1) as [a w2]; simpl.
    destruct a; simpl; rewrite count_RunBody_app, Hb; reflexivity.
  - unfold ret. simpl. now rewrite count_RunBody_app, Hb.
Qed.

(** A pass of the [do ... while] that completes ran the enter fixture, the
    body on a new, empty test result, and the leave fixture. *)
Lemma Suite_Run_attempt_completes (ops : ResultOps) (s : Suite) (self : TestPtr)
    (t : Test) (w w' : W) (r : TestResult) (l : list Event) :
  Suite_Run_attempt ops cb s self t w = Done (inr r) w' l ->
  exists w1 l1 w2 l2 l3,
    ExecFunction cb (m_Enter s) w = Done None w1 l1
    /\ Test_Run ops cb self t (TestResult_new self) w1 = Done (true, r) w2 l2
    /\ ExecFunction cb (m_Leave s) w2 = Done None w' l3
    /\ l = l1 ++ l2 ++ l3.
Proof.
  unfold Suite_Run_attempt, bind at 1.
  destruct (ExecFunction cb (m_Enter s) w) as [[p|] w1 l1|k w1 l1] eqn:He; simpl;
    try discriminate.
  unfold bind at 1.
  destruct (Test_Run ops cb self t (TestResult_new self) w1)
    as [[ok r1] w2 l2|k w2 l2] eqn:Ht; simpl; try discriminate.
  destruct ok; simpl; try discriminate.
  unfold bind.
  destruct (ExecFunction cb (m_Leave s) w2) as [[p|] w3 l3|k w3 l3] eqn:Hl; simpl;
    try discriminate.
  unfold ret. simpl. intros [= <- <- <-].
  exists w1, l1, w2, l2, l3. rewrite app_nil_r. auto.
Qed.

Lemma Suite_Run_attempt_one_RunBody (ops : ResultOps) (s : Suite) (self : TestPtr)
    (t : Test) (w w' : W) (r : TestResult) (l : list Event) :
  Suite_Run_attempt ops cb s self t w = Done (inr r) w' l ->
  count_RunBody l = 1%nat.
Proof.
  intros H. apply Suite_Run_attempt_completes in H
    as (w1 & l1 & w2 & l2 & l3 & He & Ht & Hl & ->).
  pose proof (ExecFunction_no_RunBody (m_Enter s) w) as H1.
  pose proof (Test_Run_one_RunBody ops self t (TestResult_new self) w1) as H2.
  pose proof (ExecFunction_no_RunBody (m_Leave s) w2) as H3.
  rewrite He in H1. rewrite Ht in H2. rewrite Hl in H3. simpl in *.
  rewrite !count_RunBody_app. lia.
Qed.

End ExecFacts.





(** ** The dependency resolver: what it tells the callback *)

Section ResolverLog.
Context {W : Type}.
Variable cb : @ControlCallback W.
Variable env : @Environment W.

Lemma TopoVisit_shape_unsolvable (ts ts1 : TopoState) (o : Outcome (Z * TopoState)) :
  ts_unsolvable ts1 = ts_unsolvable ts ->
  TopoVisit_shape env ts1 o -> TopoVisit_shape env ts o.
Proof.
  intros E. destruct o as [[code ts'] w l|k w l]; simpl; [|tauto].
  rewrite E. tauto.
Qed.

Lemma TopoVisit_deps_shape (visit : nat -> TopoState -> M (Z * TopoState))
    (cur : nat) (deps : list string) :
  (forall c t w, TopoVisit_shape env t (visit c t w)) ->
  (forall d, d ∈ deps ->
     exists su, m_Suites env !! cur = Some su /\ d ∈ m_Dependencies su) ->
  forall ts w, TopoVisit_shape env ts (TopoVisit_deps cb env visit cur deps ts w).
Proof.
  intros Hvisit. induction deps as [|d rest IH]; intros Hdeps ts w; simpl.
  - destruct (ts_mark ts !! cur); simpl; [left; auto | right; split; [discriminate|reflexivity]].
  - assert (forall d0, d0 ∈ rest ->
              exists su, m_Suites env !! cur = Some su /\ d0 ∈ m_Dependencies su) as Hrest.
    { intros d0 H0. apply Hdeps. now apply elem_of_cons; right. }
    destruct (ts_mark ts !! cur) as [[[] second]|]; simpl.
    + now apply IH.
    + destruct (m_SuiteMap env !! d) as [dep|] eqn:Hd.
      * unfold bind. pose proof (Hvisit dep ts w) as Hs.
        destruct (visit dep ts w) as [[code ts1] w1 l1|k w1 l1]; simpl in *; [|exact Hs].
        destruct Hs as [(-> & -> & E)|[(-> & ->)|(-> & E & s & d' & a & -> & Ha & Hu)]].
        -- simpl. rewrite prepend_nil.
           apply (TopoVisit_shape_unsolvable ts ts1); [exact E|]. now apply IH.
        -- simpl. right; left. auto.
        -- simpl. right; right. split; [reflexivity|]. split; [exact E|].
           exists s, d', a. auto.
      * unfold bind, call.
        destruct (OnUnknownDependency cb cur d w) as [a w1]; simpl.
        assert (unknown_dependency_of env cur d) as Hu.
        { split; [exact Hd|]. apply Hdeps. now apply elem_of_cons; left. }
        case_bool_decide as Ha; simpl.
        -- subst a. left. split; [reflexivity|]. exists cur, d. auto.
        -- right; right. split; [reflexivity|]. split; [reflexivity|].
           exists cur, d, a. auto.
    + right. split; [discriminate|reflexivity].
Qed.

Lemma TopoVisit_has_shape (fuel : nat) :
  forall cur ts w, TopoVisit_shape env ts (TopoVisit cb env fuel cur ts w).
Proof.
  induction fuel as [|fuel IH]; intros cur ts w; simpl.
  - right. split; [discriminate|reflexivity].
  - destruct (ts_mark ts !! cur) as [[first second]|]; simpl;
      [|right; split; [discriminate|reflexivity]].
    destruct second; simpl; [right; left; auto|].
    destruct first; simpl; [left; auto|].
    destruct (m_Suites env !! cur) as [s|] eqn:Hs; simpl;
      [|right; split; [discriminate|reflexivity]].
    eapply TopoVisit_shape_unsolvable; [|apply TopoVisit_deps_shape].
    + reflexivity.
    + exact IH.
    + intros d Hd. exists s. auto.
Qed.

Lemma AllowSuite_loop_total (filters : list Filter) (s : nat) (w : W) :
  exists b w', AllowSuite_loop filters s w = Done b w' [].
Proof.
  revert w. induction filters as [|f rest IH]; intros w; simpl.
  - exists true, w. reflexivity.
  - unfold bind, quiet. destruct (IsOK f s w) as [ok w1]. simpl.
    destruct ok.
    + destruct (IH w1) as (b & w' & ->). exists b, w'. reflexivity.
    + exists false, w1. reflexivity.
Qed.

Lemma AllowSuite_total (s : nat) (w : W) :
  exists b w', AllowSuite env s w = Done b w' [].
Proof. apply AllowSuite_loop_total. Qed.

Lemma roots_shape_unsolvable (ts ts1 : TopoState) (o : Outcome (bool * TopoState)) :
  ts_unsolvable ts1 = ts_unsolvable ts ->
  roots_shape env ts1 o -> roots_shape env ts o.
Proof.
  intros E. destruct o as [[b ts'] w l|k w l]; simpl; [|tauto].
  rewrite E. tauto.
Qed.

Lemma SolveDependencies_roots_shape (fuel : nat) (roots : list nat) :
  forall ts w, roots_shape env ts (SolveDependencies_roots cb env fuel roots ts w).
Proof.
  induction roots as [|i rest IH]; intros ts w; simpl.
  - left. auto.
  - destruct (ts_mark ts !! i) as [[[] second]|]; simpl;
      [apply IH| |right; split; [discriminate|reflexivity]].
    unfold bind at 1.
    destruct (AllowSuite_total i w) as (b & w1 & ->). simpl.
    destruct b; [|rewrite prepend_nil; apply IH].
    rewrite prepend_nil. unfold bind.
    pose proof (TopoVisit_has_shape fuel i ts w1) as Hs.
    destruct (TopoVisit cb env fuel i ts w1) as [[code ts1] w2 l2|k w2 l2];
      simpl in *; [|exact Hs].
    destruct Hs as [(-> & -> & E)|[(-> & ->)|(-> & E & s & d & a & -> & Ha & Hu)]]; simpl.
    + rewrite prepend_nil.
      apply (roots_shape_unsolvable ts ts1); [exact E|]. apply IH.
    + right; left. auto.
    + right; right. split; [reflexivity|]. split; [exact E|]. exists s, d, a. auto.
Qed.

End ResolverLog.

(** C4, on the code.  One suite [A] that depends on the name [missing],
    which no suite has, and a callback that answers [Ignore]: after the
    answer [TopoVisit] does not skip the edge.  It goes on to
    [TopoVisit(dep->second, ...)] with [dep == m_SuiteMap.end()], the failed
    lookup; [A] is never placed in the order.  The same in revision one. *)
Theorem ignored_unknown_dependency_reads_failed_lookup :
  let cb := demo_callback Abort Abort Ignore 0 in
  let suites := [plain_suite "A" ["missing"] [passing_test]] in
  let env := demo_env cb suites in
  m_SuiteMap env !! "missing" = None
  /\ Run silent 2 env 0%nat
     = Fault DerefEnd 0%nat [CallOnUnknownDependency 0 "missing" Ignore]
  /\ Rev1.TopoVisit cb suites (m_SuiteMap env) 2 0
       {| Rev1.ts_result := []; Rev1.ts_mark := [false]; Rev1.ts_tempMark := [false] |}
       0%nat
     = Fault DerefEnd 0%nat [CallOnUnknownDependency 0 "missing" Ignore].
Proof. vm_compute. auto. Qed.

(** ** Cycles *)

Section Cycle.
Context {W : Type}.
Variable cb : @ControlCallback W.
Variable env : @Environment W.

(** Roots that the filters reject leave the vectors as they are. *)
Lemma SolveDependencies_roots_rejected (fuel : nat) (x : nat) (rest : list nat)
    (ts : TopoState) :
  (forall i w0 b w1 l, (i < x)%nat -> AllowSuite env i w0 = Done b w1 l -> b = false) ->
  forall (rs : list nat) (w : W),
    (forall i, i ∈ rs -> (i < x)%nat /\ ts_mark ts !! i = Some (false, false)) ->
    exists w1,
      SolveDependencies_roots cb env fuel (rs ++ rest) ts w
      = SolveDependencies_roots cb env fuel rest ts w1.
Proof.
  intros Hrej. induction rs as [|i rs IH]; intros w Hrs; simpl.
  - exists w. reflexivity.
  - destruct (Hrs i) as [Hi Hm]; [apply elem_of_cons; now left|].
    rewrite Hm. unfold bind at 1.
    destruct (AllowSuite_total env i w) as (b & w1 & Ha). rewrite Ha.
    rewrite (Hrej i w b w1 [] Hi Ha). rewrite prepend_nil.
    apply IH. intros i' Hi'. apply Hrs. apply elem_of_cons. now right.
Qed.

End Cycle.

(** ** The dependency resolver on an acyclic graph *)

Lemma whites_le_length (marks : list (bool * bool)) :
  (whites marks <= length marks)%nat.
Proof.
  induction marks as [|m rest IH]; simpl; [lia|].
  case_bool_decide; lia.
Qed.

Lemma whites_replicate (n : nat) : whites (replicate n (false, false)) = n.
Proof. induction n as [|n IH]; simpl; [reflexivity|]. now rewrite IH. Qed.

Lemma whites_insert_white (marks : list (bool * bool)) (i : nat) (m : bool * bool) :
  marks !! i = Some (false, false) -> m <> (false, false) ->
  S (whites (<[i := m]> marks)) = whites marks.
Proof.
  revert i. induction marks as [|m0 rest IH]; intros i Hi Hm; [discriminate|].
  destruct i as [|i]; simpl in *.
  - injection Hi as Hi. subst m0. repeat case_bool_decide; try congruence; lia.
  - rewrite <- (IH i Hi Hm). lia.
Qed.

Lemma whites_insert_other (marks : list (bool * bool)) (i : nat) (m0 m : bool * bool) :
  marks !! i = Some m0 -> m0 <> (false, false) -> m <> (false, false) ->
  whites (<[i := m]> marks) = whites marks.
Proof.
  revert i. induction marks as [|m1 rest IH]; intros i Hi H0 Hm; [discriminate|].
  destruct i as [|i]; simpl in *.
  - injection Hi as Hi. subst m1. repeat case_bool_decide; try congruence; lia.
  - now rewrite (IH i Hi H0 Hm).
Qed.

Lemma precedes_app (b a : nat) (l l' : list nat) :
  precedes b a l -> precedes b a (l ++ l').
Proof.
  intros (i & j & Hij & Hi & Hj). exists i, j. split; [exact Hij|].
  split; apply lookup_app_l_Some; assumption.
Qed.

Lemma grows_refl (ts : TopoState) : grows ts ts.
Proof. split; [tauto|auto|exists []; now rewrite app_nil_r|lia]. Qed.

Lemma grows_trans (ts1 ts2 ts3 : TopoState) :
  grows ts1 ts2 -> grows ts2 ts3 -> grows ts1 ts3.
Proof.
  intros [G1 B1 [n1 R1] W1] [G2 B2 [n2 R2] W2]. split.
  - intros i. rewrite G2. apply G1.
  - auto.
  - exists (n1 ++ n2). rewrite R2, R1. now rewrite app_assoc.
  - lia.
Qed.

Section Acyclic.
Context {W : Type}.
Variable cb : @ControlCallback W.
Variable env : @Environment W.
Hypothesis Hmap : forall d b, m_SuiteMap env !! d = Some b ->
                              (b < length (m_Suites env))%nat.
Hypothesis Hres : all_resolve env.
Hypothesis Hacyc : acyclic env.

(** Marking an unvisited suite "on the stack" keeps the invariant. *)
Lemma resolver_inv_push (ts : TopoState) (cur : nat) :
  resolver_inv env ts ->
  ts_mark ts !! cur = Some (false, false) ->
  resolver_inv env {| ts_result := ts_result ts;
                      ts_mark := <[cur := (false, true)]> (ts_mark ts);
                      ts_unsolvable := ts_unsolvable ts |}.
Proof.
  intros [HL HC HB HN HO] Hcur. split; simpl; try assumption.
  - now rewrite length_insert.
  - intros i m Hi. destruct (decide (i = cur)) as [->|Hne].
    + rewrite list_lookup_insert_eq in Hi by (eapply lookup_lt_Some; eauto).
      injection Hi as <-. discriminate.
    + rewrite list_lookup_insert_ne in Hi by congruence. eauto.
  - intros i. rewrite <- HB. unfold black. simpl.
    destruct (decide (i = cur)) as [->|Hne].
    + rewrite list_lookup_insert_eq by (eapply lookup_lt_Some; eauto).
      rewrite Hcur. split; discriminate.
    + rewrite list_lookup_insert_ne by congruence. tauto.
Qed.

(** The loop over the dependencies of [cur], once [cur] is on the stack
    and the dependencies [done] are finished. *)
Lemma TopoVisit_deps_success (fuel : nat) (cur : nat) (s : Suite) :
  (forall c ts w,
      resolver_inv env ts -> (c < length (m_Suites env))%nat ->
      (forall g, gray ts g -> tc (depends env) g c) ->
      (whites (ts_mark ts) < fuel)%nat ->
      exists ts', TopoVisit cb env fuel c ts w = Done (0, ts') w []
                  /\ resolver_inv env ts' /\ grows ts ts' /\ black ts' c) ->
  m_Suites env !! cur = Some s ->
  forall (rest done : list string) (ts : TopoState) (w : W),
    m_Dependencies s = done ++ rest ->
    resolver_inv env ts ->
    gray ts cur ->
    (forall g, gray ts g -> g = cur \/ tc (depends env) g cur) ->
    (whites (ts_mark ts) < fuel)%nat ->
    (forall d b, d ∈ done -> m_SuiteMap env !! d = Some b -> black ts b) ->
    exists ts',
      TopoVisit_deps cb env (TopoVisit cb env fuel) cur rest ts w = Done (0, ts') w []
      /\ resolver_inv env ts'
      /\ (forall i, gray ts' i <-> gray ts i /\ i <> cur)
      /\ (forall i, black ts i -> black ts' i)
      /\ (exists new, ts_result ts' = ts_result ts ++ new)
      /\ (whites (ts_mark ts') <= whites (ts_mark ts))%nat
      /\ black ts' cur.
Proof.
  intros IHvisit Hs. induction rest as [|d rest IH];
    intros done ts w Hdeps Hinv Hgray Hreach Hfuel Hdone.
  - (* the loop is over: [cur] is finished and pushed *)
    simpl. unfold gray in Hgray. rewrite Hgray.
    pose proof (lookup_lt_Some _ _ _ Hgray) as Hlt.
    destruct Hinv as [HL HC HB HN HO].
    rewrite app_nil_r in Hdeps.
    assert (cur ∉ ts_result ts) as Hnotin.
    { rewrite <- HB. unfold black. rewrite Hgray. discriminate. }
    eexists. split; [reflexivity|].
    split; [|split; [|split; [|split; [|split]]]].
    + split; simpl.
      * now rewrite length_insert.
      * intros i m Hi. destruct (decide (i = cur)) as [->|Hne].
        -- rewrite list_lookup_insert_eq in Hi by exact Hlt.
           injection Hi as <-. discriminate.
        -- rewrite list_lookup_insert_ne in Hi by congruence. eauto.
      * intros i. unfold black. simpl. rewrite elem_of_app, list_elem_of_singleton.
        destruct (decide (i = cur)) as [->|Hne].
        -- rewrite list_lookup_insert_eq by exact Hlt. tauto.
        -- rewrite list_lookup_insert_ne by congruence.
           fold (black ts i). rewrite HB. tauto.
      * apply NoDup_app. split; [exact HN|]. split; [|apply NoDup_singleton].
        intros x Hx Hx'. apply list_elem_of_singleton in Hx'. now subst x.
      * intros a b Ha Hab. apply elem_of_app in Ha as [Ha|Ha].
        -- apply precedes_app. now apply HO.
        -- apply list_elem_of_singleton in Ha. subst a.
           destruct Hab as (s' & d & Hs' & Hd & Hb).
           rewrite Hs in Hs'. injection Hs' as <-. rewrite Hdeps in Hd.
           pose proof (Hdone d b Hd Hb) as Hblack. apply HB in Hblack.
           apply list_elem_of_lookup in Hblack as [i Hi].
           exists i, (length (ts_result ts)).
           split; [eapply lookup_lt_Some; eauto|].
           split; [now apply lookup_app_l_Some|].
           rewrite lookup_app_r by lia. now rewrite Nat.sub_diag.
    + intros i. unfold gray. simpl. destruct (decide (i = cur)) as [->|Hne].
      * rewrite list_lookup_insert_eq by exact Hlt.
        split; [discriminate|tauto].
      * rewrite list_lookup_insert_ne by congruence. tauto.
    + intros i Hi. unfold black in *. simpl.
      destruct (decide (i = cur)) as [->|Hne].
      * rewrite Hgray in Hi. discriminate.
      * now rewrite list_lookup_insert_ne by congruence.
    + simpl. eauto.
    + simpl. erewrite whites_insert_other; [lia|exact Hgray|discriminate|discriminate].
    + unfold black. simpl. now apply list_lookup_insert_eq.
  - (* one more dependency: it resolves, and its visit returns 0 *)
    simpl. unfold gray in Hgray. rewrite Hgray.
    assert (d ∈ m_Dependencies s) as Hd.
    { rewrite Hdeps. apply elem_of_app. right. apply elem_of_cons. now left. }
    destruct (Hres cur s d Hs Hd) as [b Hb]. rewrite Hb.
    destruct (IHvisit b ts w Hinv (Hmap d b Hb)) as (ts1 & Hv & Hinv1 & Hg1 & Hb1).
    { intros g Hg. destruct (Hreach g Hg) as [->|Hgc].
      - apply tc_once. exists s, d. auto.
      - eapply tc_r; [exact Hgc|]. exists s, d. auto. }
    { exact Hfuel. }
    unfold bind. rewrite Hv. cbn [prepend].
    rewrite bool_decide_eq_false_2 by (intros H; now apply H).
    rewrite prepend_nil.
    destruct Hg1 as [G1 B1 R1 W1].
    destruct (IH (done ++ [d]) ts1 w) as (ts' & Hl & Hinv' & G' & B' & R' & W' & Hc').
    + now rewrite <- app_assoc.
    + exact Hinv1.
    + apply G1. exact Hgray.
    + intros g Hg. apply Hreach. now apply G1.
    + lia.
    + intros d' b' Hd' Hb'. apply elem_of_app in Hd' as [Hd'|Hd'].
      * apply B1. eauto.
      * apply list_elem_of_singleton in Hd'. subst d'.
        rewrite Hb in Hb'. injection Hb' as <-. exact Hb1.
    + exists ts'. split; [exact Hl|]. split; [exact Hinv'|].
      split; [|split; [|split; [|split]]].
      * intros i. rewrite G'. now rewrite G1.
      * auto.
      * destruct R1 as [n1 R1]. destruct R' as [n' R'].
        exists (n1 ++ n'). rewrite R', R1. now rewrite app_assoc.
      * lia.
      * exact Hc'.
Qed.

(** On an acyclic graph whose names resolve, [TopoVisit] returns 0 without
    a word to the callback, enough fuel given. *)
Lemma TopoVisit_success (fuel : nat) :
  forall c ts w,
    resolver_inv env ts -> (c < length (m_Suites env))%nat ->
    (forall g, gray ts g -> tc (depends env) g c) ->
    (whites (ts_mark ts) < fuel)%nat ->
    exists ts', TopoVisit cb env fuel c ts w = Done (0, ts') w []
                /\ resolver_inv env ts' /\ grows ts ts' /\ black ts' c.
Proof.
  induction fuel as [|fuel IH]; intros c ts w Hinv Hc Hreach Hfuel; [lia|].
  simpl.
  destruct (ts_mark ts !! c) as [[first second]|] eqn:Hm.
  2:{ apply lookup_ge_None in Hm. rewrite (inv_length env ts Hinv) in Hm. lia. }
  destruct second.
  { (* on the stack: a cycle *)
    destruct first; [now destruct (inv_colors env ts Hinv c _ Hm)|].
    exfalso. apply (Hacyc c). now apply Hreach. }
  destruct first.
  { exists ts. split; [reflexivity|]. split; [exact Hinv|].
    split; [apply grows_refl|exact Hm]. }
  destruct (m_Suites env !! c) as [s|] eqn:Hs.
  2:{ apply lookup_ge_None in Hs. lia. }
  pose proof (lookup_lt_Some _ _ _ Hm) as Hlt.
  set (ts1 := {| ts_result := ts_result ts;
                 ts_mark := <[c := (false, true)]> (ts_mark ts);
                 ts_unsolvable := ts_unsolvable ts |}).
  assert (S (whites (ts_mark ts1)) = whites (ts_mark ts)) as Hw1.
  { apply whites_insert_white; [exact Hm|discriminate]. }
  destruct (TopoVisit_deps_success fuel c s IH Hs (m_Dependencies s) [] ts1 w)
    as (ts' & Hl & Hinv' & G' & B' & R' & W' & Hc').
  - reflexivity.
  - now apply resolver_inv_push.
  - unfold gray, ts1. simpl. now apply list_lookup_insert_eq.
  - intros g Hg. unfold gray, ts1 in Hg. simpl in Hg.
    destruct (decide (g = c)) as [->|Hne]; [now left|].
    rewrite list_lookup_insert_ne in Hg by congruence. right. now apply Hreach.
  - lia.
  - intros d b Hd. now apply elem_of_nil in Hd.
  - exists ts'. split; [exact Hl|]. split; [exact Hinv'|]. split; [|exact Hc'].
    split.
    + intros i. rewrite G'. unfold gray, ts1. simpl.
      destruct (decide (i = c)) as [->|Hne].
      * rewrite Hm. split; [tauto|discriminate].
      * rewrite list_lookup_insert_ne by congruence. tauto.
    + intros i Hi. apply B'. unfold black, ts1 in *. simpl.
      destruct (decide (i = c)) as [->|Hne]; [congruence|].
      now rewrite list_lookup_insert_ne by congruence.
    + exact R'.
    + lia.
Qed.

(** The loop over the roots ends with [succeded] true. *)
Lemma SolveDependencies_roots_success (fuel : nat) (roots : list nat) :
  forall ts w,
    resolver_inv env ts ->
    (forall g, ~ gray ts g) ->
    (length (m_Suites env) < fuel)%nat ->
    (forall i, i ∈ roots -> (i < length (m_Suites env))%nat) ->
    exists ts' w',
      SolveDependencies_roots cb env fuel roots ts w = Done (true, ts') w' []
      /\ resolver_inv env ts'
      /\ (forall g, ~ gray ts' g).
Proof.
  induction roots as [|i rest IH]; intros ts w Hinv Hnogray Hfuel Hroots; simpl.
  - exists ts, w. auto.
  - assert (forall i0, i0 ∈ rest -> (i0 < length (m_Suites env))%nat) as Hrest.
    { intros i0 H0. apply Hroots. apply elem_of_cons. now right. }
    assert (i < length (m_Suites env))%nat as Hi.
    { apply Hroots. apply elem_of_cons. now left. }
    destruct (ts_mark ts !! i) as [[first second]|] eqn:Hm.
    2:{ apply lookup_ge_None in Hm. rewrite (inv_length env ts Hinv) in Hm. lia. }
    destruct first; [now apply IH|].
    unfold bind at 1. destruct (AllowSuite_total env i w) as (b & w1 & ->).
    cbn [prepend]. rewrite prepend_nil. destruct b; [|now apply IH].
    destruct (TopoVisit_success fuel i ts w1 Hinv Hi) as (ts1 & Hv & Hinv1 & Hg1 & _).
    + intros g Hg. now destruct (Hnogray g).
    + pose proof (whites_le_length (ts_mark ts)) as Hle.
      rewrite (inv_length env ts Hinv) in Hle. lia.
    + unfold bind. rewrite Hv. cbn [prepend].
      rewrite bool_decide_eq_true_2 by reflexivity. rewrite prepend_nil.
      apply IH; try assumption.
      intros g Hg. apply (Hnogray g). now apply (grows_gray _ _ Hg1).
Qed.

(** [SolveDependencies] succeeds, and every suite of the order stands
    after the suites it depends on. *)
Lemma SolveDependencies_success (w : W) :
  exists order w',
    SolveDependencies cb env (S (length (m_Suites env))) [] w = Done (true, order) w' []
    /\ NoDup order
    /\ (forall a b, a ∈ order -> depends env a b -> precedes b a order).
Proof.
  set (n := length (m_Suites env)).
  set (ts0 := {| ts_result := []; ts_mark := replicate n (false, false);
                 ts_unsolvable := [] |}).
  destruct (SolveDependencies_roots_success (S n) (seq 0 n) ts0 w)
    as (ts' & w' & Hr & Hinv & _).
  - split; simpl.
    + apply length_replicate.
    + intros i m Hi. apply lookup_replicate in Hi as [-> _]. discriminate.
    + intros i. unfold black. simpl. split.
      * intros Hi. apply lookup_replicate in Hi as [Hi _]. discriminate.
      * intros Hi. now apply elem_of_nil in Hi.
    + apply NoDup_nil_2.
    + intros a b Ha. now apply elem_of_nil in Ha.
  - intros g Hg. unfold gray in Hg. simpl in Hg.
    apply lookup_replicate in Hg as [Hg _]. discriminate.
  - fold n. lia.
  - intros i Hi. apply elem_of_seq in Hi. fold n. lia.
  - exists (ts_result ts'), w'. split.
    + unfold SolveDependencies. fold n. fold ts0. unfold bind. rewrite Hr.
      reflexivity.
    + split; [apply (inv_nodup env ts' Hinv)|apply (inv_order env ts' Hinv)].
Qed.

End Acyclic.

(** ** What the resolver meets first *)

Section Obstacles.
Context {W : Type}.
Variable cb : @ControlCallback W.
Variable env : @Environment W.

Lemma solvable_step (z b : nat) :
  solvable env z -> depends env z b -> solvable env b.
Proof. intros Hz Hzb z' Hr. apply Hz. eapply rtc_l; eauto. Qed.

Lemma solvable_dependency (z : nat) (s : Suite) (d : string) :
  solvable env z -> m_Suites env !! z = Some s -> d ∈ m_Dependencies s ->
  exists b, m_SuiteMap env !! d = Some b /\ solvable env b /\ depends env z b.
Proof.
  intros Hz Hs Hd. destruct (Hz z (rtc_refl _ _)) as (_ & _ & Hres).
  destruct (Hres s d Hs Hd) as [b Hb]. exists b.
  assert (depends env z b) as Hzb by (exists s, d; auto).
  split; [exact Hb|]. split; [|exact Hzb]. eapply solvable_step; eauto.
Qed.

Lemma first_obstacle_unsolvable (z : nat) (d : string) :
  first_obstacle env z d -> ~ solvable env z.
Proof.
  intros (s & pre & rest & Hs & Hdeps & _ & Hnot) Hz. apply Hnot.
  destruct (solvable_dependency z s d Hz Hs) as (b & Hb & Hsb & _).
  { rewrite Hdeps. apply elem_of_app. right. apply elem_of_cons. now left. }
  exists b. auto.
Qed.

Lemma first_split {A : Type} (P : A -> Prop) (pre pre' : list A) (d d' : A)
    (rest rest' : list A) :
  pre ++ d :: rest = pre' ++ d' :: rest' ->
  Forall P pre -> ~ P d -> Forall P pre' -> ~ P d' -> d = d'.
Proof.
  revert pre'. induction pre as [|a pre IH]; intros [|a' pre'] E Hp Hd Hp' Hd';
    simpl in E.
  - congruence.
  - injection E as -> _. inversion Hp'; subst. contradiction.
  - injection E as -> _. inversion Hp; subst. contradiction.
  - injection E as -> E. inversion Hp; inversion Hp'; subst. eapply IH; eauto.
Qed.

Lemma first_obstacle_functional (z : nat) (d d' : string) :
  first_obstacle env z d -> first_obstacle env z d' -> d = d'.
Proof.
  intros (s & pre & rest & Hs & Hdeps & Hp & Hd)
         (s' & pre' & rest' & Hs' & Hdeps' & Hp' & Hd').
  rewrite Hs in Hs'. injection Hs' as <-. rewrite Hdeps in Hdeps'.
  eapply first_split; eauto.
Qed.

Lemma descends_functional (z a b : nat) :
  descends env z a -> descends env z b -> a = b.
Proof.
  intros (d & Hd & Ha) (d' & Hd' & Hb).
  rewrite (first_obstacle_functional z d d' Hd Hd') in Ha. congruence.
Qed.

Lemma descends_depends (z z' : nat) : descends env z z' -> depends env z z'.
Proof.
  intros (d & (s & pre & rest & Hs & Hdeps & _) & Hd). exists s, d.
  split; [exact Hs|]. split; [|exact Hd].
  rewrite Hdeps. apply elem_of_app. right. apply elem_of_cons. now left.
Qed.

Lemma descends_unsolvable (z z' : nat) : descends env z z' -> ~ solvable env z.
Proof. intros (d & Hd & _). eapply first_obstacle_unsolvable; eauto. Qed.

Lemma tc_descends_unsolvable (i z : nat) :
  tc (descends env) i z -> ~ solvable env i.
Proof. intros H. inversion H; subst; eapply descends_unsolvable; eauto. Qed.

(** The way down from a suite to an unknown name passes no suite twice. *)
Lemma no_descends_cycle (s : nat) :
  (forall t, ~ descends env s t) ->
  forall z, rtc (descends env) z s -> ~ tc (descends env) z z.
Proof.
  intros Hend. apply (rtc_ind_l (fun z => ~ tc (descends env) z z)).
  - intros H. inversion H; subst; eapply Hend; eauto.
  - intros z y Hzy Hys IH H. apply IH.
    inversion H as [? ? Hzz|? y' ? Hzy' Hy'z]; subst.
    + rewrite <- (descends_functional z z y Hzz Hzy). now apply tc_once.
    + rewrite (descends_functional z y' y Hzy' Hzy) in Hy'z. eapply tc_r; eauto.
Qed.

Lemma finishes_refl (ts : TopoState) : tidy env ts -> finishes env ts ts.
Proof. intros Ht. split; [exact Ht|]. split; [auto|]. split; [lia|reflexivity]. Qed.

Lemma finishes_trans (ts1 ts2 ts3 : TopoState) :
  finishes env ts1 ts2 -> finishes env ts2 ts3 -> finishes env ts1 ts3.
Proof.
  intros (_ & M1 & W1 & U1) (T & M2 & W2 & U2).
  split; [exact T|]. split; [|split; [lia|congruence]].
  intros i m Hi. destruct (M1 i m Hi) as [H|(-> & H & Hs)].
  - apply M2. exact H.
  - right. split; [reflexivity|]. split; [|exact Hs].
    destruct (M2 i _ H) as [H'|(E & _)]; [exact H'|discriminate].
Qed.

(** A mark "on the stack" after such a visit was there before it. *)
Lemma finishes_stack (ts ts' : TopoState) (i : nat) (f : bool) :
  tidy env ts -> finishes env ts ts' ->
  ts_mark ts' !! i = Some (f, true) -> ts_mark ts !! i = Some (f, true).
Proof.
  intros [HL _] ([HL' _] & M & _) Hi.
  destruct (ts_mark ts !! i) as [m|] eqn:Hm.
  - destruct (M i m Hm) as [H|(_ & H & _)]; congruence.
  - apply lookup_ge_None in Hm. apply lookup_lt_Some in Hi. lia.
Qed.

(** The mark of a suite that was visited before, or is not solvable,
    stays. *)
Lemma finishes_keeps (ts ts' : TopoState) (i : nat) (m : bool * bool) :
  finishes env ts ts' -> ts_mark ts !! i = Some m ->
  m <> (false, false) \/ ~ solvable env i ->
  ts_mark ts' !! i = Some m.
Proof.
  intros (_ & M & _) Hi Hor. destruct (M i m Hi) as [H|(E & _ & Hs)]; [exact H|].
  destruct Hor; contradiction.
Qed.

(** The loop over the dependencies of a solvable suite. *)
Lemma TopoVisit_deps_solvable (fuel : nat) (cur : nat) (s : Suite) :
  (forall c ts w,
      tidy env ts -> solvable env c ->
      (forall i f, ts_mark ts !! i = Some (f, true) ->
                   ~ solvable env i \/ tc (depends env) i c) ->
      (whites (ts_mark ts) < fuel)%nat ->
      exists ts', TopoVisit cb env fuel c ts w = Done (0, ts') w []
                  /\ finishes env ts ts') ->
  m_Suites env !! cur = Some s -> solvable env cur ->
  forall (rest : list string) (ts : TopoState) (w : W),
    (forall d, d ∈ rest -> d ∈ m_Dependencies s) ->
    tidy env ts ->
    ts_mark ts !! cur = Some (false, true) ->
    (forall i f, ts_mark ts !! i = Some (f, true) ->
                 i = cur \/ ~ solvable env i \/ tc (depends env) i cur) ->
    (whites (ts_mark ts) < fuel)%nat ->
    exists ts',
      TopoVisit_deps cb env (TopoVisit cb env fuel) cur rest ts w = Done (0, ts') w []
      /\ tidy env ts'
      /\ ts_mark ts' !! cur = Some (true, false)
      /\ (forall i m, i <> cur -> ts_mark ts !! i = Some m ->
            ts_mark ts' !! i = Some m
            \/ (m = (false, false) /\ ts_mark ts' !! i = Some (true, false)
                /\ solvable env i))
      /\ (whites (ts_mark ts') <= whites (ts_mark ts))%nat
      /\ ts_unsolvable ts' = ts_unsolvable ts.
Proof.
  intros IHv Hs Hsol. induction rest as [|d rest IH];
    intros ts w Hdeps Ht Hcur Hstack Hfuel.
  - simpl. rewrite Hcur. eexists. split; [reflexivity|]. simpl.
    pose proof (lookup_lt_Some _ _ _ Hcur) as Hlt. destruct Ht as [HL HB].
    split; [split; simpl|].
    + now rewrite length_insert.
    + intros i sec Hi. destruct (decide (i = cur)) as [->|Hne]; [exact Hsol|].
      rewrite list_lookup_insert_ne in Hi by congruence. eauto.
    + split; [now apply list_lookup_insert_eq|]. split; [|split].
      * intros i m Hne Hi. left. now rewrite list_lookup_insert_ne by congruence.
      * erewrite whites_insert_other; [lia|exact Hcur|discriminate|discriminate].
      * reflexivity.
  - simpl. rewrite Hcur.
    destruct (solvable_dependency cur s d Hsol Hs) as (b & Hb & Hsb & Hcb).
    { apply Hdeps. apply elem_of_cons. now left. }
    rewrite Hb.
    destruct (IHv b ts w Ht Hsb) as (ts1 & Hv & Hf1).
    { intros i f Hi. destruct (Hstack i f Hi) as [->|[Hn|Htc]].
      - right. now apply tc_once.
      - now left.
      - right. eapply tc_r; eauto. }
    { exact Hfuel. }
    unfold bind. rewrite Hv. cbn [prepend].
    rewrite bool_decide_eq_false_2 by (intros H; now apply H).
    rewrite prepend_nil.
    destruct (IH ts1 w) as (ts' & Hl & Ht' & Hc' & M' & W' & U').
    + intros d' Hd'. apply Hdeps. apply elem_of_cons. now right.
    + apply Hf1.
    + eapply finishes_keeps; [exact Hf1|exact Hcur|left; discriminate].
    + intros i f Hi. apply (Hstack i f). eapply finishes_stack; eauto.
    + destruct Hf1 as (_ & _ & W1 & _). lia.
    + exists ts'. split; [exact Hl|]. split; [exact Ht'|]. split; [exact Hc'|].
      destruct Hf1 as (_ & M1 & W1 & U1). split; [|split; [lia|congruence]].
      intros i m Hne Hi. destruct (M1 i m Hi) as [H|(-> & H & Hsi)].
      * now apply M'.
      * right. split; [reflexivity|]. split; [|exact Hsi].
        destruct (M' i _ Hne H) as [H'|(E & _)]; [exact H'|discriminate].
Qed.

(** The visit of a solvable suite returns 0 without a word to the
    callback, and marks solvable suites only. *)
Lemma TopoVisit_solvable (fuel : nat) :
  forall c ts w,
    tidy env ts -> solvable env c ->
    (forall i f, ts_mark ts !! i = Some (f, true) ->
                 ~ solvable env i \/ tc (depends env) i c) ->
    (whites (ts_mark ts) < fuel)%nat ->
    exists ts', TopoVisit cb env fuel c ts w = Done (0, ts') w []
                /\ finishes env ts ts'.
Proof.
  induction fuel as [|fuel IH]; intros c ts w Ht Hc Hstack Hfuel; [lia|].
  simpl.
  destruct (Hc c (rtc_refl _ _)) as ([s Hs] & Hnc & _).
  pose proof (lookup_lt_Some _ _ _ Hs) as Hlt.
  destruct (ts_mark ts !! c) as [[first second]|] eqn:Hm.
  2:{ apply lookup_ge_None in Hm. destruct Ht as [HL _]. lia. }
  pose proof (lookup_lt_Some _ _ _ Hm) as Hltm.
  destruct second.
  { exfalso. destruct (Hstack c first Hm) as [H|H]; [now apply H|now apply Hnc]. }
  destruct first.
  { exists ts. split; [reflexivity|]. now apply finishes_refl. }
  rewrite Hs.
  set (ts1 := {| ts_result := ts_result ts;
                 ts_mark := <[c := (false, true)]> (ts_mark ts);
                 ts_unsolvable := ts_unsolvable ts |}).
  assert (S (whites (ts_mark ts1)) = whites (ts_mark ts)) as Hw1.
  { apply whites_insert_white; [exact Hm|discriminate]. }
  destruct (TopoVisit_deps_solvable fuel c s IH Hs Hc (m_Dependencies s) ts1 w)
    as (ts' & Hl & Ht' & Hc' & M' & W' & U').
  - auto.
  - destruct Ht as [HL HB]. split; simpl.
    + now rewrite length_insert.
    + intros i sec Hi. destruct (decide (i = c)) as [->|Hne].
      * rewrite list_lookup_insert_eq in Hi by exact Hltm. discriminate.
      * rewrite list_lookup_insert_ne in Hi by congruence. eauto.
  - simpl. now apply list_lookup_insert_eq.
  - intros i f Hi. simpl in Hi. destruct (decide (i = c)) as [->|Hne]; [now left|].
    rewrite list_lookup_insert_ne in Hi by congruence. right. exact (Hstack i f Hi).
  - lia.
  - exists ts'. split; [exact Hl|]. split; [exact Ht'|]. split; [|split; [lia|exact U']].
    intros i m Hi. destruct (decide (i = c)) as [->|Hne].
    + rewrite Hm in Hi. injection Hi as <-. right. auto.
    + apply M'; [exact Hne|]. simpl. now rewrite list_lookup_insert_ne by congruence.
Qed.

(** The loop over the dependencies of a suite on the stack passes the
    dependencies that resolve to solvable suites. *)
Lemma TopoVisit_deps_prefix (fuel : nat) (cur : nat) (pre tail : list string) :
  Forall (solvable_name env) pre ->
  forall ts w,
    tidy env ts ->
    ts_mark ts !! cur = Some (false, true) ->
    (forall i f, ts_mark ts !! i = Some (f, true) -> ~ solvable env i) ->
    (whites (ts_mark ts) < fuel)%nat ->
    exists ts',
      TopoVisit_deps cb env (TopoVisit cb env fuel) cur (pre ++ tail) ts w
      = TopoVisit_deps cb env (TopoVisit cb env fuel) cur tail ts' w
      /\ finishes env ts ts'.
Proof.
  induction 1 as [|d pre Hd Hpre IH]; intros ts w Ht Hcur Hstack Hfuel.
  - exists ts. split; [reflexivity|now apply finishes_refl].
  - simpl. rewrite Hcur. destruct Hd as (b & Hb & Hsb). rewrite Hb.
    destruct (TopoVisit_solvable fuel b ts w Ht Hsb) as (ts1 & Hv & Hf1).
    { intros i f Hi. left. eauto. }
    { exact Hfuel. }
    unfold bind. rewrite Hv. cbn [prepend].
    rewrite bool_decide_eq_false_2 by (intros H; now apply H).
    rewrite prepend_nil.
    destruct (IH ts1 w) as (ts' & Hl & Hf').
    + apply Hf1.
    + eapply finishes_keeps; [exact Hf1|exact Hcur|left; discriminate].
    + intros i f Hi. apply (Hstack i f). eapply finishes_stack; eauto.
    + destruct Hf1 as (_ & _ & W1 & _). lia.
    + exists ts'. split; [exact Hl|]. eapply finishes_trans; eauto.
Qed.

(** The loop over the roots passes the roots that the filters reject and
    the roots that are solvable. *)
Lemma SolveDependencies_roots_prefix (fuel : nat) (rest : list nat) (rs : list nat) :
  (forall i, i ∈ rs -> (i < length (m_Suites env))%nat) ->
  (forall i w0 w1 l, i ∈ rs -> AllowSuite env i w0 = Done true w1 l -> solvable env i) ->
  forall ts w,
    tidy env ts ->
    (forall i f, ts_mark ts !! i = Some (f, true) -> ~ solvable env i) ->
    (whites (ts_mark ts) < fuel)%nat ->
    exists ts' w',
      SolveDependencies_roots cb env fuel (rs ++ rest) ts w
      = SolveDependencies_roots cb env fuel rest ts' w'
      /\ finishes env ts ts'.
Proof.
  induction rs as [|r rs IH]; intros Hin Hadm ts w Ht Hstack Hfuel.
  - exists ts, w. split; [reflexivity|now apply finishes_refl].
  - assert (forall i, i ∈ rs -> (i < length (m_Suites env))%nat) as Hin'.
    { intros i Hi. apply Hin. apply elem_of_cons. now right. }
    assert (forall i w0 w1 l, i ∈ rs -> AllowSuite env i w0 = Done true w1 l ->
                              solvable env i) as Hadm'.
    { intros i w0 w1 l Hi. apply Hadm. apply elem_of_cons. now right. }
    simpl.
    destruct (ts_mark ts !! r) as [[first second]|] eqn:Hm.
    2:{ apply lookup_ge_None in Hm. destruct Ht as [HL _].
        assert (r < length (m_Suites env))%nat by (apply Hin; apply elem_of_cons; now left).
        lia. }
    destruct first; [now apply IH|].
    unfold bind at 1. destruct (AllowSuite_total env r w) as (b & w1 & Ha).
    rewrite Ha. cbn [prepend]. rewrite prepend_nil.
    destruct b; [|now apply IH].
    destruct (TopoVisit_solvable fuel r ts w1 Ht) as (ts1 & Hv & Hf1).
    { eapply Hadm; [apply elem_of_cons; now left|exact Ha]. }
    { intros i f Hi. left. eauto. }
    { exact Hfuel. }
    unfold bind. rewrite Hv. cbn [prepend].
    rewrite bool_decide_eq_true_2 by reflexivity. rewrite prepend_nil.
    destruct (IH Hin' Hadm' ts1 w1) as (ts' & w' & Hl & Hf').
    + apply Hf1.
    + intros i f Hi. apply (Hstack i f). eapply finishes_stack; eauto.
    + destruct Hf1 as (_ & _ & W1 & _). lia.
    + exists ts', w'. split; [exact Hl|]. eapply finishes_trans; eauto.
Qed.

(** The visit of a suite that is not solvable goes through its
    dependencies up to the first obstacle. *)
Lemma TopoVisit_to_obstacle (fuel : nat) (z : nat) (d0 : string) (ts : TopoState) (w : W) :
  first_obstacle env z d0 ->
  tidy env ts ->
  (forall f, ts_mark ts !! z <> Some (f, true)) ->
  (forall i f, ts_mark ts !! i = Some (f, true) -> ~ solvable env i) ->
  (whites (ts_mark ts) < S fuel)%nat ->
  exists rest ts',
    TopoVisit cb env (S fuel) z ts w
    = TopoVisit_deps cb env (TopoVisit cb env fuel) z (d0 :: rest) ts' w
    /\ tidy env ts'
    /\ ts_mark ts' !! z = Some (false, true)
    /\ (forall i f, ts_mark ts' !! i = Some (f, true) ->
                    i = z \/ ts_mark ts !! i = Some (f, true))
    /\ (forall i m, i <> z -> ts_mark ts !! i = Some m -> ~ solvable env i ->
                    ts_mark ts' !! i = Some m)
    /\ (whites (ts_mark ts') < fuel)%nat
    /\ ts_unsolvable ts' = ts_unsolvable ts.
Proof.
  intros Hfo Ht Hnot Hstack Hfuel.
  pose proof (first_obstacle_unsolvable z d0 Hfo) as Hun.
  destruct Hfo as (s & pre & rest & Hs & Hdeps & Hpre & _).
  pose proof (lookup_lt_Some _ _ _ Hs) as Hlt.
  destruct (ts_mark ts !! z) as [[first second]|] eqn:Hm.
  2:{ apply lookup_ge_None in Hm. destruct Ht as [HL _]. lia. }
  pose proof (lookup_lt_Some _ _ _ Hm) as Hltm.
  destruct second; [now destruct (Hnot first)|].
  destruct first; [destruct Ht as [_ HB]; destruct Hun; eauto|].
  set (ts1 := {| ts_result := ts_result ts;
                 ts_mark := <[z := (false, true)]> (ts_mark ts);
                 ts_unsolvable := ts_unsolvable ts |}).
  assert (S (whites (ts_mark ts1)) = whites (ts_mark ts)) as Hw1.
  { apply whites_insert_white; [exact Hm|discriminate]. }
  assert (tidy env ts1) as Ht1.
  { destruct Ht as [HL HB]. split; simpl.
    - now rewrite length_insert.
    - intros i sec Hi. destruct (decide (i = z)) as [->|Hne].
      + rewrite list_lookup_insert_eq in Hi by exact Hltm. discriminate.
      + rewrite list_lookup_insert_ne in Hi by congruence. eauto. }
  assert (ts_mark ts1 !! z = Some (false, true)) as Hz1.
  { simpl. now apply list_lookup_insert_eq. }
  destruct (TopoVisit_deps_prefix fuel z pre (d0 :: rest) Hpre ts1 w Ht1 Hz1)
    as (ts' & Hl & Hf').
  { intros i f Hi. simpl in Hi. destruct (decide (i = z)) as [->|Hne]; [exact Hun|].
    rewrite list_lookup_insert_ne in Hi by congruence. eauto. }
  { lia. }
  exists rest, ts'. split.
  { simpl. rewrite Hm, Hs, Hdeps. exact Hl. }
  split; [apply Hf'|].
  split; [eapply finishes_keeps; [exact Hf'|exact Hz1|left; discriminate]|].
  split; [|split; [|split]].
  - intros i f Hi. pose proof (finishes_stack ts1 ts' i f Ht1 Hf' Hi) as Hi1.
    simpl in Hi1. destruct (decide (i = z)) as [->|Hne]; [now left|].
    rewrite list_lookup_insert_ne in Hi1 by congruence. now right.
  - intros i m Hne Hi Hu. eapply finishes_keeps; [exact Hf'| |now right].
    simpl. now rewrite list_lookup_insert_ne by congruence.
  - destruct Hf' as (_ & _ & W' & _). lia.
  - destruct Hf' as (_ & _ & _ & U'). exact U'.
Qed.

(** The vectors [SolveDependencies] starts from. *)
Lemma tidy_initial (result : list nat) :
  tidy env {| ts_result := result;
              ts_mark := replicate (length (m_Suites env)) (false, false);
              ts_unsolvable := [] |}.
Proof.
  split; simpl; [apply length_replicate|].
  intros i sec Hi. apply lookup_replicate in Hi as [Hi _]. discriminate.
Qed.

(** *** Two suites that depend on each other *)

Lemma TopoVisit_mutual (fuel : nat) (x y : nat) (ts : TopoState) (w : W) :
  x <> y -> descends env x y -> descends env y x ->
  tidy env ts ->
  ts_mark ts !! x = Some (false, false) ->
  ts_mark ts !! y = Some (false, false) ->
  (forall i f, ts_mark ts !! i <> Some (f, true)) ->
  (whites (ts_mark ts) < fuel)%nat ->
  exists ts',
    TopoVisit cb env fuel x ts w = Done (1, ts') w []
    /\ ts_unsolvable ts' = ts_unsolvable ts ++ [x; y].
Proof.
  intros Hne Hxy Hyx Ht Hx Hy Hnostack Hfuel.
  pose proof (descends_unsolvable _ _ Hxy) as Hux.
  pose proof (descends_unsolvable _ _ Hyx) as Huy.
  destruct Hxy as (dy & Hfx & Hmy). destruct Hyx as (dx & Hfy & Hmx).
  destruct fuel as [|f1]; [lia|].
  destruct (TopoVisit_to_obstacle f1 x dy ts w Hfx Ht)
    as (restx & ts1 & Hl1 & Ht1 & Hx1 & Hs1 & Hk1 & Hw1 & Hu1).
  { intros f. apply Hnostack. }
  { intros i f Hi. now destruct (Hnostack i f). }
  { exact Hfuel. }
  pose proof (Hk1 y _ (not_eq_sym Hne) Hy Huy) as Hy1.
  destruct f1 as [|f2]; [lia|].
  destruct (TopoVisit_to_obstacle f2 y dx ts1 w Hfy Ht1)
    as (resty & ts2 & Hl2 & Ht2 & Hy2 & Hs2 & Hk2 & Hw2 & Hu2).
  { intros f. rewrite Hy1. discriminate. }
  { intros i f Hi. destruct (Hs1 i f Hi) as [->|Hi0]; [exact Hux|].
    now destruct (Hnostack i f). }
  { exact Hw1. }
  pose proof (Hk2 x _ Hne Hx1 Hux) as Hx2.
  destruct f2 as [|f3]; [lia|].
  eexists. split.
  - rewrite Hl1. cbn [TopoVisit_deps]. rewrite Hx1, Hmy. unfold bind at 1.
    rewrite Hl2. cbn [TopoVisit_deps]. rewrite Hy2, Hmx. unfold bind at 1.
    cbn [TopoVisit]. rewrite Hx2. unfold ret. cbn. reflexivity.
  - cbn. rewrite Hu2, Hu1. now rewrite <- app_assoc.
Qed.

Lemma SolveDependencies_mutual (fuel : nat) (x y : nat) (w : W) :
  (length (m_Suites env) < fuel)%nat ->
  x <> y -> descends env x y -> descends env y x ->
  (forall r w0 w1 l, (r < x)%nat -> AllowSuite env r w0 = Done true w1 l ->
                     solvable env r) ->
  (forall w0 b w1 l, AllowSuite env x w0 = Done b w1 l -> b = true) ->
  exists w',
    SolveDependencies cb env fuel [] w
    = Done (false, []) w' [CallOnUnsolvableDependencies [x; y]].
Proof.
  intros Hfuel Hne Hxy Hyx Hbefore Hadm.
  pose proof (descends_unsolvable _ _ Hxy) as Hux.
  pose proof (descends_unsolvable _ _ Hyx) as Huy.
  assert (x < length (m_Suites env))%nat as Hlx.
  { destruct Hxy as (d & (s & pre & rest & Hs & _) & _). eapply lookup_lt_Some; eauto. }
  assert (y < length (m_Suites env))%nat as Hly.
  { destruct Hyx as (d & (s & pre & rest & Hs & _) & _). eapply lookup_lt_Some; eauto. }
  set (n := length (m_Suites env)) in *.
  set (ts0 := {| ts_result := []; ts_mark := replicate n (false, false);
                 ts_unsolvable := [] |}).
  assert (seq 0 n = seq 0 x ++ x :: seq (S x) (n - S x)) as Hseq.
  { replace n with (x + S (n - S x))%nat at 1 by lia.
    rewrite seq_app. reflexivity. }
  assert (forall i f, ts_mark ts0 !! i <> Some (f, true)) as Hno0.
  { intros i f Hi. apply lookup_replicate in Hi as [Hi _]. discriminate. }
  destruct (SolveDependencies_roots_prefix fuel (x :: seq (S x) (n - S x)) (seq 0 x))
    with (ts := ts0) (w := w) as (ts1 & w1 & Hskip & Hf1).
  { intros i Hi. apply elem_of_seq in Hi. fold n. lia. }
  { intros i w0 w1 l Hi. apply elem_of_seq in Hi. apply Hbefore. lia. }
  { apply tidy_initial. }
  { intros i f Hi. now destruct (Hno0 i f). }
  { simpl. rewrite whites_replicate. exact Hfuel. }
  assert (forall i, (i < n)%nat -> ~ solvable env i ->
                    ts_mark ts1 !! i = Some (false, false)) as Hwhite.
  { intros i Hi Hu. eapply finishes_keeps; [exact Hf1| |now right].
    apply lookup_replicate. split; [reflexivity|exact Hi]. }
  destruct (AllowSuite_total env x w1) as (b & w2 & Ha).
  pose proof (Hadm _ _ _ _ Ha) as ->.
  destruct (TopoVisit_mutual fuel x y ts1 w2 Hne Hxy Hyx) as (ts2 & Hv & Hu2).
  { apply Hf1. }
  { now apply Hwhite. }
  { now apply Hwhite. }
  { intros i f Hi. apply (Hno0 i f). eapply finishes_stack; eauto. apply tidy_initial. }
  { destruct Hf1 as (_ & _ & W1 & _). simpl in W1. rewrite whites_replicate in W1. lia. }
  destruct (OnUnsolvableDependencies cb [x; y] w2) as [a w3] eqn:Hcall.
  exists w3.
  unfold SolveDependencies. fold n. fold ts0. rewrite Hseq.
  unfold bind at 1. rewrite Hskip.
  cbn [SolveDependencies_roots]. rewrite (Hwhite x Hlx Hux).
  unfold bind at 1. rewrite Ha. cbn [prepend].
  unfold bind at 1. rewrite Hv. cbn [prepend].
  rewrite bool_decide_eq_false_2 by discriminate.
  unfold ret at 1. cbn [prepend app].
  rewrite Hu2. destruct Hf1 as (_ & _ & _ & U1). rewrite U1. cbn [ts_unsolvable ts0 app].
  unfold bind, call. rewrite Hcall. reflexivity.
Qed.

(** *** The way down to an unknown name *)

Lemma descends_has_obstacle (s : nat) (d : string) (z : nat) :
  first_obstacle env s d -> rtc (descends env) z s ->
  exists d0, first_obstacle env z d0.
Proof.
  intros Hfo Hz. inversion Hz as [|? y ? (d0 & Hd0 & _) _]; subst; eauto.
Qed.

Lemma TopoVisit_descends (s : nat) (d : string) :
  first_obstacle env s d -> m_SuiteMap env !! d = None ->
  forall z, rtc (descends env) z s ->
  forall fuel ts w,
    tidy env ts ->
    (forall i f, ts_mark ts !! i = Some (f, true) -> tc (descends env) i z) ->
    (whites (ts_mark ts) < fuel)%nat ->
    exists ts',
      ts_unsolvable ts' = ts_unsolvable ts
      /\ TopoVisit cb env fuel z ts w
         = (let '(a, w') := OnUnknownDependency cb s d w in
            if bool_decide (a = Ignore)
            then Fault DerefEnd w' [CallOnUnknownDependency s d a]
            else Done (2, ts') w' [CallOnUnknownDependency s d a]).
Proof.
  intros Hfo Hnone.
  assert (forall t, ~ descends env s t) as Hend.
  { intros t (d' & Hd' & Ht). rewrite (first_obstacle_functional s d' d Hd' Hfo) in Ht.
    congruence. }
  assert (forall z, rtc (descends env) z s ->
            forall ts, (forall i f, ts_mark ts !! i = Some (f, true) ->
                                    tc (descends env) i z) ->
                       (forall f, ts_mark ts !! z <> Some (f, true))
                       /\ (forall i f, ts_mark ts !! i = Some (f, true) ->
                                       ~ solvable env i)) as Hfresh.
  { intros z Hz ts Hstack. split.
    - intros f Hf. apply (no_descends_cycle s Hend z Hz). eauto.
    - intros i f Hi. eapply tc_descends_unsolvable; eauto. }
  apply (rtc_ind_l (fun z => forall fuel ts w, tidy env ts ->
           (forall i f, ts_mark ts !! i = Some (f, true) -> tc (descends env) i z) ->
           (whites (ts_mark ts) < fuel)%nat ->
           exists ts', ts_unsolvable ts' = ts_unsolvable ts
             /\ TopoVisit cb env fuel z ts w
                = (let '(a, w') := OnUnknownDependency cb s d w in
                   if bool_decide (a = Ignore)
                   then Fault DerefEnd w' [CallOnUnknownDependency s d a]
                   else Done (2, ts') w' [CallOnUnknownDependency s d a]))).
  - intros fuel ts w Ht Hstack Hfuel.
    destruct (Hfresh s (rtc_refl _ _) ts Hstack) as [Hz Hun].
    destruct fuel as [|f]; [lia|].
    destruct (TopoVisit_to_obstacle f s d ts w Hfo Ht Hz Hun Hfuel)
      as (rest & ts1 & Hl & Ht1 & Hz1 & Hs1 & Hk1 & Hw1 & Hu1).
    exists ts1. split; [exact Hu1|].
    rewrite Hl. cbn [TopoVisit_deps]. rewrite Hz1, Hnone.
    unfold bind, call. destruct (OnUnknownDependency cb s d w) as [a w'].
    cbn [prepend]. case_bool_decide; reflexivity.
  - intros z y Hzy Hys IH fuel ts w Ht Hstack Hfuel.
    destruct (Hfresh z (rtc_l _ _ _ _ Hzy Hys) ts Hstack) as [Hz Hun].
    pose proof Hzy as (d0 & Hd0 & Hy).
    destruct fuel as [|f]; [lia|].
    destruct (TopoVisit_to_obstacle f z d0 ts w Hd0 Ht Hz Hun Hfuel)
      as (rest & ts1 & Hl & Ht1 & Hz1 & Hs1 & Hk1 & Hw1 & Hu1).
    destruct (IH f ts1 w Ht1) as (ts' & Hu' & Hv).
    { intros i f0 Hi. destruct (Hs1 i f0 Hi) as [->|Hi0]; [now apply tc_once|].
      eapply tc_r; eauto. }
    { exact Hw1. }
    exists ts'. split; [congruence|].
    rewrite Hl. cbn [TopoVisit_deps]. rewrite Hz1, Hy.
    unfold bind at 1. rewrite Hv.
    destruct (OnUnknownDependency cb s d w) as [a w'].
    case_bool_decide; [reflexivity|].
    cbn. reflexivity.
Qed.

Lemma SolveDependencies_first_unknown (fuel : nat) (r s : nat) (d : string) (w : W) :
  (length (m_Suites env) < fuel)%nat ->
  (forall r' w0 w1 l, (r' < r)%nat -> AllowSuite env r' w0 = Done true w1 l ->
                      solvable env r') ->
  (forall w0 b w1 l, AllowSuite env r w0 = Done b w1 l -> b = true) ->
  rtc (descends env) r s ->
  first_obstacle env s d -> m_SuiteMap env !! d = None ->
  exists w1,
    SolveDependencies cb env fuel [] w
    = (let '(a, w') := OnUnknownDependency cb s d w1 in
       if bool_decide (a = Ignore)
       then Fault DerefEnd w' [CallOnUnknownDependency s d a]
       else Done (false, []) w' [CallOnUnknownDependency s d a]).
Proof.
  intros Hfuel Hbefore Hadm Hrs Hfo Hnone.
  destruct (descends_has_obstacle s d r Hfo Hrs) as (d0 & Hd0).
  pose proof (first_obstacle_unsolvable r d0 Hd0) as Hur.
  assert (r < length (m_Suites env))%nat as Hlr.
  { destruct Hd0 as (s0 & pre & rest & Hs0 & _). eapply lookup_lt_Some; eauto. }
  set (n := length (m_Suites env)) in *.
  set (ts0 := {| ts_result := []; ts_mark := replicate n (false, false);
                 ts_unsolvable := [] |}).
  assert (seq 0 n = seq 0 r ++ r :: seq (S r) (n - S r)) as Hseq.
  { replace n with (r + S (n - S r))%nat at 1 by lia.
    rewrite seq_app. reflexivity. }
  assert (forall i f, ts_mark ts0 !! i <> Some (f, true)) as Hno0.
  { intros i f Hi. apply lookup_replicate in Hi as [Hi _]. discriminate. }
  destruct (SolveDependencies_roots_prefix fuel (r :: seq (S r) (n - S r)) (seq 0 r))
    with (ts := ts0) (w := w) as (ts1 & w1 & Hskip & Hf1).
  { intros i Hi. apply elem_of_seq in Hi. fold n. lia. }
  { intros i w0 w1 l Hi. apply elem_of_seq in Hi. apply Hbefore. lia. }
  { apply tidy_initial. }
  { intros i f Hi. now destruct (Hno0 i f). }
  { simpl. rewrite whites_replicate. exact Hfuel. }
  assert (ts_mark ts1 !! r = Some (false, false)) as Hr1.
  { eapply finishes_keeps; [exact Hf1| |now right].
    apply lookup_replicate. split; [reflexivity|exact Hlr]. }
  destruct (AllowSuite_total env r w1) as (b & w2 & Ha).
  pose proof (Hadm _ _ _ _ Ha) as ->.
  destruct (TopoVisit_descends s d Hfo Hnone r Hrs fuel ts1 w2) as (ts2 & Hu2 & Hv).
  { apply Hf1. }
  { intros i f Hi. exfalso. apply (Hno0 i f). eapply finishes_stack; eauto.
    apply tidy_initial. }
  { destruct Hf1 as (_ & _ & W1 & _). simpl in W1. rewrite whites_replicate in W1. lia. }
  exists w2.
  unfold SolveDependencies. fold n. fold ts0. rewrite Hseq.
  unfold bind at 1. rewrite Hskip.
  cbn [SolveDependencies_roots]. rewrite Hr1.
  unfold bind at 1. rewrite Ha. cbn [prepend].
  unfold bind at 1. rewrite Hv.
  destruct (OnUnknownDependency cb s d w2) as [a w'].
  case_bool_decide; [reflexivity|].
  cbn [prepend]. rewrite bool_decide_eq_false_2 by discriminate.
  unfold ret at 1. cbn [prepend app].
  rewrite Hu2. destruct Hf1 as (_ & _ & _ & U1). rewrite U1. reflexivity.
Qed.

(** A suite without dependencies is solvable. *)
Lemma leaf_solvable (z : nat) (s : Suite) :
  m_Suites env !! z = Some s -> m_Dependencies s = [] -> solvable env z.
Proof.
  intros Hs Hd.
  assert (forall b, ~ depends env z b) as Hno.
  { intros b (s' & d & Hs' & Hin & _). rewrite Hs in Hs'. injection Hs' as <-.
    rewrite Hd in Hin. now apply elem_of_nil in Hin. }
  intros z' Hr. inversion Hr as [|? y ? Hzy _]; subst; [|now destruct (Hno y)].
  split; [eauto|]. split.
  - intros Htc. inversion Htc as [? ? H|? y ? H _]; subst; eapply Hno; eauto.
  - intros s' d Hs' Hin. rewrite Hs in Hs'. injection Hs' as <-.
    rewrite Hd in Hin. now apply elem_of_nil in Hin.
Qed.

End Obstacles.

(** C3, as amended.  Let [x] and [y] be two suites that declare a
    dependency on each other, and let nothing stand in the resolver's way
    before it closes that cycle from [x]: the filters admit [x]; every
    suite registered before [x] that the filters admit is solvable; the
    dependency on [y] is the first that [x] declares and that does not
    resolve to a solvable suite, and the dependency on [x] is the first
    such of [y].  Then [SolveDependencies] returns [false] with [result]
    empty; [OnUnsolvableDependencies] is called exactly once, with [x; y]:
    each of the two once, the suite that closed the cycle first; and [Run]
    executes no suite: its log holds that one call and its environment
    result is empty. *)
Theorem mutual_dependency_reports_the_pair {W : Type} (cb : @ControlCallback W)
    (cout : string -> W -> W) (env : @Environment W) (fuel : nat)
    (x y : nat) (w : W) :
  m_Callback env = Some cb ->
  (length (m_Suites env) < fuel)%nat ->
  x <> y ->
  descends env x y -> descends env y x ->
  (forall r w0 w1 l, (r < x)%nat -> AllowSuite env r w0 = Done true w1 l ->
                     solvable env r) ->
  (forall w0 b w1 l, AllowSuite env x w0 = Done b w1 l -> b = true) ->
  depends env x y /\ depends env y x
  /\ exists w',
      SolveDependencies cb env fuel [] w
      = Done (false, []) w' [CallOnUnsolvableDependencies [x; y]]
      /\ Run cout fuel env w
         = Done (EnvironmentResult_new, env) w' [CallOnUnsolvableDependencies [x; y]]
      /\ NoDup [x; y].
Proof.
  intros Hcb Hfuel Hne Hxy Hyx Hbefore Hadm.
  split; [now apply descends_depends|]. split; [now apply descends_depends|].
  destruct (SolveDependencies_mutual cb env fuel x y w Hfuel Hne Hxy Hyx Hbefore Hadm)
    as (w' & Hs).
  exists w'. split; [exact Hs|]. split.
  - unfold Run. rewrite Hcb. unfold bind. rewrite Hs. reflexivity.
  - apply NoDup_cons_2; [|apply NoDup_singleton].
    intros Hin. apply list_elem_of_singleton in Hin. contradiction.
Qed.

Lemma mutual_dependency_witness :
  let cb := demo_callback Abort Abort Abort 0 in
  let env := demo_env cb
               [plain_suite "U" [] [passing_test]; plain_suite "X" ["W"; "Y"] [passing_test];
                plain_suite "W" [] []; plain_suite "Y" ["X"] []] in
  exists w' : nat,
    Run silent 5 env 0%nat
    = Done (EnvironmentResult_new, env) w' [CallOnUnsolvableDependencies [1; 3]%nat].
Proof.
  intros cb env.
  assert (depends env 1 3) as H13.
  { exists (plain_suite "X" ["W"; "Y"] [passing_test]), "Y". split; [reflexivity|].
    split; [|vm_compute; reflexivity].
    apply elem_of_cons. right. apply elem_of_cons. now left. }
  assert (depends env 3 1) as H31.
  { exists (plain_suite "Y" ["X"] []), "X". split; [reflexivity|].
    split; [apply elem_of_cons; now left|vm_compute; reflexivity]. }
  assert (~ solvable env 1) as Hu1.
  { intros H. destruct (H 1%nat (rtc_refl _ _)) as (_ & Hn & _). apply Hn.
    eapply tc_l; [exact H13|now apply tc_once]. }
  assert (~ solvable env 3) as Hu3.
  { intros H. destruct (H 3%nat (rtc_refl _ _)) as (_ & Hn & _). apply Hn.
    eapply tc_l; [exact H31|now apply tc_once]. }
  destruct (mutual_dependency_reports_the_pair cb silent env 5 1 3 0%nat)
    as (_ & _ & w' & _ & Hr & _).
  - reflexivity.
  - simpl. lia.
  - discriminate.
  - exists "Y". split; [|vm_compute; reflexivity].
    exists (plain_suite "X" ["W"; "Y"] [passing_test]), ["W"], [].
    split; [reflexivity|]. split; [reflexivity|]. split.
    + apply Forall_singleton. exists 2%nat. split; [vm_compute; reflexivity|].
      now apply (leaf_solvable env 2 (plain_suite "W" [] [])).
    + intros (b & Hb & Hsb). vm_compute in Hb. injection Hb as <-. contradiction.
  - exists "X". split; [|vm_compute; reflexivity].
    exists (plain_suite "Y" ["X"] []), [], [].
    split; [reflexivity|]. split; [reflexivity|]. split; [constructor|].
    intros (b & Hb & Hsb). vm_compute in Hb. injection Hb as <-. contradiction.
  - intros r w0 w1 l Hr _. assert (r = 0%nat) as -> by lia.
    now apply (leaf_solvable env 0 (plain_suite "U" [] [passing_test])).
  - intros w0 b w1 l H. vm_compute in H. congruence.
  - exists w'. exact Hr.
Defined.

(** C3, as stated, fails: [X] (index 1) and [Y] (index 2) depend on each
    other, and [Z] (index 0), registered first, depends on [X].  The list
    handed to [OnUnsolvableDependencies] is [X; Y; X]: [X] is reported
    twice. *)
Lemma cycle_behind_a_dependent_reports_twice :
  let env := demo_env (demo_callback Abort Abort Abort 0)
               [plain_suite "Z" ["X"] []; plain_suite "X" ["Y"] [];
                plain_suite "Y" ["X"] []] in
  depends env 1 2 /\ depends env 2 1
  /\ log_of (Run silent 4 env 0%nat) = [CallOnUnsolvableDependencies [1; 2; 1]%nat]
  /\ ~ NoDup [1; 2; 1]%nat.
Proof.
  intros env. split; [|split; [|split]].
  - exists (plain_suite "X" ["Y"] []), "Y". split; [reflexivity|].
    split; [apply list_elem_of_singleton; reflexivity|reflexivity].
  - exists (plain_suite "Y" ["X"] []), "X". split; [reflexivity|].
    split; [apply list_elem_of_singleton; reflexivity|reflexivity].
  - vm_compute. reflexivity.
  - intros H. inversion H as [|? ? Hnotin _]; subst. apply Hnotin.
    apply elem_of_cons. right. apply list_elem_of_singleton. reflexivity.
Qed.

(** C5, as amended.  Let the suite [s] declare a dependency on a name [d]
    that no suite has, and let that dependency be the first obstacle the
    resolver comes to: the filters admit the suite [r]; every suite
    registered before [r] that the filters admit is solvable; from [r] the
    way down, taken from each suite into the first dependency it declares
    that does not resolve to a solvable suite, leads to [s]; and [d] is
    the first such dependency of [s].  Then the resolver asks
    [OnUnknownDependency] once, about [s] and [d], and nothing else.  If
    the decision is anything but [Ignore], [SolveDependencies] returns
    [false] with [result] empty right after it; the log of the whole [Run]
    holds that one call, so [OnUnsolvableDependencies] is not called (the
    unsolvable set is empty) and no suite, test, fixture or suite-level
    callback runs; and the environment result of [Run] is the empty one. *)
Theorem unknown_dependency_fails_resolution {W : Type} (cout : string -> W -> W)
    (fuel : nat) (env : @Environment W) (w : W) (r s : nat) (d : string) :
  let control :=
    match m_Callback env with
    | Some c => c
    | None => ConsoleCallback cout (m_Suites env)
    end in
  (length (m_Suites env) < fuel)%nat ->
  (forall r' w0 w1 l, (r' < r)%nat -> AllowSuite env r' w0 = Done true w1 l ->
                      solvable env r') ->
  (forall w0 b w1 l, AllowSuite env r w0 = Done b w1 l -> b = true) ->
  rtc (descends env) r s ->
  first_obstacle env s d -> m_SuiteMap env !! d = None ->
  unknown_dependency_of env s d
  /\ exists w1 a w',
      OnUnknownDependency control s d w1 = (a, w')
      /\ log_of (SolveDependencies control env fuel [] w) = [CallOnUnknownDependency s d a]
      /\ (a <> Ignore ->
          SolveDependencies control env fuel [] w
          = Done (false, []) w' [CallOnUnknownDependency s d a]
          /\ Run cout fuel env w
             = Done (EnvironmentResult_new, env) w' [CallOnUnknownDependency s d a]
          /\ (forall e, e ∈ log_of (Run cout fuel env w) -> runs_suite_code e = false)
          /\ (forall u, CallOnUnsolvableDependencies u ∉ log_of (Run cout fuel env w))
          /\ er_Results EnvironmentResult_new = []).
Proof.
  intros control Hfuel Hbefore Hadm Hrs Hfo Hnone.
  split.
  { split; [exact Hnone|]. destruct Hfo as (su & pre & rest & Hsu & Hdeps & _).
    exists su. split; [exact Hsu|]. rewrite Hdeps. apply elem_of_app. right.
    apply elem_of_cons. now left. }
  destruct (SolveDependencies_first_unknown control env fuel r s d w Hfuel Hbefore Hadm
              Hrs Hfo Hnone) as (w1 & Hs).
  destruct (OnUnknownDependency control s d w1) as [a w'] eqn:Hcall.
  exists w1, a, w'. split; [exact Hcall|].
  case_bool_decide as Ha.
  - split; [now rewrite Hs|]. intros Hne. contradiction.
  - split; [now rewrite Hs|]. intros _.
    assert (Run cout fuel env w
            = Done (EnvironmentResult_new, env) w' [CallOnUnknownDependency s d a]) as Hr.
    { unfold Run. fold control. unfold bind. rewrite Hs. reflexivity. }
    split; [exact Hs|]. split; [exact Hr|]. rewrite Hr. simpl.
    split; [|split; [|reflexivity]].
    + intros e He. apply list_elem_of_singleton in He. now subst e.
    + intros u Hu'. apply list_elem_of_singleton in Hu'. discriminate.
Qed.

Lemma unknown_dependency_witness :
  let env := demo_env (demo_callback Abort Abort Abort 0)
               [plain_suite "U" [] [passing_test]; plain_suite "A" ["L"; "B"] [passing_test];
                plain_suite "L" [] []; plain_suite "B" ["missing"] [passing_test]] in
  exists w' : nat,
    Run silent 5 env 0%nat
    = Done (EnvironmentResult_new, env) w' [CallOnUnknownDependency 3 "missing" Abort].
Proof.
  intros env.
  assert (first_obstacle env 3 "missing") as Hfo.
  { exists (plain_suite "B" ["missing"] [passing_test]), [], [].
    split; [reflexivity|]. split; [reflexivity|]. split; [constructor|].
    intros (b & Hb & _). vm_compute in Hb. discriminate. }
  destruct (unknown_dependency_fails_resolution silent 5 env 0%nat 1 3 "missing")
    as (_ & w1 & a & w' & Hcall & _ & Hrun).
  - simpl. lia.
  - intros r w0 w1 l Hr _. assert (r = 0%nat) as -> by lia.
    now apply (leaf_solvable env 0 (plain_suite "U" [] [passing_test])).
  - intros w0 b w1 l H. vm_compute in H. congruence.
  - apply rtc_once. exists "B". split; [|vm_compute; reflexivity].
    exists (plain_suite "A" ["L"; "B"] [passing_test]), ["L"], [].
    split; [reflexivity|]. split; [reflexivity|]. split.
    + apply Forall_singleton. exists 2%nat. split; [vm_compute; reflexivity|].
      now apply (leaf_solvable env 2 (plain_suite "L" [] [])).
    + intros (b & Hb & Hsb). vm_compute in Hb. injection Hb as <-.
      apply (first_obstacle_unsolvable env 3 "missing" Hfo Hsb).
  - exact Hfo.
  - vm_compute. reflexivity.
  - simpl in Hcall. injection Hcall as <- <-.
    destruct Hrun as (_ & Hr & _); [discriminate|]. exists w1. exact Hr.
Defined.

(** C5, as stated, fails.  First: the suite [A] (index 0) declares the
    dependency [missing], which no suite has, and the callback would answer
    [Abort]; but the filter rejects [A], the resolver never comes to the
    name, the resolution succeeds and the suite [B] (index 1) runs.
    Second: [X] (index 0) and [Y] (index 1) depend on each other and [Y]
    also declares [missing] after [X]; the resolver closes the cycle first,
    and reports the unsolvable set [X; Y], which is not empty. *)
Lemma declared_unknown_dependency_need_not_fail :
  let cb := demo_callback Abort Abort Abort 0 in
  let env1 := AddFilter (only_suite 1)
                (demo_env cb [plain_suite "A" ["missing"] [passing_test];
                              plain_suite "B" [] [passing_test]]) in
  let env2 := demo_env cb [plain_suite "X" ["Y"] [];
                           plain_suite "Y" ["X"; "missing"] []] in
  (unknown_dependency_of env1 0 "missing"
   /\ (forall w, (OnUnknownDependency cb 0%nat "missing" w).1 = Abort)
   /\ SolveDependencies cb env1 3 [] 0%nat = Done (true, [1%nat]) 0%nat []
   /\ suites_begun (log_of (Run silent 3 env1 0%nat)) = [1%nat])
  /\ (unknown_dependency_of env2 1 "missing"
      /\ log_of (Run silent 3 env2 0%nat) = [CallOnUnsolvableDependencies [0; 1]%nat]).
Proof.
  intros cb env1 env2. split; [split; [|split; [|split]]|split].
  - split; [vm_compute; reflexivity|].
    exists (plain_suite "A" ["missing"] [passing_test]). split; [reflexivity|].
    apply elem_of_cons. now left.
  - reflexivity.
  - vm_compute. reflexivity.
  - vm_compute. reflexivity.
  - split; [vm_compute; reflexivity|].
    exists (plain_suite "Y" ["X"; "missing"] []). split; [reflexivity|].
    apply elem_of_cons. right. apply elem_of_cons. now left.
  - vm_compute. reflexivity.
Qed.

(** ** The scheduler: results are recorded in the order of execution *)

Lemma registered_in_range {W : Type} (env : @Environment W) :
  registered env ->
  forall d b, m_SuiteMap env !! d = Some b -> (b < length (m_Suites env))%nat.
Proof.
  intros Hreg d b Hb. rewrite Hreg in Hb. unfold first_registered in Hb.
  destruct (list_find _ (m_Suites env)) as [[i x]|] eqn:Hf; [|discriminate].
  simpl in Hb. injection Hb as <-.
  apply list_find_Some in Hf as (Hi & _). eapply lookup_lt_Some; eauto.
Qed.

Section SchedulerFacts.
Context {W : Type}.
Variable cb : @ControlCallback W.
Variable suites : list (@Suite W).

Lemma Suite_Run_tests_m_Suite (fuel : nat) (s : Suite) (self : nat) (tests : list Test) :
  forall j result w early result' w' l,
    Suite_Run_tests rev2 cb fuel s self j tests result w = Done (early, result') w' l ->
    m_Suite result' = m_Suite result.
Proof.
  induction tests as [|t rest IH]; intros j result w early result' w' l; simpl.
  - unfold ret. intros H. now injection H as _ <- _ _.
  - unfold bind at 1, call_ at 1. cbn [prepend]. unfold bind at 1.
    destruct (Suite_Run_attempts rev2 cb fuel s (self, j) t (OnTestBegin cb (self, j) w))
      as [[p|r] w1 l1|k w1 l1]; cbn [prepend].
    + unfold ret. simpl. intros H. now injection H as _ <- _ _.
    + destruct (Suite_Run_tests rev2 cb fuel s self (S j) rest
                  (SuiteResult_AddResult r result) w1)
        as [[e r'] w2 l2|k w2 l2] eqn:Hrec; simpl; [|discriminate].
      intros H. injection H as _ <- _ _. now apply IH in Hrec.
    + simpl. discriminate.
Qed.

Lemma Suite_Run_m_Suite (fuel : nat) (self : nat) (s : Suite) (result : SuiteResult) :
  forall w p result' w' l,
    Suite_Run rev2 cb fuel self s result w = Done (p, result') w' l ->
    m_Suite result' = m_Suite result.
Proof.
  intros w p result' w' l. unfold Suite_Run, bind at 1.
  destruct (ExecFunction cb (m_Init s) w) as [[q|] w1 l1|k w1 l1]; cbn [prepend];
    [unfold ret; simpl; intros H; now injection H as _ <- _ _| |discriminate].
  unfold bind at 1.
  destruct (Suite_Run_tests rev2 cb fuel s self 0 (m_Tests s) result w1)
    as [[e r1] w2 l2|k w2 l2] eqn:Ht; cbn [prepend]; [|simpl; discriminate].
  apply Suite_Run_tests_m_Suite in Ht.
  destruct e as [q|].
  - unfold ret. simpl. intros H. injection H as _ <- _ _. exact Ht.
  - unfold bind. destruct (ExecFunction cb (m_Exit s) w2) as [[q|] w3 l3|k w3 l3];
      simpl; [| |discriminate]; intros H; injection H as _ <- _ _; exact Ht.
Qed.

Lemma RunSuites_suite_m_Suite (fuel : nat) (it : nat) (s : Suite) (st : RunState) :
  forall w p r map w' l,
    RunSuites_suite cb fuel it s st w = Done (p, r, map) w' l -> m_Suite r = it.
Proof.
  intros w p r map w' l. unfold RunSuites_suite, bind at 1.
  destruct (CheckDependencies cb it (m_Dependencies s) (rs_result st)
              (rs_connector st) (rs_map st) w)
    as [[check map1] w1 l1|k w1 l1]; cbn [prepend]; [|discriminate].
  destruct check as [q|].
  - unfold ret. simpl. intros H. now injection H as _ <- _ _ _.
  - unfold bind.
    destruct (Suite_Run rev2 cb fuel it s (SuiteResult_new it) w1)
      as [[ran r1] w3 l3|k w3 l3] eqn:Hrun; simpl; [|discriminate].
    intros H. injection H as _ <- _ _ _. now apply Suite_Run_m_Suite in Hrun.
Qed.

(** One pass of [RunSuites] appends one result, that of the suite run. *)
Lemma RunSuites_iter_records (fuel : nat) (it : nat) (st st' : RunState)
    (w w' : W) (p : bool) (l : list Event) :
  RunSuites_iter cb suites fuel it st w = Done (p, st') w' l ->
  exists r, er_Results (rs_result st') = er_Results (rs_result st) ++ [r]
            /\ m_Suite r = it.
Proof.
  unfold RunSuites_iter. destruct (suites !! it) as [s|]; [|discriminate].
  unfold bind at 1, call_ at 1. cbn [prepend]. unfold bind at 1.
  destruct (RunSuites_suite cb fuel it s st (OnSuiteBegin cb it w))
    as [[[q r] map] w1 l1|k w1 l1] eqn:Hsuite; cbn [prepend]; [|discriminate].
  apply RunSuites_suite_m_Suite in Hsuite.
  unfold bind, call_. cbn [prepend].
  destruct (map_index (m_Name (suite_Info s)) map) as [suiteID map0].
  case_bool_decide; simpl; [|discriminate].
  intros Heq. injection Heq as _ <- _ _. simpl. exists r. auto.
Qed.

(** The loop over [pre ++ post] is the loop over [pre], then, if
    [procceed] is still true, the loop over [post]. *)
Lemma RunSuites_loop_app (fuel : nat) (pre post : list nat) :
  forall st w,
    RunSuites_loop cb suites fuel (pre ++ post) st w
    = match RunSuites_loop cb suites fuel pre st w with
      | Done (true, st') w' l => prepend l (RunSuites_loop cb suites fuel post st' w')
      | Done (false, st') w' l => Done (false, st') w' l
      | Fault k w' l => Fault k w' l
      end.
Proof.
  induction pre as [|it pre IH]; intros st w; simpl.
  - now rewrite prepend_nil.
  - unfold bind.
    destruct (RunSuites_iter cb suites fuel it st w) as [[p st1] w1 l1|k w1 l1];
      [|reflexivity].
    destruct p; simpl; [|reflexivity].
    rewrite IH.
    destruct (RunSuites_loop cb suites fuel pre st1 w1) as [[[] st2] w2 l2|k w2 l2];
      simpl; try reflexivity.
    now rewrite prepend_prepend.
Qed.

(** After the loop over [pre] the environment result holds one more
    result per suite of [pre], in that order. *)
Lemma RunSuites_loop_records (fuel : nat) (pre : list nat) :
  forall st w st' w' l,
    RunSuites_loop cb suites fuel pre st w = Done (true, st') w' l ->
    m_Suite <$> er_Results (rs_result st')
    = (m_Suite <$> er_Results (rs_result st)) ++ pre.
Proof.
  induction pre as [|it pre IH]; intros st w st' w' l; simpl.
  - unfold ret. intros H. injection H as <- _ _. now rewrite app_nil_r.
  - unfold bind.
    destruct (RunSuites_iter cb suites fuel it st w) as [[p st1] w1 l1|k w1 l1] eqn:Hit;
      [|discriminate].
    destruct p; simpl; [|discriminate].
    destruct (RunSuites_loop cb suites fuel pre st1 w1) as [[p st2] w2 l2|k w2 l2] eqn:Hl;
      simpl; [|discriminate].
    intros H. injection H as -> <- _ _.
    apply IH in Hl. rewrite Hl.
    apply RunSuites_iter_records in Hit as (r & -> & <-).
    rewrite fmap_app. simpl. now rewrite <- app_assoc.
Qed.

End SchedulerFacts.


(** A graph whose edges all go down a rank has no cycle. *)
Lemma acyclic_of_rank {W : Type} (env : @Environment W) (rank : nat -> nat) :
  (forall a b, depends env a b -> (rank b < rank a)%nat) -> acyclic env.
Proof.
  intros Hrank a Hcyc.
  assert (forall x y, tc (depends env) x y -> (rank y < rank x)%nat) as Htc.
  { intros x y H. induction H as [x y H|x y z H _ IH].
    - now apply Hrank.
    - apply Hrank in H. lia. }
  apply Htc in Hcyc. lia.
Qed.

Lemma two_suites_depends (cb : @ControlCallback nat) (a b : nat) :
  depends (demo_env cb two_suites) a b -> a = 0%nat /\ b = 1%nat.
Proof.
  intros (s & d & Hs & Hd & Hb).
  destruct a as [|[|a]]; simpl in Hs; [| |discriminate].
  - injection Hs as <-. simpl in Hd. apply list_elem_of_singleton in Hd. subst d.
    vm_compute in Hb. injection Hb as <-. auto.
  - injection Hs as <-. simpl in Hd. now apply elem_of_nil in Hd.
Qed.


(** ** Abort decisions *)

(** C6, on the code of revision one.  Two suites without dependencies; the
    init fixture of the first throws and [OnException] answers [Abort].
    [Suite::Run] returns [false], but [RunSuites] tests [!abort], the
    address of the library function, so [procceed] stays [true]: the second
    suite begins and runs, and [RunSuites] returns [true].  Revision two, on
    the same input, records the first suite's result and returns [false]
    before the second suite begins. *)
Theorem rev1_RunSuites_goes_on_after_Abort :
  let cb := demo_callback Abort Abort Abort 0 in
  let suites := [broken_init_suite "S0"; plain_suite "S1" [] [passing_test]] in
  let o1 := Rev1.RunSuites cb suites 1 [0; 1]%nat [] 0%nat in
  let o2 := RunSuites cb (demo_env cb suites) 1 [0; 1]%nat EnvironmentResult_new 0%nat in
  log_of o1 !! 2%nat = Some (CallOnException InFixture (mkInfo "suite.init" "" 3) Abort)
  /\ suites_begun (log_of o1) = [0; 1]%nat
  /\ (exists rs w l, o1 = Done (true, rs) w l /\ m_Suite <$> rs = [0; 1]%nat)
  /\ log_of o2 !! 2%nat = Some (CallOnException InFixture (mkInfo "suite.init" "" 3) Abort)
  /\ suites_begun (log_of o2) = [0]%nat
  /\ (exists st w l, o2 = Done (false, st) w l
                     /\ m_Suite <$> er_Results (rs_result st) = [0]%nat).
Proof.
  vm_compute. repeat split; try reflexivity.
  - eexists _, _, _. split; reflexivity.
  - eexists _, _, _. split; reflexivity.
Qed.

Ltac calm_tac := repeat first [reflexivity | constructor].

Section AbortFacts.
Context {W : Type}.
Variable cb : @ControlCallback W.

Local Abbreviation calm_log l := (Forall (fun x => calm x = true) l).

Lemma verdict_log_prepend (v : option bool) (l1 l2 : list Event) :
  calm_log l1 -> verdict_log v l2 -> verdict_log v (l1 ++ l2).
Proof.
  intros H1. destruct v as [[]|]; simpl.
  - intros (pre & e & -> & Hpre & He). exists (l1 ++ pre), e.
    rewrite app_assoc. split; [reflexivity|]. split; [|exact He].
    apply Forall_app. auto.
  - intros (pre & e & -> & Hpre & He). exists (l1 ++ pre), e.
    rewrite app_assoc. split; [reflexivity|]. split; [|exact He].
    apply Forall_app. auto.
  - intros H2. apply Forall_app. auto.
Qed.

Lemma step_log_prepend {A : Type} (c : A -> option bool) (l1 : list Event)
    (o : @Outcome W A) :
  calm_log l1 -> step_log c o -> step_log c (prepend l1 o).
Proof.
  intros H1. destruct o as [a w l|k w l]; simpl.
  - now apply verdict_log_prepend.
  - intros H2. apply Forall_app. auto.
Qed.

Lemma suite_log_prepend {A : Type} (flag : A -> bool) (l1 : list Event)
    (o : @Outcome W A) :
  calm_log l1 -> suite_log flag o -> suite_log flag (prepend l1 o).
Proof.
  intros H1. destruct o as [a w l|k w l]; simpl.
  - destruct (flag a).
    + intros [H2|H2].
      * left. apply Forall_app. auto.
      * right. now apply (verdict_log_prepend (Some true)).
    + now apply (verdict_log_prepend (Some false)).
  - intros H2. apply Forall_app. auto.
Qed.

(** A step, then what follows it: when the step asks to stop, what follows
    must pass the verdict on at once. *)
Lemma step_bind {A B : Type} (c1 : A -> option bool) (c2 : B -> option bool)
    (m : @M W A) (f : A -> M B) (w : W) :
  step_log c1 (m w) ->
  (forall a w', match c1 a with
                | None => step_log c2 (f a w')
                | Some p => exists b, f a w' = Done b w' [] /\ c2 b = Some p
                end) ->
  step_log c2 (bind m f w).
Proof.
  unfold bind. destruct (m w) as [a w1 l1|k w1 l1]; simpl; [|auto].
  intros H1 Hf. specialize (Hf a w1). destruct (c1 a) as [p|].
  - destruct Hf as (b & -> & Hb). simpl. rewrite Hb, app_nil_r. exact H1.
  - now apply step_log_prepend.
Qed.

Lemma suite_bind {A B : Type} (c1 : A -> option bool) (flag : B -> bool)
    (m : @M W A) (f : A -> M B) (w : W) :
  step_log c1 (m w) ->
  (forall a w', match c1 a with
                | None => suite_log flag (f a w')
                | Some p => exists b, f a w' = Done b w' [] /\ flag b = p
                end) ->
  suite_log flag (bind m f w).
Proof.
  unfold bind. destruct (m w) as [a w1 l1|k w1 l1]; simpl; [|auto].
  intros H1 Hf. specialize (Hf a w1). destruct (c1 a) as [p|].
  - destruct Hf as (b & -> & Hb). simpl. rewrite Hb, app_nil_r.
    destruct p; simpl in *; auto.
  - now apply suite_log_prepend.
Qed.

Lemma ExecFunction_step (func : SuiteFunction) (w : W) :
  step_log id (ExecFunction cb func w).
Proof.
  unfold ExecFunction, bind, call, ret.
  destruct (sf_Func func) as [f|]; simpl; [|constructor].
  destruct (f w) as [[] w1]; simpl; [|calm_tac].
  destruct (OnException cb (sf_Info func) w1) as [a w2]; simpl.
  destruct a; simpl; try (calm_tac; fail);
    (eexists [RunFixture (sf_Info func)], _; split; [reflexivity|]; split; calm_tac).
Qed.

Lemma Body_run_calm (ops : ResultOps) (b : Body) (r : TestResult) :
  calm_log (log_of (Body_run ops cb b r)).
Proof.
  revert r. induction b as [w|w|inf c msg w k IH]; intros r; simpl; try constructor.
  unfold TestContext_AddResult, bind, call, ret.
  destruct (OnAssert cb _ w) as [a w1]; simpl.
  rewrite log_of_prepend. simpl. constructor; [reflexivity|apply IH].
Qed.

Lemma Test_Run_step (ops : ResultOps) (self : TestPtr) (t : Test) (r : TestResult) (w : W) :
  step_log (fun x => verdict_of_flag (fst x)) (Test_Run ops cb self t r w).
Proof.
  unfold Test_Run, bind.
  pose proof (Body_run_calm ops (m_Func t w) r) as Hb.
  destruct (Body_run ops cb (m_Func t w) r) as [[threw r1] w1 l1|k w1 l1];
    simpl in *; [|constructor; [reflexivity|exact Hb]].
  destruct threw; simpl.
  - unfold call, ret.
    destruct (OnException cb (test_Info t) w1) as [a w2]; simpl.
    destruct a; simpl;
      try (constructor; [reflexivity|];
           apply Forall_app; split; [exact Hb|calm_tac]; fail).
    exists (RunBody self :: l1), (CallOnException InTestBody (test_Info t) Abort).
    split; [reflexivity|].
    split; [constructor; [reflexivity|exact Hb]|reflexivity].
  - unfold ret. simpl. constructor; [reflexivity|]. now rewrite ?app_nil_r.
Qed.

Lemma Suite_Run_attempt_step (ops : ResultOps) (s : Suite) (self : TestPtr) (t : Test)
    (w : W) :
  step_log verdict_of_attempt (Suite_Run_attempt ops cb s self t w).
Proof.
  unfold Suite_Run_attempt.
  apply (step_bind id); [apply ExecFunction_step|].
  intros [p|] w1; simpl; [eexists; split; reflexivity|].
  apply (step_bind (fun x => verdict_of_flag (fst x))); [apply Test_Run_step|].
  intros [[] r] w2; simpl; [|eexists; split; reflexivity].
  apply (step_bind id); [apply ExecFunction_step|].
  intros [p|] w3; simpl; [eexists; split; reflexivity|constructor].
Qed.

Lemma Suite_Run_attempts_step (ops : ResultOps) (fuel : nat) (s : Suite) (self : TestPtr)
    (t : Test) :
  forall w, step_log verdict_of_attempt (Suite_Run_attempts ops cb fuel s self t w).
Proof.
  induction fuel as [|fuel IH]; intros w; simpl; [constructor|].
  apply (step_bind verdict_of_attempt); [apply Suite_Run_attempt_step|].
  intros [p|r] w1; simpl; [eexists; split; reflexivity|].
  apply (step_bind (fun _ => None)).
  - unfold call. destruct (OnTestEnd cb r w1) as [again w2]. simpl.
    calm_tac.
  - intros [] w2; simpl; [apply IH|constructor].
Qed.

Lemma Suite_Run_tests_step (ops : ResultOps) (fuel : nat) (s : Suite) (self : nat)
    (tests : list Test) :
  forall j result w, step_log fst (Suite_Run_tests ops cb fuel s self j tests result w).
Proof.
  induction tests as [|t rest IH]; intros j result w; simpl; [constructor|].
  apply (step_bind (fun _ => None)); [calm_tac|].
  intros _ w1. simpl.
  apply (step_bind verdict_of_attempt); [apply Suite_Run_attempts_step|].
  intros [p|r] w2; simpl; [eexists; split; reflexivity|apply IH].
Qed.

Lemma Suite_Run_log (ops : ResultOps) (fuel : nat) (self : nat) (s : Suite)
    (result : SuiteResult) (w : W) :
  suite_log fst (Suite_Run ops cb fuel self s result w).
Proof.
  unfold Suite_Run.
  apply (suite_bind id); [apply ExecFunction_step|].
  intros [p|] w1; simpl; [eexists; split; reflexivity|].
  apply (suite_bind fst); [apply Suite_Run_tests_step|].
  intros [[p|] r] w2; simpl; [eexists; split; reflexivity|].
  apply (suite_bind id); [apply ExecFunction_step|].
  intros [p|] w3; simpl; [eexists; split; reflexivity|left; constructor].
Qed.

Lemma CheckDependencies_step (suites : list (@Suite W)) (s : nat) (deps : list string)
    (result : EnvironmentResult) (resultConnector : list nat) :
  forall map w,
    step_log fst (CheckDependencies cb s deps result resultConnector map w).
Proof.
  unfold CheckDependencies.
  induction deps as [|d rest IH]; intros map w; simpl; [constructor|].
  destruct (map_index d map) as [suiteID map1].
  destruct (resultConnector !! suiteID) as [resultID|]; simpl; [|constructor].
  destruct (er_Results result !! resultID) as [suiteRes|]; simpl; [|constructor].
  case_bool_decide; [|apply IH].
  unfold bind, call.
  destruct (OnDependencyFail cb s (m_Suite suiteRes) suiteRes w) as [a w1]. simpl.
  destruct a; simpl;
    try (eexists [], _; split; [reflexivity|]; split; calm_tac; fail).
  apply step_log_prepend; [calm_tac|apply IH].
Qed.

Lemma RunSuites_suite_log (fuel : nat) (it : nat) (s : Suite) (st : RunState) (w : W) :
  suite_log (fun x => fst (fst x)) (RunSuites_suite cb fuel it s st w).
Proof.
  unfold RunSuites_suite.
  apply (suite_bind fst); [apply (CheckDependencies_step [])|].
  intros [[p|] map] w1; simpl; [eexists; split; reflexivity|].
  pose proof (Suite_Run_log rev2 fuel it s (SuiteResult_new it) w1) as Hrun.
  unfold bind.
  destruct (Suite_Run rev2 cb fuel it s (SuiteResult_new it) w1)
    as [[ran r] w2 l2|k w2 l2]; simpl in *; [|exact Hrun].
  rewrite app_nil_r. destruct ran; exact Hrun.
Qed.

End AbortFacts.

Section AbortLoop.
Context {W : Type}.
Variable cb : @ControlCallback W.
Variable suites : list (@Suite W).

Local Abbreviation calm_log l := (Forall (fun x => calm x = true) l).

Lemma calm_no_abort (e : Event) :
  calm e = true ->
  aborts_run e = false /\ aborts_suite e = false /\ begins_suite e = false.
Proof.
  unfold calm. destruct (aborts_run e), (aborts_suite e), (begins_suite e);
    simpl; intros H; try discriminate; auto.
Qed.

Lemma aborts_suite_not_run (e : Event) :
  aborts_suite e = true -> aborts_run e = false /\ begins_suite e = false.
Proof.
  destruct e as [| | | | | | |site ctx a|running failed a| | | |]; simpl;
    try discriminate.
  - destruct site; [|discriminate]. destruct a; simpl; try discriminate; auto.
  - destruct a; simpl; try discriminate; auto.
Qed.

Lemma aborts_run_not_begin (e : Event) :
  aborts_run e = true -> begins_suite e = false.
Proof. destruct e; simpl; try discriminate; auto. Qed.

Lemma stops_ok_calm_app (l rest : list Event) :
  calm_log l -> stops_ok (l ++ rest) = stops_ok rest.
Proof.
  induction 1 as [|e l He _ IH]; simpl; [reflexivity|].
  apply calm_no_abort in He as (-> & -> & _). simpl. exact IH.
Qed.

Lemma no_abort_calm_app (l : list Event) :
  calm_log l -> Forall (fun e => aborts_run e = false) l.
Proof.
  intros H. eapply Forall_impl; [exact H|].
  intros e He. now apply calm_no_abort in He as (-> & _).
Qed.

Lemma suites_begun_app (l1 l2 : list Event) :
  suites_begun (l1 ++ l2) = suites_begun l1 ++ suites_begun l2.
Proof.
  induction l1 as [|e l1 IH]; simpl; [reflexivity|].
  destruct e; simpl; now rewrite IH.
Qed.

Lemma suites_begun_calm (l : list Event) : calm_log l -> suites_begun l = [].
Proof.
  induction 1 as [|e l He _ IH]; simpl; [reflexivity|].
  apply calm_no_abort in He as (_ & _ & He). destruct e; simpl in *; try discriminate;
    exact IH.
Qed.

(** What one pass of [RunSuites] logs. *)
Lemma RunSuites_iter_log (fuel : nat) (it : nat) (st : RunState) (w : W) :
  match RunSuites_iter cb suites fuel it st w with
  | Done (p, _) _ l =>
      exists l0 r, l = CallOnSuiteBegin it :: l0 ++ [CallOnSuiteEnd r]
                   /\ (if p : bool then calm_log l0 \/ ends_in aborts_suite l0
                       else ends_in aborts_run l0)
  | Fault _ _ l =>
      l = []
      \/ (exists l0, l = CallOnSuiteBegin it :: l0 /\ calm_log l0)
      \/ (exists l0 r, l = CallOnSuiteBegin it :: l0 ++ [CallOnSuiteEnd r]
                       /\ (calm_log l0 \/ ends_in aborts_suite l0
                           \/ ends_in aborts_run l0))
  end.
Proof.
  unfold RunSuites_iter. destruct (suites !! it) as [s|]; [|left; reflexivity].
  unfold bind at 1, call_ at 1. cbn [prepend]. unfold bind at 1.
  pose proof (RunSuites_suite_log cb fuel it s st (OnSuiteBegin cb it w)) as Hs.
  destruct (RunSuites_suite cb fuel it s st (OnSuiteBegin cb it w))
    as [[[p r] map] w1 l1|k w1 l1]; cbn [prepend]; simpl in Hs.
  - unfold bind, call_. cbn [prepend].
    destruct (map_index (m_Name (suite_Info s)) map) as [suiteID map0].
    case_bool_decide; simpl.
    + exists l1, r. rewrite ?app_nil_r. split; [reflexivity|exact Hs].
    + right. right. exists l1, r. rewrite ?app_nil_r. split; [reflexivity|].
      destruct p; tauto.
  - simpl. right. left. exists l1. auto.
Qed.

Lemma stops_ok_pass (it : nat) (l0 : list Event) (r : SuiteResult) (rest : list Event) :
  calm_log l0 \/ ends_in aborts_suite l0 ->
  rest = [] \/ (exists next tl, rest = CallOnSuiteBegin next :: tl) ->
  stops_ok (CallOnSuiteBegin it :: l0 ++ CallOnSuiteEnd r :: rest) = stops_ok rest.
Proof.
  intros Hl0 Hrest. simpl.
  destruct Hl0 as [Hc|(pre & e & -> & Hpre & He)].
  - now rewrite stops_ok_calm_app.
  - rewrite <- app_assoc. rewrite stops_ok_calm_app by exact Hpre. simpl.
    destruct (aborts_suite_not_run e He) as [-> _]. rewrite He.
    destruct Hrest as [->|(next & tl & ->)]; reflexivity.
Qed.

Lemma stops_ok_last_pass (it : nat) (l0 : list Event) (r : SuiteResult) :
  calm_log l0 \/ ends_in aborts_suite l0 \/ ends_in aborts_run l0 ->
  stops_ok (CallOnSuiteBegin it :: l0 ++ [CallOnSuiteEnd r]) = true.
Proof.
  intros [Hc|[Hs|(pre & e & -> & Hpre & He)]].
  - rewrite stops_ok_pass; auto.
  - rewrite stops_ok_pass; auto.
  - simpl. rewrite <- app_assoc. rewrite stops_ok_calm_app by exact Hpre. simpl.
    now rewrite He.
Qed.

(** The log of [RunSuites]: the abort decisions are followed as the claim
    says; a run that returns [true] holds no decision that ends the run;
    the suites begin in the order given, all of them when [true] is
    returned. *)
Lemma RunSuites_loop_log (fuel : nat) (todo : list nat) :
  forall st w,
    let o := RunSuites_loop cb suites fuel todo st w in
    stops_ok (log_of o) = true
    /\ (log_of o = [] \/ exists next tl, log_of o = CallOnSuiteBegin next :: tl)
    /\ suites_begun (log_of o) `prefix_of` todo
    /\ (forall st' w' l, o = Done (true, st') w' l ->
          Forall (fun e => aborts_run e = false) l /\ suites_begun l = todo).
Proof.
  induction todo as [|it rest IH]; intros st w; simpl.
  - split; [reflexivity|]. split; [now left|]. split; [apply prefix_nil|].
    unfold ret. intros st' w' l H. injection H as _ _ <-. auto.
  - unfold bind.
    pose proof (RunSuites_iter_log fuel it st w) as Hit.
    destruct (RunSuites_iter cb suites fuel it st w) as [[p st1] w1 l1|k w1 l1].
    + destruct Hit as (l0 & r & -> & Hl0).
      assert (suites_begun l0 = []) as Hb0.
      { destruct p.
        - destruct Hl0 as [Hc|(pre & e & -> & Hpre & He)];
            [now apply suites_begun_calm|].
          rewrite suites_begun_app, (suites_begun_calm pre Hpre). simpl.
          destruct (aborts_suite_not_run e He) as [_ Hne].
          destruct e; simpl in *; try discriminate; reflexivity.
        - destruct Hl0 as (pre & e & -> & Hpre & He).
          rewrite suites_begun_app, (suites_begun_calm pre Hpre). simpl.
          pose proof (aborts_run_not_begin e He) as Hne.
          destruct e; simpl in *; try discriminate; reflexivity. }
      destruct p.
      * destruct (IH st1 w1) as (Hok & Hhead & Hpre & Hdone).
        rewrite log_of_prepend. simpl in *. rewrite <- app_assoc. simpl.
        split; [|split; [|split]].
        -- change (stops_ok (CallOnSuiteBegin it :: l0 ++
                     CallOnSuiteEnd r :: log_of (RunSuites_loop cb suites fuel rest st1 w1))
                   = true).
           rewrite stops_ok_pass; auto.
        -- right. eauto.
        -- rewrite suites_begun_app, Hb0. simpl. now apply prefix_cons.
        -- intros st' w' l H.
           destruct (RunSuites_loop cb suites fuel rest st1 w1)
             as [[p2 st2] w2 l2|k w2 l2] eqn:Hloop; simpl in H; [|discriminate].
           injection H as -> <- <- <-.
           destruct (Hdone st2 w2 l2 eq_refl) as [Hno Hbeg].
           split.
           ++ constructor; [reflexivity|]. rewrite <- app_assoc.
              apply Forall_app. split.
              ** destruct Hl0 as [Hc|(pre & e & -> & Hpre' & He)].
                 --- now apply no_abort_calm_app.
                 --- apply Forall_app. split; [now apply no_abort_calm_app|].
                     constructor; [|constructor].
                     now destruct (aborts_suite_not_run e He).
              ** simpl. constructor; [reflexivity|exact Hno].
           ++ simpl. rewrite <- app_assoc, suites_begun_app, Hb0. simpl.
              now rewrite Hbeg.
      * simpl. split; [|split; [|split]].
        -- change (stops_ok (CallOnSuiteBegin it :: (l0 ++ [CallOnSuiteEnd r]) ++ [])
                   = true).
           rewrite app_nil_r. apply stops_ok_last_pass. auto.
        -- right. eauto.
        -- rewrite app_nil_r, suites_begun_app, Hb0. simpl.
           apply prefix_cons, prefix_nil.
        -- intros st' w' l H. discriminate.
    + simpl. split; [|split; [|split]].
      * destruct Hit as [->|[(l0 & -> & Hc)|(l0 & r & -> & Hl0)]].
        -- reflexivity.
        -- simpl. rewrite <- (app_nil_r l0). now rewrite stops_ok_calm_app.
        -- now apply stops_ok_last_pass.
      * destruct Hit as [->|[(l0 & -> & Hc)|(l0 & r & -> & Hl0)]]; [now left|right; eauto..].
      * destruct Hit as [->|[(l0 & -> & Hc)|(l0 & r & -> & Hl0)]].
        -- apply prefix_nil.
        -- simpl. rewrite (suites_begun_calm l0 Hc). apply prefix_cons, prefix_nil.
        -- simpl. rewrite suites_begun_app. simpl. rewrite app_nil_r.
           assert (suites_begun l0 = []) as ->; [|apply prefix_cons, prefix_nil].
           destruct Hl0 as [Hc|[(pre & e & -> & Hpre & He)|(pre & e & -> & Hpre & He)]].
           ++ now apply suites_begun_calm.
           ++ rewrite suites_begun_app, (suites_begun_calm pre Hpre). simpl.
              destruct (aborts_suite_not_run e He) as [_ Hne].
              destruct e; simpl in *; try discriminate; reflexivity.
           ++ rewrite suites_begun_app, (suites_begun_calm pre Hpre). simpl.
              pose proof (aborts_run_not_begin e He) as Hne.
              destruct e; simpl in *; try discriminate; reflexivity.
      * intros st' w' l H. discriminate.
Qed.

End AbortLoop.

Lemma stops_ok_split (log : list Event) :
  stops_ok log = true ->
  forall pre e post, log = pre ++ e :: post ->
    (aborts_run e = true -> exists r, post = [CallOnSuiteEnd r])
    /\ (aborts_suite e = true ->
        exists r post', post = CallOnSuiteEnd r :: post'
          /\ (post' = [] \/ exists next post'', post' = CallOnSuiteBegin next :: post'')).
Proof.
  intros H pre. revert log H.
  induction pre as [|a pre IH]; intros log H e post ->; simpl in H.
  - apply andb_true_iff in H as [H _]. split.
    + intros Hr. rewrite Hr in H.
      destruct post as [|[] [|? ?]]; try discriminate. eauto.
    + intros Hs. destruct (aborts_suite_not_run e Hs) as [Hr _].
      rewrite Hr, Hs in H.
      destruct post as [|[] [|[] ?]]; try discriminate; eauto 10.
  - apply andb_true_iff in H as [_ H]. now apply (IH _ H).
Qed.

(** The abort decisions of revision two.  In every log of [RunSuites]:
    after a decision that ends the run ([Abort] from [OnException] or from
    [OnDependencyFail] is one) only the end of the suite now active is
    logged, so no later suite begins, and [RunSuites] does not return
    [true]; after a decision that ends the suite only ([AbortCurrent] from
    [OnException] in a fixture or from [OnDependencyFail]) the end of that
    suite is logged, and what follows, if anything, is the beginning of a
    suite.  The suites begin in the resolved order, and all of them have
    begun when [RunSuites] returns [true]. *)
Theorem abort_decisions_in_RunSuites {W : Type} (cb : @ControlCallback W)
    (suites : list Suite) (fuel : nat) (todo : list nat) (st : RunState) (w : W)
    (pre : list Event) (e : Event) (post : list Event) :
  let o := RunSuites_loop cb suites fuel todo st w in
  log_of o = pre ++ e :: post ->
  (forall site ctx running failed,
      aborts_run (CallOnException site ctx Abort) = true
      /\ aborts_run (CallOnDependencyFail running failed Abort) = true
      /\ aborts_suite (CallOnException InFixture ctx AbortCurrent) = true
      /\ aborts_suite (CallOnDependencyFail running failed AbortCurrent) = true)
  /\ (aborts_run e = true ->
      (exists r, post = [CallOnSuiteEnd r])
      /\ (forall st' w' l, o <> Done (true, st') w' l))
  /\ (aborts_suite e = true ->
      exists r post', post = CallOnSuiteEnd r :: post'
        /\ (post' = [] \/ exists next post'', post' = CallOnSuiteBegin next :: post''))
  /\ suites_begun (log_of o) `prefix_of` todo
  /\ (forall st' w' l, o = Done (true, st') w' l -> suites_begun l = todo).
Proof.
  intros o Hlog.
  destruct (RunSuites_loop_log cb suites fuel todo st w) as (Hok & _ & Hpre & Hdone).
  fold o in Hok, Hpre, Hdone.
  destruct (stops_ok_split _ Hok pre e post Hlog) as [Hrun Hsuite].
  split; [intros [] ctx running failed; repeat split; reflexivity|].
  split; [|split; [exact Hsuite|split; [exact Hpre|]]].
  - intros He. split; [now apply Hrun|].
    intros st' w' l Ho. destruct (Hdone st' w' l Ho) as [Hno _].
    rewrite Ho in Hlog. simpl in Hlog. rewrite Hlog in Hno.
    apply Forall_app in Hno as [_ Hno]. apply Forall_cons in Hno as [Hno _].
    congruence.
  - intros st' w' l Ho. now destruct (Hdone st' w' l Ho).
Qed.

Lemma abort_decisions_witness :
  let cb := demo_callback Abort Abort Abort 0 in
  let suites := [broken_init_suite "S0"; plain_suite "S1" [] [passing_test]] in
  let o := RunSuites cb (demo_env cb suites) 1 [0; 1]%nat EnvironmentResult_new 0%nat in
  suites_begun (log_of o) = [0]%nat
  /\ forall st' w' l, o <> Done (true, st') w' l.
Proof.
  intros cb suites o.
  destruct (abort_decisions_in_RunSuites cb suites 1 [0; 1]%nat
              {| rs_result := EnvironmentResult_new;
                 rs_connector := [0; 0]%nat;
                 rs_map := m_SuiteMap (demo_env cb suites) |} 0%nat
              [CallOnSuiteBegin 0; RunFixture (mkInfo "suite.init" "" 3)]
              (CallOnException InFixture (mkInfo "suite.init" "" 3) Abort)
              [CallOnSuiteEnd (SuiteResult_new 0)])
    as (_ & Hrun & _).
  - vm_compute. reflexivity.
  - split; [vm_compute; reflexivity|]. now apply Hrun.
Defined.

(** ** An unknown dependency at the first root *)

(** Let [x] be the first root the resolver visits, and let the first
    dependency [d] that [x] declares have no entry in the map.  Then the
    resolver asks [OnUnknownDependency] about [x] and [d], and that is the
    only thing [Run] does: on any answer [a] but [Ignore], [Run] ends with
    the empty environment result; on [Ignore], it goes on to dereference
    [m_SuiteMap.end()]. *)
Theorem unknown_dependency_at_the_root {W : Type} (cb : @ControlCallback W)
    (cout : string -> W -> W) (env : @Environment W) (fuel : nat)
    (x : nat) (sx : Suite) (d : string) (rest : list string) (w : W) :
  m_Callback env = Some cb ->
  m_Suites env !! x = Some sx -> m_Dependencies sx = d :: rest ->
  m_SuiteMap env !! d = None ->
  (forall i w0 b w1 l, (i < x)%nat -> AllowSuite env i w0 = Done b w1 l -> b = false) ->
  (forall w0 b w1 l, AllowSuite env x w0 = Done b w1 l -> b = true) ->
  exists w1 a w2,
    OnUnknownDependency cb x d w1 = (a, w2)
    /\ (a <> Ignore ->
        Run cout (S fuel) env w
        = Done (EnvironmentResult_new, env) w2 [CallOnUnknownDependency x d a])
    /\ (a = Ignore ->
        Run cout (S fuel) env w = Fault DerefEnd w2 [CallOnUnknownDependency x d Ignore]).
Proof.
  intros Hcb Hsx Hdx Hd Hrej Hadm.
  pose proof (lookup_lt_Some _ _ _ Hsx) as Hlx.
  set (n := length (m_Suites env)) in *.
  set (ts0 := {| ts_result := []; ts_mark := replicate n (false, false);
                 ts_unsolvable := [] |}).
  assert (seq 0 n = seq 0 x ++ x :: seq (S x) (n - S x)) as Hseq.
  { replace n with (x + S (n - S x))%nat at 1 by lia.
    rewrite seq_app. reflexivity. }
  destruct (SolveDependencies_roots_rejected cb env (S fuel) x
              (x :: seq (S x) (n - S x)) ts0 Hrej (seq 0 x) w) as (w1 & Hskip).
  { intros i Hi. apply elem_of_seq in Hi. split; [lia|].
    apply lookup_replicate. split; [reflexivity|lia]. }
  destruct (AllowSuite_total env x w1) as (b & w2 & Ha).
  pose proof (Hadm _ _ _ _ Ha) as ->.
  destruct (OnUnknownDependency cb x d w2) as [a w3] eqn:Hcall.
  exists w2, a, w3. split; [exact Hcall|].
  assert (ts_mark ts0 !! x = Some (false, false)) as Hmx.
  { apply lookup_replicate. split; [reflexivity|exact Hlx]. }
  assert (SolveDependencies_roots cb env (S fuel) (seq 0 n) ts0 w
          = if bool_decide (a = Ignore)
            then Fault DerefEnd w3 [CallOnUnknownDependency x d a]
            else Done (false, {| ts_result := [];
                                 ts_mark := <[x := (false, true)]> (replicate n (false, false));
                                 ts_unsolvable := [] |}) w3
                      [CallOnUnknownDependency x d a]) as Hroots.
  { rewrite Hseq, Hskip. cbn [SolveDependencies_roots]. rewrite Hmx.
    unfold bind at 1. rewrite Ha. cbn [prepend].
    cbn [TopoVisit]. rewrite Hmx, Hsx, Hdx.
    cbn [TopoVisit_deps ts_mark ts_result ts_unsolvable ts0].
    rewrite list_lookup_insert_eq by (rewrite length_replicate; exact Hlx).
    rewrite Hd. unfold bind, call. rewrite Hcall. cbn [prepend].
    case_bool_decide; reflexivity. }
  split.
  - intros Hne. unfold Run. rewrite Hcb. unfold bind at 1.
    unfold SolveDependencies. fold n. fold ts0. unfold bind at 1.
    rewrite Hroots. rewrite bool_decide_eq_false_2 by exact Hne. reflexivity.
  - intros ->. unfold Run. rewrite Hcb. unfold bind at 1.
    unfold SolveDependencies. fold n. fold ts0. unfold bind at 1.
    rewrite Hroots. reflexivity.
Qed.

Lemma unknown_dependency_at_the_root_witness :
  let env := demo_env (demo_callback Abort Abort AbortCurrent 0)
               [plain_suite "A" ["missing"] [passing_test]] in
  exists w' : nat,
    Run silent 1 env 0%nat
    = Done (EnvironmentResult_new, env) w'
        [CallOnUnknownDependency 0 "missing" AbortCurrent].
Proof.
  intros env.
  destruct (unknown_dependency_at_the_root (demo_callback Abort Abort AbortCurrent 0)
              silent env 0 0 (plain_suite "A" ["missing"] [passing_test])
              "missing" [] 0%nat) as (w1 & a & w2 & Hcall & Hr & _);
    [reflexivity | reflexivity | reflexivity | reflexivity | | |].
  - intros i w0 b w1 l Hi. lia.
  - intros w0 b w1 l H. vm_compute in H. congruence.
  - vm_compute in Hcall. injection Hcall as <- <-. exists w1. apply Hr. discriminate.
Defined.

(** ** What the dependency check reads *)

Section Reads.
Context {W : Type}.
Variable cb : @ControlCallback W.
Variable env : @Environment W.
Hypothesis Hreg : registered env.
Hypothesis Hres : all_resolve env.

Lemma registered_lookup_name (name : string) (f : nat) :
  m_SuiteMap env !! name = Some f ->
  exists s, m_Suites env !! f = Some s /\ m_Name (suite_Info s) = name.
Proof.
  intros Hf. rewrite Hreg in Hf. unfold first_registered in Hf.
  destruct (list_find _ (m_Suites env)) as [[i x]|] eqn:Hfind; [|discriminate].
  simpl in Hf. injection Hf as <-.
  apply list_find_Some in Hfind as (Hi & Hx & _). eauto.
Qed.

Lemma registered_name_in_map (i : nat) (s : Suite) :
  m_Suites env !! i = Some s -> is_Some (m_SuiteMap env !! m_Name (suite_Info s)).
Proof.
  intros Hi. rewrite Hreg. unfold first_registered.
  destruct (list_find (fun s0 => m_Name (suite_Info s0) = m_Name (suite_Info s))
              (m_Suites env)) as [[j x]|] eqn:Hfind; [simpl; eauto|].
  exfalso. eapply list_find_None in Hfind.
  eapply (Forall_lookup_1 _ _ _ _ Hfind Hi). reflexivity.
Qed.

Lemma map_index_present (d : string) (f : nat) (map : gmap string nat) :
  map !! d = Some f -> map_index d map = (f, map).
Proof. unfold map_index. now intros ->. Qed.

Lemma CheckDependencies_keeps_map (s : nat) (deps : list string)
    (result : EnvironmentResult) (connector : list nat) (map : gmap string nat) :
  (forall d, d ∈ deps -> is_Some (map !! d)) ->
  forall w v map' w' l,
    CheckDependencies cb s deps result connector map w = Done (v, map') w' l ->
    map' = map.
Proof.
  unfold CheckDependencies.
  induction deps as [|d rest IH]; intros Hdeps w v map' w' l; simpl.
  - unfold ret. intros H. now injection H as _ <- _ _.
  - destruct (Hdeps d) as [f Hf]; [apply elem_of_cons; now left|].
    assert (forall d0, d0 ∈ rest -> is_Some (map !! d0)) as Hrest.
    { intros d0 H0. apply Hdeps. apply elem_of_cons. now right. }
    rewrite (map_index_present d f map Hf).
    destruct (connector !! f) as [k|]; [|discriminate].
    destruct (er_Results result !! k) as [suiteRes|]; [|discriminate].
    case_bool_decide; [|now apply IH].
    unfold bind, call.
    destruct (OnDependencyFail cb s (m_Suite suiteRes) suiteRes w) as [a w1]. simpl.
    repeat case_bool_decide.
    + destruct (CheckDependencies_loop cb s rest result connector map w1)
        as [[v1 map1] w2 l2|k2 w2 l2] eqn:Hrec; simpl; [|discriminate].
      intros Heq. injection Heq as _ <- _ _. eapply IH; eauto.
    + simpl. intros Heq. now injection Heq as _ <- _ _.
    + simpl. intros Heq. now injection Heq as _ <- _ _.
Qed.

(** The state one pass of [RunSuites] leaves. *)
Lemma RunSuites_iter_state (fuel : nat) (it : nat) (s : Suite) (st st' : RunState)
    (w w' : W) (p : bool) (l : list Event) :
  m_Suites env !! it = Some s ->
  rs_map st = m_SuiteMap env ->
  RunSuites_iter cb (m_Suites env) fuel it st w = Done (p, st') w' l ->
  exists r f,
    m_Suite r = it
    /\ m_SuiteMap env !! m_Name (suite_Info s) = Some f
    /\ st' = {| rs_result := EnvironmentResult_AddResult r (rs_result st);
                rs_connector := <[f := length (er_Results (rs_result st))]> (rs_connector st);
                rs_map := m_SuiteMap env |}.
Proof.
  intros Hs Hmap. unfold RunSuites_iter. rewrite Hs.
  unfold bind at 1, call_ at 1. cbn [prepend]. unfold bind at 1.
  destruct (RunSuites_suite cb fuel it s st (OnSuiteBegin cb it w))
    as [[[q r] map] w1 l1|k w1 l1] eqn:Hsuite; cbn [prepend]; [|discriminate].
  assert (map = m_SuiteMap env) as ->.
  { revert Hsuite. unfold RunSuites_suite, bind at 1.
    destruct (CheckDependencies cb it (m_Dependencies s) (rs_result st)
                (rs_connector st) (rs_map st) (OnSuiteBegin cb it w))
      as [[check map1] w2 l2|k w2 l2] eqn:Hcheck; cbn [prepend]; [|discriminate].
    apply CheckDependencies_keeps_map in Hcheck.
    2:{ intros d Hd. rewrite Hmap. eapply Hres; eauto. }
    subst map1. rewrite Hmap.
    destruct check as [q'|].
    - unfold ret. simpl. intros Heq. now injection Heq as _ _ <- _ _.
    - unfold bind.
      destruct (Suite_Run rev2 cb fuel it s (SuiteResult_new it) w2)
        as [[ran r1] w3 l3|k w3 l3]; simpl; [|discriminate].
      intros Heq. now injection Heq as _ _ <- _ _. }
  apply RunSuites_suite_m_Suite in Hsuite.
  destruct (registered_name_in_map it s Hs) as [f Hf].
  unfold bind, call_. cbn [prepend].
  rewrite (map_index_present _ f _ Hf).
  case_bool_decide; simpl; [|discriminate].
  intros Heq. injection Heq as _ <- _ _. exists r, f. auto.
Qed.

Lemma RunSuites_iter_inv (fuel : nat) (it : nat) (st st' : RunState)
    (w w' : W) (p : bool) (l : list Event) :
  run_inv env st ->
  RunSuites_iter cb (m_Suites env) fuel it st w = Done (p, st') w' l ->
  run_inv env st'.
Proof.
  intros [Hmap Hlen Hread] Hit.
  destruct (m_Suites env !! it) as [s|] eqn:Hs.
  2:{ unfold RunSuites_iter in Hit. rewrite Hs in Hit. discriminate. }
  destruct (RunSuites_iter_state fuel it s st st' w w' p l Hs Hmap Hit)
    as (r & f & Hr & Hf & ->).
  pose proof (registered_in_range env Hreg _ _ Hf) as Hflt.
  split; simpl.
  - reflexivity.
  - now rewrite length_insert.
  - intros r0 Hr0. apply elem_of_app in Hr0 as [Hr0|Hr0].
    + destruct (Hread r0 Hr0) as (s0 & Hs0 & Hslot).
      exists s0. split; [exact Hs0|]. intros f0 Hf0.
      destruct (decide (f0 = f)) as [->|Hne].
      * exists (length (er_Results (rs_result st))), r, s.
        split; [apply list_lookup_insert_eq; lia|].
        split; [rewrite lookup_app_r, Nat.sub_diag by lia; reflexivity|].
        split; [now rewrite Hr|].
        destruct (registered_lookup_name _ _ Hf) as (sf & Hsf & <-).
        destruct (registered_lookup_name _ _ Hf0) as (sf0 & Hsf0 & <-).
        congruence.
      * destruct (Hslot f0 Hf0) as (k & r' & s' & Hk & Hr' & Hs' & Hn).
        exists k, r', s'. split; [now rewrite list_lookup_insert_ne by congruence|].
        split; [now apply lookup_app_l_Some|]. auto.
    + apply list_elem_of_singleton in Hr0. subst r0. rewrite Hr.
      exists s. split; [exact Hs|]. intros f0 Hf0.
      rewrite Hf in Hf0. injection Hf0 as <-.
      exists (length (er_Results (rs_result st))), r, s.
      split; [apply list_lookup_insert_eq; lia|].
      split; [rewrite lookup_app_r, Nat.sub_diag by lia; reflexivity|].
      split; [now rewrite Hr|reflexivity].
Qed.

Lemma RunSuites_loop_inv (fuel : nat) (todo : list nat) :
  forall st w st' w' p l,
    run_inv env st ->
    RunSuites_loop cb (m_Suites env) fuel todo st w = Done (p, st') w' l ->
    run_inv env st'.
Proof.
  induction todo as [|it rest IH]; intros st w st' w' p l Hinv; simpl.
  - unfold ret. intros H. now injection H as _ <- _ _.
  - unfold bind.
    destruct (RunSuites_iter cb (m_Suites env) fuel it st w)
      as [[q st1] w1 l1|k w1 l1] eqn:Hit; [|discriminate].
    apply (RunSuites_iter_inv fuel it st st1 w w1 q l1 Hinv) in Hit.
    destruct q; simpl.
    + destruct (RunSuites_loop cb (m_Suites env) fuel rest st1 w1)
        as [[q2 st2] w2 l2|k w2 l2] eqn:Hloop; simpl; [|discriminate].
      intros H. injection H as _ <- _ _. eapply IH; eauto.
    + intros H. now injection H as _ <- _ _.
Qed.

End Reads.

(** The reads of [CheckDependencies].  Let the map be the registered one
    and every dependency name resolve.  When [RunSuites] has run the suites
    of [pre], [B] among them, with [procceed] still true, and the next
    suite declares the dependency [d], which the map resolves to [B], then
    the three reads of the dependency check succeed: [m_SuiteMap[d]] is [B]
    and leaves the map as it is, [resultConnector[B]] is the index [k] of a
    recorded result, and that result is the result of a suite named [d];
    where no two suites share a name, it is the result of [B]. *)
Theorem dependency_check_reads_the_dependency {W : Type} (cb : @ControlCallback W)
    (env : @Environment W) (fuel : nat) (pre : list nat) (B : nat) (d : string)
    (st' : RunState) (w0 w1 : W) (l : list Event) :
  registered env -> all_resolve env ->
  m_SuiteMap env !! d = Some B ->
  B ∈ pre ->
  RunSuites cb env fuel pre EnvironmentResult_new w0 = Done (true, st') w1 l ->
  exists k r s,
    map_index d (rs_map st') = (B, rs_map st')
    /\ rs_connector st' !! B = Some k
    /\ er_Results (rs_result st') !! k = Some r
    /\ m_Suites env !! m_Suite r = Some s
    /\ m_Name (suite_Info s) = d
    /\ ((forall i j si sj, m_Suites env !! i = Some si -> m_Suites env !! j = Some sj ->
           m_Name (suite_Info si) = m_Name (suite_Info sj) -> i = j) ->
        m_Suite r = B).
Proof.
  intros Hreg Hres Hd HB Hrun. unfold RunSuites in Hrun.
  pose proof Hrun as Hrec. apply RunSuites_loop_records in Hrec. simpl in Hrec.
  apply (RunSuites_loop_inv cb env Hreg Hres) in Hrun.
  2:{ split; simpl; [reflexivity|apply length_replicate|].
      intros r Hr. now apply elem_of_nil in Hr. }
  destruct Hrun as [Hmap Hlen Hread].
  assert (B ∈ m_Suite <$> er_Results (rs_result st')) as Hin by now rewrite Hrec.
  apply list_elem_of_fmap in Hin as (rB & -> & HrB).
  destruct (Hread rB HrB) as (sB & HsB & Hslot).
  destruct (registered_lookup_name env Hreg _ _ Hd) as (sB' & HsB' & Hname).
  rewrite HsB in HsB'. injection HsB' as <-.
  rewrite Hname in Hslot.
  destruct (Hslot _ Hd) as (k & r & s & Hk & Hr & Hs & Hn).
  exists k, r, s. rewrite Hmap.
  split; [now apply map_index_present|]. split; [exact Hk|]. split; [exact Hr|].
  split; [exact Hs|]. split; [congruence|].
  intros Huniq. apply (Huniq _ _ s sB Hs HsB). congruence.
Qed.

Lemma dependency_check_reads_witness :
  let cb := demo_callback Abort Abort Abort 0 in
  let env := demo_env cb two_suites in
  exists (st' : RunState) (w' : nat) (l : list Event) (k : nat) (r : SuiteResult),
    RunSuites cb env 1 [1]%nat EnvironmentResult_new 0%nat = Done (true, st') w' l
    /\ map_index "B" (rs_map st') = (1%nat, rs_map st')
    /\ rs_connector st' !! 1%nat = Some k
    /\ er_Results (rs_result st') !! k = Some r
    /\ m_Suite r = 1%nat.
Proof.
  intros cb env.
  assert (exists st' w' l,
    RunSuites cb env 1 [1]%nat EnvironmentResult_new 0%nat = Done (true, st') w' l)
    as (st' & w' & l & Hrun).
  { vm_compute. eexists _, _, _. reflexivity. }
  destruct (dependency_check_reads_the_dependency cb env 1 [1]%nat 1%nat "B" st' 0%nat w' l)
    as (k & r & s & Hmap & Hk & Hr & Hs & Hn & Huniq).
  - intros name. apply (register_all_map two_suites name).
  - intros a s d Hs Hd.
    destruct a as [|[|a]]; simpl in Hs; [| |discriminate].
    + injection Hs as <-. simpl in Hd. apply list_elem_of_singleton in Hd. subst d.
      vm_compute. eauto.
    + injection Hs as <-. simpl in Hd. now apply elem_of_nil in Hd.
  - vm_compute. reflexivity.
  - apply list_elem_of_singleton. reflexivity.
  - exact Hrun.
  - exists st', w', l, k, r. split; [exact Hrun|]. split; [exact Hmap|].
    split; [exact Hk|]. split; [exact Hr|].
    apply Huniq. intros i j si sj Hi Hj Hname.
    destruct i as [|[|i]], j as [|[|j]]; simpl in Hi, Hj; try discriminate;
      try reflexivity; injection Hi as <-; injection Hj as <-; discriminate.
Defined.

(** ** What a resolution that succeeds guarantees *)

Section Sound.
Context {W : Type}.
Variable cb : @ControlCallback W.
Variable env : @Environment W.

Lemma black_not_gray (ts : TopoState) (i : nat) : black ts i -> gray ts i -> False.
Proof. unfold black, gray. congruence. Qed.

Lemma TopoVisit_deps_sound (visit : nat -> TopoState -> M (Z * TopoState))
    (cur : nat) (s : Suite) :
  (forall c ts w ts' w' l,
      visit c ts w = Done (0, ts') w' l -> resolver_sound env ts ->
      resolver_sound env ts'
      /\ (forall i, gray ts' i <-> gray ts i)
      /\ (exists new, ts_result ts' = ts_result ts ++ new)
      /\ black ts' c) ->
  m_Suites env !! cur = Some s ->
  forall (rest done : list string) (ts : TopoState) (w : W) ts' w' l,
    m_Dependencies s = done ++ rest ->
    resolver_sound env ts ->
    gray ts cur ->
    (forall d, d ∈ done -> exists b, m_SuiteMap env !! d = Some b /\ b ∈ ts_result ts) ->
    TopoVisit_deps cb env visit cur rest ts w = Done (0, ts') w' l ->
    resolver_sound env ts'
    /\ (forall i, gray ts' i <-> gray ts i /\ i <> cur)
    /\ (exists new, ts_result ts' = ts_result ts ++ new)
    /\ black ts' cur.
Proof.
  intros Hvisit Hcur.
  induction rest as [|depName rest IH]; intros done ts w ts' w' l Hdeps Hs Hg Hdone Hrun;
    simpl in Hrun.
  - destruct (ts_mark ts !! cur) as [m|] eqn:Hm; [|discriminate].
    unfold ret in Hrun. inversion Hrun; subst ts' w' l; clear Hrun.
    rewrite app_nil_r in Hdeps.
    pose proof (lookup_lt_Some _ _ _ Hm) as Hlt.
    assert (cur ∉ ts_result ts) as Hnotin.
    { intros Hin. eapply black_not_gray; [eapply sound_black; eauto|exact Hg]. }
    split; [split; simpl|split; [|split]].
    + intros i Hi. unfold black. simpl. apply elem_of_app in Hi as [Hi|Hi].
      * rewrite list_lookup_insert_ne by (intros ->; contradiction).
        eapply sound_black; eauto.
      * apply list_elem_of_singleton in Hi. subst i. now apply list_lookup_insert_eq.
    + intros i sec Hi. apply elem_of_app.
      destruct (decide (i = cur)) as [->|Hne]; [right; apply list_elem_of_singleton; reflexivity|].
      rewrite list_lookup_insert_ne in Hi by congruence.
      left. eapply sound_listed; eauto.
    + apply NoDup_app. split; [eapply sound_nodup; eauto|].
      split; [|apply NoDup_singleton].
      intros x Hx Hx'. apply list_elem_of_singleton in Hx'. subst x. contradiction.
    + intros a Ha. apply elem_of_app in Ha as [Ha|Ha].
      * destruct (sound_closed _ _ Hs a Ha) as (sa & Hsa & Hd).
        exists sa. split; [exact Hsa|]. intros d Hdin.
        destruct (Hd d Hdin) as (b & Hb & Hp). exists b. split; [exact Hb|].
        now apply precedes_app.
      * apply list_elem_of_singleton in Ha. subst a.
        exists s. split; [exact Hcur|]. intros d Hdin. rewrite Hdeps in Hdin.
        destruct (Hdone d Hdin) as (b & Hb & Hbin). exists b. split; [exact Hb|].
        apply list_elem_of_lookup in Hbin as [i Hi].
        exists i, (length (ts_result ts)).
        split; [eapply lookup_lt_Some; eauto|].
        split; [now apply lookup_app_l_Some|].
        rewrite lookup_app_r, Nat.sub_diag by lia. reflexivity.
    + intros i. unfold gray. simpl.
      destruct (decide (i = cur)) as [->|Hne].
      * rewrite list_lookup_insert_eq by exact Hlt.
        split; [discriminate|intros [_ Hc]; contradiction].
      * rewrite list_lookup_insert_ne by congruence. tauto.
    + exists [cur]. reflexivity.
    + unfold black. simpl. now apply list_lookup_insert_eq.
  - pose proof Hg as Hgc. unfold gray in Hgc. rewrite Hgc in Hrun.
    destruct (m_SuiteMap env !! depName) as [dep|] eqn:Hdep.
    + unfold bind in Hrun.
      destruct (visit dep ts w) as [[vr ts1] w1 l1|k w1 l1] eqn:Hv; [|discriminate].
      destruct (decide (vr = 0)) as [->|Hvr].
      * rewrite bool_decide_eq_false_2 in Hrun by tauto.
        destruct (TopoVisit_deps cb env visit cur rest ts1 w1)
          as [[c2 ts2] w2 l2|k w2 l2] eqn:Hrec; simpl in Hrun; [|discriminate].
        inversion Hrun; subst c2 ts2 w2 l; clear Hrun.
        destruct (Hvisit _ _ _ _ _ _ Hv Hs) as (Hs1 & Hg1 & [new1 Hnew1] & Hb1).
        destruct (IH (done ++ [depName]) ts1 w1 ts' w' l2) as (Hs' & Hg' & [new2 Hnew2] & Hb');
          [now rewrite <- app_assoc|exact Hs1|now apply Hg1| |exact Hrec|].
        { intros d Hd. apply elem_of_app in Hd as [Hd|Hd].
          - destruct (Hdone d Hd) as (b & Hb & Hbin). exists b. split; [exact Hb|].
            rewrite Hnew1. apply elem_of_app. now left.
          - apply list_elem_of_singleton in Hd. subst d. exists dep. split; [exact Hdep|].
            eapply sound_listed; eauto. }
        split; [exact Hs'|]. split; [|split; [|exact Hb']].
        -- intros i. rewrite Hg', Hg1. tauto.
        -- exists (new1 ++ new2). now rewrite Hnew2, Hnew1, app_assoc.
      * rewrite bool_decide_eq_true_2 in Hrun by exact Hvr.
        case_bool_decide; simpl in Hrun; inversion Hrun; congruence.
    + unfold bind, call in Hrun.
      destruct (OnUnknownDependency cb cur depName w) as [a w1].
      simpl in Hrun. case_bool_decide; simpl in Hrun; [discriminate|].
      inversion Hrun.
Qed.

Lemma TopoVisit_sound (fuel : nat) :
  forall c ts w ts' w' l,
    TopoVisit cb env fuel c ts w = Done (0, ts') w' l -> resolver_sound env ts ->
    resolver_sound env ts'
    /\ (forall i, gray ts' i <-> gray ts i)
    /\ (exists new, ts_result ts' = ts_result ts ++ new)
    /\ black ts' c.
Proof.
  induction fuel as [|fuel IH]; intros c ts w ts' w' l Hrun Hs; simpl in Hrun;
    [discriminate|].
  destruct (ts_mark ts !! c) as [[first second]|] eqn:Hm; [|discriminate].
  destruct second; [inversion Hrun|].
  destruct first.
  - unfold ret in Hrun. inversion Hrun; subst ts' w' l.
    split; [exact Hs|]. split; [tauto|]. split; [exists []; now rewrite app_nil_r|exact Hm].
  - destruct (m_Suites env !! c) as [s|] eqn:Hc; [|discriminate].
    pose proof (lookup_lt_Some _ _ _ Hm) as Hlt.
    set (ts0 := {| ts_result := ts_result ts;
                   ts_mark := <[c := (false, true)]> (ts_mark ts);
                   ts_unsolvable := ts_unsolvable ts |}) in *.
    assert (gray ts0 c) as Hg0 by (unfold gray; simpl; now apply list_lookup_insert_eq).
    assert (c ∉ ts_result ts) as Hnotin.
    { intros Hin. pose proof (sound_black _ _ Hs c Hin) as Hb. unfold black in Hb. congruence. }
    assert (resolver_sound env ts0) as Hs0.
    { split; simpl.
      - intros i Hi. unfold black. simpl.
        rewrite list_lookup_insert_ne by (intros ->; contradiction).
        eapply sound_black; eauto.
      - intros i sec Hi. destruct (decide (i = c)) as [->|Hne].
        + rewrite list_lookup_insert_eq in Hi by exact Hlt. discriminate.
        + rewrite list_lookup_insert_ne in Hi by congruence. eapply sound_listed; eauto.
      - eapply sound_nodup; eauto.
      - eapply sound_closed; eauto. }
    destruct (TopoVisit_deps_sound (TopoVisit cb env fuel) c s IH Hc
                (m_Dependencies s) [] ts0 w ts' w' l eq_refl Hs0 Hg0)
      as (Hs' & Hg' & Hnew & Hb'); [intros d Hd; now apply elem_of_nil in Hd|exact Hrun|].
    split; [exact Hs'|]. split; [|split; [exact Hnew|exact Hb']].
    intros i. rewrite Hg'. unfold gray. simpl.
    destruct (decide (i = c)) as [->|Hne].
    + rewrite Hm. split; [tauto|discriminate].
    + rewrite list_lookup_insert_ne by congruence. tauto.
Qed.

Lemma SolveDependencies_roots_sound (fuel : nat) (roots : list nat) :
  forall ts w ts' w' l,
    SolveDependencies_roots cb env fuel roots ts w = Done (true, ts') w' l ->
    resolver_sound env ts ->
    resolver_sound env ts'
    /\ (forall i, gray ts' i <-> gray ts i)
    /\ (exists new, ts_result ts' = ts_result ts ++ new)
    /\ (forall allow, filters_answer env allow ->
          forall i, i ∈ roots -> allow i = true -> i ∈ ts_result ts').
Proof.
  induction roots as [|r roots IH]; intros ts w ts' w' l Hrun Hs; simpl in Hrun.
  - unfold ret in Hrun. inversion Hrun; subst ts' w' l.
    split; [exact Hs|]. split; [tauto|]. split; [exists []; now rewrite app_nil_r|].
    intros allow _ i Hi. now apply elem_of_nil in Hi.
  - destruct (ts_mark ts !! r) as [[first second]|] eqn:Hm; [|discriminate].
    destruct first.
    + destruct (IH _ _ _ _ _ Hrun Hs) as (Hs' & Hg' & [new Hnew] & Hin).
      split; [exact Hs'|]. split; [exact Hg'|]. split; [now exists new|].
      intros allow Hallow i Hi Ha.
      apply elem_of_cons in Hi as [->|Hi]; [|now apply (Hin allow)].
      rewrite Hnew. apply elem_of_app. left. eapply sound_listed; eauto.
    + unfold bind in Hrun.
      destruct (AllowSuite env r w) as [allowed w1 l1|k w1 l1] eqn:Hal; [|discriminate].
      destruct allowed.
      * destruct (TopoVisit cb env fuel r ts w1) as [[code ts1] w2 l2|k w2 l2] eqn:Hv;
          simpl in Hrun; [|discriminate].
        case_bool_decide as Hcode; [subst code|].
        2:{ destruct l1; simpl in Hrun; inversion Hrun. }
        destruct (SolveDependencies_roots cb env fuel roots ts1 w2)
          as [[b ts2] w3 l3|k w3 l3] eqn:Hrec; simpl in Hrun; [|discriminate].
        assert (b = true /\ ts2 = ts') as [-> ->].
        { destruct l1; simpl in Hrun; inversion Hrun; auto. }
        destruct (TopoVisit_sound _ _ _ _ _ _ _ Hv Hs) as (Hs1 & Hg1 & [new1 Hnew1] & Hb1).
        destruct (IH _ _ _ _ _ Hrec Hs1) as (Hs' & Hg' & [new2 Hnew2] & Hin).
        split; [exact Hs'|]. split; [intros i; rewrite Hg', Hg1; tauto|].
        split; [exists (new1 ++ new2); now rewrite Hnew2, Hnew1, app_assoc|].
        intros allow Hallow i Hi Ha.
        apply elem_of_cons in Hi as [->|Hi]; [|now apply (Hin allow)].
        rewrite Hnew2. apply elem_of_app. left. eapply sound_listed; eauto.
      * destruct (SolveDependencies_roots cb env fuel roots ts w1)
          as [[b ts2] w3 l3|k w3 l3] eqn:Hrec; simpl in Hrun; [|discriminate].
        assert (b = true /\ ts2 = ts') as [-> ->].
        { destruct l1; simpl in Hrun; inversion Hrun; auto. }
        destruct (IH _ _ _ _ _ Hrec Hs) as (Hs' & Hg' & Hnew & Hin).
        split; [exact Hs'|]. split; [exact Hg'|]. split; [exact Hnew|].
        intros allow Hallow i Hi Ha.
        apply elem_of_cons in Hi as [->|Hi]; [|now apply (Hin allow)].
        pose proof (Hallow _ _ _ _ _ Hal). congruence.
Qed.

End Sound.

Lemma closed_order_descends {W : Type} (env : @Environment W) (order : list nat) :
  NoDup order -> closed_order env order ->
  forall a c, tc (depends env) a c ->
    forall j, order !! j = Some a -> exists i, (i < j)%nat /\ order !! i = Some c.
Proof.
  intros Hnd Hcl.
  assert (forall a c, depends env a c -> forall j, order !! j = Some a ->
            exists i, (i < j)%nat /\ order !! i = Some c) as Hstep.
  { intros a c (s & d & Hs & Hd & Hmap) j Hj.
    destruct (Hcl a) as (s' & Hs' & Hdeps); [eapply list_elem_of_lookup_2; eauto|].
    rewrite Hs in Hs'. injection Hs' as <-.
    destruct (Hdeps d Hd) as (b & Hb & i & j' & Hlt & Hi & Hj').
    rewrite Hmap in Hb. injection Hb as <-.
    pose proof (NoDup_lookup _ _ _ _ Hnd Hj Hj') as ->. eauto. }
  intros a c Htc. induction Htc as [a c Hd|a b c Hd _ IH]; intros j Hj.
  - eapply Hstep; eauto.
  - destruct (Hstep _ _ Hd j Hj) as (i & Hlt & Hi).
    destruct (IH i Hi) as (i' & Hlt' & Hi'). exists i'. split; [lia|exact Hi'].
Qed.

Lemma SolveDependencies_sound {W : Type} (cb : @ControlCallback W)
    (env : @Environment W) (fuel : nat) (order : list nat) (w w' : W) (l : list Event) :
  SolveDependencies cb env fuel [] w = Done (true, order) w' l ->
  NoDup order
  /\ closed_order env order
  /\ (forall a, a ∈ order -> ~ tc (depends env) a a)
  /\ (forall allow, filters_answer env allow ->
        forall i, (i < length (m_Suites env))%nat -> allow i = true -> i ∈ order)
  /\ l = [].
Proof.
  intros Hrun. unfold SolveDependencies, bind in Hrun.
  set (ts0 := {| ts_result := []; ts_mark := replicate (length (m_Suites env)) (false, false);
                 ts_unsolvable := [] |}) in *.
  pose proof (SolveDependencies_roots_shape cb env fuel (seq 0 (length (m_Suites env))) ts0 w)
    as Hshape.
  destruct (SolveDependencies_roots cb env fuel (seq 0 (length (m_Suites env))) ts0 w)
    as [[succeded ts] w1 l1|k w1 l1] eqn:Hroots; [|discriminate].
  simpl in Hrun. destruct succeded.
  2:{ destruct (ts_unsolvable ts); [simpl in Hrun; inversion Hrun|].
      unfold bind, call in Hrun.
      destruct (OnUnsolvableDependencies cb (n :: l0) w1). simpl in Hrun. inversion Hrun. }
  simpl in Hrun. rewrite app_nil_r in Hrun. inversion Hrun; subst order w1 l1; clear Hrun.
  assert (resolver_sound env ts0) as Hs0.
  { split; simpl.
    - intros i Hi. now apply elem_of_nil in Hi.
    - intros i sec Hi. apply lookup_replicate in Hi as [Hi _]. discriminate.
    - constructor.
    - intros a Ha. now apply elem_of_nil in Ha. }
  destruct (SolveDependencies_roots_sound cb env fuel _ _ _ _ _ _ Hroots Hs0)
    as (Hs & _ & _ & Hin).
  pose proof (sound_nodup _ _ Hs) as Hnd. pose proof (sound_closed _ _ Hs) as Hcl.
  split; [exact Hnd|]. split; [exact Hcl|]. split; [|split].
  - intros a Ha Htc. apply list_elem_of_lookup in Ha as [j Hj].
    destruct (closed_order_descends env _ Hnd Hcl a a Htc j Hj) as (i & Hlt & Hi).
    pose proof (NoDup_lookup _ _ _ _ Hnd Hi Hj). lia.
  - intros allow Hallow i Hi Ha.
    apply (Hin allow Hallow); [|exact Ha]. apply elem_of_seq. lia.
  - destruct Hshape as [(_ & Hl & _)|[(Hf & _)|(Hf & _)]]; [exact Hl|discriminate..].
Qed.

(** Soundness of the resolver, with nothing assumed of the graph or of the
    map.  Whenever [SolveDependencies] returns [true]: the order holds no
    suite twice; every suite in it exists, and each of its dependency names
    resolves to a suite that stands before it, whether or not the filters
    admit that suite; no suite in the order lies on a dependency cycle;
    every suite the filter chain admits is in the order; and no callback
    was called. *)
Theorem resolution_success_is_sound {W : Type} (cb : @ControlCallback W)
    (env : @Environment W) (fuel : nat) (order : list nat) (w w' : W) (l : list Event) :
  SolveDependencies cb env fuel [] w = Done (true, order) w' l ->
  NoDup order
  /\ closed_order env order
  /\ (forall a, a ∈ order -> ~ tc (depends env) a a)
  /\ (forall allow, filters_answer env allow ->
        forall i, (i < length (m_Suites env))%nat -> allow i = true -> i ∈ order)
  /\ l = [].
Proof. apply SolveDependencies_sound. Qed.

Lemma resolution_success_witness :
  let cb := demo_callback Abort Abort Abort 0 in
  let env := AddFilter (only_suite 0) (demo_env cb two_suites) in
  exists order : list nat,
    SolveDependencies cb env 3 [] 0%nat = Done (true, order) 0%nat []
    /\ NoDup order /\ closed_order env order /\ 1%nat ∈ order.
Proof.
  intros cb env.
  assert (SolveDependencies cb env 3 [] 0%nat = Done (true, [1; 0]%nat) 0%nat []) as Hrun
    by (vm_compute; reflexivity).
  destruct (resolution_success_is_sound cb env 3 [1; 0]%nat 0%nat 0%nat [] Hrun)
    as (Hnd & Hcl & _).
  exists [1; 0]%nat. split; [exact Hrun|]. split; [exact Hnd|]. split; [exact Hcl|].
  apply elem_of_cons. now left.
Defined.

(** ** The resolver ends, and reads its vectors in bounds *)

Lemma whites_insert_le (marks : list (bool * bool)) (i : nat) (m : bool * bool) :
  m <> (false, false) -> (whites (<[i := m]> marks) <= whites marks)%nat.
Proof.
  intros Hm. revert i. induction marks as [|x marks IH]; intros [|i]; simpl; try lia.
  - rewrite bool_decide_eq_false_2 by exact Hm. lia.
  - specialize (IH i). lia.
Qed.

Section Safe.
Context {W : Type}.
Variable cb : @ControlCallback W.
Variable env : @Environment W.
Hypothesis Hrange : forall d b, m_SuiteMap env !! d = Some b ->
                                (b < length (m_Suites env))%nat.

Lemma TopoVisit_deps_safe (visit : nat -> TopoState -> M (Z * TopoState))
    (cur : nat) (bound : nat) (starve : bool) :
  (forall c ts w,
      length (ts_mark ts) = length (m_Suites env) -> (c < length (m_Suites env))%nat ->
      (starve = false -> (whites (ts_mark ts) <= bound)%nat) ->
      visit_safe env starve ts (visit c ts w)) ->
  (cur < length (m_Suites env))%nat ->
  forall deps ts w,
    length (ts_mark ts) = length (m_Suites env) ->
    (starve = false -> (whites (ts_mark ts) <= bound)%nat) ->
    visit_safe env starve ts (TopoVisit_deps cb env visit cur deps ts w).
Proof.
  intros Hvisit Hcur.
  induction deps as [|depName rest IH]; intros ts w Hlen Hw; simpl.
  - destruct (ts_mark ts !! cur) as [m|] eqn:Hm.
    + simpl. rewrite length_insert. split; [exact Hlen|].
      now apply whites_insert_le.
    + apply lookup_ge_None in Hm. lia.
  - destruct (ts_mark ts !! cur) as [[[|] second]|] eqn:Hm.
    + now apply IH.
    + destruct (m_SuiteMap env !! depName) as [dep|] eqn:Hdep.
      * unfold bind.
        pose proof (Hvisit dep ts w Hlen (Hrange _ _ Hdep) Hw) as Hv.
        destruct (visit dep ts w) as [[vr ts1] w1 l1|k w1 l1]; [|exact Hv].
        destruct Hv as [Hlen1 Hw1].
        case_bool_decide.
        -- case_bool_decide; simpl; auto.
        -- assert (visit_safe env starve ts1
                     (TopoVisit_deps cb env visit cur rest ts1 w1)) as Hrec.
           { apply IH; [exact Hlen1|]. intros Hst. specialize (Hw Hst). lia. }
           destruct (TopoVisit_deps cb env visit cur rest ts1 w1) as [[c2 ts2] w2 l2|k w2 l2];
             simpl in *; [|exact Hrec].
           destruct Hrec. split; [assumption|lia].
      * unfold bind, call. destruct (OnUnknownDependency cb cur depName w) as [a w1].
        simpl. case_bool_decide; simpl; auto.
    + apply lookup_ge_None in Hm. lia.
Qed.

Lemma TopoVisit_safe (fuel : nat) (starve : bool) :
  forall c ts w,
    length (ts_mark ts) = length (m_Suites env) -> (c < length (m_Suites env))%nat ->
    (starve = false -> (whites (ts_mark ts) < fuel)%nat) ->
    visit_safe env starve ts (TopoVisit cb env fuel c ts w).
Proof.
  induction fuel as [|fuel IH]; intros c ts w Hlen Hc Hw.
  { simpl. destruct starve; [auto|]. specialize (Hw eq_refl). lia. }
  simpl.
  destruct (ts_mark ts !! c) as [[first second]|] eqn:Hm.
  2:{ apply lookup_ge_None in Hm. lia. }
  destruct second; [simpl; auto|]. destruct first; [simpl; auto|].
  destruct (lookup_lt_is_Some_2 (m_Suites env) c Hc) as [s Hs]. rewrite Hs.
  pose proof (whites_insert_white _ c (false, true) Hm ltac:(discriminate)) as Hdec.
  set (ts0 := {| ts_result := ts_result ts;
                 ts_mark := <[c := (false, true)]> (ts_mark ts);
                 ts_unsolvable := ts_unsolvable ts |}).
  assert (visit_safe env starve ts0
            (TopoVisit_deps cb env (TopoVisit cb env fuel) c (m_Dependencies s) ts0 w))
    as Hrec.
  { apply (TopoVisit_deps_safe _ c (whites (ts_mark ts0))); simpl.
    - intros c' ts' w' Hlen' Hc' Hw'. apply IH; [exact Hlen'|exact Hc'|].
      intros Hst. specialize (Hw Hst). specialize (Hw' Hst). lia.
    - exact Hc.
    - now rewrite length_insert.
    - lia. }
  destruct (TopoVisit_deps cb env (TopoVisit cb env fuel) c (m_Dependencies s) ts0 w)
    as [[code ts'] w' l'|k w' l']; simpl in *; [|exact Hrec].
  destruct Hrec. split; [assumption|lia].
Qed.

Lemma SolveDependencies_roots_safe (fuel : nat) (starve : bool) (roots : list nat) :
  (starve = false -> (length (m_Suites env) < fuel)%nat) ->
  (forall i, i ∈ roots -> (i < length (m_Suites env))%nat) ->
  forall ts w,
    length (ts_mark ts) = length (m_Suites env) ->
    match SolveDependencies_roots cb env fuel roots ts w with
    | Done _ _ _ => True
    | Fault k _ _ => k = DerefEnd \/ (starve = true /\ k = OutOfFuel)
    end.
Proof.
  intros Hfuel.
  induction roots as [|r roots IH]; intros Hroots ts w Hlen; simpl; [exact I|].
  assert (r < length (m_Suites env))%nat as Hr by (apply Hroots, elem_of_cons; now left).
  assert (forall i, i ∈ roots -> (i < length (m_Suites env))%nat) as Hroots'
    by (intros i Hi; apply Hroots, elem_of_cons; now right).
  destruct (ts_mark ts !! r) as [[[|] second]|] eqn:Hm.
  - now apply IH.
  - unfold bind. destruct (AllowSuite_total env r w) as (allowed & w1 & ->). simpl.
    destruct allowed; [|rewrite prepend_nil; now apply IH].
    assert (visit_safe env starve ts (TopoVisit cb env fuel r ts w1)) as Hv.
    { apply TopoVisit_safe; [exact Hlen|exact Hr|].
      intros Hst. specialize (Hfuel Hst).
      pose proof (whites_le_length (ts_mark ts)). lia. }
    destruct (TopoVisit cb env fuel r ts w1) as [[code ts1] w2 l2|k w2 l2]; simpl.
    + destruct Hv as [Hlen1 _].
      case_bool_decide; simpl; [|exact I].
      specialize (IH Hroots' ts1 w2 Hlen1).
      destruct (SolveDependencies_roots cb env fuel roots ts1 w2); simpl; auto.
    + exact Hv.
  - apply lookup_ge_None in Hm. lia.
Qed.

(** [SolveDependencies] returns, or it reads the failed lookup right after
    the callback answered [Ignore] for an unknown name. *)
Lemma SolveDependencies_safe (fuel : nat) (starve : bool) (w : W) :
  (starve = false -> (length (m_Suites env) < fuel)%nat) ->
  (exists b order w' l, SolveDependencies cb env fuel [] w = Done (b, order) w' l)
  \/ (exists s d w',
        SolveDependencies cb env fuel [] w
        = Fault DerefEnd w' [CallOnUnknownDependency s d Ignore]
        /\ unknown_dependency_of env s d)
  \/ (starve = true /\ exists w' l,
        SolveDependencies cb env fuel [] w = Fault OutOfFuel w' l).
Proof.
  intros Hfuel. unfold SolveDependencies, bind.
  set (ts0 := {| ts_result := []; ts_mark := replicate (length (m_Suites env)) (false, false);
                 ts_unsolvable := [] |}).
  pose proof (SolveDependencies_roots_safe fuel starve (seq 0 (length (m_Suites env))) Hfuel)
    as Hsafe.
  specialize (Hsafe ltac:(intros i Hi; apply elem_of_seq in Hi; lia) ts0 w
                    ltac:(apply length_replicate)).
  pose proof (SolveDependencies_roots_shape cb env fuel (seq 0 (length (m_Suites env))) ts0 w)
    as Hshape.
  destruct (SolveDependencies_roots cb env fuel (seq 0 (length (m_Suites env))) ts0 w)
    as [[succeded ts] w1 l1|k w1 l1].
  - left. destruct succeded; simpl; [eauto|].
    destruct (ts_unsolvable ts); simpl; [eauto|].
    unfold bind, call. destruct (OnUnsolvableDependencies cb (n :: l) w1). simpl. eauto.
  - right. destruct Hsafe as [->|[Hst ->]].
    + left. destruct Hshape as [(_ & s & d & -> & Hu)|[Hk _]]; [eauto|congruence].
    + right. eauto.
Qed.

End Safe.

(** Termination and memory safety of the resolver, on every graph, cyclic
    or not.  When the map is the one registration builds, a recursion depth
    of one more than the number of suites is enough, and every read of
    [mark] and of [m_Suites] is in range: [SolveDependencies] returns, or
    it reads [m_SuiteMap.end()] right after [OnUnknownDependency] answered
    [Ignore] for a name that no suite has. *)
Theorem resolution_ends_in_bounds {W : Type} (cb : @ControlCallback W)
    (env : @Environment W) (fuel : nat) (w : W) :
  registered env ->
  (length (m_Suites env) < fuel)%nat ->
  (exists b order w' l, SolveDependencies cb env fuel [] w = Done (b, order) w' l)
  \/ (exists s d w',
        SolveDependencies cb env fuel [] w
        = Fault DerefEnd w' [CallOnUnknownDependency s d Ignore]
        /\ unknown_dependency_of env s d).
Proof.
  intros Hreg Hfuel.
  destruct (SolveDependencies_safe cb env (registered_in_range env Hreg) fuel false w)
    as [H|[H|[H _]]]; [intros _; exact Hfuel|now left|now right|discriminate].
Qed.

Lemma resolution_ends_witness :
  let cb := demo_callback Abort Abort Abort 0 in
  let env := demo_env cb [plain_suite "X" ["Y"] []; plain_suite "Y" ["X"] []] in
  exists b order w' l, SolveDependencies cb env 3 [] 0%nat = Done (b, order) w' l.
Proof.
  intros cb env.
  destruct (resolution_ends_in_bounds cb env 3 0%nat) as [H|(s & d & w' & H & Hu)].
  - intros name. apply (register_all_map _ name).
  - simpl. lia.
  - exact H.
  - exfalso. vm_compute in H. discriminate.
Defined.

(** ** A cycle makes the resolution fail *)

Section Cycles.
Context {W : Type}.
Variable cb : @ControlCallback W.
Variable env : @Environment W.

Lemma resolver_sound_enter (ts : TopoState) (c : nat) :
  resolver_sound env ts ->
  ts_mark ts !! c = Some (false, false) ->
  resolver_sound env {| ts_result := ts_result ts;
                        ts_mark := <[c := (false, true)]> (ts_mark ts);
                        ts_unsolvable := ts_unsolvable ts |}.
Proof.
  intros Hs Hm. pose proof (lookup_lt_Some _ _ _ Hm) as Hlt.
  assert (c ∉ ts_result ts) as Hnotin.
  { intros Hin. pose proof (sound_black _ _ Hs c Hin) as Hb. unfold black in Hb. congruence. }
  split; simpl.
  - intros i Hi. unfold black. simpl.
    rewrite list_lookup_insert_ne by (intros ->; contradiction).
    eapply sound_black; eauto.
  - intros i sec Hi. destruct (decide (i = c)) as [->|Hne].
    + rewrite list_lookup_insert_eq in Hi by exact Hlt. discriminate.
    + rewrite list_lookup_insert_ne in Hi by congruence. eapply sound_listed; eauto.
  - eapply sound_nodup; eauto.
  - eapply sound_closed; eauto.
Qed.

(** A visit that returns 0 leaves [unsolvable] alone. *)
Lemma TopoVisit_keeps_unsolvable (fuel : nat) (c : nat) (ts ts' : TopoState)
    (w w' : W) (l : list Event) :
  TopoVisit cb env fuel c ts w = Done (0, ts') w' l ->
  ts_unsolvable ts' = ts_unsolvable ts.
Proof.
  intros Hrun. pose proof (TopoVisit_has_shape cb env fuel c ts w) as Hshape.
  rewrite Hrun in Hshape. simpl in Hshape.
  destruct Hshape as [(_ & _ & Hu)|[(Hc & _)|(Hc & _)]]; [exact Hu|discriminate..].
Qed.

Lemma TopoVisit_deps_fails (visit : nat -> TopoState -> M (Z * TopoState))
    (cur : nat) (s : Suite) :
  (forall c ts w ts' w' l,
      visit c ts w = Done (0, ts') w' l -> resolver_sound env ts ->
      resolver_sound env ts' /\ (forall i, gray ts' i <-> gray ts i)
      /\ ts_unsolvable ts' = ts_unsolvable ts) ->
  (forall c ts w ts' w' l,
      visit c ts w = Done (1, ts') w' l -> resolver_sound env ts ->
      (forall g, gray ts g -> tc (depends env) g c) ->
      (gray ts c /\ ts_unsolvable ts' = ts_unsolvable ts) \/ found_cycle env ts ts') ->
  m_Suites env !! cur = Some s ->
  forall (rest : list string) (ts : TopoState) (w : W) ts' w' l,
    (forall d, d ∈ rest -> d ∈ m_Dependencies s) ->
    resolver_sound env ts ->
    gray ts cur ->
    (forall g, gray ts g -> g = cur \/ tc (depends env) g cur) ->
    TopoVisit_deps cb env visit cur rest ts w = Done (1, ts') w' l ->
    found_cycle env ts ts'.
Proof.
  intros Hok Hfail Hcur.
  induction rest as [|depName rest IH]; intros ts w ts' w' l Hdeps Hs Hg Hreach Hrun;
    simpl in Hrun.
  - destruct (ts_mark ts !! cur); [|discriminate]. inversion Hrun.
  - pose proof Hg as Hgc. unfold gray in Hgc. rewrite Hgc in Hrun.
    destruct (m_SuiteMap env !! depName) as [dep|] eqn:Hdep.
    + assert (depends env cur dep) as Hdepends.
      { exists s, depName. split; [exact Hcur|]. split; [|exact Hdep].
        apply Hdeps, elem_of_cons. now left. }
      assert (forall g, gray ts g -> tc (depends env) g dep) as Hreach'.
      { intros g Hgg. destruct (Hreach g Hgg) as [->|Htc].
        - now apply tc_once.
        - eapply tc_r; eauto. }
      unfold bind in Hrun.
      destruct (visit dep ts w) as [[vr ts1] w1 l1|k w1 l1] eqn:Hv; [|discriminate].
      destruct (decide (vr = 0)) as [->|Hvr].
      * rewrite bool_decide_eq_false_2 in Hrun by tauto.
        destruct (TopoVisit_deps cb env visit cur rest ts1 w1)
          as [[c2 ts2] w2 l2|k w2 l2] eqn:Hrec; simpl in Hrun; [|discriminate].
        inversion Hrun; subst c2 ts2 w2 l; clear Hrun.
        destruct (Hok _ _ _ _ _ _ Hv Hs) as (Hs1 & Hg1 & Hu1).
        destruct (IH ts1 w1 ts' w' l2) as (first & rest' & Hu & Hcyc);
          [intros d Hd; apply Hdeps, elem_of_cons; now right|exact Hs1|now apply Hg1|
           intros g Hgg; apply Hreach; now apply Hg1|exact Hrec|].
        exists first, rest'. split; [now rewrite Hu, Hu1|exact Hcyc].
      * rewrite bool_decide_eq_true_2 in Hrun by exact Hvr.
        case_bool_decide as Hone; simpl in Hrun; [subst vr|inversion Hrun; congruence].
        inversion Hrun; subst ts' w' l; clear Hrun. simpl.
        destruct (Hfail _ _ _ _ _ _ Hv Hs Hreach') as [[Hgd Hu]|(first & rest' & Hu & Hcyc)].
        -- exists dep, []. rewrite Hu. split; [reflexivity|].
           destruct (Hreach dep Hgd) as [->|Htc]; [now apply tc_once|].
           eapply tc_r; eauto.
        -- exists first, (rest' ++ [dep]). unfold found_cycle. simpl.
           rewrite Hu, <- app_assoc. split; [reflexivity|exact Hcyc].
    + unfold bind, call in Hrun.
      destruct (OnUnknownDependency cb cur depName w) as [a w1].
      simpl in Hrun. case_bool_decide; simpl in Hrun; [discriminate|].
      inversion Hrun.
Qed.

Lemma TopoVisit_fails (fuel : nat) :
  forall c ts w ts' w' l,
    TopoVisit cb env fuel c ts w = Done (1, ts') w' l -> resolver_sound env ts ->
    (forall g, gray ts g -> tc (depends env) g c) ->
    (gray ts c /\ ts_unsolvable ts' = ts_unsolvable ts) \/ found_cycle env ts ts'.
Proof.
  induction fuel as [|fuel IH]; intros c ts w ts' w' l Hrun Hs Hreach; simpl in Hrun;
    [discriminate|].
  destruct (ts_mark ts !! c) as [[first second]|] eqn:Hm; [|discriminate].
  destruct second.
  - inversion Hrun; subst ts' w' l. left. split; [|reflexivity].
    destruct first; [|exact Hm].
    pose proof (sound_black _ _ Hs c (sound_listed _ _ Hs c true Hm)) as Hb.
    unfold black in Hb. congruence.
  - destruct first; [inversion Hrun|].
    destruct (m_Suites env !! c) as [s|] eqn:Hc; [|discriminate].
    pose proof (lookup_lt_Some _ _ _ Hm) as Hlt.
    right.
    refine (TopoVisit_deps_fails (TopoVisit cb env fuel) c s _ IH Hc (m_Dependencies s)
              _ w ts' w' l _ _ _ _ Hrun).
    + intros c0 ts0 w0 ts0' w0' l0 Hv Hs0.
      destruct (TopoVisit_sound cb env fuel _ _ _ _ _ _ Hv Hs0) as (Hs1 & Hg1 & _).
      split; [exact Hs1|]. split; [exact Hg1|]. eapply TopoVisit_keeps_unsolvable; eauto.
    + auto.
    + now apply resolver_sound_enter.
    + unfold gray. simpl. now apply list_lookup_insert_eq.
    + intros g Hg. unfold gray in Hg. simpl in Hg.
      destruct (decide (g = c)) as [->|Hne]; [now left|].
      rewrite list_lookup_insert_ne in Hg by congruence. right. now apply Hreach.
Qed.

Lemma SolveDependencies_roots_fails (fuel : nat) (roots : list nat) :
  forall ts w ts' w' l,
    SolveDependencies_roots cb env fuel roots ts w = Done (false, ts') w' l ->
    resolver_sound env ts ->
    (forall g, ~ gray ts g) ->
    found_cycle env ts ts'
    \/ (exists s d a, l = [CallOnUnknownDependency s d a] /\ unknown_dependency_of env s d).
Proof.
  induction roots as [|r roots IH]; intros ts w ts' w' l Hrun Hs Hng; simpl in Hrun.
  - inversion Hrun.
  - destruct (ts_mark ts !! r) as [[first second]|] eqn:Hm; [|discriminate].
    destruct first; [now apply (IH _ _ _ _ _ Hrun)|].
    unfold bind in Hrun.
    destruct (AllowSuite_total env r w) as (allowed & w1 & Hal). rewrite Hal in Hrun.
    rewrite prepend_nil in Hrun.
    destruct allowed; [|now apply (IH _ _ _ _ _ Hrun)].
    pose proof (TopoVisit_has_shape cb env fuel r ts w1) as Hshape.
    destruct (TopoVisit cb env fuel r ts w1) as [[code ts1] w2 l2|k w2 l2] eqn:Hv;
      simpl in Hrun; [|discriminate].
    case_bool_decide as Hcode.
    + subst code.
      destruct (TopoVisit_sound cb env fuel _ _ _ _ _ _ Hv Hs) as (Hs1 & Hg1 & _).
      pose proof (TopoVisit_keeps_unsolvable _ _ _ _ _ _ _ Hv) as Hu1.
      destruct Hshape as [(_ & -> & _)|[(Hc & _)|(Hc & _)]]; [|discriminate..].
      rewrite prepend_nil in Hrun.
      destruct (IH _ _ _ _ _ Hrun Hs1) as [(f & rest & Hu & Hcyc)|Hunk].
      * intros g Hg. apply (Hng g). now apply Hg1.
      * left. exists f, rest. split; [now rewrite Hu, Hu1|exact Hcyc].
      * now right.
    + simpl in Hrun. rewrite app_nil_r in Hrun. inversion Hrun; subst ts1 w2 l2; clear Hrun.
      destruct Hshape as [(Hc & _)|[(-> & _)|(_ & _ & s & d & a & -> & _ & Hu)]];
        [congruence| |right; eauto].
      left.
      destruct (TopoVisit_fails fuel _ _ _ _ _ _ Hv Hs) as [[Hg _]|Hf];
        [intros g Hg; now apply Hng in Hg|now apply Hng in Hg|exact Hf].
Qed.

(** The general form: when every dependency name resolves and a suite that
    the filters admit lies on a dependency cycle or reaches one,
    [SolveDependencies] calls [OnUnsolvableDependencies] once, with a list
    that is not empty and whose first entry lies on a cycle, and returns
    [false] with the order cleared. *)
Lemma SolveDependencies_cycle (fuel : nat) (allow : nat -> bool) (a c : nat) (w : W) :
  registered env -> all_resolve env ->
  (length (m_Suites env) < fuel)%nat ->
  filters_answer env allow ->
  (a < length (m_Suites env))%nat -> allow a = true ->
  a = c \/ tc (depends env) a c ->
  tc (depends env) c c ->
  exists first rest w',
    SolveDependencies cb env fuel [] w
    = Done (false, []) w' [CallOnUnsolvableDependencies (first :: rest)]
    /\ tc (depends env) first first.
Proof.
  intros Hreg Hres Hfuel Hallow Ha Haa Hac Hcc.
  destruct (SolveDependencies_safe cb env (registered_in_range env Hreg) fuel false w)
    as [(b & order & w' & l & Hrun)|[(s & d & w' & _ & [Hnone (su & Hsu & Hd)])|[H _]]];
    [intros _; exact Hfuel| | |discriminate].
  2:{ destruct (Hres s su d Hsu Hd) as [x Hx]. congruence. }
  destruct b.
  { exfalso.
    destruct (SolveDependencies_sound cb env fuel order w w' l Hrun)
      as (Hnd & Hcl & Hacyc & Hin & _).
    pose proof (Hin allow Hallow a Ha Haa) as Hain.
    apply (Hacyc c); [|exact Hcc].
    destruct Hac as [<-|Htc]; [exact Hain|].
    apply list_elem_of_lookup in Hain as [j Hj].
    destruct (closed_order_descends env order Hnd Hcl a c Htc j Hj) as (i & _ & Hi).
    eapply list_elem_of_lookup_2; eauto. }
  revert Hrun. unfold SolveDependencies, bind.
  set (ts0 := {| ts_result := []; ts_mark := replicate (length (m_Suites env)) (false, false);
                 ts_unsolvable := [] |}).
  pose proof (SolveDependencies_roots_shape cb env fuel (seq 0 (length (m_Suites env))) ts0 w)
    as Hshape.
  destruct (SolveDependencies_roots cb env fuel (seq 0 (length (m_Suites env))) ts0 w)
    as [[succeded ts] w1 l1|k w1 l1] eqn:Hroots; [|discriminate].
  destruct succeded.
  { simpl. intros H. inversion H. }
  destruct (SolveDependencies_roots_fails fuel _ _ _ _ _ _ Hroots)
    as [(first & rest & Hu & Hcyc)|(s & d & x & _ & [Hnone (su & Hsu & Hd)])].
  - split; simpl.
    + intros i Hi. now apply elem_of_nil in Hi.
    + intros i sec Hi. apply lookup_replicate in Hi as [Hi _]. discriminate.
    + constructor.
    + intros x Hx. now apply elem_of_nil in Hx.
  - intros g Hg. unfold gray in Hg. simpl in Hg.
    apply lookup_replicate in Hg as [Hg _]. discriminate.
  - simpl in Hu. rewrite Hu.
    destruct Hshape as [(Hf & _)|[(_ & ->)|(_ & _ & s & d & x & _ & _ & [Hnone (su & Hsu & Hd)])]];
      [discriminate| |destruct (Hres s su d Hsu Hd) as [y Hy]; congruence].
    unfold bind, call.
    destruct (OnUnsolvableDependencies cb (first :: rest) w1) as [act w2]. simpl.
    intros _. exists first, rest, w2. split; [reflexivity|exact Hcyc].
  - destruct (Hres s su d Hsu Hd) as [y Hy]. congruence.
Qed.

End Cycles.

(** Every cycle is found.  Let the map be the one registration builds and
    every dependency name resolve.  When a suite that the filter chain
    admits lies on a dependency cycle, or reaches one through its
    dependencies, the resolution fails: [OnUnsolvableDependencies] is called
    once, with a list that is not empty and whose first entry lies on a
    cycle; [SolveDependencies] returns [false] with the order cleared, and
    [Run] ends there, with the empty environment result. *)
Theorem cycle_fails_resolution {W : Type} (cb : @ControlCallback W)
    (cout : string -> W -> W) (env : @Environment W) (fuel : nat)
    (allow : nat -> bool) (a c : nat) (w : W) :
  m_Callback env = Some cb ->
  registered env -> all_resolve env ->
  (length (m_Suites env) < fuel)%nat ->
  filters_answer env allow ->
  (a < length (m_Suites env))%nat -> allow a = true ->
  a = c \/ tc (depends env) a c ->
  tc (depends env) c c ->
  exists first rest w',
    SolveDependencies cb env fuel [] w
    = Done (false, []) w' [CallOnUnsolvableDependencies (first :: rest)]
    /\ tc (depends env) first first
    /\ Run cout fuel env w
       = Done (EnvironmentResult_new, env) w' [CallOnUnsolvableDependencies (first :: rest)].
Proof.
  intros Hcb Hreg Hres Hfuel Hallow Ha Haa Hac Hcc.
  destruct (SolveDependencies_cycle cb env fuel allow a c w Hreg Hres Hfuel Hallow Ha Haa
              Hac Hcc) as (first & rest & w' & Hsolve & Hcyc).
  exists first, rest, w'. split; [exact Hsolve|]. split; [exact Hcyc|].
  unfold Run. rewrite Hcb. unfold bind. rewrite Hsolve. reflexivity.
Qed.

Lemma cycle_fails_witness :
  let cb := demo_callback Abort Abort Abort 0 in
  let env := demo_env cb [plain_suite "Z" ["X"] []; plain_suite "X" ["Y"] [];
                          plain_suite "Y" ["X"] []] in
  exists first rest w',
    Run silent 4 env 0%nat
    = Done (EnvironmentResult_new, env) w' [CallOnUnsolvableDependencies (first :: rest)]
    /\ tc (depends env) first first.
Proof.
  intros cb env.
  assert (depends env 0 1) as H01.
  { exists (plain_suite "Z" ["X"] []), "X". split; [reflexivity|].
    split; [apply list_elem_of_singleton; reflexivity|vm_compute; reflexivity]. }
  assert (depends env 1 2) as H12.
  { exists (plain_suite "X" ["Y"] []), "Y". split; [reflexivity|].
    split; [apply list_elem_of_singleton; reflexivity|vm_compute; reflexivity]. }
  assert (depends env 2 1) as H21.
  { exists (plain_suite "Y" ["X"] []), "X". split; [reflexivity|].
    split; [apply list_elem_of_singleton; reflexivity|vm_compute; reflexivity]. }
  destruct (cycle_fails_resolution cb silent env 4 (fun _ => true) 0%nat 1%nat 0%nat)
    as (first & rest & w' & _ & Hcyc & Hrun).
  - reflexivity.
  - intros name. apply (register_all_map _ name).
  - intros i s d Hs Hd.
    destruct i as [|[|[|i]]]; simpl in Hs; [| | |discriminate]; injection Hs as <-;
      simpl in Hd; apply list_elem_of_singleton in Hd; subst d; vm_compute; eauto.
  - simpl. lia.
  - intros s w b w' l H. unfold AllowSuite in H. simpl in H. unfold ret in H. congruence.
  - simpl. lia.
  - reflexivity.
  - right. now apply tc_once.
  - eapply tc_l; [exact H12|now apply tc_once].
  - exists first, rest, w'. split; [exact Hrun|exact Hcyc].
Defined.

(** ** The scheduler reads its vectors in bounds *)

Section Returns.
Context {W : Type}.
Variable cb : @ControlCallback W.

Lemma only_starves_prepend {A : Type} (l : list Event) (o : @Outcome W A) :
  only_starves o -> only_starves (prepend l o).
Proof. destruct o; simpl; auto. Qed.

Lemma only_starves_bind {A B : Type} (m : @M W A) (f : A -> M B) (w : W) :
  only_starves (m w) -> (forall a w', only_starves (f a w')) ->
  only_starves (bind m f w).
Proof.
  intros Hm Hf. unfold bind. destruct (m w) as [a w1 l1|k w1 l1]; [|exact Hm].
  apply only_starves_prepend, Hf.
Qed.

Lemma ExecFunction_returns (func : SuiteFunction) (w : W) :
  exists v w' l, ExecFunction cb func w = Done v w' l.
Proof.
  unfold ExecFunction, bind, call, ret.
  destruct (sf_Func func) as [f|]; [destruct (f w) as [[|] w1]|]; simpl; eauto.
  destruct (OnException cb (sf_Info func) w1) as [a w2]. simpl.
  destruct (bool_decide (a = Ignore) || bool_decide (a = Procceed)); simpl; eauto.
  destruct (bool_decide (a = AbortCurrent)); simpl; eauto.
Qed.

Lemma Body_run_returns (ops : ResultOps) (b : Body) :
  forall r, exists v w' l, Body_run ops cb b r = Done v w' l.
Proof.
  induction b as [w|w|inf result msg w k IH]; intros r; simpl; eauto.
  unfold TestContext_AddResult, bind, call, ret.
  destruct (OnAssert cb _ w) as [a w1]. simpl.
  destruct (IH w1 (op_TestResult_AddResult ops a r)) as (v & w' & l & ->). simpl. eauto.
Qed.

Lemma Test_Run_returns (ops : ResultOps) (self : TestPtr) (t : Test) (r : TestResult) (w : W) :
  exists v w' l, Test_Run ops cb self t r w = Done v w' l.
Proof.
  unfold Test_Run, bind.
  destruct (Body_run_returns ops (m_Func t w) r) as ([threw r'] & w1 & l1 & ->). simpl.
  destruct threw; [|unfold ret; simpl; eauto].
  unfold call, ret. destruct (OnException cb (test_Info t) w1) as [a w2]. simpl.
  repeat case_bool_decide; simpl; eauto.
Qed.

Lemma Suite_Run_attempt_returns (ops : ResultOps) (s : Suite) (self : TestPtr) (t : Test)
    (w : W) :
  exists v w' l, Suite_Run_attempt ops cb s self t w = Done v w' l.
Proof.
  unfold Suite_Run_attempt, bind.
  destruct (ExecFunction_returns (m_Enter s) w) as ([p|] & w1 & l1 & ->); simpl;
    [unfold ret; eauto|].
  destruct (Test_Run_returns ops self t (TestResult_new self) w1)
    as ([p r] & w2 & l2 & ->). simpl.
  destruct p; simpl; [|unfold ret; eauto].
  destruct (ExecFunction_returns (m_Leave s) w2) as ([p|] & w3 & l3 & ->); simpl;
    unfold ret; eauto.
Qed.

Lemma Suite_Run_attempts_starves (ops : ResultOps) (fuel : nat) (s : Suite)
    (self : TestPtr) (t : Test) :
  forall w, only_starves (Suite_Run_attempts ops cb fuel s self t w).
Proof.
  induction fuel as [|fuel IH]; intros w; simpl; [reflexivity|].
  unfold bind.
  destruct (Suite_Run_attempt_returns ops s self t w) as ([p|r] & w1 & l1 & ->);
    simpl; [exact I|].
  apply only_starves_prepend. unfold call.
  destruct (OnTestEnd cb r w1) as [again w2]. simpl.
  apply only_starves_prepend. destruct again; [apply IH|exact I].
Qed.

Lemma Suite_Run_tests_starves (ops : ResultOps) (fuel : nat) (s : Suite) (self : nat)
    (tests : list Test) :
  forall j result w, only_starves (Suite_Run_tests ops cb fuel s self j tests result w).
Proof.
  induction tests as [|t rest IH]; intros j result w; simpl; [exact I|].
  apply only_starves_bind; [exact I|]. intros _ w1.
  apply only_starves_bind; [apply Suite_Run_attempts_starves|].
  intros [p|r] w2; [exact I|apply IH].
Qed.

Lemma Suite_Run_starves (ops : ResultOps) (fuel : nat) (self : nat) (s : Suite)
    (result : SuiteResult) (w : W) :
  only_starves (Suite_Run ops cb fuel self s result w).
Proof.
  unfold Suite_Run.
  apply only_starves_bind.
  { destruct (ExecFunction_returns (m_Init s) w) as (v & w1 & l1 & ->). exact I. }
  intros [p|] w1; [exact I|].
  apply only_starves_bind; [apply Suite_Run_tests_starves|].
  intros [[p|] r] w2; [exact I|].
  apply only_starves_bind.
  { destruct (ExecFunction_returns (m_Exit s) w2) as (v & w3 & l3 & ->). exact I. }
  intros [p|] w3; exact I.
Qed.

End Returns.

Section RunSafe.
Context {W : Type}.
Variable cb : @ControlCallback W.
Variable env : @Environment W.
Hypothesis Hreg : registered env.

(** The dependency check of a suite all of whose dependencies have a
    result: every read is in range, and the map is left as it was. *)
Lemma CheckDependencies_in_bounds (it : nat) (st : RunState) (deps : list string) :
  run_inv env st ->
  (forall d, d ∈ deps -> exists b, m_SuiteMap env !! d = Some b /\ b ∈ suites_done st) ->
  forall w, exists v w' l,
    CheckDependencies cb it deps (rs_result st) (rs_connector st) (rs_map st) w
    = Done (v, m_SuiteMap env) w' l.
Proof.
  intros [Hmap Hlen Hread]. unfold CheckDependencies. rewrite Hmap.
  induction deps as [|d rest IH]; intros Hdeps w; simpl; [unfold ret; eauto|].
  destruct (Hdeps d) as (b & Hb & Hdone); [apply elem_of_cons; now left|].
  assert (forall d0, d0 ∈ rest ->
            exists b0, m_SuiteMap env !! d0 = Some b0 /\ b0 ∈ suites_done st) as Hrest
    by (intros d0 H0; apply Hdeps, elem_of_cons; now right).
  rewrite (map_index_present d b _ Hb).
  apply list_elem_of_fmap in Hdone as (r & -> & Hr).
  destruct (Hread r Hr) as (s & Hs & Hslot).
  destruct (registered_lookup_name env Hreg _ _ Hb) as (s' & Hs' & Hname).
  rewrite Hs in Hs'. injection Hs' as <-. rewrite Hname in Hslot.
  destruct (Hslot _ Hb) as (k & r' & s' & -> & -> & _).
  case_bool_decide; [|now apply IH].
  unfold bind, call.
  destruct (OnDependencyFail cb it (m_Suite r') r' w) as [a w1]. simpl.
  case_bool_decide.
  - destruct (IH Hrest w1) as (v & w' & l & ->). simpl. eauto.
  - case_bool_decide; unfold ret; simpl; eauto.
Qed.

Lemma run_inv_step (st : RunState) (it f : nat) (s : Suite) (r : SuiteResult) :
  run_inv env st ->
  m_Suites env !! it = Some s ->
  m_SuiteMap env !! m_Name (suite_Info s) = Some f ->
  m_Suite r = it ->
  run_inv env {| rs_result := EnvironmentResult_AddResult r (rs_result st);
                 rs_connector := <[f := length (er_Results (rs_result st))]> (rs_connector st);
                 rs_map := m_SuiteMap env |}.
Proof.
  intros [Hmap Hlen Hread] Hs Hf Hr.
  pose proof (registered_in_range env Hreg _ _ Hf) as Hflt.
  split; simpl.
  - reflexivity.
  - now rewrite length_insert.
  - intros r0 Hr0. apply elem_of_app in Hr0 as [Hr0|Hr0].
    + destruct (Hread r0 Hr0) as (s0 & Hs0 & Hslot).
      exists s0. split; [exact Hs0|]. intros f0 Hf0.
      destruct (decide (f0 = f)) as [->|Hne].
      * exists (length (er_Results (rs_result st))), r, s.
        split; [apply list_lookup_insert_eq; lia|].
        split; [rewrite lookup_app_r, Nat.sub_diag by lia; reflexivity|].
        split; [now rewrite Hr|].
        destruct (registered_lookup_name env Hreg _ _ Hf) as (sf & Hsf & <-).
        destruct (registered_lookup_name env Hreg _ _ Hf0) as (sf0 & Hsf0 & <-).
        congruence.
      * destruct (Hslot f0 Hf0) as (k & r' & s' & Hk & Hr' & Hs' & Hn).
        exists k, r', s'. split; [now rewrite list_lookup_insert_ne by congruence|].
        split; [now apply lookup_app_l_Some|]. auto.
    + apply list_elem_of_singleton in Hr0. subst r0. rewrite Hr.
      exists s. split; [exact Hs|]. intros f0 Hf0.
      rewrite Hf in Hf0. injection Hf0 as <-.
      exists (length (er_Results (rs_result st))), r, s.
      split; [apply list_lookup_insert_eq; lia|].
      split; [rewrite lookup_app_r, Nat.sub_diag by lia; reflexivity|].
      split; [now rewrite Hr|reflexivity].
Qed.

(** One pass of [RunSuites] for a suite all of whose dependencies have a
    result. *)
Lemma RunSuites_iter_safe (fuel : nat) (it : nat) (s : Suite) (st : RunState) (w : W) :
  m_Suites env !! it = Some s ->
  run_inv env st ->
  (forall d, d ∈ m_Dependencies s ->
     exists b, m_SuiteMap env !! d = Some b /\ b ∈ suites_done st) ->
  match RunSuites_iter cb (m_Suites env) fuel it st w with
  | Done (_, st') _ _ => run_inv env st' /\ suites_done st' = suites_done st ++ [it]
  | Fault k _ _ => k = OutOfFuel
  end.
Proof.
  intros Hs Hinv Hdeps. unfold RunSuites_iter. rewrite Hs.
  unfold bind at 1, call_ at 1. cbn [prepend].
  set (w0 := OnSuiteBegin cb it w).
  unfold bind at 1.
  assert (match RunSuites_suite cb fuel it s st w0 with
          | Done (_, r, map) _ _ => m_Suite r = it /\ map = m_SuiteMap env
          | Fault k _ _ => k = OutOfFuel
          end) as Hsuite.
  { unfold RunSuites_suite, bind at 1.
    destruct (CheckDependencies_in_bounds it st (m_Dependencies s) Hinv Hdeps w0)
      as (v & w1 & l1 & ->). cbn [prepend].
    destruct v as [p|]; [unfold ret; simpl; auto|].
    unfold bind.
    pose proof (Suite_Run_starves cb rev2 fuel it s (SuiteResult_new it) w1) as Hrun.
    pose proof (Suite_Run_m_Suite cb fuel it s (SuiteResult_new it) w1) as Hm.
    destruct (Suite_Run rev2 cb fuel it s (SuiteResult_new it) w1)
      as [[ran r] w2 l2|k w2 l2]; simpl; [|exact Hrun].
    split; [|reflexivity]. now rewrite (Hm _ _ _ _ eq_refl). }
  destruct (RunSuites_suite cb fuel it s st w0) as [[[p r] map] w1 l1|k w1 l1];
    cbn [prepend]; [|exact Hsuite].
  destruct Hsuite as [Hr ->].
  destruct (registered_name_in_map env Hreg it s Hs) as [f Hf].
  unfold bind, call_. cbn [prepend]. rewrite (map_index_present _ f _ Hf).
  pose proof (registered_in_range env Hreg _ _ Hf) as Hflt.
  rewrite bool_decide_eq_true_2 by (rewrite (run_connector _ _ Hinv); exact Hflt).
  simpl. split; [now apply (run_inv_step st it f s r)|].
  unfold suites_done. simpl. rewrite fmap_app. simpl. now rewrite Hr.
Qed.

Lemma RunSuites_loop_safe (fuel : nat) (todo : list nat) :
  forall st w,
    run_inv env st ->
    NoDup (suites_done st ++ todo) ->
    closed_order env (suites_done st ++ todo) ->
    match RunSuites_loop cb (m_Suites env) fuel todo st w with
    | Done (_, st') _ _ => run_inv env st'
    | Fault k _ _ => k = OutOfFuel
    end.
Proof.
  induction todo as [|it rest IH]; intros st w Hinv Hnd Hcl; simpl; [exact Hinv|].
  destruct (Hcl it) as (s & Hs & Hdeps); [apply elem_of_app; right; apply elem_of_cons; now left|].
  assert ((suites_done st ++ it :: rest) !! length (suites_done st) = Some it) as Hit
    by (rewrite lookup_app_r, Nat.sub_diag by lia; reflexivity).
  pose proof (RunSuites_iter_safe fuel it s st w Hs Hinv) as Hiter.
  unfold bind.
  destruct (RunSuites_iter cb (m_Suites env) fuel it st w) as [[p st1] w1 l1|k w1 l1].
  - destruct Hiter as [Hinv1 Hdone1].
    { intros d Hd. destruct (Hdeps d Hd) as (b & Hb & i & j & Hlt & Hi & Hj).
      exists b. split; [exact Hb|].
      pose proof (NoDup_lookup _ _ _ _ Hnd Hj Hit) as ->.
      rewrite lookup_app_l in Hi by exact Hlt. eapply list_elem_of_lookup_2; eauto. }
    destruct p; simpl; [|exact Hinv1].
    assert (NoDup (suites_done st1 ++ rest) /\ closed_order env (suites_done st1 ++ rest))
      as [Hnd1 Hcl1] by (rewrite Hdone1, <- app_assoc; auto).
    specialize (IH st1 w1 Hinv1 Hnd1 Hcl1).
    destruct (RunSuites_loop cb (m_Suites env) fuel rest st1 w1) as [[p2 st2] w2 l2|k w2 l2];
      simpl; exact IH.
  - apply Hiter.
    intros d Hd. destruct (Hdeps d Hd) as (b & Hb & i & j & Hlt & Hi & Hj).
    exists b. split; [exact Hb|].
    pose proof (NoDup_lookup _ _ _ _ Hnd Hj Hit) as ->.
    rewrite lookup_app_l in Hi by exact Hlt. eapply list_elem_of_lookup_2; eauto.
Qed.

End RunSafe.

Lemma run_inv_initial {W : Type} (env : @Environment W) :
  run_inv env {| rs_result := EnvironmentResult_new;
                 rs_connector := replicate (length (m_Suites env)) 0%nat;
                 rs_map := m_SuiteMap env |}.
Proof.
  split; simpl; [reflexivity|apply length_replicate|].
  intros r Hr. now apply elem_of_nil in Hr.
Qed.

(** [Run] on an environment whose map is the one registration builds. *)
Lemma Run_safe {W : Type} (cout : string -> W -> W) (fuel : nat)
    (env : @Environment W) (w : W) :
  registered env ->
  match Run cout fuel env w with
  | Done (_, env') _ _ => env' = env
  | Fault k _ l =>
      k = OutOfFuel
      \/ (k = DerefEnd
          /\ exists s d, l = [CallOnUnknownDependency s d Ignore]
                         /\ unknown_dependency_of env s d)
  end.
Proof.
  intros Hreg. unfold Run.
  set (control := match m_Callback env with
                  | Some c => c
                  | None => ConsoleCallback cout (m_Suites env)
                  end).
  unfold bind at 1.
  destruct (SolveDependencies_safe control env (registered_in_range env Hreg) fuel true w)
    as [(b & order & w1 & l1 & Hsolve)|[(s & d & w1 & Hsolve & Hu)|(_ & w1 & l1 & Hsolve)]];
    [discriminate| | |]; rewrite Hsolve; [|right; eauto|now left].
  destruct b; [|simpl; reflexivity].
  destruct (SolveDependencies_sound control env fuel order w w1 l1 Hsolve)
    as (Hnd & Hcl & _).
  pose proof (RunSuites_loop_safe control env Hreg fuel order _ (OnBegin control w1)
                (run_inv_initial env) Hnd Hcl) as Hloop.
  unfold bind, call_, RunSuites. cbn [prepend].
  destruct (RunSuites_loop control (m_Suites env) fuel order _ (OnBegin control w1))
    as [[p st] w2 l2|k w2 l2]; simpl; [|now left].
  rewrite (run_map _ _ Hloop). now destruct env.
Qed.

(** Memory safety of [Run].  When the map is the one registration builds,
    [Run] indexes no vector out of range, whatever the callback, the
    filters, the fixtures and the tests do: [m_Suites], [mark],
    [resultConnector] and the result list are read at valid positions
    only.  The one read of the program that can go wrong is [dep->second]
    on the failed lookup, right after [OnUnknownDependency] answered
    [Ignore] for a name that no suite has. *)
Theorem Run_reads_in_bounds {W : Type} (cout : string -> W -> W) (fuel : nat)
    (env : @Environment W) (w w' : W) (k : FaultKind) (l : list Event) :
  registered env ->
  Run cout fuel env w = Fault k w' l ->
  k <> OutOfRange
  /\ (k = DerefEnd ->
      exists s d, l = [CallOnUnknownDependency s d Ignore] /\ unknown_dependency_of env s d).
Proof.
  intros Hreg Hrun. pose proof (Run_safe cout fuel env w Hreg) as Hsafe.
  rewrite Hrun in Hsafe. destruct Hsafe as [->|[-> Hlog]].
  - split; [discriminate|discriminate].
  - split; [discriminate|]. intros _. exact Hlog.
Qed.

Lemma Run_reads_in_bounds_witness :
  let env := demo_env (demo_callback Abort Abort Ignore 0)
               [plain_suite "A" ["missing"] [passing_test]] in
  unknown_dependency_of env 0 "missing".
Proof.
  intros env.
  destruct (Run_reads_in_bounds silent 2 env 0%nat 0%nat DerefEnd
              [CallOnUnknownDependency 0 "missing" Ignore]) as [_ Hlog].
  - intros name. apply (register_all_map _ name).
  - vm_compute. reflexivity.
  - destruct (Hlog eq_refl) as (s & d & Heq & Hu). injection Heq as <- <-. exact Hu.
Defined.

(** [Run] inserts no name into the map.  [CheckDependencies] and
    [RunSuites] read [m_SuiteMap] with [operator[]], which inserts a name it
    does not find.  When the map is the one registration builds and [Run]
    returns, every name so read was there: [m_SuiteMap] is as it was. *)
Theorem Run_inserts_no_name {W : Type} (cout : string -> W -> W) (fuel : nat)
    (env env' : @Environment W) (w w' : W) (r : EnvironmentResult) (l : list Event) :
  registered env ->
  Run cout fuel env w = Done (r, env') w' l ->
  m_SuiteMap env' = m_SuiteMap env.
Proof.
  intros Hreg Hrun. pose proof (Run_safe cout fuel env w Hreg) as Hsafe.
  rewrite Hrun in Hsafe. now rewrite Hsafe.
Qed.

(** The suites [A] and [B] of [two_suites], registered: the map holds both
    names after [Run] as before.  With the same suites and an empty map,
    which no registration builds, [Run] inserts the name [A]. *)
Lemma Run_inserts_no_name_witness :
  let env := register_all two_suites Environment_new in
  let bare := {| m_SuiteMap := ∅; m_Suites := [plain_suite "A" [] [passing_test]];
                 m_Callback := None; m_Filter := [] |} in
  (exists r env' w' l,
      Run silent 3 env 0%nat = Done (r, env') w' l
      /\ m_SuiteMap env' = m_SuiteMap env)
  /\ (exists r env' w' l,
        Run silent 3 bare 0%nat = Done (r, env') w' l
        /\ m_SuiteMap bare !! "A" = None
        /\ m_SuiteMap env' !! "A" = Some 0%nat).
Proof.
  intros env bare. split.
  - assert (exists r env' w' l, Run silent 3 env 0%nat = Done (r, env') w' l)
      as (r & env' & w' & l & Hrun) by (vm_compute; eexists _, _, _, _; reflexivity).
    exists r, env', w', l. split; [exact Hrun|].
    apply (Run_inserts_no_name silent 3 env env' 0%nat w' r l); [|exact Hrun].
    intros name. apply (register_all_map _ name).
  - vm_compute. eexists _, _, _, _. split; [reflexivity|]. split; reflexivity.
Defined.

(** ** A run that nothing stops *)

Lemma ConsoleCallback_lenient {W : Type} (cout : string -> W -> W) (suites : list Suite) :
  lenient (ConsoleCallback cout suites).
Proof.
  split; [|split; [|split]]; simpl; intros; auto.
Qed.

Section Lenient.
Context {W : Type}.
Variable cb : @ControlCallback W.
Hypothesis Hlen : lenient cb.

Lemma ExecFunction_lenient (func : SuiteFunction) (w : W) :
  exists v w' l, ExecFunction cb func w = Done v w' l /\ v <> Some false.
Proof.
  destruct Hlen as (_ & Hexc & _).
  unfold ExecFunction, bind, call, ret.
  destruct (sf_Func func) as [f|]; [destruct (f w) as [[|] w1]|]; simpl;
    try (eexists _, _, _; split; [reflexivity|discriminate]).
  specialize (Hexc (sf_Info func) w1).
  destruct (OnException cb (sf_Info func) w1) as [a w2]. simpl in *.
  destruct Hexc as [-> | [-> | ->]]; simpl;
    eexists _, _, _; (split; [reflexivity|discriminate]).
Qed.

Lemma Test_Run_lenient (ops : ResultOps) (self : TestPtr) (t : Test) (r : TestResult)
    (w : W) :
  exists r' w' l, Test_Run ops cb self t r w = Done (true, r') w' l.
Proof.
  destruct Hlen as (_ & Hexc & _).
  unfold Test_Run, bind.
  destruct (Body_run_returns cb ops (m_Func t w) r) as ([threw r'] & w1 & l1 & ->). simpl.
  destruct threw; [|unfold ret; simpl; eauto].
  unfold call, ret. specialize (Hexc (test_Info t) w1).
  destruct (OnException cb (test_Info t) w1) as [a w2]. simpl in *.
  destruct Hexc as [-> | [-> | ->]]; simpl; eauto.
Qed.

Lemma Suite_Run_attempt_lenient (ops : ResultOps) (s : Suite) (self : TestPtr) (t : Test)
    (w : W) :
  exists v w' l, Suite_Run_attempt ops cb s self t w = Done v w' l /\ v <> inl false.
Proof.
  unfold Suite_Run_attempt, bind.
  destruct (ExecFunction_lenient (m_Enter s) w) as ([[|]|] & w1 & l1 & -> & Hv);
    simpl; [|congruence|].
  { unfold ret. eexists _, _, _. split; [reflexivity|discriminate]. }
  destruct (Test_Run_lenient ops self t (TestResult_new self) w1) as (r & w2 & l2 & ->).
  simpl.
  destruct (ExecFunction_lenient (m_Leave s) w2) as ([[|]|] & w3 & l3 & -> & Hv');
    simpl; [|congruence|]; unfold ret; eexists _, _, _; (split; [reflexivity|discriminate]).
Qed.

Lemma Suite_Run_attempts_lenient (ops : ResultOps) (fuel : nat) (s : Suite)
    (self : TestPtr) (t : Test) (w : W) :
  exists v w' l, Suite_Run_attempts ops cb (S fuel) s self t w = Done v w' l
                 /\ v <> inl false.
Proof.
  destruct Hlen as (Hend & _).
  simpl. unfold bind.
  destruct (Suite_Run_attempt_lenient ops s self t w) as ([p|r] & w1 & l1 & -> & Hv); simpl.
  - unfold ret. eexists _, _, _. split; [reflexivity|exact Hv].
  - unfold call. specialize (Hend r w1).
    destruct (OnTestEnd cb r w1) as [again w2]. simpl in Hend. subst again. simpl.
    eexists _, _, _. split; [reflexivity|discriminate].
Qed.

Lemma Suite_Run_tests_lenient (ops : ResultOps) (fuel : nat) (s : Suite) (self : nat)
    (tests : list Test) :
  forall j result w,
    exists early result' w' l,
      Suite_Run_tests ops cb (S fuel) s self j tests result w = Done (early, result') w' l
      /\ early <> Some false.
Proof.
  induction tests as [|t rest IH]; intros j result w.
  - simpl. unfold ret. eexists _, _, _, _. split; [reflexivity|discriminate].
  - cbn [Suite_Run_tests]. unfold bind at 1, call_ at 1. cbn [prepend]. unfold bind at 1.
    destruct (Suite_Run_attempts_lenient ops fuel s (self, j) t (OnTestBegin cb (self, j) w))
      as ([p|r] & w1 & l1 & -> & Hv); cbn [prepend].
    + unfold ret. simpl. eexists _, _, _, _. split; [reflexivity|].
      destruct p; congruence.
    + destruct (IH (S j) (op_SuiteResult_AddResult ops r result) w1)
        as (early & result' & w' & l & -> & He).
      simpl. eexists _, _, _, _. split; [reflexivity|exact He].
Qed.

Lemma Suite_Run_lenient (ops : ResultOps) (fuel : nat) (self : nat) (s : Suite)
    (result : SuiteResult) (w : W) :
  exists result' w' l, Suite_Run ops cb (S fuel) self s result w = Done (true, result') w' l.
Proof.
  unfold Suite_Run, bind.
  destruct (ExecFunction_lenient (m_Init s) w) as ([[|]|] & w1 & l1 & -> & Hv);
    simpl; [unfold ret; eauto|congruence|].
  destruct (Suite_Run_tests_lenient ops fuel s self (m_Tests s) 0 result w1)
    as ([[|]|] & r1 & w2 & l2 & -> & He); simpl; [unfold ret; eauto|congruence|].
  destruct (ExecFunction_lenient (m_Exit s) w2) as ([[|]|] & w3 & l3 & -> & Hv');
    simpl; [|congruence|]; unfold ret; eauto.
Qed.

Variable env : @Environment W.
Hypothesis Hreg : registered env.

Lemma CheckDependencies_lenient (it : nat) (st : RunState) (deps : list string) :
  run_inv env st ->
  (forall d, d ∈ deps -> exists b, m_SuiteMap env !! d = Some b /\ b ∈ suites_done st) ->
  forall w, exists v w' l,
    CheckDependencies cb it deps (rs_result st) (rs_connector st) (rs_map st) w
    = Done (v, m_SuiteMap env) w' l
    /\ v <> Some false.
Proof.
  destruct Hlen as (_ & _ & Hdep & _).
  intros [Hmap Hlen' Hread]. unfold CheckDependencies. rewrite Hmap.
  induction deps as [|d rest IH]; intros Hdeps w; simpl.
  { unfold ret. eexists _, _, _. split; [reflexivity|discriminate]. }
  destruct (Hdeps d) as (b & Hb & Hdone); [apply elem_of_cons; now left|].
  assert (forall d0, d0 ∈ rest ->
            exists b0, m_SuiteMap env !! d0 = Some b0 /\ b0 ∈ suites_done st) as Hrest
    by (intros d0 H0; apply Hdeps, elem_of_cons; now right).
  rewrite (map_index_present d b _ Hb).
  apply list_elem_of_fmap in Hdone as (r & -> & Hr).
  destruct (Hread r Hr) as (s & Hs & Hslot).
  destruct (registered_lookup_name env Hreg _ _ Hb) as (s' & Hs' & Hname).
  rewrite Hs in Hs'. injection Hs' as <-. rewrite Hname in Hslot.
  destruct (Hslot _ Hb) as (k & r' & s' & -> & -> & _).
  case_bool_decide; [|now apply IH].
  unfold bind, call. specialize (Hdep it (m_Suite r') r' w).
  destruct (OnDependencyFail cb it (m_Suite r') r' w) as [a w1]. simpl in *.
  destruct Hdep as [-> | ->]; simpl.
  - unfold ret. eexists _, _, _. split; [reflexivity|discriminate].
  - destruct (IH Hrest w1) as (v & w' & l & -> & Hv). simpl.
    eexists _, _, _. split; [reflexivity|exact Hv].
Qed.

Lemma RunSuites_iter_lenient (fuel : nat) (it : nat) (s : Suite) (st : RunState) (w : W) :
  m_Suites env !! it = Some s ->
  run_inv env st ->
  (forall d, d ∈ m_Dependencies s ->
     exists b, m_SuiteMap env !! d = Some b /\ b ∈ suites_done st) ->
  exists st' w' l,
    RunSuites_iter cb (m_Suites env) (S fuel) it st w = Done (true, st') w' l
    /\ run_inv env st' /\ suites_done st' = suites_done st ++ [it].
Proof.
  intros Hs Hinv Hdeps.
  assert (exists r map w1 l1,
            RunSuites_suite cb (S fuel) it s st (OnSuiteBegin cb it w)
            = Done (true, r, map) w1 l1) as (r & map & w1 & l1 & Hsuite).
  { unfold RunSuites_suite, bind at 1.
    destruct (CheckDependencies_lenient it st (m_Dependencies s) Hinv Hdeps
                (OnSuiteBegin cb it w)) as (v & w1 & l1 & -> & Hv). cbn [prepend].
    destruct v as [[|]|]; [unfold ret; simpl; eauto|congruence|].
    unfold bind.
    destruct (Suite_Run_lenient rev2 fuel it s (SuiteResult_new it) w1)
      as (r & w2 & l2 & ->). simpl. eauto. }
  pose proof (RunSuites_iter_safe cb env Hreg (S fuel) it s st w Hs Hinv Hdeps) as Hsafe.
  destruct (RunSuites_iter cb (m_Suites env) (S fuel) it st w)
    as [[p st'] w' l|k w' l] eqn:Hiter;
    unfold RunSuites_iter in Hiter; rewrite Hs in Hiter;
    unfold bind at 1, call_ at 1 in Hiter; cbn [prepend] in Hiter;
    unfold bind at 1 in Hiter; rewrite Hsuite in Hiter; cbn [prepend] in Hiter;
    unfold bind, call_ in Hiter; cbn [prepend] in Hiter;
    destruct (map_index (m_Name (suite_Info s)) map) as [suiteID map'];
    case_bool_decide; simpl in Hiter; inversion Hiter; subst.
  - destruct Hsafe as [Hinv' Hdone'].
    eexists _, _, _. split; [reflexivity|]. split; assumption.
  - discriminate.
Qed.

Lemma RunSuites_loop_lenient (fuel : nat) (todo : list nat) :
  forall st w,
    run_inv env st ->
    NoDup (suites_done st ++ todo) ->
    closed_order env (suites_done st ++ todo) ->
    exists st' w' l,
      RunSuites_loop cb (m_Suites env) (S fuel) todo st w = Done (true, st') w' l
      /\ suites_done st' = suites_done st ++ todo
      /\ suites_begun l = todo.
Proof.
  induction todo as [|it rest IH]; intros st w Hinv Hnd Hcl.
  { simpl. unfold ret. eexists _, _, _. split; [reflexivity|].
    split; [now rewrite app_nil_r|reflexivity]. }
  destruct (Hcl it) as (s & Hs & Hdeps); [apply elem_of_app; right; apply elem_of_cons; now left|].
  assert ((suites_done st ++ it :: rest) !! length (suites_done st) = Some it) as Hit
    by (rewrite lookup_app_r, Nat.sub_diag by lia; reflexivity).
  destruct (RunSuites_iter_lenient fuel it s st w Hs Hinv)
    as (st1 & w1 & l1 & Hiter & Hinv1 & Hdone1).
  { intros d Hd. destruct (Hdeps d Hd) as (b & Hb & i & j & Hlt & Hi & Hj).
    exists b. split; [exact Hb|].
    pose proof (NoDup_lookup _ _ _ _ Hnd Hj Hit) as ->.
    rewrite lookup_app_l in Hi by exact Hlt. eapply list_elem_of_lookup_2; eauto. }
  assert (NoDup (suites_done st1 ++ rest) /\ closed_order env (suites_done st1 ++ rest))
    as [Hnd1 Hcl1] by (rewrite Hdone1, <- app_assoc; auto).
  destruct (IH st1 w1 Hinv1 Hnd1 Hcl1) as (st' & w' & l & Hloop & Hdone & Hbegun).
  pose proof (RunSuites_loop_log cb (m_Suites env) (S fuel) (it :: rest) st w)
    as (_ & _ & _ & Hlog).
  cbn [RunSuites_loop] in *. unfold bind in *. rewrite Hiter in *. rewrite Hloop in *.
  simpl in *. eexists _, _, _. split; [reflexivity|].
  split; [now rewrite Hdone, Hdone1, <- app_assoc|].
  now destruct (Hlog _ _ _ eq_refl).
Qed.

End Lenient.

Section NoIgnore.
Context {W : Type}.
Variable cb : @ControlCallback W.
Variable env : @Environment W.
Hypothesis Hunk : forall s d w, (OnUnknownDependency cb s d w).1 <> Ignore.

Lemma TopoVisit_deps_reads_no_end (visit : nat -> TopoState -> M (Z * TopoState))
    (cur : nat) :
  (forall c ts w, reads_no_end (visit c ts w)) ->
  forall deps ts w, reads_no_end (TopoVisit_deps cb env visit cur deps ts w).
Proof.
  intros Hvisit.
  induction deps as [|depName rest IH]; intros ts w; simpl.
  - destruct (ts_mark ts !! cur); simpl; [exact I|discriminate].
  - destruct (ts_mark ts !! cur) as [[[|] second]|]; [apply IH| |simpl; discriminate].
    destruct (m_SuiteMap env !! depName) as [dep|].
    + unfold bind. specialize (Hvisit dep ts w).
      destruct (visit dep ts w) as [[vr ts1] w1 l1|k w1 l1]; [|exact Hvisit].
      case_bool_decide; [case_bool_decide; exact I|].
      specialize (IH ts1 w1).
      destruct (TopoVisit_deps cb env visit cur rest ts1 w1); simpl; exact IH.
    + unfold bind, call. specialize (Hunk cur depName w).
      destruct (OnUnknownDependency cb cur depName w) as [a w1]. simpl in *.
      rewrite bool_decide_eq_false_2 by exact Hunk. exact I.
Qed.

Lemma TopoVisit_reads_no_end (fuel : nat) :
  forall c ts w, reads_no_end (TopoVisit cb env fuel c ts w).
Proof.
  induction fuel as [|fuel IH]; intros c ts w; simpl; [discriminate|].
  destruct (ts_mark ts !! c) as [[first [|]]|]; [exact I| |simpl; discriminate].
  destruct first; [exact I|].
  destruct (m_Suites env !! c); [|simpl; discriminate].
  now apply TopoVisit_deps_reads_no_end.
Qed.

Lemma SolveDependencies_roots_reads_no_end (fuel : nat) (roots : list nat) :
  forall ts w, reads_no_end (SolveDependencies_roots cb env fuel roots ts w).
Proof.
  induction roots as [|r roots IH]; intros ts w; simpl; [exact I|].
  destruct (ts_mark ts !! r) as [[[|] second]|]; [apply IH| |simpl; discriminate].
  unfold bind. destruct (AllowSuite_total env r w) as (allowed & w1 & ->).
  rewrite prepend_nil. destruct allowed; [|apply IH].
  pose proof (TopoVisit_reads_no_end fuel r ts w1) as Hv.
  destruct (TopoVisit cb env fuel r ts w1) as [[code ts1] w2 l2|k w2 l2]; [|exact Hv].
  case_bool_decide; [|exact I].
  specialize (IH ts1 w2).
  destruct (SolveDependencies_roots cb env fuel roots ts1 w2); simpl; exact IH.
Qed.

Lemma SolveDependencies_reads_no_end (fuel : nat) (w : W) :
  reads_no_end (SolveDependencies cb env fuel [] w).
Proof.
  unfold SolveDependencies, bind.
  pose proof (SolveDependencies_roots_reads_no_end fuel (seq 0 (length (m_Suites env)))
                {| ts_result := []; ts_mark := replicate (length (m_Suites env)) (false, false);
                   ts_unsolvable := [] |} w) as Hroots.
  destruct (SolveDependencies_roots cb env fuel (seq 0 (length (m_Suites env))) _ w)
    as [[succeded ts] w1 l1|k w1 l1]; [|exact Hroots].
  destruct succeded; [exact I|].
  destruct (ts_unsolvable ts); [exact I|].
  unfold bind, call. destruct (OnUnsolvableDependencies cb (n :: l) w1). exact I.
Qed.

End NoIgnore.

(** A run that nothing stops.  Let the callback never ask for a repetition
    and never answer with a decision that ends the run, as the reporter
    that [Run] falls back on when no callback is installed does.  When the
    map is the one registration builds, a bound of one more than the number
    of suites is enough for [Run] to return, and it leaves the environment
    as it was.  If the resolution succeeded, every suite of the resolved
    order began, in that order, and the environment result holds one suite
    result for each, in that order; if it failed, no suite began and the
    environment result is empty. *)
Theorem Run_under_a_lenient_callback {W : Type} (cout : string -> W -> W) (fuel : nat)
    (env : @Environment W) (w : W) :
  let control :=
    match m_Callback env with
    | Some c => c
    | None => ConsoleCallback cout (m_Suites env)
    end in
  m_Callback env = None \/ lenient control ->
  registered env ->
  (length (m_Suites env) < fuel)%nat ->
  exists b order w1 l1 r w' l,
    SolveDependencies control env fuel [] w = Done (b, order) w1 l1
    /\ Run cout fuel env w = Done (r, env) w' l
    /\ (b = true -> suites_begun l = order /\ m_Suite <$> er_Results r = order)
    /\ (b = false -> r = EnvironmentResult_new /\ l = l1 /\ suites_begun l = []).
Proof.
  intros control Hcb Hreg Hfuel.
  assert (lenient control) as Hlen.
  { destruct Hcb as [Hnone|Hl]; [|exact Hl].
    unfold control. rewrite Hnone. apply ConsoleCallback_lenient. }
  pose proof (Run_safe cout fuel env w Hreg) as Hsafe.
  pose proof (SolveDependencies_reads_no_end control env (proj2 (proj2 (proj2 Hlen))) fuel w)
    as Hnoend.
  destruct (SolveDependencies_safe control env (registered_in_range env Hreg) fuel false w)
    as [(b & order & w1 & l1 & Hsolve)|[(s & d & w1 & Hsolve & _)|[H _]]];
    [intros _; exact Hfuel| | |discriminate].
  2:{ rewrite Hsolve in Hnoend. simpl in Hnoend. congruence. }
  exists b, order, w1, l1.
  assert (forall r env' w' l, Run cout fuel env w = Done (r, env') w' l -> env' = env) as Henv.
  { intros r env' w' l Hrun. now rewrite Hrun in Hsafe. }
  destruct b.
  2:{ assert (Run cout fuel env w = Done (EnvironmentResult_new, env) w1 l1) as Hrun.
      { unfold Run. fold control. unfold bind. rewrite Hsolve. simpl.
        now rewrite app_nil_r. }
      exists EnvironmentResult_new, w1, l1. split; [exact Hsolve|]. split; [exact Hrun|].
      split; [discriminate|]. intros _. split; [reflexivity|]. split; [reflexivity|].
      pose proof (SolveDependencies_roots_shape control env fuel
                    (seq 0 (length (m_Suites env)))
                    {| ts_result := []; ts_mark := replicate (length (m_Suites env)) (false, false);
                       ts_unsolvable := [] |} w) as Hshape.
      revert Hsolve. unfold SolveDependencies, bind.
      destruct (SolveDependencies_roots control env fuel (seq 0 (length (m_Suites env))) _ w)
        as [[succeded ts] w2 l2|k w2 l2]; [|discriminate].
      destruct succeded; [simpl; intros H; inversion H|].
      assert (suites_begun l2 = []) as Hl2.
      { destruct Hshape as [(Hf & _)|[(_ & ->)|(_ & _ & s & d & a & -> & _)]];
          [discriminate|reflexivity|reflexivity]. }
      destruct (ts_unsolvable ts).
      - simpl. intros H. inversion H. now rewrite app_nil_r.
      - unfold bind, call. destruct (OnUnsolvableDependencies control (n :: l) w2). simpl.
        intros H. inversion H. rewrite suites_begun_app, Hl2. reflexivity. }
  destruct (SolveDependencies_sound control env fuel order w w1 l1 Hsolve)
    as (Hnd & Hcl & _ & _ & ->).
  destruct fuel as [|fuel]; [lia|].
  destruct (RunSuites_loop_lenient control Hlen env Hreg fuel order _ (OnBegin control w1)
              (run_inv_initial env) Hnd Hcl) as (st' & w2 & l2 & Hloop & Hdone & Hbegun).
  assert (exists env', Run cout (S fuel) env w
            = Done (rs_result st', env') (OnEnd control (rs_result st') w2)
                (CallOnBegin :: l2 ++ [CallOnEnd (rs_result st')])) as [env' Hrun].
  { unfold Run. fold control. unfold bind at 1. rewrite Hsolve.
    unfold bind, call_, RunSuites. cbn [prepend]. rewrite Hloop. simpl. eauto. }
  rewrite (Henv _ _ _ _ Hrun) in Hrun.
  eexists _, _, _. split; [exact Hsolve|]. split; [exact Hrun|].
  split; [|discriminate]. intros _. split.
  - simpl. rewrite suites_begun_app, Hbegun. simpl. now rewrite app_nil_r.
  - exact Hdone.
Qed.

Lemma Run_under_the_fallback_witness :
  let env := register_all two_suites Environment_new in
  exists r w' l,
    Run silent 3 env 0%nat = Done (r, env) w' l
    /\ suites_begun l = [1; 0]%nat
    /\ m_Suite <$> er_Results r = [1; 0]%nat.
Proof.
  intros env.
  destruct (Run_under_a_lenient_callback silent 3 env 0%nat)
    as (b & order & w1 & l1 & r & w' & l & Hsolve & Hrun & Htrue & _).
  - left. reflexivity.
  - intros name. apply (register_all_map _ name).
  - simpl. lia.
  - assert (b = true /\ order = [1; 0]%nat) as [-> ->].
    { vm_compute in Hsolve. injection Hsolve as <- <-. auto. }
    destruct (Htrue eq_refl) as [Hbegun Hres].
    exists r, w', l. split; [exact Hrun|]. split; assumption.
Defined.

(** ** What a reporter is told *)

Lemma tests_ended_app (l1 l2 : list Event) :
  tests_ended (l1 ++ l2) = tests_ended l1 ++ tests_ended l2.
Proof.
  induction l1 as [|e l1 IH]; [reflexivity|].
  destruct e as [| | | |r [|]| | | | | | | |]; simpl; now rewrite IH.
Qed.

Lemma suites_ended_app (l1 l2 : list Event) :
  suites_ended (l1 ++ l2) = suites_ended l1 ++ suites_ended l2.
Proof.
  induction l1 as [|e l1 IH]; [reflexivity|].
  destruct e; simpl; now rewrite IH.
Qed.

Lemma no_reports_ended (l : list Event) :
  Forall (fun e => reports e = false) l -> tests_ended l = [] /\ suites_ended l = [].
Proof.
  induction 1 as [|e l He _ [IH1 IH2]]; [auto|].
  destruct e; simpl in *; try discriminate; auto.
Qed.

Lemma no_suite_code_no_reports (l : list Event) :
  Forall (fun e => runs_suite_code e = false) l -> Forall (fun e => reports e = false) l.
Proof.
  intros H. eapply Forall_impl; [exact H|].
  intros e He. destruct e; simpl in *; try discriminate; reflexivity.
Qed.

Section Reports.
Context {W : Type}.
Variable cb : @ControlCallback W.

Local Abbreviation no_reports l := (Forall (fun e => reports e = false) l).

Lemma no_reports_prepend {A : Type} (l : list Event) (o : @Outcome W A) :
  no_reports l -> no_reports (log_of o) -> no_reports (log_of (prepend l o)).
Proof. intros H1 H2. rewrite log_of_prepend. now apply Forall_app. Qed.

Lemma no_reports_bind {A B : Type} (m : @M W A) (f : A -> M B) (w : W) :
  no_reports (log_of (m w)) -> (forall a w', no_reports (log_of (f a w'))) ->
  no_reports (log_of (bind m f w)).
Proof.
  intros Hm Hf. unfold bind. destruct (m w) as [a w1 l1|k w1 l1]; [|exact Hm].
  apply no_reports_prepend; [exact Hm|apply Hf].
Qed.

Lemma ExecFunction_no_reports (func : SuiteFunction) (w : W) :
  no_reports (log_of (ExecFunction cb func w)).
Proof.
  unfold ExecFunction, bind, call, ret.
  destruct (sf_Func func) as [f|]; [destruct (f w) as [[|] w1]|]; simpl;
    repeat constructor.
  destruct (OnException cb (sf_Info func) w1) as [a w2]. simpl.
  destruct (bool_decide (a = Ignore) || bool_decide (a = Procceed)); simpl;
    [repeat constructor|].
  destruct (bool_decide (a = AbortCurrent)); simpl; repeat constructor.
Qed.

Lemma Body_run_no_reports (ops : ResultOps) (b : Body) :
  forall r, no_reports (log_of (Body_run ops cb b r)).
Proof.
  induction b as [w|w|inf result msg w k IH]; intros r; simpl; try constructor.
  unfold TestContext_AddResult, bind, call, ret.
  destruct (OnAssert cb _ w) as [a w1]. simpl.
  apply no_reports_prepend; [repeat constructor|apply IH].
Qed.

Lemma Test_Run_no_reports (ops : ResultOps) (self : TestPtr) (t : Test) (r : TestResult)
    (w : W) :
  no_reports (log_of (Test_Run ops cb self t r w)).
Proof.
  unfold Test_Run. apply no_reports_bind.
  - apply no_reports_prepend; [repeat constructor|apply Body_run_no_reports].
  - intros [threw r'] w1. destruct threw; [|constructor].
    unfold bind, call, ret. destruct (OnException cb (test_Info t) w1) as [a w2]. simpl.
    repeat case_bool_decide; simpl; repeat constructor.
Qed.

Lemma Suite_Run_attempt_no_reports (ops : ResultOps) (s : Suite) (self : TestPtr)
    (t : Test) (w : W) :
  no_reports (log_of (Suite_Run_attempt ops cb s self t w)).
Proof.
  unfold Suite_Run_attempt. apply no_reports_bind; [apply ExecFunction_no_reports|].
  intros [p|] w1; [constructor|].
  apply no_reports_bind; [apply Test_Run_no_reports|].
  intros [p r] w2. destruct p; simpl; [|constructor].
  apply no_reports_bind; [apply ExecFunction_no_reports|].
  intros [p|] w3; constructor.
Qed.

(** The [do ... while] of one test tells [OnTestEnd] of every attempt; the
    one it answers [false] to is the result that is kept. *)
Lemma Suite_Run_attempts_ended (ops : ResultOps) (fuel : nat) (s : Suite)
    (self : TestPtr) (t : Test) :
  forall w a w' l,
    Suite_Run_attempts ops cb fuel s self t w = Done a w' l ->
    tests_ended l = match a with inr r => [r] | inl _ => [] end
    /\ suites_ended l = [].
Proof.
  induction fuel as [|fuel IH]; intros w a w' l Hrun; simpl in Hrun; [discriminate|].
  unfold bind in Hrun.
  pose proof (Suite_Run_attempt_no_reports ops s self t w) as Hsilent.
  destruct (Suite_Run_attempt ops cb s self t w) as [[p|r] w1 l1|k w1 l1];
    [| |discriminate]; simpl in Hsilent; apply no_reports_ended in Hsilent as [Ht Hs].
  - simpl in Hrun. inversion Hrun; subst. rewrite app_nil_r. auto.
  - simpl in Hrun. unfold call in Hrun.
    destruct (OnTestEnd cb r w1) as [again w2]. simpl in Hrun.
    destruct again.
    + destruct (Suite_Run_attempts ops cb fuel s self t w2) as [a2 w3 l3|k w3 l3] eqn:Hrec;
        simpl in Hrun; [|discriminate].
      inversion Hrun; subst. destruct (IH _ _ _ _ Hrec) as [Ht3 Hs3].
      rewrite tests_ended_app, suites_ended_app, Ht, Hs. simpl. auto.
    + simpl in Hrun. inversion Hrun; subst.
      rewrite tests_ended_app, suites_ended_app, Ht, Hs. simpl. auto.
Qed.

Lemma Suite_Run_tests_ended (fuel : nat) (s : Suite) (self : nat) (tests : list Test) :
  forall j result w early result' w' l,
    Suite_Run_tests rev2 cb fuel s self j tests result w = Done (early, result') w' l ->
    sr_Results result' = sr_Results result ++ tests_ended l
    /\ suites_ended l = [].
Proof.
  induction tests as [|t rest IH]; intros j result w early result' w' l Hrun.
  - simpl in Hrun. inversion Hrun; subst. simpl. now rewrite app_nil_r.
  - cbn [Suite_Run_tests] in Hrun. unfold bind at 1, call_ at 1 in Hrun.
    cbn [prepend] in Hrun. unfold bind at 1 in Hrun.
    destruct (Suite_Run_attempts rev2 cb fuel s (self, j) t (OnTestBegin cb (self, j) w))
      as [a w1 l1|k w1 l1] eqn:Hatt; [|discriminate].
    destruct (Suite_Run_attempts_ended _ _ _ _ _ _ _ _ _ Hatt) as [Ht Hs].
    destruct a as [p|r]; cbn [prepend] in Hrun.
    + simpl in Hrun. inversion Hrun; subst. simpl.
      rewrite tests_ended_app, suites_ended_app, Ht, Hs. simpl. now rewrite app_nil_r.
    + destruct (Suite_Run_tests rev2 cb fuel s self (S j) rest
                  (op_SuiteResult_AddResult rev2 r result) w1)
        as [[early2 result2] w2 l2|k w2 l2] eqn:Hrec; simpl in Hrun; [|discriminate].
      inversion Hrun; subst. destruct (IH _ _ _ _ _ _ _ Hrec) as [Hres Hs2].
      simpl. rewrite tests_ended_app, suites_ended_app, Ht, Hs, Hs2, Hres. simpl.
      now rewrite <- app_assoc.
Qed.

Lemma Suite_Run_ended (fuel : nat) (self : nat) (s : Suite) (result : SuiteResult) :
  forall w p result' w' l,
    Suite_Run rev2 cb fuel self s result w = Done (p, result') w' l ->
    sr_Results result' = sr_Results result ++ tests_ended l
    /\ suites_ended l = [].
Proof.
  intros w p result' w' l Hrun. unfold Suite_Run, bind in Hrun.
  pose proof (ExecFunction_no_reports (m_Init s) w) as Hi.
  destruct (ExecFunction cb (m_Init s) w) as [i w1 l1|k w1 l1]; [|discriminate].
  simpl in Hi. apply no_reports_ended in Hi as [Hti Hsi].
  destruct i as [pi|].
  { simpl in Hrun. inversion Hrun; subst. rewrite !app_nil_r, Hti. now rewrite app_nil_r. }
  destruct (Suite_Run_tests rev2 cb fuel s self 0 (m_Tests s) result w1)
    as [[early r2] w2 l2|k w2 l2] eqn:Htests; simpl in Hrun; [|discriminate].
  destruct (Suite_Run_tests_ended _ _ _ _ _ _ _ _ _ _ _ Htests) as [Hres Hs2].
  destruct early as [pe|].
  { simpl in Hrun. inversion Hrun; subst.
    rewrite !app_nil_r, tests_ended_app, suites_ended_app, Hti, Hsi, Hs2. auto. }
  pose proof (ExecFunction_no_reports (m_Exit s) w2) as Hx.
  destruct (ExecFunction cb (m_Exit s) w2) as [x w3 l3|k w3 l3]; [|discriminate].
  simpl in Hx. apply no_reports_ended in Hx as [Htx Hsx].
  assert (result' = r2 /\ l = l1 ++ l2 ++ l3) as [-> ->].
  { destruct x; simpl in Hrun; inversion Hrun; subst; rewrite !app_nil_r; auto. }
  rewrite !tests_ended_app, !suites_ended_app, Hti, Hsi, Hs2, Htx, Hsx, Hres.
  simpl. now rewrite app_nil_r.
Qed.

Lemma CheckDependencies_no_reports (it : nat) (deps : list string)
    (result : EnvironmentResult) (connector : list nat) :
  forall map w,
    no_reports (log_of (CheckDependencies cb it deps result connector map w)).
Proof.
  unfold CheckDependencies.
  induction deps as [|d rest IH]; intros map w; simpl; [constructor|].
  destruct (map_index d map) as [suiteID map'].
  destruct (connector !! suiteID) as [k|]; [|constructor].
  destruct (er_Results result !! k) as [suiteRes|]; [|constructor].
  case_bool_decide; [|apply IH].
  unfold bind, call.
  destruct (OnDependencyFail cb it (m_Suite suiteRes) suiteRes w) as [a w1]. simpl.
  case_bool_decide.
  - apply no_reports_prepend; [repeat constructor|apply IH].
  - case_bool_decide; simpl; repeat constructor.
Qed.

Lemma RunSuites_suite_ended (fuel : nat) (it : nat) (s : Suite) (st : RunState) :
  forall w p r map w' l,
    RunSuites_suite cb fuel it s st w = Done (p, r, map) w' l ->
    sr_Results r = tests_ended l /\ suites_ended l = [].
Proof.
  intros w p r map w' l Hrun. unfold RunSuites_suite, bind at 1 in Hrun.
  pose proof (CheckDependencies_no_reports it (m_Dependencies s) (rs_result st)
                (rs_connector st) (rs_map st) w) as Hc.
  destruct (CheckDependencies cb it (m_Dependencies s) (rs_result st) (rs_connector st)
              (rs_map st) w) as [[check map1] w1 l1|k w1 l1]; [|discriminate].
  simpl in Hc. apply no_reports_ended in Hc as [Htc Hsc].
  cbn [prepend] in Hrun. destruct check as [pc|].
  - simpl in Hrun. inversion Hrun; subst. simpl. rewrite app_nil_r. auto.
  - unfold bind in Hrun.
    destruct (Suite_Run rev2 cb fuel it s (SuiteResult_new it) w1)
      as [[ran r1] w2 l2|k w2 l2] eqn:Hsuite; simpl in Hrun; [|discriminate].
    inversion Hrun; subst.
    destruct (Suite_Run_ended _ _ _ _ _ _ _ _ _ Hsuite) as [Hres Hs2].
    rewrite app_nil_r, tests_ended_app, suites_ended_app, Htc, Hsc, Hs2, Hres. auto.
Qed.

Lemma RunSuites_iter_ended (suites : list Suite) (fuel : nat) (it : nat) (st : RunState) :
  forall w p st' w' l,
    RunSuites_iter cb suites fuel it st w = Done (p, st') w' l ->
    exists r, er_Results (rs_result st') = er_Results (rs_result st) ++ [r]
              /\ suites_ended l = [r] /\ tests_ended l = sr_Results r.
Proof.
  intros w p st' w' l Hrun. unfold RunSuites_iter in Hrun.
  destruct (suites !! it) as [s|]; [|discriminate].
  unfold bind at 1, call_ at 1 in Hrun. cbn [prepend] in Hrun. unfold bind at 1 in Hrun.
  destruct (RunSuites_suite cb fuel it s st (OnSuiteBegin cb it w))
    as [[[q r] map] w1 l1|k w1 l1] eqn:Hsuite; cbn [prepend] in Hrun; [|discriminate].
  destruct (RunSuites_suite_ended _ _ _ _ _ _ _ _ _ _ Hsuite) as [Hres Hs1].
  unfold bind, call_ in Hrun. cbn [prepend] in Hrun.
  destruct (map_index (m_Name (suite_Info s)) map) as [suiteID map'].
  case_bool_decide; simpl in Hrun; [|discriminate].
  inversion Hrun; subst. exists r. simpl. split; [reflexivity|].
  rewrite tests_ended_app, suites_ended_app, Hs1. simpl. rewrite app_nil_r. auto.
Qed.

Lemma RunSuites_loop_ended (suites : list Suite) (fuel : nat) (todo : list nat) :
  forall st w p st' w' l,
    RunSuites_loop cb suites fuel todo st w = Done (p, st') w' l ->
    er_Results (rs_result st') = er_Results (rs_result st) ++ suites_ended l
    /\ tests_ended l = concat (sr_Results <$> suites_ended l).
Proof.
  induction todo as [|it rest IH]; intros st w p st' w' l Hrun; simpl in Hrun.
  - inversion Hrun; subst. simpl. now rewrite app_nil_r.
  - unfold bind in Hrun.
    destruct (RunSuites_iter cb suites fuel it st w) as [[q st1] w1 l1|k w1 l1] eqn:Hiter;
      [|discriminate].
    destruct (RunSuites_iter_ended _ _ _ _ _ _ _ _ _ Hiter) as (r & Hres & Hs1 & Ht1).
    destruct q.
    + destruct (RunSuites_loop cb suites fuel rest st1 w1) as [[q2 st2] w2 l2|k w2 l2] eqn:Hrec;
        simpl in Hrun; [|discriminate].
      inversion Hrun; subst. destruct (IH _ _ _ _ _ _ Hrec) as [Hres2 Ht2].
      rewrite tests_ended_app, suites_ended_app, Hs1, Ht1, Ht2, Hres2, Hres. simpl.
      now rewrite <- app_assoc.
    + simpl in Hrun. inversion Hrun; subst.
      rewrite app_nil_r, Hs1, Ht1, Hres. simpl. now rewrite app_nil_r.
Qed.

End Reports.

(** The resolver logs calls of [OnUnknownDependency] and
    [OnUnsolvableDependencies] only. *)
Lemma SolveDependencies_log {W : Type} (cb : @ControlCallback W) (env : @Environment W)
    (fuel : nat) (w : W) :
  Forall (fun e => runs_suite_code e = false) (log_of (SolveDependencies cb env fuel [] w)).
Proof.
  unfold SolveDependencies, bind.
  pose proof (SolveDependencies_roots_shape cb env fuel (seq 0 (length (m_Suites env)))
                {| ts_result := []; ts_mark := replicate (length (m_Suites env)) (false, false);
                   ts_unsolvable := [] |} w) as Hshape.
  destruct (SolveDependencies_roots cb env fuel (seq 0 (length (m_Suites env))) _ w)
    as [[succeded ts] w1 l1|k w1 l1]; simpl in *.
  - assert (Forall (fun e => runs_suite_code e = false) l1) as Hl1.
    { destruct Hshape as [(_ & -> & _)|[(_ & ->)|(_ & _ & s & d & a & -> & _)]];
        repeat constructor. }
    destruct succeded; simpl; [now rewrite app_nil_r|].
    destruct (ts_unsolvable ts); simpl; [now rewrite app_nil_r|].
    unfold bind, call. destruct (OnUnsolvableDependencies cb (n :: l) w1). simpl.
    apply Forall_app. split; [exact Hl1|repeat constructor].
  - destruct Hshape as [(_ & s & d & -> & _)|(_ & ->)]; repeat constructor.
Qed.

(** The reporter is told every result.  Whenever [Run] returns, the suite
    results of the environment result are the results that were handed to
    [OnSuiteEnd], in the order of the calls, and the test results they
    hold, taken together, are the results handed to the calls of
    [OnTestEnd] that answered [false], in the order of the calls: the
    result of an attempt that [OnTestEnd] asked to repeat is dropped, and a
    test cut short by an abort decision leaves no result. *)
Theorem reporter_is_told_every_result {W : Type} (cout : string -> W -> W) (fuel : nat)
    (env env' : @Environment W) (w w' : W) (r : EnvironmentResult) (l : list Event) :
  Run cout fuel env w = Done (r, env') w' l ->
  er_Results r = suites_ended l
  /\ concat (sr_Results <$> er_Results r) = tests_ended l.
Proof.
  intros Hrun. unfold Run in Hrun.
  set (control := match m_Callback env with
                  | Some c => c
                  | None => ConsoleCallback cout (m_Suites env)
                  end) in *.
  unfold bind at 1 in Hrun.
  pose proof (SolveDependencies_log control env fuel w) as Hlog.
  destruct (SolveDependencies control env fuel [] w) as [[solved order] w1 l1|k w1 l1];
    [|discriminate].
  simpl in Hlog. apply no_suite_code_no_reports, no_reports_ended in Hlog as [Ht1 Hs1].
  destruct solved.
  2:{ simpl in Hrun. inversion Hrun; subst. rewrite app_nil_r, Ht1, Hs1. auto. }
  unfold bind, call_, RunSuites in Hrun. cbn [prepend] in Hrun.
  destruct (RunSuites_loop control (m_Suites env) fuel order _ (OnBegin control w1))
    as [[p st] w2 l2|k w2 l2] eqn:Hloop; simpl in Hrun; [|discriminate].
  inversion Hrun; subst.
  destruct (RunSuites_loop_ended _ _ _ _ _ _ _ _ _ _ Hloop) as [Hres Ht2].
  simpl in Hres.
  rewrite tests_ended_app, suites_ended_app, Ht1, Hs1. simpl.
  rewrite tests_ended_app, suites_ended_app. simpl. rewrite !app_nil_r.
  rewrite Hres. auto.
Qed.

Lemma reporter_is_told_witness :
  let env := demo_env (demo_callback Procceed Abort Abort 1)
               [plain_suite "S" [] [throwing_test; passing_test]] in
  exists r w' l,
    Run silent 3 env 0%nat = Done (r, env) w' l
    /\ er_Results r = suites_ended l
    /\ length (tests_ended l) = 2%nat.
Proof.
  intros env.
  assert (exists r w' l, Run silent 3 env 0%nat = Done (r, env) w' l
                         /\ length (concat (sr_Results <$> er_Results r)) = 2%nat)
    as (r & w' & l & Hrun & Hlen)
    by (vm_compute; eexists _, _, _; split; reflexivity).
  destruct (reporter_is_told_every_result silent 3 env env 0%nat w' r l Hrun) as [Hs Ht].
  exists r, w', l. split; [exact Hrun|]. split; [exact Hs|]. now rewrite <- Ht.
Defined.

(** ** The result tree is consistent *)

Lemma max_severity_snoc (l : list Result) (r : Result) :
  max_severity (l ++ [r]) = max_result (max_severity l) r.
Proof.
  induction l as [|a l IH]; simpl; [now destruct r|].
  rewrite IH. apply max_result_assoc.
Qed.

Lemma AddResult_keeps_fold (t r : Result) (l : list Result) :
  t = max_severity l -> ResultObject_AddResult t r = max_severity (l ++ [r]).
Proof. intros ->. now rewrite AddResult_is_max, max_severity_snoc. Qed.

Section Consistent.
Context {W : Type}.
Variable cb : @ControlCallback W.

Lemma TestResult_AddResult_consistent (a : AssertResult) (r : TestResult) :
  TestResult_consistent r -> TestResult_consistent (TestResult_AddResult a r).
Proof.
  unfold TestResult_consistent. simpl. intros H. rewrite fmap_app. simpl.
  now apply AddResult_keeps_fold.
Qed.

Lemma Body_run_consistent (b : Body) :
  forall r v r' w' l,
    Body_run rev2 cb b r = Done (v, r') w' l ->
    TestResult_consistent r -> TestResult_consistent r'.
Proof.
  induction b as [w|w|inf result msg w k IH]; intros r v r' w' l Hrun Hr; simpl in Hrun.
  - now inversion Hrun; subst.
  - now inversion Hrun; subst.
  - unfold TestContext_AddResult, bind, call, ret in Hrun.
    destruct (OnAssert cb _ w) as [a w1]. simpl in Hrun.
    destruct (Body_run rev2 cb (k w1) (TestResult_AddResult a r))
      as [[v2 r2] w2 l2|k2 w2 l2] eqn:Hrec; simpl in Hrun; [|discriminate].
    inversion Hrun; subst.
    eapply IH; [exact Hrec|]. now apply TestResult_AddResult_consistent.
Qed.

Lemma Test_Run_consistent (self : TestPtr) (t : Test) (r : TestResult) :
  forall w p r' w' l,
    Test_Run rev2 cb self t r w = Done (p, r') w' l ->
    TestResult_consistent r -> TestResult_consistent r'.
Proof.
  intros w p r' w' l Hrun Hr. unfold Test_Run, bind in Hrun.
  destruct (Body_run rev2 cb (m_Func t w) r) as [[threw r1] w1 l1|k w1 l1] eqn:Hbody;
    simpl in Hrun; [|discriminate].
  pose proof (Body_run_consistent _ _ _ _ _ _ Hbody Hr) as Hr1.
  destruct threw; [|simpl in Hrun; now inversion Hrun; subst].
  unfold call, ret in Hrun. destruct (OnException cb (test_Info t) w1) as [a w2].
  simpl in Hrun.
  repeat case_bool_decide; simpl in Hrun; inversion Hrun; subst; try exact Hr1.
  now apply TestResult_AddResult_consistent.
Qed.

Lemma Suite_Run_attempts_consistent (fuel : nat) (s : Suite) (self : TestPtr) (t : Test) :
  forall w r w' l,
    Suite_Run_attempts rev2 cb fuel s self t w = Done (inr r) w' l ->
    TestResult_consistent r.
Proof.
  induction fuel as [|fuel IH]; intros w r w' l Hrun; simpl in Hrun; [discriminate|].
  unfold bind in Hrun.
  destruct (Suite_Run_attempt rev2 cb s self t w) as [[p|r1] w1 l1|k w1 l1] eqn:Hatt;
    simpl in Hrun; [inversion Hrun|..|discriminate].
  apply Suite_Run_attempt_completes in Hatt
    as (wa & la & wb & lb & lc & _ & Htest & _).
  apply Test_Run_consistent in Htest; [|reflexivity].
  unfold call in Hrun. destruct (OnTestEnd cb r1 w1) as [again w2]. simpl in Hrun.
  destruct again.
  - destruct (Suite_Run_attempts rev2 cb fuel s self t w2) as [a2 w3 l3|k w3 l3] eqn:Hrec;
      simpl in Hrun; [|discriminate].
    inversion Hrun; subst. eapply IH; eauto.
  - simpl in Hrun. now inversion Hrun; subst.
Qed.

Lemma SuiteResult_AddResult_folded (t : TestResult) (r : SuiteResult) :
  TestResult_consistent t -> SuiteResult_folded r ->
  SuiteResult_folded (SuiteResult_AddResult t r).
Proof.
  intros Ht [Hall Htot]. split; simpl.
  - apply Forall_app. split; [exact Hall|now constructor].
  - rewrite fmap_app. simpl. now apply AddResult_keeps_fold.
Qed.

Lemma Suite_Run_tests_consistent (fuel : nat) (s : Suite) (self : nat) (tests : list Test) :
  forall j result w early result' w' l,
    Suite_Run_tests rev2 cb fuel s self j tests result w = Done (early, result') w' l ->
    SuiteResult_folded result -> SuiteResult_folded result'.
Proof.
  induction tests as [|t rest IH]; intros j result w early result' w' l Hrun Hr.
  - simpl in Hrun. now inversion Hrun; subst.
  - cbn [Suite_Run_tests] in Hrun. unfold bind at 1, call_ at 1 in Hrun.
    cbn [prepend] in Hrun. unfold bind at 1 in Hrun.
    destruct (Suite_Run_attempts rev2 cb fuel s (self, j) t (OnTestBegin cb (self, j) w))
      as [[p|r] w1 l1|k w1 l1] eqn:Hatt; cbn [prepend] in Hrun; [| |discriminate].
    + simpl in Hrun. now inversion Hrun; subst.
    + apply Suite_Run_attempts_consistent in Hatt.
      destruct (Suite_Run_tests rev2 cb fuel s self (S j) rest
                  (op_SuiteResult_AddResult rev2 r result) w1)
        as [[early2 result2] w2 l2|k w2 l2] eqn:Hrec; simpl in Hrun; [|discriminate].
      inversion Hrun; subst. eapply IH; [exact Hrec|].
      now apply SuiteResult_AddResult_folded.
Qed.

Lemma Suite_Run_consistent (fuel : nat) (self : nat) (s : Suite) (result : SuiteResult) :
  forall w p result' w' l,
    Suite_Run rev2 cb fuel self s result w = Done (p, result') w' l ->
    SuiteResult_folded result -> SuiteResult_folded result'.
Proof.
  intros w p result' w' l Hrun Hr. unfold Suite_Run, bind in Hrun.
  destruct (ExecFunction cb (m_Init s) w) as [[pi|] w1 l1|k w1 l1]; [| |discriminate].
  { simpl in Hrun. now inversion Hrun; subst. }
  destruct (Suite_Run_tests rev2 cb fuel s self 0 (m_Tests s) result w1)
    as [[early r2] w2 l2|k w2 l2] eqn:Htests; simpl in Hrun; [|discriminate].
  apply Suite_Run_tests_consistent in Htests; [|exact Hr].
  destruct early as [pe|]; [simpl in Hrun; now inversion Hrun; subst|].
  destruct (ExecFunction cb (m_Exit s) w2) as [[px|] w3 l3|k w3 l3];
    simpl in Hrun; [| |discriminate]; now inversion Hrun; subst.
Qed.

Lemma RunSuites_suite_consistent (fuel : nat) (it : nat) (s : Suite) (st : RunState) :
  forall w p r map w' l,
    RunSuites_suite cb fuel it s st w = Done (p, r, map) w' l ->
    SuiteResult_consistent r.
Proof.
  intros w p r map w' l Hrun. unfold RunSuites_suite, bind at 1 in Hrun.
  destruct (CheckDependencies cb it (m_Dependencies s) (rs_result st) (rs_connector st)
              (rs_map st) w) as [[check map1] w1 l1|k w1 l1]; [|discriminate].
  cbn [prepend] in Hrun. destruct check as [pc|].
  - simpl in Hrun. inversion Hrun; subst. right. auto.
  - unfold bind in Hrun.
    destruct (Suite_Run rev2 cb fuel it s (SuiteResult_new it) w1)
      as [[ran r1] w2 l2|k w2 l2] eqn:Hsuite; simpl in Hrun; [|discriminate].
    inversion Hrun; subst. left.
    eapply Suite_Run_consistent; [exact Hsuite|]. split; [constructor|reflexivity].
Qed.

Lemma RunSuites_loop_consistent (suites : list Suite) (fuel : nat) (todo : list nat) :
  forall st w p st' w' l,
    RunSuites_loop cb suites fuel todo st w = Done (p, st') w' l ->
    EnvironmentResult_consistent (rs_result st) ->
    EnvironmentResult_consistent (rs_result st').
Proof.
  induction todo as [|it rest IH]; intros st w p st' w' l Hrun Hst; simpl in Hrun.
  - now inversion Hrun; subst.
  - unfold bind in Hrun.
    destruct (RunSuites_iter cb suites fuel it st w) as [[q st1] w1 l1|k w1 l1] eqn:Hiter;
      [|discriminate].
    assert (EnvironmentResult_consistent (rs_result st1)) as Hst1.
    { unfold RunSuites_iter in Hiter.
      destruct (suites !! it) as [s|]; [|discriminate].
      unfold bind at 1, call_ at 1 in Hiter. cbn [prepend] in Hiter.
      unfold bind at 1 in Hiter.
      destruct (RunSuites_suite cb fuel it s st (OnSuiteBegin cb it w))
        as [[[q' r] map] w0 l0|k w0 l0] eqn:Hsuite; cbn [prepend] in Hiter; [|discriminate].
      apply RunSuites_suite_consistent in Hsuite.
      unfold bind, call_ in Hiter. cbn [prepend] in Hiter.
      destruct (map_index (m_Name (suite_Info s)) map) as [suiteID map'].
      case_bool_decide; simpl in Hiter; [|discriminate].
      inversion Hiter; subst. destruct Hst as [Hall Htot]. split; simpl.
      - apply Forall_app. split; [exact Hall|now constructor].
      - rewrite fmap_app. simpl. now apply AddResult_keeps_fold. }
    destruct q.
    + destruct (RunSuites_loop cb suites fuel rest st1 w1) as [[q2 st2] w2 l2|k w2 l2] eqn:Hrec;
        simpl in Hrun; [|discriminate].
      inversion Hrun; subst. eapply IH; eauto.
    + simpl in Hrun. now inversion Hrun; subst.
Qed.

End Consistent.

(** The result tree is consistent.  Whenever [Run] returns, the total of
    the environment result is the most severe total among its suite
    results, the total of every suite result is the most severe total
    among its test results, and the total of every test result is the most
    severe outcome among its assertions, whatever the callback did to the
    assertions handed to [OnAssert].  The one exception is the result of a
    suite that the dependency check kept from running: it holds no test
    result and its total is [Unknown]. *)
Theorem result_tree_is_consistent {W : Type} (cout : string -> W -> W) (fuel : nat)
    (env env' : @Environment W) (w w' : W) (r : EnvironmentResult) (l : list Event) :
  Run cout fuel env w = Done (r, env') w' l ->
  EnvironmentResult_consistent r.
Proof.
  intros Hrun. unfold Run in Hrun.
  set (control := match m_Callback env with
                  | Some c => c
                  | None => ConsoleCallback cout (m_Suites env)
                  end) in *.
  unfold bind at 1 in Hrun.
  destruct (SolveDependencies control env fuel [] w) as [[solved order] w1 l1|k w1 l1];
    [|discriminate].
  destruct solved.
  2:{ simpl in Hrun. inversion Hrun; subst. split; [constructor|reflexivity]. }
  unfold bind, call_, RunSuites in Hrun. cbn [prepend] in Hrun.
  destruct (RunSuites_loop control (m_Suites env) fuel order _ (OnBegin control w1))
    as [[p st] w2 l2|k w2 l2] eqn:Hloop; simpl in Hrun; [|discriminate].
  inversion Hrun; subst.
  eapply RunSuites_loop_consistent; [exact Hloop|].
  split; [constructor|reflexivity].
Qed.

Lemma result_tree_witness :
  let env := demo_env (demo_callback Procceed AbortCurrent Abort 0)
               [plain_suite "A" ["B"] [passing_test];
                plain_suite "B" [] [throwing_test; passing_test]] in
  exists r w' l,
    Run silent 3 env 0%nat = Done (r, env) w' l
    /\ sr_TotalResult <$> er_Results r = [Fail; Unknown]
    /\ EnvironmentResult_consistent r.
Proof.
  intros env.
  assert (exists r w' l, Run silent 3 env 0%nat = Done (r, env) w' l
                         /\ sr_TotalResult <$> er_Results r = [Fail; Unknown])
    as (r & w' & l & Hrun & Htot)
    by (vm_compute; eexists _, _, _; split; reflexivity).
  exists r, w', l. split; [exact Hrun|]. split; [exact Htot|].
  exact (result_tree_is_consistent silent 3 env env 0%nat w' r l Hrun).
Defined.

(** ** The resolvers of the two revisions agree *)

Section Resolvers.
Context {W : Type}.
Variable cb : @ControlCallback W.
Variable env : @Environment W.

Lemma visit_rev1_prepend (l : list Event) (o : @Outcome W (Z * TopoState)) :
  visit_rev1 (prepend l o) = prepend l (visit_rev1 o).
Proof. destruct o as [[code ts] w l'|k w l']; reflexivity. Qed.

Lemma roots_rev1_prepend (l : list Event) (o : @Outcome W (bool * TopoState)) :
  roots_rev1 (prepend l o) = prepend l (roots_rev1 o).
Proof. destruct o as [[b ts] w l'|k w l']; reflexivity. Qed.

Lemma TopoVisit_deps_rev1
    (visit1 : nat -> Rev1.TopoState -> M (bool * Rev1.TopoState))
    (visit2 : nat -> TopoState -> M (Z * TopoState)) (cur : nat) :
  (forall c ts w, visit1 c (marks_rev1 ts) w = visit_rev1 (visit2 c ts w)) ->
  forall deps ts w,
    Rev1.TopoVisit_deps cb (m_SuiteMap env) visit1 cur deps (marks_rev1 ts) w
    = visit_rev1 (TopoVisit_deps cb env visit2 cur deps ts w).
Proof.
  intros Hvisit.
  induction deps as [|depName rest IH]; intros ts w; simpl.
  - rewrite !length_fmap.
    destruct (ts_mark ts !! cur) as [m|] eqn:Hm.
    + pose proof (lookup_lt_Some _ _ _ Hm) as Hlt.
      rewrite !bool_decide_eq_true_2 by exact Hlt. simpl.
      unfold marks_rev1. simpl. now rewrite !list_fmap_insert.
    + apply lookup_ge_None in Hm.
      rewrite !bool_decide_eq_false_2 by lia. reflexivity.
  - rewrite list_lookup_fmap.
    destruct (ts_mark ts !! cur) as [[[|] second]|] eqn:Hm; simpl; [apply IH| |reflexivity].
    destruct (m_SuiteMap env !! depName) as [dep|].
    + unfold bind. rewrite Hvisit.
      destruct (visit2 dep ts w) as [[vr ts1] w1 l1|k w1 l1]; simpl; [|reflexivity].
      destruct (decide (vr = 0)) as [->|Hvr].
      * rewrite bool_decide_eq_true_2 by reflexivity.
        rewrite bool_decide_eq_false_2 by tauto.
        now rewrite IH, visit_rev1_prepend.
      * rewrite (bool_decide_eq_false_2 (vr = 0)) by exact Hvr.
        rewrite (bool_decide_eq_true_2 (vr ≠ 0)) by exact Hvr.
        case_bool_decide; simpl; now rewrite (bool_decide_eq_false_2 (vr = 0)) by exact Hvr.
    + unfold bind, call. destruct (OnUnknownDependency cb cur depName w) as [a w1]. simpl.
      case_bool_decide; reflexivity.
Qed.

Lemma TopoVisit_rev1 (fuel : nat) :
  forall c ts w,
    Rev1.TopoVisit cb (m_Suites env) (m_SuiteMap env) fuel c (marks_rev1 ts) w
    = visit_rev1 (TopoVisit cb env fuel c ts w).
Proof.
  induction fuel as [|fuel IH]; intros c ts w; simpl; [reflexivity|].
  rewrite !list_lookup_fmap.
  destruct (ts_mark ts !! c) as [[first second]|] eqn:Hm; simpl; [|reflexivity].
  destruct second; [reflexivity|]. destruct first; [reflexivity|].
  destruct (m_Suites env !! c) as [s|]; [|reflexivity].
  rewrite <- (TopoVisit_deps_rev1 _ _ c IH). f_equal.
  unfold marks_rev1. simpl. rewrite !list_fmap_insert. simpl. f_equal.
  symmetry. apply list_insert_id. now rewrite list_lookup_fmap, Hm.
Qed.

Lemma SolveDependencies_roots_rev1 (fuel : nat) (roots : list nat) :
  forall ts w,
    Rev1.SolveDependencies_roots cb (m_Suites env) (m_SuiteMap env) (m_Filter env)
      fuel roots (marks_rev1 ts) w
    = roots_rev1 (SolveDependencies_roots cb env fuel roots ts w).
Proof.
  induction roots as [|r roots IH]; intros ts w; simpl; [reflexivity|].
  rewrite list_lookup_fmap.
  destruct (ts_mark ts !! r) as [[[|] second]|]; simpl; [apply IH| |reflexivity].
  unfold bind, AllowSuite.
  destruct (AllowSuite_loop (m_Filter env) r w) as [allowed w1 l1|k w1 l1]; [|reflexivity].
  rewrite roots_rev1_prepend. f_equal.
  destruct allowed; [|apply IH].
  rewrite TopoVisit_rev1.
  destruct (TopoVisit cb env fuel r ts w1) as [[code ts1] w2 l2|k w2 l2]; simpl;
    [|reflexivity].
  case_bool_decide; [|reflexivity].
  now rewrite IH, roots_rev1_prepend.
Qed.

End Resolvers.

(** The resolvers of the two revisions agree.  On the same vectors, the
    visit of revision one returns [true] exactly when the visit of revision
    two returns 0, with the same order, the same marks, the same calls of
    [OnUnknownDependency] and the same faults; so do the loops over the
    roots; and [SolveDependencies] of revision one returns what the loop of
    revision two has found, before revision two reports a cycle. *)
Theorem resolvers_of_both_revisions_agree {W : Type} (cb : @ControlCallback W)
    (env : @Environment W) (fuel : nat) (w : W) :
  (forall c ts,
      Rev1.TopoVisit cb (m_Suites env) (m_SuiteMap env) fuel c (marks_rev1 ts) w
      = visit_rev1 (TopoVisit cb env fuel c ts w))
  /\ (forall roots ts,
        Rev1.SolveDependencies_roots cb (m_Suites env) (m_SuiteMap env) (m_Filter env)
          fuel roots (marks_rev1 ts) w
        = roots_rev1 (SolveDependencies_roots cb env fuel roots ts w))
  /\ (forall result,
        Rev1.SolveDependencies cb (m_Suites env) (m_SuiteMap env) (m_Filter env)
          fuel result w
        = match SolveDependencies_roots cb env fuel (seq 0 (length (m_Suites env)))
                  {| ts_result := result;
                     ts_mark := replicate (length (m_Suites env)) (false, false);
                     ts_unsolvable := [] |} w with
          | Done (true, ts) w' l => Done (true, ts_result ts) w' l
          | Done (false, _) w' l => Done (false, []) w' l
          | Fault k w' l => Fault k w' l
          end)
  /\ (forall order w' l,
        SolveDependencies cb env fuel [] w = Done (true, order) w' l <->
        Rev1.SolveDependencies cb (m_Suites env) (m_SuiteMap env) (m_Filter env)
          fuel [] w = Done (true, order) w' l).
Proof.
  assert (forall result,
        Rev1.SolveDependencies cb (m_Suites env) (m_SuiteMap env) (m_Filter env)
          fuel result w
        = match SolveDependencies_roots cb env fuel (seq 0 (length (m_Suites env)))
                  {| ts_result := result;
                     ts_mark := replicate (length (m_Suites env)) (false, false);
                     ts_unsolvable := [] |} w with
          | Done (true, ts) w' l => Done (true, ts_result ts) w' l
          | Done (false, _) w' l => Done (false, []) w' l
          | Fault k w' l => Fault k w' l
          end) as Hsolve.
  { intros result. unfold Rev1.SolveDependencies, bind.
    set (ts0 := {| ts_result := result;
                   ts_mark := replicate (length (m_Suites env)) (false, false);
                   ts_unsolvable := [] |}).
    replace {| Rev1.ts_result := result;
               Rev1.ts_mark := replicate (length (m_Suites env)) false;
               Rev1.ts_tempMark := replicate (length (m_Suites env)) false |}
      with (marks_rev1 ts0) by (unfold marks_rev1; simpl; now rewrite !fmap_replicate).
    rewrite SolveDependencies_roots_rev1.
    destruct (SolveDependencies_roots cb env fuel (seq 0 (length (m_Suites env))) ts0 w)
      as [[[|] ts] w1 l1|k w1 l1]; simpl; now rewrite ?app_nil_r. }
  split; [intros c ts; apply TopoVisit_rev1|].
  split; [intros roots ts; apply SolveDependencies_roots_rev1|].
  split; [exact Hsolve|].
  intros order w' l. rewrite Hsolve. unfold SolveDependencies, bind.
  destruct (SolveDependencies_roots cb env fuel (seq 0 (length (m_Suites env))) _ w)
    as [[[|] ts] w1 l1|k w1 l1]; simpl; rewrite ?app_nil_r; [tauto| |tauto].
  destruct (ts_unsolvable ts); simpl.
  - split; intros H; inversion H.
  - unfold bind, call. destruct (OnUnsolvableDependencies cb (n :: l0) w1). simpl.
    split; intros H; inversion H.
Qed.

(** ** Revision one: what stops a run *)

Section Rev1Stops.
Context {W : Type}.
Variable cb : @ControlCallback W.
Variable suites : list (@Suite W).

Lemma Suite_Run_begins_nothing (ops : ResultOps) (fuel : nat) (self : nat) (s : Suite)
    (result : SuiteResult) (w : W) :
  suites_begun (log_of (Suite_Run ops cb fuel self s result w)) = [].
Proof.
  pose proof (Suite_Run_log cb ops fuel self s result w) as Hlog.
  assert (forall P l, ends_in P l -> (forall e, P e = true -> begins_suite e = false) ->
            suites_begun l = []) as Hends.
  { intros P l (pre & e & -> & Hpre & He) HP.
    rewrite suites_begun_app, (suites_begun_calm pre Hpre). simpl.
    specialize (HP e He). destruct e; simpl in *; try discriminate; reflexivity. }
  destruct (Suite_Run ops cb fuel self s result w) as [[p r] w' l|k w' l]; simpl in *.
  - destruct p.
    + destruct Hlog as [Hc|He]; [now apply suites_begun_calm|].
      eapply Hends; [exact He|]. intros e H. now apply aborts_suite_not_run in H.
    + eapply Hends; [exact Hlog|]. apply aborts_run_not_begin.
  - now apply suites_begun_calm.
Qed.

Lemma rev1_CheckDependencies_log (s : nat) (deps : list string) (result : list SuiteResult) :
  forall w v w' l,
    Rev1.CheckDependencies_loop cb suites s deps result w = Done v w' l ->
    suites_begun l = []
    /\ (v = Some false ->
        exists pre running failed a,
          l = pre ++ [CallOnDependencyFail running failed a]
          /\ a <> Ignore /\ a <> AbortCurrent).
Proof.
  induction deps as [|d rest IH]; intros w v w' l Hrun; simpl in Hrun.
  - inversion Hrun; subst. split; [reflexivity|discriminate].
  - destruct (Rev1.GetResult suites result d) as [suiteRes|]; [|now apply (IH w v w' l)].
    case_bool_decide; [|now apply (IH w v w' l)].
    unfold bind, call in Hrun.
    destruct (OnDependencyFail cb s (m_Suite suiteRes) suiteRes w) as [a w1].
    simpl in Hrun. case_bool_decide as Hign.
    + destruct (Rev1.CheckDependencies_loop cb suites s rest result w1)
        as [v2 w2 l2|k w2 l2] eqn:Hrec; simpl in Hrun; [|discriminate].
      inversion Hrun; subst. destruct (IH _ _ _ _ Hrec) as [Hb Hstop].
      split; [exact Hb|]. intros Hv.
      destruct (Hstop Hv) as (pre & running & failed & a' & -> & Ha).
      eexists (_ :: pre), running, failed, a'.
      split; [reflexivity|exact Ha].
    + case_bool_decide as Hcur; simpl in Hrun; inversion Hrun; subst.
      * split; [reflexivity|discriminate].
      * split; [reflexivity|]. intros _.
        exists [], s, (m_Suite suiteRes), a. auto.
Qed.

Lemma rev1_RunSuites_iter_log (fuel : nat) (it : nat) (result : list SuiteResult) :
  forall w p rs w' l,
    Rev1.RunSuites_iter cb suites fuel it result w = Done (p, rs) w' l ->
    suites_begun l = [it]
    /\ length rs = S (length result)
    /\ (p = false ->
        exists pre running failed a r,
          l = pre ++ [CallOnDependencyFail running failed a; CallOnSuiteEnd r]
          /\ a <> Ignore /\ a <> AbortCurrent).
Proof.
  intros w p rs w' l Hrun. unfold Rev1.RunSuites_iter in Hrun.
  destruct (suites !! it) as [s|]; [|discriminate].
  unfold bind at 1, call_ at 1 in Hrun. cbn [prepend] in Hrun. unfold bind at 1 in Hrun.
  destruct (Rev1.CheckDependencies_loop cb suites it (m_Dependencies s) result
              (OnSuiteBegin cb it w)) as [check w1 l1|k w1 l1] eqn:Hcheck; [|discriminate].
  destruct (rev1_CheckDependencies_log _ _ _ _ _ _ _ Hcheck) as [Hb1 Hstop].
  cbn [prepend] in Hrun. destruct check as [pc|].
  - unfold bind, call_, ret in Hrun. simpl in Hrun. inversion Hrun; subst. simpl.
    rewrite suites_begun_app, Hb1. simpl.
    split; [reflexivity|]. split; [rewrite length_app; simpl; lia|].
    intros ->. destruct (Hstop eq_refl) as (pre & running & failed & a & -> & Ha).
    exists (CallOnSuiteBegin it :: pre), running, failed, a,
      (Rev1.SuiteResult_SetTotalResult Unknown (SuiteResult_new it)).
    split; [|exact Ha]. simpl. now rewrite <- app_assoc.
  - unfold bind at 1 in Hrun. unfold bind at 1 in Hrun.
    pose proof (Suite_Run_begins_nothing Rev1.rev1 fuel it s (SuiteResult_new it) w1) as Hb2.
    destruct (Suite_Run Rev1.rev1 cb fuel it s (SuiteResult_new it) w1)
      as [[succe r] w2 l2|k w2 l2] eqn:Hsuite; [|discriminate].
    unfold bind, call_, ret in Hrun. simpl in Hrun. inversion Hrun; subst. simpl in *.
    rewrite !suites_begun_app, Hb1, Hb2. simpl.
    split; [reflexivity|]. split; [rewrite length_app; simpl; lia|discriminate].
Qed.

Lemma rev1_RunSuites_log (fuel : nat) (todo : list nat) :
  forall result w p rs w' l,
    Rev1.RunSuites cb suites fuel todo result w = Done (p, rs) w' l ->
    (p = true -> suites_begun l = todo
                 /\ length rs = (length result + length todo)%nat)
    /\ (p = false ->
        exists pre running failed a r,
          l = pre ++ [CallOnDependencyFail running failed a; CallOnSuiteEnd r]
          /\ a <> Ignore /\ a <> AbortCurrent).
Proof.
  induction todo as [|it rest IH]; intros result w p rs w' l Hrun; simpl in Hrun.
  - inversion Hrun; subst. split; [intros _; simpl; split; [reflexivity|lia]|discriminate].
  - unfold bind in Hrun.
    destruct (Rev1.RunSuites_iter cb suites fuel it result w)
      as [[q rs1] w1 l1|k w1 l1] eqn:Hiter; [|discriminate].
    destruct (rev1_RunSuites_iter_log _ _ _ _ _ _ _ _ Hiter) as (Hb1 & Hlen1 & Hstop1).
    destruct q.
    + destruct (Rev1.RunSuites cb suites fuel rest rs1 w1) as [[q2 rs2] w2 l2|k w2 l2] eqn:Hrec;
        simpl in Hrun; [|discriminate].
      inversion Hrun; subst. destruct (IH _ _ _ _ _ _ Hrec) as [Htrue Hfalse].
      split.
      * intros Hp. destruct (Htrue Hp) as [Hb2 Hlen2].
        rewrite suites_begun_app, Hb1, Hb2. simpl. split; [reflexivity|lia].
      * intros Hp. destruct (Hfalse Hp) as (pre & running & failed & a & r & -> & Ha).
        exists (l1 ++ pre), running, failed, a, r. split; [now rewrite app_assoc|exact Ha].
    + simpl in Hrun. inversion Hrun; subst. rewrite app_nil_r.
      split; [discriminate|]. intros _. now apply Hstop1.
Qed.

End Rev1Stops.

(** What stops a run of revision one.  [RunSuites] of revision one returns
    [false] only right after [OnDependencyFail] answered with a decision
    other than [Ignore] and [AbortCurrent] and the suite's end was
    reported; whatever [OnException] answers, in a fixture or in a test
    body, the run goes on: when [RunSuites] returns [true], every suite of
    the list began, in order, and each has a result. *)
Theorem rev1_only_a_failed_dependency_stops_the_run {W : Type} (cb : @ControlCallback W)
    (suites : list Suite) (fuel : nat) (todo : list nat) (result : list SuiteResult)
    (w w' : W) (p : bool) (rs : list SuiteResult) (l : list Event) :
  Rev1.RunSuites cb suites fuel todo result w = Done (p, rs) w' l ->
  (p = true ->
   suites_begun l = todo /\ length rs = (length result + length todo)%nat)
  /\ (p = false ->
      exists pre running failed a r,
        l = pre ++ [CallOnDependencyFail running failed a; CallOnSuiteEnd r]
        /\ a <> Ignore /\ a <> AbortCurrent).
Proof. apply rev1_RunSuites_log. Qed.

Lemma rev1_stops_witness :
  let cb := demo_callback Abort Abort Abort 0 in
  let suites := [broken_init_suite "S0"; plain_suite "S1" [] [passing_test]] in
  exists rs w' l,
    Rev1.RunSuites cb suites 1 [0; 1]%nat [] 0%nat = Done (true, rs) w' l
    /\ CallOnException InFixture (mkInfo "suite.init" "" 3) Abort ∈ l
    /\ suites_begun l = [0; 1]%nat.
Proof.
  intros cb suites.
  assert (exists rs w' l,
            Rev1.RunSuites cb suites 1 [0; 1]%nat [] 0%nat = Done (true, rs) w' l
            /\ l !! 2%nat = Some (CallOnException InFixture (mkInfo "suite.init" "" 3) Abort))
    as (rs & w' & l & Hrun & Hl)
    by (vm_compute; eexists _, _, _; split; reflexivity).
  destruct (rev1_only_a_failed_dependency_stops_the_run cb suites 1 [0; 1]%nat [] 0%nat w'
              true rs l Hrun) as [Htrue _].
  destruct (Htrue eq_refl) as [Hbegun _].
  exists rs, w', l. split; [exact Hrun|]. split; [|exact Hbegun].
  eapply list_elem_of_lookup_2; eauto.
Defined.

(** ** The tests of a suite begin once, in order *)

Lemma tests_begun_app (l1 l2 : list Event) :
  tests_begun (l1 ++ l2) = tests_begun l1 ++ tests_begun l2.
Proof.
  induction l1 as [|e l1 IH]; [reflexivity|].
  destruct e; simpl; now rewrite IH.
Qed.

Lemma inside_attempt_begins_nothing (l : list Event) :
  Forall (fun e => inside_attempt e = true) l -> tests_begun l = [].
Proof.
  induction 1 as [|e l He _ IH]; [reflexivity|].
  destruct e; simpl in *; try discriminate; exact IH.
Qed.

Lemma thrown_app_l (l1 l2 : list Event) : thrown l1 -> thrown (l1 ++ l2).
Proof.
  intros (site & ctx & a & H). exists site, ctx, a. apply elem_of_app. now left.
Qed.

Lemma thrown_app_r (l1 l2 : list Event) : thrown l2 -> thrown (l1 ++ l2).
Proof.
  intros (site & ctx & a & H). exists site, ctx, a. apply elem_of_app. now right.
Qed.

Section TestsInOrder.
Context {W : Type}.
Variable cb : @ControlCallback W.

Local Abbreviation inside l := (Forall (fun e => inside_attempt e = true) l).

Lemma ExecFunction_inside (func : SuiteFunction) (w : W) :
  match ExecFunction cb func w with
  | Done v _ l => inside l /\ (v <> None -> thrown l)
  | Fault _ _ l => inside l
  end.
Proof.
  unfold ExecFunction, bind, call, ret.
  destruct (sf_Func func) as [f|]; [destruct (f w) as [[|] w1]|]; simpl;
    try (split; [repeat constructor|congruence]).
  destruct (OnException cb (sf_Info func) w1) as [a w2]. simpl.
  assert (thrown [RunFixture (sf_Info func); CallOnException InFixture (sf_Info func) a])
    as Hth.
  { exists InFixture, (sf_Info func), a. apply elem_of_cons. right.
    apply elem_of_cons. now left. }
  destruct (bool_decide (a = Ignore) || bool_decide (a = Procceed)); simpl;
    [split; [repeat constructor|congruence]|].
  destruct (bool_decide (a = AbortCurrent)); simpl; (split; [repeat constructor|auto]).
Qed.

Lemma Body_run_inside (ops : ResultOps) (b : Body) :
  forall r, inside (log_of (Body_run ops cb b r)).
Proof.
  induction b as [w|w|inf result msg w k IH]; intros r; simpl; try constructor.
  unfold TestContext_AddResult, bind, call, ret.
  destruct (OnAssert cb _ w) as [a w1]. simpl.
  rewrite log_of_prepend. apply Forall_app. split; [repeat constructor|apply IH].
Qed.

Lemma Body_run_m_Test (b : Body) :
  forall r v r' w' l,
    Body_run rev2 cb b r = Done (v, r') w' l -> m_Test r' = m_Test r.
Proof.
  induction b as [w|w|inf result msg w k IH]; intros r v r' w' l Hrun; simpl in Hrun.
  - now inversion Hrun.
  - now inversion Hrun.
  - unfold TestContext_AddResult, bind, call, ret in Hrun.
    destruct (OnAssert cb _ w) as [a w1]. simpl in Hrun.
    destruct (Body_run rev2 cb (k w1) (TestResult_AddResult a r))
      as [[v2 r2] w2 l2|k2 w2 l2] eqn:Hrec; simpl in Hrun; [|discriminate].
    inversion Hrun; subst. now apply IH in Hrec.
Qed.

Lemma Test_Run_inside (self : TestPtr) (t : Test) (r : TestResult) (w : W) :
  match Test_Run rev2 cb self t r w with
  | Done (p, r') _ l => inside l /\ m_Test r' = m_Test r /\ (p = false -> thrown l)
  | Fault _ _ l => inside l
  end.
Proof.
  unfold Test_Run, bind.
  pose proof (Body_run_inside rev2 (m_Func t w) r) as Hin.
  pose proof (Body_run_m_Test (m_Func t w) r) as Hm.
  destruct (Body_run rev2 cb (m_Func t w) r) as [[threw r1] w1 l1|k w1 l1]; simpl in *.
  2:{ now constructor. }
  specialize (Hm _ _ _ _ eq_refl).
  destruct threw; simpl.
  2:{ rewrite app_nil_r. split; [now constructor|]. split; [exact Hm|discriminate]. }
  unfold call, ret. destruct (OnException cb (test_Info t) w1) as [a w2]. simpl.
  assert (inside (RunBody self :: l1 ++ [CallOnException InTestBody (test_Info t) a]))
    as Hall.
  { constructor; [reflexivity|]. apply Forall_app. split; [exact Hin|repeat constructor]. }
  assert (thrown (RunBody self :: l1 ++ [CallOnException InTestBody (test_Info t) a]))
    as Hth.
  { exists InTestBody, (test_Info t), a. apply elem_of_cons. right.
    apply elem_of_app. right. apply list_elem_of_singleton. reflexivity. }
  repeat case_bool_decide; simpl; rewrite ?app_nil_r; (split; [exact Hall|]);
    (split; [assumption|auto]).
Qed.

Lemma Suite_Run_attempt_inside (s : Suite) (self : TestPtr) (t : Test) (w : W) :
  match Suite_Run_attempt rev2 cb s self t w with
  | Done a _ l =>
      inside l
      /\ match a with
         | inl _ => thrown l
         | inr r => m_Test r = self
         end
  | Fault _ _ l => inside l
  end.
Proof.
  unfold Suite_Run_attempt, bind.
  pose proof (ExecFunction_inside (m_Enter s) w) as He.
  destruct (ExecFunction cb (m_Enter s) w) as [[p|] w1 l1|k w1 l1]; simpl; [| |exact He].
  { destruct He as [Hin Hth]. rewrite app_nil_r. split; [exact Hin|]. now apply Hth. }
  destruct He as [Hin1 _].
  pose proof (Test_Run_inside self t (TestResult_new self) w1) as Ht.
  destruct (Test_Run rev2 cb self t (TestResult_new self) w1) as [[p r] w2 l2|k w2 l2];
    simpl.
  2:{ now apply Forall_app. }
  destruct Ht as (Hin2 & Hm & Hth2).
  destruct p; simpl.
  2:{ rewrite app_nil_r. split; [now apply Forall_app|]. apply thrown_app_r. now apply Hth2. }
  pose proof (ExecFunction_inside (m_Leave s) w2) as Hl.
  destruct (ExecFunction cb (m_Leave s) w2) as [[p|] w3 l3|k w3 l3]; simpl.
  - destruct Hl as [Hin3 Hth3]. rewrite app_nil_r.
    split; [repeat (apply Forall_app; split); assumption|].
    apply thrown_app_r, thrown_app_r. now apply Hth3.
  - destruct Hl as [Hin3 _]. rewrite app_nil_r.
    split; [repeat (apply Forall_app; split); assumption|exact Hm].
  - repeat (apply Forall_app; split); assumption.
Qed.

Lemma Suite_Run_attempts_begun (fuel : nat) (s : Suite) (self : TestPtr) (t : Test) :
  forall w a w' l,
    Suite_Run_attempts rev2 cb fuel s self t w = Done a w' l ->
    tests_begun l = []
    /\ match a with
       | inl _ => thrown l
       | inr r => m_Test r = self
       end.
Proof.
  induction fuel as [|fuel IH]; intros w a w' l Hrun; simpl in Hrun; [discriminate|].
  unfold bind in Hrun.
  pose proof (Suite_Run_attempt_inside s self t w) as Hatt.
  destruct (Suite_Run_attempt rev2 cb s self t w) as [[p|r] w1 l1|k w1 l1];
    [| |discriminate]; destruct Hatt as [Hin Ha];
    pose proof (inside_attempt_begins_nothing _ Hin) as Hb.
  - simpl in Hrun. inversion Hrun; subst. rewrite app_nil_r. auto.
  - simpl in Hrun. unfold call in Hrun.
    destruct (OnTestEnd cb r w1) as [again w2]. simpl in Hrun.
    destruct again.
    + destruct (Suite_Run_attempts rev2 cb fuel s self t w2) as [a2 w3 l3|k w3 l3] eqn:Hrec;
        simpl in Hrun; [|discriminate].
      inversion Hrun; subst. destruct (IH _ _ _ _ Hrec) as [Hb3 Ha3].
      rewrite tests_begun_app, Hb. simpl. split; [exact Hb3|].
      destruct a; [|exact Ha3].
      apply thrown_app_r. apply (thrown_app_r [_]). exact Ha3.
    + simpl in Hrun. inversion Hrun; subst.
      rewrite tests_begun_app, Hb. simpl. auto.
Qed.

Lemma Suite_Run_tests_begun (fuel : nat) (s : Suite) (self : nat) (tests : list Test) :
  forall j result w early result' w' l,
    Suite_Run_tests rev2 cb fuel s self j tests result w = Done (early, result') w' l ->
    exists k k',
      tests_begun l = tests_of self j k
      /\ m_Test <$> tests_ended l = tests_of self j k'
      /\ (k <= length tests)%nat
      /\ match early with
         | None => k = length tests /\ k' = k
         | Some _ => k = S k' /\ thrown l
         end.
Proof.
  induction tests as [|t rest IH]; intros j result w early result' w' l Hrun.
  - simpl in Hrun. inversion Hrun; subst. exists 0%nat, 0%nat. simpl. auto.
  - cbn [Suite_Run_tests] in Hrun. unfold bind at 1, call_ at 1 in Hrun.
    cbn [prepend] in Hrun. unfold bind at 1 in Hrun.
    destruct (Suite_Run_attempts rev2 cb fuel s (self, j) t (OnTestBegin cb (self, j) w))
      as [a w1 l1|k w1 l1] eqn:Hatt; [|discriminate].
    destruct (Suite_Run_attempts_begun _ _ _ _ _ _ _ _ Hatt) as [Hb Ha].
    destruct (Suite_Run_attempts_ended cb _ _ _ _ _ _ _ _ _ Hatt) as [Ht _].
    destruct a as [p|r]; cbn [prepend] in Hrun.
    + simpl in Hrun. inversion Hrun; subst. exists 1%nat, 0%nat. simpl.
      rewrite app_nil_r, Hb, Ht. simpl. split; [reflexivity|]. split; [reflexivity|].
      split; [lia|]. split; [reflexivity|]. now apply (thrown_app_r [_]).
    + destruct (Suite_Run_tests rev2 cb fuel s self (S j) rest
                  (op_SuiteResult_AddResult rev2 r result) w1)
        as [[early2 result2] w2 l2|k w2 l2] eqn:Hrec; simpl in Hrun; [|discriminate].
      inversion Hrun; subst.
      destruct (IH _ _ _ _ _ _ _ Hrec) as (k & k' & Hb2 & Ht2 & Hk & Hearly).
      exists (S k), (S k'). simpl.
      rewrite tests_begun_app, tests_ended_app, Hb, Ht, Hb2. simpl.
      change (list_fmap TestResult TestPtr m_Test (tests_ended l2))
        with (m_Test <$> tests_ended l2).
      rewrite Ht2, Ha. split; [reflexivity|]. split; [reflexivity|]. split; [lia|].
      destruct early.
      * destruct Hearly as [-> Hth]. split; [reflexivity|].
        apply (thrown_app_r [_]), thrown_app_r. exact Hth.
      * destruct Hearly as [-> ->]. auto.
Qed.

End TestsInOrder.

Lemma Suite_Run_begun {W : Type} (cb : @ControlCallback W) (fuel : nat)
    (self : nat) (s : Suite) (w w' : W) (p : bool) (result' : SuiteResult)
    (l : list Event) :
  Suite_Run rev2 cb fuel self s (SuiteResult_new self) w = Done (p, result') w' l ->
  exists k k',
    tests_begun l = tests_of self 0 k
    /\ m_Test <$> sr_Results result' = tests_of self 0 k'
    /\ (k <= length (m_Tests s))%nat
    /\ (k = k' \/ k = S k')
    /\ (~ thrown l -> k = length (m_Tests s) /\ k' = k).
Proof.
  intros Hrun.
  destruct (Suite_Run_ended cb fuel self s _ _ _ _ _ _ Hrun) as [Hres _].
  simpl in Hres. rewrite Hres. clear Hres.
  unfold Suite_Run, bind in Hrun.
  pose proof (ExecFunction_inside cb (m_Init s) w) as Hi.
  pose proof (ExecFunction_no_reports cb (m_Init s) w) as Hri.
  destruct (ExecFunction cb (m_Init s) w) as [i w1 l1|k w1 l1]; [|discriminate].
  destruct Hi as [Hin1 Hth1]. simpl in Hri.
  apply no_reports_ended in Hri as [Hti _].
  pose proof (inside_attempt_begins_nothing _ Hin1) as Hb1.
  destruct i as [pi|].
  { simpl in Hrun. inversion Hrun; subst. exists 0%nat, 0%nat.
    rewrite app_nil_r, Hb1, Hti. simpl. split; [reflexivity|]. split; [reflexivity|].
    split; [lia|]. split; [now left|]. intros Hno. exfalso. apply Hno. now apply Hth1. }
  destruct (Suite_Run_tests rev2 cb fuel s self 0 (m_Tests s) (SuiteResult_new self) w1)
    as [[early r2] w2 l2|k w2 l2] eqn:Htests; simpl in Hrun; [|discriminate].
  destruct (Suite_Run_tests_begun cb _ _ _ _ _ _ _ _ _ _ _ Htests)
    as (k & k' & Hb2 & Ht2 & Hk & Hearly).
  exists k, k'.
  destruct early as [pe|].
  { simpl in Hrun. inversion Hrun; subst. destruct Hearly as [-> Hth].
    rewrite app_nil_r, tests_begun_app, tests_ended_app, Hb1, Hti, Hb2. simpl.
    split; [reflexivity|]. split; [exact Ht2|]. split; [exact Hk|]. split; [now right|].
    intros Hno. exfalso. apply Hno. now apply thrown_app_r. }
  destruct Hearly as [-> ->].
  pose proof (ExecFunction_inside cb (m_Exit s) w2) as Hx.
  pose proof (ExecFunction_no_reports cb (m_Exit s) w2) as Hrx.
  destruct (ExecFunction cb (m_Exit s) w2) as [x w3 l3|kx w3 l3]; [|discriminate].
  destruct Hx as [Hin3 _]. simpl in Hrx. apply no_reports_ended in Hrx as [Htx _].
  pose proof (inside_attempt_begins_nothing _ Hin3) as Hb3.
  assert (l = l1 ++ l2 ++ l3) as ->.
  { destruct x; simpl in Hrun; inversion Hrun; subst; now rewrite !app_nil_r. }
  rewrite !tests_begun_app, !tests_ended_app, Hb1, Hti, Hb2, Hb3, Htx. simpl.
  rewrite !app_nil_r. split; [reflexivity|]. split; [exact Ht2|]. split; [lia|].
  split; [now left|]. auto.
Qed.

(** The tests of a suite begin once, in order.  Whenever [Suite::Run]
    returns, [OnTestBegin] was called once for each of the first [k] tests
    of the suite, in the order of their registration, however often a test
    was repeated; the test results added are those of the first [k'] tests,
    in that order, each with the pointer to its test; [k'] is [k], or one
    less when the last test that began was cut short; and when no exception
    was reported, every test of the suite began and has its result. *)
Theorem tests_begin_once_in_order {W : Type} (cb : @ControlCallback W) (fuel : nat)
    (self : nat) (s : Suite) (w w' : W) (p : bool) (result' : SuiteResult)
    (l : list Event) :
  Suite_Run rev2 cb fuel self s (SuiteResult_new self) w = Done (p, result') w' l ->
  exists k k',
    tests_begun l = tests_of self 0 k
    /\ m_Test <$> sr_Results result' = tests_of self 0 k'
    /\ (k <= length (m_Tests s))%nat
    /\ (k = k' \/ k = S k')
    /\ (~ thrown l -> k = length (m_Tests s) /\ k' = k).
Proof. apply Suite_Run_begun. Qed.

Lemma tests_begin_witness :
  let cb := demo_callback Procceed Abort Abort 2 in
  let s := plain_suite "S" [] [passing_test; throwing_test] in
  exists p r w' l,
    Suite_Run rev2 cb 4 0 s (SuiteResult_new 0) 0%nat = Done (p, r) w' l
    /\ count_RunBody l = 4%nat
    /\ tests_begun l = [(0, 0); (0, 1)]%nat
    /\ m_Test <$> sr_Results r = [(0, 0); (0, 1)]%nat.
Proof.
  intros cb s.
  assert (exists p r w' l,
            Suite_Run rev2 cb 4 0 s (SuiteResult_new 0) 0%nat = Done (p, r) w' l
            /\ count_RunBody l = 4%nat /\ length (tests_begun l) = 2%nat
            /\ length (sr_Results r) = 2%nat)
    as (p & r & w' & l & Hrun & Hcount & Hlb & Hlr)
    by (vm_compute; eexists _, _, _, _; repeat split; reflexivity).
  destruct (tests_begin_once_in_order cb 4 0 s 0%nat w' p r l Hrun)
    as (k & k' & Hb & Hr & _).
  assert (k = 2%nat) as -> by (rewrite Hb in Hlb; unfold tests_of in Hlb;
                               now rewrite length_fmap, length_seq in Hlb).
  assert (k' = 2%nat) as ->.
  { rewrite <- (length_fmap m_Test), Hr in Hlr. unfold tests_of in Hlr.
    now rewrite length_fmap, length_seq in Hlr. }
  exists p, r, w', l. auto.
Defined.

(** ** Static initialisation *)

Section StaticInit.
Context {W : Type}.

Lemma Item_apply_Info (it : @Item W) (s : Suite) :
  suite_Info (Item_apply it s) = suite_Info s.
Proof. destruct it; reflexivity. Qed.

Lemma alter_last (f : @Suite W -> @Suite W) (l : list Suite) (s : Suite) :
  alter f (length l) (l ++ [s]) = l ++ [f s].
Proof. rewrite alter_app_r_alt by lia. now rewrite Nat.sub_diag. Qed.

Lemma on_suite_RegisterSuite (it : @Item W) (s : Suite) (env : Environment) :
  on_suite (length (m_Suites env)) (Item_apply it) (RegisterSuite s env)
  = RegisterSuite (Item_apply it s) env.
Proof.
  unfold on_suite, RegisterSuite. simpl.
  now rewrite alter_last, Item_apply_Info.
Qed.

Lemma Block_init_RegisterSuite (b : @Block W) (env : Environment) :
  Block_init b env = RegisterSuite (Block_suite b) env.
Proof.
  unfold Block_init, Block_suite, Suite_construct.
  generalize (@Suite_new W (mkInfo (block_name b) (block_file b) (block_line b))).
  induction (block_items b) as [|it items IH]; intros s; simpl; [reflexivity|].
  now rewrite on_suite_RegisterSuite, IH.
Qed.

Lemma static_init_register_all (blocks : list (@Block W)) :
  forall env,
    foldl (fun e b => Block_init b e) env blocks
    = register_all (Block_suite <$> blocks) env.
Proof.
  induction blocks as [|b blocks IH]; intros env; simpl; [reflexivity|].
  now rewrite Block_init_RegisterSuite, IH.
Qed.

Lemma Block_suite_snoc (name file : string) (line : Z) (items : list (@Item W))
    (it : Item) :
  Block_suite (mkBlock name file line (items ++ [it]))
  = Item_apply it (Block_suite (mkBlock name file line items)).
Proof. unfold Block_suite. simpl. now rewrite foldl_app. Qed.

End StaticInit.

(** Static initialisation registers whole suites.  In the program, a
    suite registers itself with the environment when it is constructed,
    still empty, and its dependencies, tags, tests and fixtures are added
    afterwards through its address.  The environment this leaves is the one
    in which the finished suites were registered one after the other: the
    name map sends every name to the first suite constructed under it, and
    [m_Suites] holds the suites with everything their blocks declare. *)
Theorem static_init_registers_whole_suites {W : Type} (blocks : list (@Block W)) :
  static_init blocks = register_all (Block_suite <$> blocks) Environment_new
  /\ registered (static_init blocks)
  /\ m_Suites (static_init blocks) = Block_suite <$> blocks
  /\ m_Callback (static_init blocks) = None
  /\ m_Filter (static_init blocks) = [].
Proof.
  assert (static_init blocks = register_all (Block_suite <$> blocks) Environment_new) as Heq
    by apply static_init_register_all.
  split; [exact Heq|]. rewrite Heq.
  split; [intros name; rewrite register_all_map, register_all_suites; reflexivity|].
  split; [now rewrite register_all_suites|].
  assert (forall l (e : @Environment W),
            m_Callback (register_all l e) = m_Callback e
            /\ m_Filter (register_all l e) = m_Filter e) as Hkeep.
  { induction l as [|s l IH]; intros e; simpl; [auto|].
    destruct (IH (RegisterSuite s e)) as [-> ->]. auto. }
  apply (Hkeep (Block_suite <$> blocks) Environment_new).
Qed.

(** What a block declares is what its suite holds: the name of the block,
    the dependencies and the tests in the order of their declaration, and
    the tags, which [CheckTag] finds, and no other. *)
Theorem Block_suite_holds_what_is_declared {W : Type} (b : @Block W) :
  m_Name (suite_Info (Block_suite b)) = block_name b
  /\ m_Dependencies (Block_suite b) = declared_dependencies (block_items b)
  /\ (fun t => m_Name (test_Info t)) <$> m_Tests (Block_suite b)
     = declared_tests (block_items b)
  /\ (forall tag, Suite_CheckTag tag (Block_suite b) = true
                  <-> tag ∈ declared_tags (block_items b)).
Proof.
  destruct b as [name file line items]. simpl.
  induction items as [|it items IH] using rev_ind.
  - split; [reflexivity|]. split; [reflexivity|]. split; [reflexivity|].
    intros tag. unfold Suite_CheckTag. simpl. rewrite bool_decide_eq_true.
    split; [intros H; now apply elem_of_empty in H|intros H; now apply elem_of_nil in H].
  - destruct IH as (Hn & Hd & Ht & Htag).
    rewrite Block_suite_snoc.
    unfold declared_dependencies, declared_tests, declared_tags in *.
    rewrite !omap_app. simpl.
    split; [now rewrite Item_apply_Info|].
    assert (forall tag, Suite_CheckTag tag (Item_apply it (Block_suite (mkBlock name file line items)))
                        = true
                        <-> tag ∈ omap (fun it0 => match it0 with
                                                   | UNIT_SUITE_TAG t => Some t
                                                   | _ => None
                                                   end) items
                            ++ omap (fun it0 => match it0 with
                                                | UNIT_SUITE_TAG t => Some t
                                                | _ => None
                                                end) [it]) as Htag'.
    { intros tag. rewrite elem_of_app, <- Htag. unfold Suite_CheckTag.
      rewrite !bool_decide_eq_true.
      destruct it; simpl; rewrite ?elem_of_union, ?elem_of_singleton, ?list_elem_of_singleton;
        try (split; [tauto|intros [H|H]; [exact H|now apply elem_of_nil in H]]).
      tauto. }
    destruct it; simpl in *; rewrite ?app_nil_r, ?fmap_app; simpl;
      rewrite ?Hd, ?Ht; auto.
Qed.

(** ** Filters *)

(** The filters are asked in the order in which they were added, and a
    filter is asked only if every filter added before it admitted the
    suite: with no filter every suite is admitted, and after [AddFilter]
    the chain answers what it answered before and, if that was [true],
    what the new filter answers. *)
Theorem filters_are_asked_in_order {W : Type} (env : @Environment W) (f : Filter)
    (s : nat) (w : W) :
  AllowSuite Environment_new s w = Done true w []
  /\ AllowSuite (AddFilter f env) s w
     = match AllowSuite env s w with
       | Done true w1 l1 =>
           let '(ok, w2) := IsOK f s w1 in Done ok w2 l1
       | Done false w1 l1 => Done false w1 l1
       | Fault k w1 l1 => Fault k w1 l1
       end.
Proof.
  split; [reflexivity|].
  unfold AllowSuite, AddFilter. simpl.
  generalize (m_Filter env) as filters. intros filters. revert w.
  induction filters as [|g filters IH]; intros w; simpl.
  - unfold bind, quiet, ret. destruct (IsOK f s w) as [[|] w1]; reflexivity.
  - unfold bind, quiet. destruct (IsOK g s w) as [[|] w1]; simpl.
    + rewrite !prepend_nil. apply IH.
    + reflexivity.
Qed.

(** ** Results found by name *)

Lemma ends_in_begins_nothing (P : Event -> bool) (l : list Event) :
  ends_in P l -> (forall e, P e = true -> begins_suite e = false) -> suites_begun l = [].
Proof.
  intros (pre & e & -> & Hpre & He) HP.
  rewrite suites_begun_app, (suites_begun_calm pre Hpre). simpl.
  specialize (HP e He). destruct e; simpl in *; try discriminate; reflexivity.
Qed.

Lemma no_suite_code_begins_nothing (l : list Event) :
  Forall (fun e => runs_suite_code e = false) l -> suites_begun l = [].
Proof.
  induction 1 as [|e l He _ IH]; [reflexivity|].
  destruct e; simpl in *; try discriminate; exact IH.
Qed.

Lemma RunSuites_loop_begun {W : Type} (cb : @ControlCallback W) (suites : list Suite)
    (fuel : nat) (todo : list nat) :
  forall st w p st' w' l,
    RunSuites_loop cb suites fuel todo st w = Done (p, st') w' l ->
    suites_done st' = suites_done st ++ suites_begun l.
Proof.
  induction todo as [|it rest IH]; intros st w p st' w' l Hrun; simpl in Hrun.
  - inversion Hrun; subst. simpl. now rewrite app_nil_r.
  - unfold bind in Hrun.
    pose proof (RunSuites_iter_log cb suites fuel it st w) as Hlog.
    destruct (RunSuites_iter cb suites fuel it st w) as [[q st1] w1 l1|k w1 l1] eqn:Hiter;
      [|discriminate].
    destruct (RunSuites_iter_records cb suites fuel it st st1 w w1 q l1 Hiter)
      as (r & Hres & Hr).
    destruct Hlog as (l0 & r0 & -> & Hl0).
    assert (suites_begun l0 = []) as Hb0.
    { destruct q.
      - destruct Hl0 as [Hc|He]; [now apply suites_begun_calm|].
        eapply ends_in_begins_nothing; [exact He|].
        intros e H. now apply aborts_suite_not_run in H.
      - eapply ends_in_begins_nothing; [exact Hl0|]. apply aborts_run_not_begin. }
    assert (suites_done st1 = suites_done st ++ [it]) as Hdone1.
    { unfold suites_done. rewrite Hres, fmap_app. simpl. now rewrite Hr. }
    destruct q.
    + destruct (RunSuites_loop cb suites fuel rest st1 w1) as [[q2 st2] w2 l2|k w2 l2] eqn:Hrec;
        simpl in Hrun; [|discriminate].
      inversion Hrun; subst. rewrite (IH _ _ _ _ _ _ Hrec), Hdone1.
      simpl. rewrite !suites_begun_app, Hb0. simpl.
      now rewrite <- app_assoc.
    + simpl in Hrun. inversion Hrun; subst. rewrite Hdone1, app_nil_r. simpl.
      rewrite suites_begun_app, Hb0. reflexivity.
Qed.

Lemma EnvironmentResult_GetResult_first {W : Type} (suites : list (@Suite W))
    (rs : list SuiteResult) (name : string) :
  match EnvironmentResult_GetResult suites rs name with
  | Some res =>
      exists i, rs !! i = Some res
                /\ suite_name suites (m_Suite res) = name
                /\ forall j res', (j < i)%nat -> rs !! j = Some res' ->
                                  suite_name suites (m_Suite res') <> name
  | None => forall res, res ∈ rs -> suite_name suites (m_Suite res) <> name
  end.
Proof.
  induction rs as [|r rs IH]; simpl.
  - intros res H. now apply elem_of_nil in H.
  - case_bool_decide as Hn.
    + exists 0%nat. split; [reflexivity|]. split; [exact Hn|]. intros j res' Hj. lia.
    + destruct (EnvironmentResult_GetResult suites rs name) as [res|].
      * destruct IH as (i & Hi & Hname & Hfirst). exists (S i).
        split; [exact Hi|]. split; [exact Hname|].
        intros [|j] res' Hj Hl; simpl in Hl.
        -- injection Hl as <-. exact Hn.
        -- apply (Hfirst j res'); [lia|exact Hl].
      * intros res Hres. apply elem_of_cons in Hres as [->|Hres]; [exact Hn|now apply IH].
Qed.

(** Results are found by name.  Whenever [Run] returns, the environment
    result holds one suite result for each suite that began, in the order
    in which they began.  [GetResult(name)] on it returns the first of the
    results whose suite has that name, which is the result of a suite that
    began; if no suite of that name began it returns the static
    [NULL_Result], whose total reads [Success]. *)
Theorem results_are_found_by_name {W : Type} (cout : string -> W -> W) (fuel : nat)
    (env env' : @Environment W) (w w' : W) (r : EnvironmentResult) (l : list Event) :
  Run cout fuel env w = Done (r, env') w' l ->
  m_Suite <$> er_Results r = suites_begun l
  /\ (forall name,
        match EnvironmentResult_GetResult (m_Suites env) (er_Results r) name with
        | Some res =>
            m_Suite res ∈ suites_begun l
            /\ suite_name (m_Suites env) (m_Suite res) = name
            /\ exists i, er_Results r !! i = Some res
                 /\ forall j res', (j < i)%nat -> er_Results r !! j = Some res' ->
                                   suite_name (m_Suites env) (m_Suite res') <> name
        | None =>
            forall it, it ∈ suites_begun l -> suite_name (m_Suites env) it <> name
        end)
  /\ found_total None = Success.
Proof.
  intros Hrun.
  assert (m_Suite <$> er_Results r = suites_begun l) as Hbegun.
  { unfold Run in Hrun.
    set (control := match m_Callback env with
                    | Some c => c
                    | None => ConsoleCallback cout (m_Suites env)
                    end) in *.
    unfold bind at 1 in Hrun.
    pose proof (SolveDependencies_log control env fuel w) as Hlog.
    destruct (SolveDependencies control env fuel [] w) as [[solved order] w1 l1|k w1 l1];
      [|discriminate].
    simpl in Hlog. apply no_suite_code_begins_nothing in Hlog.
    destruct solved.
    2:{ simpl in Hrun. inversion Hrun; subst. now rewrite app_nil_r, Hlog. }
    unfold bind, call_, RunSuites in Hrun. cbn [prepend] in Hrun.
    destruct (RunSuites_loop control (m_Suites env) fuel order _ (OnBegin control w1))
      as [[p st] w2 l2|k w2 l2] eqn:Hloop; simpl in Hrun; [|discriminate].
    inversion Hrun; subst.
    pose proof (RunSuites_loop_begun _ _ _ _ _ _ _ _ _ _ Hloop) as Hdone.
    unfold suites_done in Hdone. simpl in Hdone.
    rewrite suites_begun_app, Hlog. simpl. rewrite suites_begun_app. simpl.
    now rewrite app_nil_r. }
  split; [exact Hbegun|]. split; [|reflexivity].
  intros name.
  pose proof (EnvironmentResult_GetResult_first (m_Suites env) (er_Results r) name) as Hfirst.
  destruct (EnvironmentResult_GetResult (m_Suites env) (er_Results r) name) as [res|].
  - destruct Hfirst as (i & Hi & Hname & Hbefore).
    split; [|split; [exact Hname|eauto]].
    rewrite <- Hbegun. apply list_elem_of_fmap. exists res. split; [reflexivity|].
    eapply list_elem_of_lookup_2; eauto.
  - intros it Hit. rewrite <- Hbegun in Hit.
    apply list_elem_of_fmap in Hit as (res & -> & Hres). now apply Hfirst.
Qed.

Lemma results_by_name_witness :
  let env := demo_env (demo_callback Abort Abort Abort 0) two_suites in
  exists r w' l,
    Run silent 3 env 0%nat = Done (r, env) w' l
    /\ m_Suite <$> er_Results r = [1; 0]%nat
    /\ (m_Suite <$> EnvironmentResult_GetResult (m_Suites env) (er_Results r) "A")
       = Some 0%nat
    /\ EnvironmentResult_GetResult (m_Suites env) (er_Results r) "C" = None.
Proof.
  intros env.
  assert (exists r w' l, Run silent 3 env 0%nat = Done (r, env) w' l
            /\ suites_begun l = [1; 0]%nat
            /\ (m_Suite <$> EnvironmentResult_GetResult (m_Suites env) (er_Results r) "A")
               = Some 0%nat
            /\ EnvironmentResult_GetResult (m_Suites env) (er_Results r) "C" = None)
    as (r & w' & l & Hrun & Hb & HA & HC)
    by (vm_compute; eexists _, _, _; repeat split; reflexivity).
  destruct (results_are_found_by_name silent 3 env env 0%nat w' r l Hrun) as (Hres & _).
  exists r, w', l. rewrite Hres. auto.
Defined.

(** ** Test results are found by name *)

Lemma tests_of_S (self j n : nat) :
  tests_of self j (S n) = (self, j) :: tests_of self (S j) n.
Proof. reflexivity. Qed.

Lemma SuiteResult_GetResult_first {W : Type} (suites : list (@Suite W)) (self : nat)
    (s : Suite) (name : string) :
  suites !! self = Some s ->
  forall (rs : list TestResult) (j n : nat),
    m_Test <$> rs = tests_of self j n ->
    (j + n <= length (m_Tests s))%nat ->
    match SuiteResult_GetResult suites rs name with
    | Some res =>
        exists i t,
          res ∈ rs /\ m_Test res = (self, i) /\ (j <= i < j + n)%nat
          /\ m_Tests s !! i = Some t /\ m_Name (test_Info t) = name
          /\ forall i' t', (j <= i' < i)%nat -> m_Tests s !! i' = Some t' ->
                           m_Name (test_Info t') <> name
    | None =>
        forall i t, (j <= i < j + n)%nat -> m_Tests s !! i = Some t ->
                    m_Name (test_Info t) <> name
    end.
Proof.
  intros Hs. induction rs as [|r rs IH]; intros j n Hrs Hlen.
  - destruct n as [|n]; [|discriminate]. simpl. intros i t Hi. lia.
  - destruct n as [|n]; [discriminate|].
    rewrite tests_of_S in Hrs. simpl in Hrs. injection Hrs as Hr Hrest.
    destruct (lookup_lt_is_Some_2 (m_Tests s) j) as [y Hy]; [lia|].
    assert (test_name suites (m_Test r) = m_Name (test_Info y)) as Hname.
    { unfold test_name. rewrite Hr. simpl. now rewrite Hs, Hy. }
    simpl. rewrite Hname. case_bool_decide as Hn.
    + exists j, y. split; [apply elem_of_cons; now left|]. split; [exact Hr|].
      split; [lia|]. split; [exact Hy|]. split; [exact Hn|]. intros i' t' Hi'. lia.
    + specialize (IH (S j) n Hrest ltac:(lia)).
      destruct (SuiteResult_GetResult suites rs name) as [res|].
      * destruct IH as (i & t & Hin & Hres & Hi & Ht & Htn & Hfirst).
        exists i, t. split; [apply elem_of_cons; now right|]. split; [exact Hres|].
        split; [lia|]. split; [exact Ht|]. split; [exact Htn|].
        intros i' t' Hi' Ht'. destruct (decide (i' = j)) as [->|Hne].
        -- rewrite Hy in Ht'. injection Ht' as <-. exact Hn.
        -- apply (Hfirst i' t'); [lia|exact Ht'].
      * intros i t Hi Ht. destruct (decide (i = j)) as [->|Hne].
        -- rewrite Hy in Ht. injection Ht as <-. exact Hn.
        -- apply (IH i t); [lia|exact Ht].
Qed.

(** Test results are found by name.  Whenever [Suite::Run] returns for a
    registered suite, [SuiteResult::GetResult(name)] on the suite's result
    returns the result of the first test of the suite that has this name,
    a test that began; of two tests with the same name the second is never
    found.  It returns the static [NULL_Result] only if no test with a
    result has this name; and when no exception was reported, the name of
    every test of the suite finds a result. *)
Theorem test_results_are_found_by_name {W : Type} (cb : @ControlCallback W) (fuel : nat)
    (suites : list Suite) (self : nat) (s : Suite) (w w' : W) (p : bool)
    (result' : SuiteResult) (l : list Event) :
  suites !! self = Some s ->
  Suite_Run rev2 cb fuel self s (SuiteResult_new self) w = Done (p, result') w' l ->
  (forall name,
      match SuiteResult_GetResult suites (sr_Results result') name with
      | Some res =>
          exists i t,
            res ∈ sr_Results result' /\ m_Test res = (self, i)
            /\ (self, i) ∈ tests_begun l
            /\ m_Tests s !! i = Some t /\ m_Name (test_Info t) = name
            /\ forall i' t', (i' < i)%nat -> m_Tests s !! i' = Some t' ->
                             m_Name (test_Info t') <> name
      | None =>
          forall i t, (self, i) ∈ (m_Test <$> sr_Results result') ->
                      m_Tests s !! i = Some t -> m_Name (test_Info t) <> name
      end)
  /\ (~ thrown l ->
      forall t, t ∈ m_Tests s ->
                SuiteResult_GetResult suites (sr_Results result') (m_Name (test_Info t))
                <> None).
Proof.
  intros Hs Hrun.
  destruct (Suite_Run_begun cb fuel self s w w' p result' l Hrun)
    as (k & k' & Hb & Hr & Hk & Hkk & Hcalm).
  assert (0 + k' <= length (m_Tests s))%nat as Hlen by lia.
  assert (forall i, (self, i) ∈ tests_of self 0 k' <-> (i < k')%nat) as Hmem.
  { intros i. unfold tests_of. rewrite list_elem_of_fmap. split.
    - intros (x & Hx & Hin). injection Hx as ->. apply elem_of_seq in Hin. lia.
    - intros Hi. exists i. split; [reflexivity|]. apply elem_of_seq. lia. }
  split.
  - intros name.
    pose proof (SuiteResult_GetResult_first suites self s name Hs _ 0%nat k' Hr Hlen) as H.
    destruct (SuiteResult_GetResult suites (sr_Results result') name) as [res|].
    + destruct H as (i & t & Hin & Hres & Hi & Ht & Htn & Hfirst).
      exists i, t. split; [exact Hin|]. split; [exact Hres|]. split.
      { rewrite Hb. unfold tests_of. apply list_elem_of_fmap. exists i.
        split; [reflexivity|]. apply elem_of_seq. lia. }
      split; [exact Ht|]. split; [exact Htn|].
      intros i' t' Hi'. apply Hfirst. lia.
    + intros i t Hi Ht. rewrite Hr in Hi. apply Hmem in Hi. apply (H i t); [lia|exact Ht].
  - intros Hno t Ht.
    destruct (Hcalm Hno) as [-> ->].
    apply list_elem_of_lookup in Ht as [i Hi].
    pose proof (SuiteResult_GetResult_first suites self s (m_Name (test_Info t)) Hs _
                  0%nat _ Hr Hlen) as H.
    destruct (SuiteResult_GetResult suites (sr_Results result') (m_Name (test_Info t)));
      [discriminate|].
    intros _. apply (H i t); [|exact Hi|reflexivity].
    apply lookup_lt_Some in Hi. lia.
Qed.

Lemma test_results_by_name_witness :
  let cb := demo_callback Procceed Abort Abort 0 in
  let s := plain_suite "S" [] [passing_test; throwing_test; passing_test] in
  exists p r w' l,
    Suite_Run rev2 cb 2 0 s (SuiteResult_new 0) 0%nat = Done (p, r) w' l
    /\ (m_Test <$> SuiteResult_GetResult [s] (sr_Results r) "passes") = Some (0, 0)%nat
    /\ SuiteResult_GetResult [s] (sr_Results r) "absent" = None
    /\ forall i t, (0%nat, i) ∈ (m_Test <$> sr_Results r) ->
                   m_Tests s !! i = Some t -> m_Name (test_Info t) <> "absent".
Proof.
  intros cb s.
  assert (exists p r w' l,
            Suite_Run rev2 cb 2 0 s (SuiteResult_new 0) 0%nat = Done (p, r) w' l
            /\ (m_Test <$> SuiteResult_GetResult [s] (sr_Results r) "passes")
               = Some (0, 0)%nat
            /\ SuiteResult_GetResult [s] (sr_Results r) "absent" = None)
    as (p & r & w' & l & Hrun & Hp & Ha)
    by (vm_compute; eexists _, _, _, _; repeat split; reflexivity).
  destruct (test_results_are_found_by_name cb 2 [s] 0 s 0%nat w' p r l eq_refl Hrun)
    as [Hfind _].
  specialize (Hfind "absent"). rewrite Ha in Hfind.
  exists p, r, w', l. auto.
Defined.

(** ** EnumClassFlags.h: the flag operators *)

Section FlagFacts.
Import EnumClassFlags.
Variable bits : Z.
Hypothesis Hbits : 0 <= bits.

Lemma to_integral_range (a : Z) : 0 <= to_integral bits a < 2 ^ bits.
Proof. unfold to_integral. apply Z.mod_pos_bound. now apply Z.pow_pos_nonneg. Qed.

Lemma to_integral_small (a : Z) : 0 <= a < 2 ^ bits -> to_integral bits a = a.
Proof. intros H. unfold to_integral. now apply Z.mod_small. Qed.

Lemma to_integral_testbit (a i : Z) :
  Z.testbit (to_integral bits a) i = (Z.ltb i bits) && Z.testbit a i.
Proof. unfold to_integral. now apply Z.testbit_mod_pow2. Qed.

Lemma small_testbit (a i : Z) :
  0 <= a < 2 ^ bits -> Z.testbit a i = (Z.ltb i bits) && Z.testbit a i.
Proof. intros H. rewrite <- (to_integral_small a H) at 1. apply to_integral_testbit. Qed.

Lemma flag_bits (a b i : Z) :
  0 <= i ->
  Z.testbit (op_not bits a) i = (Z.ltb i bits) && negb (Z.testbit a i)
  /\ Z.testbit (op_or bits a b) i = (Z.ltb i bits) && (Z.testbit a i || Z.testbit b i)
  /\ Z.testbit (op_and bits a b) i = (Z.ltb i bits) && (Z.testbit a i && Z.testbit b i)
  /\ Z.testbit (op_xor bits a b) i = (Z.ltb i bits) && xorb (Z.testbit a i) (Z.testbit b i).
Proof.
  intros Hi. unfold op_not, op_or, op_and, op_xor.
  rewrite !to_integral_testbit, Z.lnot_spec, Z.lor_spec, Z.land_spec, Z.lxor_spec by exact Hi.
  rewrite !to_integral_testbit.
  destruct (Z.ltb i bits), (Z.testbit a i), (Z.testbit b i); auto.
Qed.

Lemma flag_eq (x y : Z) :
  (forall i, 0 <= i -> Z.testbit x i = Z.testbit y i) -> x = y.
Proof. apply Z.bits_inj'. Qed.

Lemma flag_round_trip_lemma (a b : Z) :
  0 <= a < 2 ^ bits -> 0 <= b < 2 ^ bits ->
  TestFlag bits (SetFlag bits a b) b = negb (Z.eqb b 0)
  /\ TestFlag bits (ClearFlag bits a b) b = false
  /\ FlipFlag bits (FlipFlag bits a b) b = a
  /\ ClearFlag bits (SetFlag bits a b) b = ClearFlag bits a b
  /\ SetFlag bits (ClearFlag bits a b) b = SetFlag bits a b
  /\ (TestFlag bits a b = true <->
      exists i, 0 <= i < bits /\ Z.testbit a i = true /\ Z.testbit b i = true).
Proof.
  intros Ha Hb.
  unfold TestFlag, SetFlag, ClearFlag, FlipFlag, op_or_assign, op_and_assign, op_xor_assign.
  fold (op_or bits a b). fold (op_and bits a (op_not bits b)). fold (op_xor bits a b).
  fold (op_or bits (op_and bits a (op_not bits b)) b).
  fold (op_and bits (op_or bits a b) (op_not bits b)).
  fold (op_xor bits (op_xor bits a b) b).
  assert (forall x y, to_integral bits (op_and bits x y) = op_and bits x y) as Hid.
  { intros x y. apply to_integral_small. unfold op_and. apply to_integral_range. }
  rewrite !Hid.
  assert (op_and bits (op_or bits a b) b = b) as E1.
  { apply flag_eq. intros i Hi.
    destruct (flag_bits (op_or bits a b) b i Hi) as (_ & _ & -> & _).
    destruct (flag_bits a b i Hi) as (_ & -> & _).
    rewrite (small_testbit b i Hb).
    destruct (Z.ltb i bits), (Z.testbit a i), (Z.testbit b i); reflexivity. }
  assert (op_and bits (op_and bits a (op_not bits b)) b = 0) as E2.
  { apply flag_eq. intros i Hi. rewrite Z.bits_0.
    destruct (flag_bits (op_and bits a (op_not bits b)) b i Hi) as (_ & _ & -> & _).
    destruct (flag_bits a (op_not bits b) i Hi) as (_ & _ & -> & _).
    destruct (flag_bits b b i Hi) as (-> & _).
    destruct (Z.ltb i bits), (Z.testbit a i), (Z.testbit b i); reflexivity. }
  rewrite E1, E2.
  split; [reflexivity|]. split; [reflexivity|].
  split; [|split; [|split]].
  - apply flag_eq. intros i Hi.
    destruct (flag_bits (op_xor bits a b) b i Hi) as (_ & _ & _ & ->).
    destruct (flag_bits a b i Hi) as (_ & _ & _ & ->).
    rewrite (small_testbit a i Ha).
    destruct (Z.ltb i bits), (Z.testbit a i), (Z.testbit b i); reflexivity.
  - apply flag_eq. intros i Hi.
    destruct (flag_bits (op_or bits a b) (op_not bits b) i Hi) as (_ & _ & -> & _).
    destruct (flag_bits a (op_not bits b) i Hi) as (_ & _ & -> & _).
    destruct (flag_bits a b i Hi) as (_ & -> & _).
    destruct (flag_bits b b i Hi) as (-> & _).
    destruct (Z.ltb i bits), (Z.testbit a i), (Z.testbit b i); reflexivity.
  - apply flag_eq. intros i Hi.
    destruct (flag_bits (op_and bits a (op_not bits b)) b i Hi) as (_ & -> & _).
    destruct (flag_bits a (op_not bits b) i Hi) as (_ & _ & -> & _).
    destruct (flag_bits a b i Hi) as (_ & -> & _).
    destruct (flag_bits b b i Hi) as (-> & _).
    destruct (Z.ltb i bits), (Z.testbit a i), (Z.testbit b i); reflexivity.
  - rewrite negb_true_iff, Z.eqb_neq. split.
    + intros Hne.
      pose proof (to_integral_range (Z.land (to_integral bits a) (to_integral bits b)))
        as Hr. fold (op_and bits a b) in Hr.
      assert (0 < op_and bits a b) as Hpos by lia.
      pose proof (Z.bit_log2 _ Hpos) as Hbit.
      pose proof (Z.log2_nonneg (op_and bits a b)) as Hlog.
      destruct (flag_bits a b (Z.log2 (op_and bits a b)) Hlog) as (_ & _ & Hand & _).
      rewrite Hbit in Hand. symmetry in Hand.
      apply andb_true_iff in Hand as [Hlt Hab]. apply andb_true_iff in Hab as [Hai Hbi].
      exists (Z.log2 (op_and bits a b)). apply Z.ltb_lt in Hlt. auto.
    + intros (i & [Hi Hlt] & Hai & Hbi) Hzero.
      destruct (flag_bits a b i Hi) as (_ & _ & Hand & _).
      rewrite Hzero, Z.bits_0, Hai, Hbi in Hand.
      apply Z.ltb_lt in Hlt. rewrite Hlt in Hand. discriminate.
Qed.

End FlagFacts.

(** The flag operators work bit by bit, within the width of the integral
    type: every result is a value of that type, and its bit [i] is the
    complement, the disjunction, the conjunction or the exclusive
    disjunction of the bits [i] of the operands, for [i] below the
    width. *)
Theorem flag_operators_are_bitwise (bits a b i : Z) :
  0 <= bits -> 0 <= i ->
  (0 <= EnumClassFlags.op_not bits a < 2 ^ bits
   /\ 0 <= EnumClassFlags.op_or bits a b < 2 ^ bits
   /\ 0 <= EnumClassFlags.op_and bits a b < 2 ^ bits
   /\ 0 <= EnumClassFlags.op_xor bits a b < 2 ^ bits)
  /\ Z.testbit (EnumClassFlags.op_not bits a) i = (Z.ltb i bits) && negb (Z.testbit a i)
  /\ Z.testbit (EnumClassFlags.op_or bits a b) i
     = (Z.ltb i bits) && (Z.testbit a i || Z.testbit b i)
  /\ Z.testbit (EnumClassFlags.op_and bits a b) i
     = (Z.ltb i bits) && (Z.testbit a i && Z.testbit b i)
  /\ Z.testbit (EnumClassFlags.op_xor bits a b) i
     = (Z.ltb i bits) && xorb (Z.testbit a i) (Z.testbit b i).
Proof.
  intros Hbits Hi. split; [|now apply flag_bits].
  unfold EnumClassFlags.op_not, EnumClassFlags.op_or, EnumClassFlags.op_and,
    EnumClassFlags.op_xor.
  repeat split; now apply to_integral_range.
Qed.

Lemma flag_operators_witness :
  Z.testbit (EnumClassFlags.op_not 32 5) 1 = true
  /\ Z.testbit (EnumClassFlags.op_not 32 5) 32 = false
  /\ EnumClassFlags.op_not 32 5 < 2 ^ 32.
Proof.
  destruct (flag_operators_are_bitwise 32 5 0 1 ltac:(lia) ltac:(lia))
    as ((Hr & _) & Hn1 & _).
  destruct (flag_operators_are_bitwise 32 5 0 32 ltac:(lia) ltac:(lia))
    as (_ & Hn32 & _).
  split; [rewrite Hn1; reflexivity|]. split; [rewrite Hn32; reflexivity|]. apply Hr.
Defined.

(** The flag functions on values of the integral type.  After
    [SetFlag(a, b)], [TestFlag(a, b)] holds unless [b] has no bit; after
    [ClearFlag(a, b)] it does not hold; [FlipFlag] applied twice restores
    [a]; clearing after setting is clearing, setting after clearing is
    setting; and [TestFlag(a, b)] holds exactly when [a] and [b] share a
    bit, not only when [a] has every bit of [b]. *)
Theorem flag_round_trips (bits a b : Z) :
  0 <= bits -> 0 <= a < 2 ^ bits -> 0 <= b < 2 ^ bits ->
  EnumClassFlags.TestFlag bits (EnumClassFlags.SetFlag bits a b) b = negb (Z.eqb b 0)
  /\ EnumClassFlags.TestFlag bits (EnumClassFlags.ClearFlag bits a b) b = false
  /\ EnumClassFlags.FlipFlag bits (EnumClassFlags.FlipFlag bits a b) b = a
  /\ EnumClassFlags.ClearFlag bits (EnumClassFlags.SetFlag bits a b) b
     = EnumClassFlags.ClearFlag bits a b
  /\ EnumClassFlags.SetFlag bits (EnumClassFlags.ClearFlag bits a b) b
     = EnumClassFlags.SetFlag bits a b
  /\ (EnumClassFlags.TestFlag bits a b = true <->
      exists i, 0 <= i < bits /\ Z.testbit a i = true /\ Z.testbit b i = true).
Proof. intros Hbits. now apply flag_round_trip_lemma. Qed.

Lemma flag_round_trips_witness :
  EnumClassFlags.TestFlag 32 (EnumClassFlags.SetFlag 32 9 6) 6 = true
  /\ EnumClassFlags.TestFlag 32 (EnumClassFlags.ClearFlag 32 15 6) 6 = false
  /\ EnumClassFlags.TestFlag 32 5 6 = true.
Proof.
  destruct (flag_round_trips 32 9 6) as (Hset & _); [lia|lia|lia|].
  destruct (flag_round_trips 32 15 6) as (_ & Hclear & _); [lia|lia|lia|].
  destruct (flag_round_trips 32 5 6) as (_ & _ & _ & _ & _ & Htest); [lia|lia|lia|].
  split; [exact Hset|]. split; [exact Hclear|].
  apply Htest. exists 2. repeat split; lia.
Defined.

(** [integral_by_size] by cases on the size. *)
Lemma integral_by_size_cases (sizeof_size_t size : nat) :
  match EnumClassFlags.integral_by_size sizeof_size_t size with
  | Some bytes =>
      (bytes = size /\ size ∈ EnumClassFlags.specialised)
      \/ (bytes = sizeof_size_t /\ (bytes < size)%nat /\ size ∉ EnumClassFlags.specialised)
  | None => (size <= sizeof_size_t)%nat /\ size ∉ EnumClassFlags.specialised
  end.
Proof.
  unfold EnumClassFlags.integral_by_size.
  assert (forall x, x ∈ EnumClassFlags.specialised <-> x = 1%nat \/ x = 2%nat \/ x = 4%nat) as Hin.
  { intros x. unfold EnumClassFlags.specialised. rewrite !elem_of_cons. split; [intros [?|[?|[?|H]]]; auto; now apply elem_of_nil in H|tauto]. }
  repeat case_bool_decide; subst; rewrite !Hin; try (left; split; [reflexivity|tauto]).
  - right. split; [reflexivity|]. split; [assumption|tauto].
  - split; [lia|tauto].
Qed.

(** Flags survive the casts for the sizes 1, 2 and 4 only.  Let the header
    compile for an enumeration of [size] bytes, [integral_by_size] yielding
    a type of [bytes] bytes.  For the sizes 1, 2 and 4 every flag [a] of
    the enumeration can be set and tested: [SetFlag(0, a)] leaves [a], and
    [TestFlag(a, a)] holds.  For any other size the enumeration has a flag,
    the bit number [8 * bytes], that the casts drop: [SetFlag(0, a)]
    leaves 0 and [TestFlag(a, a)] does not hold. *)
Theorem flags_survive_for_sizes_1_2_4_only (sizeof_size_t size bytes : nat) :
  EnumClassFlags.integral_by_size sizeof_size_t size = Some bytes ->
  (size ∈ EnumClassFlags.specialised ->
   forall a, 0 < a < 2 ^ (8 * Z.of_nat size) ->
     EnumClassFlags.SetFlag (8 * Z.of_nat bytes) 0 a = a
     /\ EnumClassFlags.TestFlag (8 * Z.of_nat bytes) a a = true)
  /\ (size ∉ EnumClassFlags.specialised ->
      exists a, 0 < a < 2 ^ (8 * Z.of_nat size)
        /\ EnumClassFlags.SetFlag (8 * Z.of_nat bytes) 0 a = 0
        /\ EnumClassFlags.TestFlag (8 * Z.of_nat bytes) a a = false).
Proof.
  intros Hsz. pose proof (integral_by_size_cases sizeof_size_t size) as Hc.
  rewrite Hsz in Hc.
  unfold EnumClassFlags.SetFlag, EnumClassFlags.TestFlag, EnumClassFlags.op_or_assign,
    EnumClassFlags.op_and, EnumClassFlags.to_integral.
  assert (0 < 2 ^ (8 * Z.of_nat bytes)) as Hpos by (apply Z.pow_pos_nonneg; lia).
  destruct Hc as [[-> Hin]|(-> & Hlt & Hnot)].
  - split; [|intros H; contradiction]. intros _ a Ha.
    rewrite Z.mod_0_l by lia. rewrite Z.lor_0_l, Z.land_diag.
    rewrite !(Z.mod_small a) by lia. split; [reflexivity|].
    apply negb_true_iff, Z.eqb_neq. lia.
  - split; [intros H; contradiction|]. intros _.
    exists (2 ^ (8 * Z.of_nat sizeof_size_t)). split.
    + split; [exact Hpos|]. apply Z.pow_lt_mono_r; lia.
    + rewrite Z.mod_0_l by lia. rewrite Z.mod_same by lia.
      rewrite Z.lor_0_l, Z.land_diag. rewrite !Z.mod_0_l by lia.
      split; reflexivity.
Qed.

Lemma flags_survive_witness :
  (EnumClassFlags.SetFlag 32 0 5 = 5 /\ EnumClassFlags.TestFlag 32 5 5 = true)
  /\ exists a, 0 < a < 2 ^ 64
       /\ EnumClassFlags.SetFlag 32 0 a = 0
       /\ EnumClassFlags.TestFlag 32 a a = false.
Proof.
  split.
  - destruct (flags_survive_for_sizes_1_2_4_only 8 4 4 eq_refl) as [H _].
    apply H; [|lia]. apply elem_of_cons. right. apply elem_of_cons. right.
    apply elem_of_cons. now left.
  - destruct (flags_survive_for_sizes_1_2_4_only 4 8 4 eq_refl) as [_ H].
    apply H. intros Hin.
    repeat (apply elem_of_cons in Hin as [Hin|Hin]; [discriminate|]).
    now apply elem_of_nil in Hin.
Defined.
